(** * The BNF front end of the TRLC language-reference-manual generator

    A shallow embedding of [trlc-lrm-generator.py]: the lexer
    ([BNF_Lexer]), the syntax tree ([BNF_Expansion]), the recursive-descent
    parser and its symbol table ([BNF_Parser]), the semantic checker,
    the renderer ([write_production], [write_expansion]) and the
    assembly of the document ([write_text_object], [fmt_text],
    [section_list]), followed by the properties established about
    them.

    Conventions of the embedding.
    - A Python [str] is a [list ascii]; a character is read as a code point
      below 256 and classified as Python's [str.isspace], [str.islower],
      [str.isupper] and [str.isalpha] classify it.
    - Integers are [Z]; [lexpos] starts at -2 as in the source.
    - A call either returns or raises: [result] carries the exception.
      [Message_Handler.error] raises [TRLC_Error]; a failed [assert], an
      attribute access on [None] and a missing key raise the corresponding
      Python exception.
    - The mutually recursive parsing methods take a recursion budget and
      answer [None] when it is exhausted; theorems about results quantify
      over the budget or exhibit a sufficient one. *)

From Stdlib Require Import List ZArith Ascii String Bool Lia Arith ListSet.
From Stdlib Require Import DecimalString.
Import ListNotations.

Open Scope Z_scope.

(* ================================================================== *)
(** ** Python strings and characters *)

Definition str := list ascii.

Definition py (s : string) : str := list_ascii_of_string s.

Definition str_eq_dec : forall a b : str, {a = b} + {a <> b} :=
  list_eq_dec ascii_dec.

Definition str_eqb (a b : str) : bool :=
  if str_eq_dec a b then true else false.

Definition ord (c : ascii) : Z := Z.of_N (N_of_ascii c).

Definition between (lo hi : Z) (c : ascii) : bool :=
  (lo <=? ord c) && (ord c <=? hi).

(** [str.isspace] on a one-character string: general category Zs or
    bidirectional class WS, B or S. *)
Definition isspace (c : ascii) : bool :=
  between 9 13 c || between 28 32 c || (ord c =? 133) || (ord c =? 160).

(** [str.isupper] on a one-character string. *)
Definition isupper (c : ascii) : bool :=
  between 65 90 c || between 192 214 c || between 216 222 c.

(** [str.islower] on a one-character string. *)
Definition islower (c : ascii) : bool :=
  between 97 122 c || (ord c =? 170) || (ord c =? 181) || (ord c =? 186)
  || between 223 246 c || between 248 255 c.

(** [str.isalpha] on a one-character string: every letter below 256 is
    cased. *)
Definition isalpha (c : ascii) : bool := isupper c || islower c.

Definition newline : ascii := "010"%char.
Definition quote : ascii := "'"%char.
Definition dquote : ascii := "034"%char.
Definition backtick : ascii := "`"%char.
Definition underscore : ascii := "_"%char.

(** [c == s] for an optional character [c] and a one-character string. *)
Definition is_char (c : option ascii) (x : ascii) : bool :=
  match c with
  | Some c => Ascii.eqb c x
  | None => false
  end.

Definition len (s : str) : Z := Z.of_nat (List.length s).

(** Python's slice [s[a:b]] with step 1: negative bounds count from the
    end, and both are clipped to the string. *)
Definition slice_bound (s : str) (i : Z) : Z :=
  if i <? 0 then Z.max 0 (i + len s) else Z.min i (len s).

Definition slice (s : str) (a b : Z) : str :=
  let a' := slice_bound s a in
  let b' := slice_bound s b in
  firstn (Z.to_nat (b' - a')) (skipn (Z.to_nat a') s).

(** [s[a:]] and [s[:b]]. *)
Definition slice_from (s : str) (a : Z) : str := slice s a (len s).
Definition slice_to (s : str) (b : Z) : str := slice s 0 b.

(** [s[i]] for [0 <= i]. *)
Definition char_at (s : str) (i : Z) : option ascii :=
  if i <? 0 then None else nth_error s (Z.to_nat i).

Fixpoint startswith (s prefix : str) : bool :=
  match prefix, s with
  | [], _ => true
  | p :: prefix', c :: s' => Ascii.eqb c p && startswith s' prefix'
  | _ :: _, [] => false
  end.

Definition endswith (s suffix : str) : bool :=
  startswith (rev s) (rev suffix).

(** [sep.join(parts)]. *)
Fixpoint join (sep : str) (parts : list str) : str :=
  match parts with
  | [] => []
  | [p] => p
  | p :: rest => p ++ sep ++ join sep rest
  end.

(* ================================================================== *)
(** ** Source locations, exceptions, results *)

(** [trlc.lexer.Source_Reference], as far as this program uses it: the
    reference to the hosting lexer is constant and left out. *)
Module Source_Reference.
Record t : Type := make
  { line_no : Z;
    col_no : Z;
    start_pos : Z;
    end_pos : Z }.
End Source_Reference.

Inductive exn : Type :=
| TRLC_Error (location : Source_Reference.t) (message : string)
| AssertionError
| AttributeError
| TypeError
| IndexError
| KeyError.

Inductive result (A : Type) : Type :=
| Ok (a : A)
| Raise (e : exn).

Arguments Ok {A} a.
Arguments Raise {A} e.

Definition bind {A B : Type} (m : result A) (k : A -> result B) : result B :=
  match m with
  | Ok a => k a
  | Raise e => Raise e
  end.

Declare Scope result_scope.
Delimit Scope result_scope with result.
Notation "x <- m ;; k" := (bind m (fun x => k))
  (at level 61, m at next level, right associativity) : result_scope.
Notation "' p <- m ;; k" := (bind m (fun p => k))
  (at level 61, p pattern, m at next level, right associativity) : result_scope.
Notation "m ;;; k" := (bind m (fun _ => k))
  (at level 61, right associativity) : result_scope.
Open Scope result_scope.

(** [assert b]. *)
Definition assert (b : bool) : result unit :=
  if b then Ok tt else Raise AssertionError.

(** Modelled from the spec: the diagnostic sink [Message_Handler] of
    [trlc.errors] is not part of this file.  An error raised through the
    sink is fatal (the caller aborts), a warning is recorded and
    execution continues. *)
Module Message_Handler.
Record t : Type := make
  { warnings : list (Source_Reference.t * string) }.

Definition init : t := make [].

Definition error {A : Type} (location : Source_Reference.t)
    (message : string) : result A :=
  Raise (TRLC_Error location message).

Definition warning (mh : t) (location : Source_Reference.t)
    (message : string) : t :=
  make (warnings mh ++ [(location, message)]).
End Message_Handler.

(* ================================================================== *)
(** ** Tokens *)

Inductive KIND : Type :=
| NONTERMINAL | TERMINAL | PRODUCTION | ALTERNATIVE | SYMBOL
| S_BRA | S_KET | C_BRA | C_KET | RULE_END.

Definition KIND_eq_dec : forall a b : KIND, {a = b} + {a <> b}.
Proof. decide equality. Defined.

Definition KIND_eqb (a b : KIND) : bool :=
  if KIND_eq_dec a b then true else false.

Definition KIND_name (k : KIND) : string :=
  match k with
  | NONTERMINAL => "NONTERMINAL"
  | TERMINAL => "TERMINAL"
  | PRODUCTION => "PRODUCTION"
  | ALTERNATIVE => "ALTERNATIVE"
  | SYMBOL => "SYMBOL"
  | S_BRA => "S_BRA"
  | S_KET => "S_KET"
  | C_BRA => "C_BRA"
  | C_KET => "C_KET"
  | RULE_END => "RULE_END"
  end.

(** The [value] of a token: a pair for identifiers, the quoted text for
    a symbol, [None] otherwise. *)
Inductive token_value : Type :=
| V_None
| V_Pair (base : str) (name : option str)
| V_Str (text : str).

Module BNF_Token.
Record t : Type := make
  { kind : KIND;
    value : token_value;
    location : Source_Reference.t;
    start : Z;
    end_ : Z }.

(** [BNF_Token.__init__]; the remaining assertions are type tests. *)
Definition init (kind : KIND) (value : token_value) (start end_ : Z)
    (location : Source_Reference.t) : result t :=
  assert (start <=? end_) ;;;
  Ok (make kind value location start end_).
End BNF_Token.

(** [value[0]] and [value[1]] on a token value. *)
Definition value_0 (v : token_value) : result str :=
  match v with
  | V_Pair base _ => Ok base
  | V_Str (c :: _) => Ok [c]
  | V_Str [] => Raise IndexError
  | V_None => Raise TypeError
  end.

Definition value_1 (v : token_value) : result (option str) :=
  match v with
  | V_Pair _ name => Ok name
  | V_Str (_ :: c :: _) => Ok (Some [c])
  | V_Str _ => Raise IndexError
  | V_None => Raise TypeError
  end.

(* ================================================================== *)
(** ** The lexer *)

Module BNF_Lexer.
Record t : Type := make
  { fragment : str;
    original_location : Source_Reference.t;
    fragment_length : Z;
    lexpos : Z;
    line_no : Z;
    col_no : Z;
    cc : option ascii;
    nc : option ascii;
    eof_token_generated : bool }.

Definition advance (self : t) : t :=
  let lexpos' := lexpos self + 1 in
  let new_line := is_char (cc self) newline || (lexpos' =? 0) in
  let line_no' := if new_line then line_no self + 1 else line_no self in
  let col_no' := if new_line then 0 else col_no self in
  let col_no'' :=
    match nc self with
    | Some _ => col_no' + 1
    | None => col_no'
    end in
  make (fragment self) (original_location self) (fragment_length self)
    lexpos' line_no' col_no''
    (nc self)
    (if lexpos' + 1 <? fragment_length self
     then char_at (fragment self) (lexpos' + 1)
     else None)
    (eof_token_generated self).

Definition init (fragment : str) (original_location : Source_Reference.t)
    : t :=
  advance (make fragment original_location (len fragment)
             (-2) 0 0 None None false).

Definition mk_location (self : t) (start_line start_col start_pos end_pos : Z)
    : Source_Reference.t :=
  let o := original_location self in
  Source_Reference.make
    (Source_Reference.line_no o + (start_line - 1))
    (if start_line =? 1 then Source_Reference.col_no o + 3 else start_col)
    (Source_Reference.start_pos o + 3 + start_pos)
    (Source_Reference.start_pos o + 3 + end_pos).

Definition lex_error {A : Type} (self : t) (message : string) : result A :=
  Message_Handler.error
    (mk_location self (line_no self) (col_no self) (lexpos self) (lexpos self))
    message.

(** An upper bound on the number of iterations of a loop of the form
    [while self.nc and ...: self.advance()]: after one call of
    [advance], [nc] is a character only while [lexpos + 1] is inside
    the fragment. *)
Definition loop_bound (self : t) : nat :=
  S (S (Z.to_nat (fragment_length self - lexpos self))).

(** [while self.nc and p(self.nc): self.advance()]. *)
Fixpoint advance_while (p : ascii -> bool) (n : nat) (self : t) : t :=
  match n with
  | O => self
  | S n' =>
      match nc self with
      | Some c => if p c then advance_while p n' (advance self) else self
      | None => self
      end
  end.

(** The whitespace loop of [token], which also counts the newlines. *)
Fixpoint skip_whitespace (n : nat) (self : t) (num_nl : Z) : t * Z :=
  match n with
  | O => (self, num_nl)
  | S n' =>
      match nc self with
      | Some c =>
          if isspace c then
            let self' := advance self in
            skip_whitespace n' self'
              (if is_char (cc self') newline then num_nl + 1 else num_nl)
          else (self, num_nl)
      | None => (self, num_nl)
      end
  end.

(** The two loops that split the text of an identifier.  [transition]
    is [str.islower] for a TERMINAL and [str.isupper] for a
    NONTERMINAL. *)
Fixpoint split_loop (transition : ascii -> bool) (raw_text : str)
    (t_kind : str) (t_name : option str) (in_kind : bool)
    : result (str * option str) :=
  match raw_text with
  | [] => Ok (t_kind, t_name)
  | c :: rest =>
      if in_kind && transition c then
        assert (endswith t_kind [underscore]) ;;;
        split_loop transition rest (slice_to t_kind (-1)) (Some [c]) false
      else if in_kind then
        split_loop transition rest (t_kind ++ [c]) t_name in_kind
      else
        match t_name with
        | Some n => split_loop transition rest t_kind (Some (n ++ [c])) in_kind
        | None => Raise TypeError
        end
  end.

Definition split_terminal (raw_text : str) : result token_value :=
  '(t_kind, t_name) <- split_loop islower raw_text [] None true ;;
  Ok (V_Pair t_kind t_name).

Definition split_nonterminal (raw_text : str) : result token_value :=
  '(t_prod, t_name) <- split_loop isupper raw_text [] None true ;;
  Ok (V_Pair t_prod t_name).

Definition is_ident_char (c : ascii) : bool :=
  isalpha c || Ascii.eqb c underscore.

Definition not_quote (c : ascii) : bool := negb (Ascii.eqb c quote).

(** The dispatch on the current character: the kind of the token and
    the lexer after its last character. *)
Definition scan (self : t) (c : ascii) : result (KIND * t) :=
  if Ascii.eqb c "["%char then Ok (S_BRA, self)
  else if Ascii.eqb c "]"%char then Ok (S_KET, self)
  else if Ascii.eqb c "{"%char then Ok (C_BRA, self)
  else if Ascii.eqb c "}"%char then Ok (C_KET, self)
  else if Ascii.eqb c "|"%char then Ok (ALTERNATIVE, self)
  else if Ascii.eqb c ":"%char then
    let self := advance self in
    (if negb (is_char (cc self) ":"%char)
     then lex_error self "malformed ::= operator"
     else Ok tt) ;;;
    let self := advance self in
    (if negb (is_char (cc self) "="%char)
     then lex_error self "malformed ::= operator"
     else Ok tt) ;;;
    Ok (PRODUCTION, self)
  else if islower c then
    Ok (NONTERMINAL, advance_while is_ident_char (loop_bound self) self)
  else if isupper c then
    Ok (TERMINAL, advance_while is_ident_char (loop_bound self) self)
  else if Ascii.eqb c quote then
    let self := advance_while not_quote (loop_bound self) self in
    (match nc self with
     | None => lex_error self "unclosed token literal"
     | Some _ => Ok tt
     end) ;;;
    Ok (SYMBOL, advance self)
  else
    lex_error self ("unexpected character " ++ String c EmptyString).

Definition set_eof_token_generated (self : t) : t :=
  make (fragment self) (original_location self) (fragment_length self)
    (lexpos self) (line_no self) (col_no self) (cc self) (nc self) true.

Definition token (self : t) : result (option BNF_Token.t * t) :=
  let start_pos := lexpos self in
  let start_line := line_no self in
  let start_col := col_no self in
  let '(self, num_nl) := skip_whitespace (loop_bound self) self 0 in
  let self := if num_nl <? 2 then advance self else self in
  match cc self with
  | None =>
      if negb (eof_token_generated self) then
        let self := set_eof_token_generated self in
        tok <- BNF_Token.init RULE_END V_None (lexpos self) (lexpos self)
                 (mk_location self start_line start_col
                    (lexpos self) (lexpos self)) ;;
        Ok (Some tok, self)
      else Ok (None, self)
  | Some c =>
      if 2 <=? num_nl then
        tok <- BNF_Token.init RULE_END V_None start_pos (lexpos self)
                 (mk_location self (line_no self) start_col
                    start_pos (lexpos self)) ;;
        Ok (Some tok, self)
      else
        let start_pos := lexpos self in
        let start_line := line_no self in
        let start_col := col_no self in
        '(kind, self) <- scan self c ;;
        let end_pos := lexpos self in
        let raw_text := slice (fragment self) start_pos (end_pos + 1) in
        value <- match kind with
                 | TERMINAL => split_terminal raw_text
                 | NONTERMINAL => split_nonterminal raw_text
                 | SYMBOL => Ok (V_Str (slice raw_text 1 (-1)))
                 | _ => Ok V_None
                 end ;;
        tok <- BNF_Token.init kind value start_pos end_pos
                 (mk_location self start_line start_col start_pos end_pos) ;;
        Ok (Some tok, self)
  end.
End BNF_Lexer.

(** The tokens of a fragment, for experiments and examples: call
    [token] until it answers [None] or raises, at most [n] times. *)
Inductive lexing : Type :=
| Finished (tokens : list BNF_Token.t) (lexer : BNF_Lexer.t)
| Failed (tokens : list BNF_Token.t) (e : exn)
| Unfinished (tokens : list BNF_Token.t).

Fixpoint drain (n : nat) (lexer : BNF_Lexer.t) (acc : list BNF_Token.t)
    : lexing :=
  match n with
  | O => Unfinished acc
  | S n' =>
      match BNF_Lexer.token lexer with
      | Ok (Some tok, lexer') => drain n' lexer' (acc ++ [tok])
      | Ok (None, lexer') => Finished acc lexer'
      | Raise e => Failed acc e
      end
  end.

Definition loc0 : Source_Reference.t := Source_Reference.make 1 0 0 0.

(* ================================================================== *)
(** ** The syntax tree *)

#[local] Set Warnings "-register-all".

(** The [kind] of a [BNF_Literal]: its constructor admits these three
    token kinds only. *)
Inductive literal_kind : Type :=
| Lit_TERMINAL
| Lit_NONTERMINAL
| Lit_SYMBOL.

(** The classes derived from [BNF_Expansion].  Every node records the
    [location] its constructor passes to [BNF_AST_Node.__init__]. *)
Inductive BNF_Expansion : Type :=
| BNF_Literal (location : Source_Reference.t) (kind : literal_kind)
    (value : str) (name : option str)
| BNF_Optional (location : Source_Reference.t) (expansion : BNF_Expansion)
| BNF_One_Or_More (location : Source_Reference.t) (expansion : BNF_Expansion)
| BNF_String (location : Source_Reference.t) (members : list BNF_Expansion)
| BNF_Alternatives (location : Source_Reference.t)
    (members : list BNF_Expansion).

Definition location (n : BNF_Expansion) : Source_Reference.t :=
  match n with
  | BNF_Literal l _ _ _ => l
  | BNF_Optional l _ => l
  | BNF_One_Or_More l _ => l
  | BNF_String l _ => l
  | BNF_Alternatives l _ => l
  end.

(** [BNF_Literal.__init__]: [assert kind in ("TERMINAL", "NONTERMINAL",
    "SYMBOL")]. *)
Definition BNF_Literal_init (location : Source_Reference.t) (kind : KIND)
    (value : str) (name : option str) : result BNF_Expansion :=
  match kind with
  | TERMINAL => Ok (BNF_Literal location Lit_TERMINAL value name)
  | NONTERMINAL => Ok (BNF_Literal location Lit_NONTERMINAL value name)
  | SYMBOL => Ok (BNF_Literal location Lit_SYMBOL value name)
  | _ => Raise AssertionError
  end.

(** [BNF_String.__init__] and [BNF_Alternatives.__init__]:
    [assert isinstance(members, list) and len(members) >= 2], then the
    location of the first member becomes the location of the node. *)
Definition BNF_String_init (members : list BNF_Expansion)
    : result BNF_Expansion :=
  assert (2 <=? Z.of_nat (List.length members)) ;;;
  match members with
  | m :: _ => Ok (BNF_String (location m) members)
  | [] => Raise IndexError
  end.

Definition BNF_Alternatives_init (members : list BNF_Expansion)
    : result BNF_Expansion :=
  assert (2 <=? Z.of_nat (List.length members)) ;;;
  match members with
  | m :: _ => Ok (BNF_Alternatives (location m) members)
  | [] => Raise IndexError
  end.

(* ================================================================== *)
(** ** Dictionaries and host objects *)

(** A Python [dict] with [str] keys: insertion-ordered, one entry per
    key. *)
Definition dict (V : Type) : Type := list (str * V).

Fixpoint dict_get {V : Type} (d : dict V) (k : str) : option V :=
  match d with
  | [] => None
  | (k', v) :: d' => if str_eqb k' k then Some v else dict_get d' k
  end.

Definition dict_mem {V : Type} (d : dict V) (k : str) : bool :=
  match dict_get d k with
  | Some _ => true
  | None => false
  end.

(** [d[k] = v]: an existing key keeps its place, a new one goes last. *)
Fixpoint dict_set {V : Type} (d : dict V) (k : str) (v : V) : dict V :=
  match d with
  | [] => [(k, v)]
  | (k', v') :: d' =>
      if str_eqb k' k then (k', v) :: d' else (k', v') :: dict_set d' k v
  end.

Definition dict_keys {V : Type} (d : dict V) : list str := map fst d.

(** What the parser reads of the [ast.Record_Object] of a Grammar:
    [obj.name], [obj.field["bnf"].location.text()] and
    [obj.field["bnf"].location]. *)
Module Record_Object.
Record t : Type := make
  { name : str;
    bnf_text : str;
    bnf_location : Source_Reference.t }.
End Record_Object.

(** What the parser reads of an [ast.String_Literal]. *)
Module String_Literal.
Record t : Type := make
  { value : str;
    location : Source_Reference.t }.
End String_Literal.

(** The groups of the matches that [re.finditer] finds in [text] for
    the pattern of [register_backtick_terminals] (a backtick, any run of
    characters other than a backtick, a backtick): the runs between the
    first and the second backtick, the third and the fourth, and so on;
    a last unpaired backtick matches nothing. *)
Fixpoint backtick_groups (text : str) (open_run : option str) : list str :=
  match text with
  | [] => []
  | c :: text' =>
      match open_run with
      | None =>
          if Ascii.eqb c backtick
          then backtick_groups text' (Some [])
          else backtick_groups text' None
      | Some run =>
          if Ascii.eqb c backtick
          then run :: backtick_groups text' None
          else backtick_groups text' (Some (run ++ [c]))
      end
  end.

Definition finditer_backtick (text : str) : list str :=
  backtick_groups text None.

(* ================================================================== *)
(** ** The parser and its symbol table *)

(** Results of the methods that recurse: [None] when the recursion
    budget is exhausted. *)
Definition fbind {A B : Type} (m : option (result A))
    (k : A -> option (result B)) : option (result B) :=
  match m with
  | None => None
  | Some (Ok a) => k a
  | Some (Raise e) => Some (Raise e)
  end.

Notation "x <~ m ;; k" := (fbind m (fun x => k))
  (at level 61, m at next level, right associativity) : result_scope.
Notation "' p <~ m ;; k" := (fbind m (fun p => k))
  (at level 61, p pattern, m at next level, right associativity)
  : result_scope.

Module BNF_Parser.
Record t : Type := make
  { mh : Message_Handler.t;
    current_lexer : option BNF_Lexer.t;
    ct : option BNF_Token.t;
    nt : option BNF_Token.t;
    terminals : set str;
    productions : dict BNF_Expansion;
    bundles : dict (list str) }.

Definition init (mh : Message_Handler.t) : t :=
  make mh None None None (empty_set str) [] [].

Definition set_lexer_state (self : t) (lexer : option BNF_Lexer.t)
    (ct nt : option BNF_Token.t) : t :=
  make (mh self) lexer ct nt
    (terminals self) (productions self) (bundles self).

Definition set_mh (self : t) (m : Message_Handler.t) : t :=
  make m (current_lexer self) (ct self) (nt self)
    (terminals self) (productions self) (bundles self).

Definition set_terminals (self : t) (ts : set str) : t :=
  make (mh self) (current_lexer self) (ct self) (nt self)
    ts (productions self) (bundles self).

Definition set_productions (self : t) (ps : dict BNF_Expansion) : t :=
  make (mh self) (current_lexer self) (ct self) (nt self)
    (terminals self) ps (bundles self).

Definition set_bundles (self : t) (bs : dict (list str)) : t :=
  make (mh self) (current_lexer self) (ct self) (nt self)
    (terminals self) (productions self) bs.

Definition advance (self : t) : result t :=
  match current_lexer self with
  | None => Raise AssertionError
  | Some lexer =>
      '(tok, lexer') <- BNF_Lexer.token lexer ;;
      Ok (set_lexer_state self (Some lexer') (nt self) tok)
  end.

Definition error {A : Type} (token : option BNF_Token.t) (message : string)
    : result A :=
  match token with
  | None => Raise AssertionError
  | Some tok => Message_Handler.error (BNF_Token.location tok) message
  end.

Definition peek (self : t) (kind : KIND) : bool :=
  match nt self with
  | Some tok => KIND_eqb (BNF_Token.kind tok) kind
  | None => false
  end.

Definition match_ (self : t) (kind : KIND) : result t :=
  match nt self with
  | None =>
      error (ct self)
        ("expected " ++ KIND_name kind ++ ", encountered EOS instead")
  | Some tok =>
      if negb (KIND_eqb (BNF_Token.kind tok) kind) then
        error (nt self)
          ("expected " ++ KIND_name kind ++ ", encountered "
           ++ KIND_name (BNF_Token.kind tok) ++ " instead")
      else advance self
  end.

(** [self.ct.kind] and [self.ct.value]. *)
Definition ct_kind (self : t) : result KIND :=
  match ct self with
  | Some tok => Ok (BNF_Token.kind tok)
  | None => Raise AttributeError
  end.

Definition ct_value (self : t) : result token_value :=
  match ct self with
  | Some tok => Ok (BNF_Token.value tok)
  | None => Raise AttributeError
  end.

(** The test of the loop of [parse_string]:
    [self.nt.kind in ("C_BRA", "S_BRA", "TERMINAL", "NONTERMINAL",
    "SYMBOL")]. *)
Definition starts_fragment (k : KIND) : bool :=
  match k with
  | C_BRA | S_BRA | TERMINAL | NONTERMINAL | SYMBOL => true
  | _ => false
  end.

(** The branches of [parse_fragment] for the three kinds of leaf. *)
Definition parse_leaf (self : t) (loc : Source_Reference.t) (kind : KIND)
    : result (BNF_Expansion * t) :=
  self <- match_ self kind ;;
  k <- ct_kind self ;;
  v <- ct_value self ;;
  match kind with
  | SYMBOL =>
      match v with
      | V_Str text =>
          n <- BNF_Literal_init loc k text None ;;
          Ok (n, self)
      | _ => Raise AssertionError
      end
  | _ =>
      v0 <- value_0 v ;;
      v1 <- value_1 v ;;
      n <- BNF_Literal_init loc k v0 v1 ;;
      Ok (n, self)
  end.

Fixpoint parse_expansion (fuel : nat) (self : t)
    : option (result (BNF_Expansion * t)) :=
  match fuel with
  | O => None
  | S fuel =>
      '(n, self) <~ parse_string fuel self ;;
      parse_expansion_loop fuel self [n]
  end

with parse_expansion_loop (fuel : nat) (self : t) (rv : list BNF_Expansion)
    : option (result (BNF_Expansion * t)) :=
  match fuel with
  | O => None
  | S fuel =>
      if peek self ALTERNATIVE then
        self <~ Some (match_ self ALTERNATIVE) ;;
        '(n, self) <~ parse_string fuel self ;;
        parse_expansion_loop fuel self (rv ++ [n])
      else
        match rv with
        | [n] => Some (Ok (n, self))
        | _ => Some (n <- BNF_Alternatives_init rv ;; Ok (n, self))
        end
  end

with parse_string (fuel : nat) (self : t)
    : option (result (BNF_Expansion * t)) :=
  match fuel with
  | O => None
  | S fuel =>
      '(n, self) <~ parse_fragment fuel self ;;
      parse_string_loop fuel self [n]
  end

with parse_string_loop (fuel : nat) (self : t) (rv : list BNF_Expansion)
    : option (result (BNF_Expansion * t)) :=
  match fuel with
  | O => None
  | S fuel =>
      match nt self with
      | None => Some (Raise AttributeError)
      | Some tok =>
          if starts_fragment (BNF_Token.kind tok) then
            '(n, self) <~ parse_fragment fuel self ;;
            parse_string_loop fuel self (rv ++ [n])
          else
            match rv with
            | [n] => Some (Ok (n, self))
            | _ => Some (n <- BNF_String_init rv ;; Ok (n, self))
            end
      end
  end

with parse_fragment (fuel : nat) (self : t)
    : option (result (BNF_Expansion * t)) :=
  match fuel with
  | O => None
  | S fuel =>
      match nt self with
      | None => Some (Raise AttributeError)
      | Some tok =>
          let loc := BNF_Token.location tok in
          if peek self C_BRA then
            self <~ Some (match_ self C_BRA) ;;
            '(rv, self) <~ parse_expansion fuel self ;;
            self <~ Some (match_ self C_KET) ;;
            Some (Ok (BNF_One_Or_More loc rv, self))
          else if peek self S_BRA then
            self <~ Some (match_ self S_BRA) ;;
            '(rv, self) <~ parse_expansion fuel self ;;
            self <~ Some (match_ self S_KET) ;;
            Some (Ok (BNF_Optional loc rv, self))
          else if peek self TERMINAL then
            Some (parse_leaf self loc TERMINAL)
          else if peek self NONTERMINAL then
            Some (parse_leaf self loc NONTERMINAL)
          else if peek self SYMBOL then
            Some (parse_leaf self loc SYMBOL)
          else
            Some (error (nt self) "expected bnf fragment")
      end
  end.

Definition parse_production (fuel : nat) (self : t)
    : option (result (str * t)) :=
  self <~ Some (match_ self NONTERMINAL) ;;
  v <~ Some (ct_value self) ;;
  prod_name <~ Some (value_0 v) ;;
  _ <~ Some (if dict_mem (productions self) prod_name
             then error (ct self) "duplicated definition"
             else Ok tt) ;;
  self <~ Some (match_ self PRODUCTION) ;;
  '(n, self) <~ parse_expansion fuel self ;;
  Some (Ok (prod_name,
            set_productions self (dict_set (productions self) prod_name n))).

(** [self.bundles[name].append(x)]. *)
Definition bundle_append (self : t) (name x : str) : result t :=
  match dict_get (bundles self) name with
  | None => Raise KeyError
  | Some b => Ok (set_bundles self (dict_set (bundles self) name (b ++ [x])))
  end.

(** The loop of [parse]: [while self.nt: ...]. *)
Fixpoint parse_loop (fuel : nat) (self : t) (name : str)
    : option (result t) :=
  match fuel with
  | O => None
  | S fuel =>
      match nt self with
      | None => Some (Ok self)
      | Some _ =>
          '(prod_name, self) <~ parse_production fuel self ;;
          self <~ Some (bundle_append self name prod_name) ;;
          self <~ Some (match_ self RULE_END) ;;
          parse_loop fuel self name
      end
  end.

Definition triple_quote : str := [quote; quote; quote].

Definition parse (fuel : nat) (self : t) (obj : Record_Object.t)
    : option (result t) :=
  _ <~ Some (assert (match current_lexer self with
                     | None => true
                     | Some _ => false
                     end)) ;;
  let orig_text := Record_Object.bnf_text obj in
  _ <~ Some (if negb (startswith orig_text triple_quote)
             then Message_Handler.error (Record_Object.bnf_location obj)
                    "BNF text must use ''' strings"
             else Ok tt) ;;
  let orig_text := slice orig_text 3 (-3) in
  let lexer := BNF_Lexer.init orig_text (Record_Object.bnf_location obj) in
  '(tok, lexer) <~ Some (BNF_Lexer.token lexer) ;;
  let self := set_lexer_state self (Some lexer) None tok in
  let self :=
    set_bundles self (dict_set (bundles self) (Record_Object.name obj) []) in
  self <~ parse_loop fuel self (Record_Object.name obj) ;;
  Some (Ok (set_lexer_state self None None None)).

(** *** Terminals *)

Definition register_terminal (self : t) (obj : String_Literal.t)
    : result t :=
  (if set_mem str_eq_dec (String_Literal.value obj) (terminals self)
   then Message_Handler.error (String_Literal.location obj)
          "duplicate definition of terminal"
   else Ok tt) ;;;
  Ok (set_terminals self
        (set_add str_eq_dec (String_Literal.value obj) (terminals self))).

(** The body of the loop of [register_backtick_terminals]. *)
Definition register_backtick_terminal (self : t) (obj : String_Literal.t)
    (terminal : str) : result t :=
  match terminal with
  | _ :: _ =>
      if set_mem str_eq_dec terminal (terminals self) then
        Message_Handler.error (String_Literal.location obj)
          ("duplicate definition of terminal '"
           ++ string_of_list_ascii terminal ++ "'")
      else
        Ok (set_terminals self
              (set_add str_eq_dec terminal (terminals self)))
  | [] =>
      Message_Handler.error (String_Literal.location obj)
        "empty terminal is not permitted"
  end.

Fixpoint register_backtick_loop (self : t) (obj : String_Literal.t)
    (groups : list str) : result t :=
  match groups with
  | [] => Ok self
  | terminal :: groups' =>
      self <- register_backtick_terminal self obj terminal ;;
      register_backtick_loop self obj groups'
  end.

Definition register_backtick_terminals (self : t) (obj : String_Literal.t)
    : result t :=
  register_backtick_loop self obj
    (finditer_backtick (String_Literal.value obj)).

(** *** The semantic checks *)

Definition sem_literal (self : t) (n_literal : BNF_Expansion) : result t :=
  match n_literal with
  | BNF_Literal loc Lit_SYMBOL value _ =>
      if negb (set_mem str_eq_dec value (terminals self))
      then Ok (set_mh self
                 (Message_Handler.warning (mh self) loc "unknown terminal"))
      else Ok self
  | BNF_Literal loc Lit_TERMINAL _ _ => Ok self
  | BNF_Literal loc Lit_NONTERMINAL value _ =>
      if negb (dict_mem (productions self) value)
      then Ok (set_mh self
                 (Message_Handler.warning (mh self) loc "unknown production"))
      else Ok self
  | _ => Raise AssertionError
  end.

Fixpoint sem_expansion (self : t) (n_exp : BNF_Expansion) : result t :=
  let members_loop :=
    fix members_loop (self : t) (members : list BNF_Expansion) : result t :=
      match members with
      | [] => Ok self
      | n_member :: members' =>
          self <- sem_expansion self n_member ;;
          members_loop self members'
      end in
  match n_exp with
  | BNF_One_Or_More _ expansion => sem_expansion self expansion
  | BNF_Optional _ expansion => sem_expansion self expansion
  | BNF_String _ members => members_loop self members
  | BNF_Alternatives _ members => members_loop self members
  | BNF_Literal _ _ _ _ => sem_literal self n_exp
  end.

Definition sem_production (self : t) (production : str) : result t :=
  match dict_get (productions self) production with
  | None => Raise KeyError
  | Some n_exp => sem_expansion self n_exp
  end.

Fixpoint sem_loop (self : t) (keys : list str) : result t :=
  match keys with
  | [] => Ok self
  | production :: keys' =>
      self <- sem_production self production ;;
      sem_loop self keys'
  end.

Definition sem (self : t) : result t :=
  sem_loop self (dict_keys (productions self)).
End BNF_Parser.

(* ================================================================== *)
(** ** The renderer *)

(** [fd] is the text written so far; [fd.write(s)] appends [s]. *)
Definition write (fd : str) (s : str) : str := fd ++ s.

(** [if n_exp.name: fd.write("<i>_%s</i>" % n_exp.name)]. *)
Definition write_name (fd : str) (name : option str) : str :=
  match name with
  | Some (c :: n) => write fd (py "<i>_" ++ (c :: n) ++ py "</i>")
  | _ => fd
  end.

Fixpoint write_expansion (fd : str) (n_exp : BNF_Expansion) : str :=
  let members_loop (sep : str) :=
    fix members_loop (fd : str) (first : bool) (members : list BNF_Expansion)
        : str :=
      match members with
      | [] => fd
      | n_member :: members' =>
          let fd := if first then fd else write fd sep in
          members_loop (write_expansion fd n_member) false members'
      end in
  match n_exp with
  | BNF_Alternatives _ members => members_loop (py " | ") fd true members
  | BNF_String _ members => members_loop (py " ") fd true members
  | BNF_Optional _ expansion =>
      let fd := write fd (py "[ ") in
      let fd := write_expansion fd expansion in
      write fd (py " ]")
  | BNF_One_Or_More _ expansion =>
      let fd := write fd (py "{ ") in
      let fd := write_expansion fd expansion in
      write fd (py " }")
  | BNF_Literal _ Lit_SYMBOL value _ =>
      let fd := write fd [quote] in
      let fd := write fd value in
      write fd [quote]
  | BNF_Literal _ Lit_TERMINAL value name =>
      let fd := write fd value in
      write_name fd name
  | BNF_Literal _ Lit_NONTERMINAL value name =>
      let fd := write fd (py "<a href=" ++ [dquote] ++ py "#bnf-" ++ value
                          ++ [dquote] ++ py ">") in
      let fd := write fd value in
      let fd := write fd (py "</a>") in
      write_name fd name
  end.

(** [" " * n]. *)
Definition spaces (n : Z) : str := repeat " "%char (Z.to_nat n).

(** The loop of [write_production] over [n_exp.members[1:]]. *)
Fixpoint write_alternatives (fd : str) (alt_offset : Z)
    (members : list BNF_Expansion) : str :=
  match members with
  | [] => fd
  | n_member :: members' =>
      let fd := write fd (spaces alt_offset ++ py "| ") in
      let fd := write_expansion fd n_member in
      let fd := write fd [newline] in
      write_alternatives fd alt_offset members'
  end.

Definition write_production (fd : str) (production : str)
    (bnf_parser : BNF_Parser.t) : result str :=
  let fd := write fd (py "<a name=" ++ [dquote] ++ py "bnf-" ++ production
                      ++ [dquote] ++ py "></a>" ++ production ++ py " ::= ") in
  match dict_get (BNF_Parser.productions bnf_parser) production with
  | None => Raise KeyError
  | Some (BNF_Alternatives _ members) =>
      let alt_offset := len production + 3 in
      match members with
      | [] => Raise IndexError
      | first :: others =>
          let fd := write_expansion fd first in
          let fd := write fd [newline] in
          Ok (write_alternatives fd alt_offset others)
      end
  | Some n_exp =>
      let fd := write_expansion fd n_exp in
      Ok (write fd [newline])
  end.

(* ================================================================== *)
(** ** The assembly of the document *)

(** [html.escape(s)] of the Python library, with quotes: the five
    characters that HTML reserves are replaced by entities. *)
Definition html_escape_char (c : ascii) : str :=
  if Ascii.eqb c "&" then py "&amp;"
  else if Ascii.eqb c "<" then py "&lt;"
  else if Ascii.eqb c ">" then py "&gt;"
  else if Ascii.eqb c dquote then py "&quot;"
  else if Ascii.eqb c quote then py "&#x27;"
  else [c].

Definition html_escape (s : str) : str := flat_map html_escape_char s.

(** ["%u" % n]. *)
Definition decimal (n : Z) : str := py (NilZero.string_of_int (Z.to_int n)).

Definition write_heading (fd : str) (name : str) (depth : Z) : str :=
  write fd (py "<h" ++ decimal depth ++ py ">" ++ html_escape name
            ++ py "</h" ++ decimal depth ++ py ">" ++ [newline]).

(** What this program reads of the host objects of [trlc.ast]: of a
    [Section] its name and its parent; of a record object its name, its
    section, the name of its type and, through [to_python_dict], the
    fields [text], [bullets], [def] and [kind], strings or arrays of
    strings that may be [None]. *)
Module ast.
Inductive Section : Type :=
| Section_make (name : str) (parent : option Section).

Record Record_Object : Type := Record_Object_make
  { name : str;
    section : option Section;
    e_typ_name : str;
    text : option str;
    bullets : option (list str);
    def : option str;
    kind : option str }.
End ast.

Fixpoint section_list (section : ast.Section) : list str :=
  match section with
  | ast.Section_make name (Some parent) => section_list parent ++ [name]
  | ast.Section_make name None => [name]
  end.

Fixpoint section_depth (section : ast.Section) : Z :=
  match section with
  | ast.Section_make _ (Some parent) => section_depth parent + 1
  | ast.Section_make _ None => 1
  end.

(** [text.split()]: the words that whitespace separates. *)
Fixpoint split_words (text : str) (word : str) : list str :=
  match text with
  | [] => match word with [] => [] | _ => [word] end
  | c :: text' =>
      if isspace c then
        match word with
        | [] => split_words text' []
        | _ => word :: split_words text' []
        end
      else split_words text' (word ++ [c])
  end.

Definition split (text : str) : list str := split_words text [].

(** [text.replace(old, new)] for one-character strings. *)
Definition replace (text : str) (old new : ascii) : str :=
  map (fun c => if Ascii.eqb c old then new else c) text.

(** [re.sub] with the pattern of [fmt_text] (a backtick, as few
    characters as possible other than a newline, a backtick) and the
    replacement that puts the group between [<tt>] and [</tt>].
    [open_run] is the text since a backtick that may still open a
    match. *)
Fixpoint sub_backticks (text : str) (open_run : option str) : str :=
  match text with
  | [] =>
      match open_run with
      | Some run => backtick :: run
      | None => []
      end
  | c :: text' =>
      match open_run with
      | None =>
          if Ascii.eqb c backtick then sub_backticks text' (Some [])
          else c :: sub_backticks text' None
      | Some run =>
          if Ascii.eqb c backtick then
            py "<tt>" ++ run ++ py "</tt>" ++ sub_backticks text' None
          else if Ascii.eqb c newline then
            backtick :: run ++ c :: sub_backticks text' None
          else sub_backticks text' (Some (run ++ [c]))
      end
  end.

Definition fmt_text (text : str) : str :=
  let text := join (py " ") (split (replace text newline " ")) in
  let text := html_escape text in
  sub_backticks text None.

(** The loop of [write_text_object] over [enumerate(new_section)]. *)
Fixpoint write_headings (fd : str) (idx : Z) (identical : bool)
    (new_section old_section : list str) : str :=
  match new_section with
  | [] => fd
  | heading :: rest =>
      let identical :=
        if idx <? Z.of_nat (List.length old_section) then
          match nth_error old_section (Z.to_nat idx) with
          | Some old => if str_eqb heading old then identical else false
          | None => identical
          end
        else false in
      let fd := if negb identical then write_heading fd heading (idx + 2)
                else fd in
      write_headings fd (idx + 1) identical rest old_section
  end.

(** The loop of [write_text_object] over the bundle of a Grammar. *)
Fixpoint write_bundle (fd : str) (first : bool) (bundle : list str)
    (bnf_parser : BNF_Parser.t) : result str :=
  match bundle with
  | [] => Ok fd
  | production :: rest =>
      let fd := if first then fd else write fd [newline] in
      fd <- write_production fd production bnf_parser ;;
      write_bundle fd false rest bnf_parser
  end.

Definition write_items (fd : str) (items : list str) : str :=
  fold_left (fun fd item =>
               write fd (py "  <li>" ++ fmt_text item ++ py "</li>"
                         ++ [newline]))
    items fd.

(** [write_text_object]; [context] is [context["old_section"]], and the
    result holds what was written and the new value of that entry. *)
Definition write_text_object (fd : str) (obj : ast.Record_Object)
    (context : option (list str)) (bnf_parser : BNF_Parser.t)
    : result (str * option (list str)) :=
  let new_section :=
    match ast.section obj with
    | Some s => section_list s
    | None => []
    end in
  let typ := ast.e_typ_name obj in
  new_section <-
    (if existsb (str_eqb typ)
          [py "Text"; py "Grammar"; py "Terminal"; py "Keywords";
           py "Punctuation"]
     then Ok new_section
     else if str_eqb typ (py "Semantics") then
       match ast.kind obj with
       | Some k => Ok (new_section ++ [k ++ py " Semantics"])
       | None => Raise TypeError
       end
     else if str_eqb typ (py "Recommendation") then
       Ok (new_section ++ [py "Implementation Recommendation"])
     else if str_eqb typ (py "Example") then
       Ok (new_section ++ [py "Example"])
     else Raise AssertionError) ;;
  let old_section :=
    match context with
    | Some s => s
    | None => []
    end in
  let fd := write_headings fd 0 true new_section old_section in
  let context := Some new_section in
  let fd := write fd (py "<div>" ++ [newline]) in
  let fd :=
    match ast.text obj with
    | Some (c :: t) => write fd (fmt_text (c :: t) ++ [newline])
    | _ => fd
    end in
  let fd :=
    match ast.bullets obj with
    | Some (item :: items) =>
        let fd := write fd (py "<ul>" ++ [newline]) in
        let fd := write_items fd (item :: items) in
        write fd (py "</ul>" ++ [newline])
    | _ => fd
    end in
  let fd := write fd (py "</div>" ++ [newline]) in
  if str_eqb typ (py "Terminal") then
    let fd := write fd (py "<div class='code'>") in
    let fd := write fd (py "<code>"
                        ++ match ast.def obj with
                           | Some d => d
                           | None => py "None"
                           end
                        ++ py "</code>" ++ [newline]) in
    Ok (write fd (py "</div>" ++ [newline]), context)
  else if str_eqb typ (py "Grammar") then
    let fd := write fd (py "<div class='code'>") in
    let fd := write fd (py "<pre>" ++ [newline]) in
    match dict_get (BNF_Parser.bundles bnf_parser) (ast.name obj) with
    | None => Raise KeyError
    | Some bundle =>
        fd <- write_bundle fd true bundle bnf_parser ;;
        let fd := write fd (py "</pre>" ++ [newline]) in
        Ok (write fd (py "</div>" ++ [newline]), context)
    end
  else Ok (fd, context).

(* ================================================================== *)
(** ** Reference definitions used in statements *)

(** Structural induction on syntax trees, with the members of a
    sequence or an alternation covered by [Forall]. *)
Section BNF_Expansion_induction.
Variable P : BNF_Expansion -> Prop.
Hypothesis H_literal : forall l k v n, P (BNF_Literal l k v n).
Hypothesis H_optional : forall l e, P e -> P (BNF_Optional l e).
Hypothesis H_one_or_more : forall l e, P e -> P (BNF_One_Or_More l e).
Hypothesis H_string : forall l ms, Forall P ms -> P (BNF_String l ms).
Hypothesis H_alternatives :
  forall l ms, Forall P ms -> P (BNF_Alternatives l ms).

Fixpoint BNF_Expansion_rect' (n : BNF_Expansion) : P n :=
  let members :=
    fix members (ms : list BNF_Expansion) : Forall P ms :=
      match ms with
      | [] => Forall_nil P
      | m :: ms' => Forall_cons m (BNF_Expansion_rect' m) (members ms')
      end in
  match n with
  | BNF_Literal l k v nm => H_literal l k v nm
  | BNF_Optional l e => H_optional l e (BNF_Expansion_rect' e)
  | BNF_One_Or_More l e => H_one_or_more l e (BNF_Expansion_rect' e)
  | BNF_String l ms => H_string l ms (members ms)
  | BNF_Alternatives l ms => H_alternatives l ms (members ms)
  end.
End BNF_Expansion_induction.

(** The split of an identifier in the words of the specification: the
    text before the first character of the other case, and the text from
    that character on. *)
Fixpoint span_until (p : ascii -> bool) (s : str) : str * str :=
  match s with
  | [] => ([], [])
  | c :: s' =>
      if p c then ([], s)
      else let '(before, rest) := span_until p s' in (c :: before, rest)
  end.

Definition split_at_transition (transition : ascii -> bool) (raw_text : str)
    : result token_value :=
  let '(before, rest) := span_until transition raw_text in
  match rest with
  | [] => Ok (V_Pair raw_text None)
  | _ :: _ =>
      if endswith before [underscore]
      then Ok (V_Pair (removelast before) (Some rest))
      else Raise AssertionError
  end.

(** The diagnostics the specification asks of the checker for a leaf. *)
Definition leaf_diagnostics (self : BNF_Parser.t) (loc : Source_Reference.t)
    (kind : literal_kind) (value : str) : list (Source_Reference.t * string) :=
  match kind with
  | Lit_SYMBOL =>
      if set_mem str_eq_dec value (BNF_Parser.terminals self)
      then [] else [(loc, "unknown terminal"%string)]
  | Lit_TERMINAL => []
  | Lit_NONTERMINAL =>
      if dict_mem (BNF_Parser.productions self) value
      then [] else [(loc, "unknown production"%string)]
  end.

Fixpoint diagnostics (self : BNF_Parser.t) (n : BNF_Expansion)
    : list (Source_Reference.t * string) :=
  match n with
  | BNF_Literal loc kind value _ => leaf_diagnostics self loc kind value
  | BNF_Optional _ e => diagnostics self e
  | BNF_One_Or_More _ e => diagnostics self e
  | BNF_String _ ms => flat_map (diagnostics self) ms
  | BNF_Alternatives _ ms => flat_map (diagnostics self) ms
  end.

Definition warned (self self' : BNF_Parser.t)
    (ws : list (Source_Reference.t * string)) : Prop :=
  self' = BNF_Parser.set_mh self
            (Message_Handler.make
               (Message_Handler.warnings (BNF_Parser.mh self) ++ ws)).

(** The text before the expansion of a production. *)
Definition production_head (production : str) : str :=
  py "<a name=" ++ [dquote] ++ py "bnf-" ++ production ++ [dquote]
  ++ py "></a>" ++ production ++ py " ::= ".

(** No leaf of the tree carries a newline in its text. *)
Fixpoint newline_free (n : BNF_Expansion) : Prop :=
  match n with
  | BNF_Literal _ _ value name =>
      ~ In newline value /\
      match name with Some s => ~ In newline s | None => True end
  | BNF_Optional _ e => newline_free e
  | BNF_One_Or_More _ e => newline_free e
  | BNF_String _ ms => fold_right (fun m acc => newline_free m /\ acc) True ms
  | BNF_Alternatives _ ms =>
      fold_right (fun m acc => newline_free m /\ acc) True ms
  end.

(* ================================================================== *)
(** * Properties *)

(** ** Results and strings *)

Lemma bind_Ok {A B : Type} (m : result A) (k : A -> result B) (b : B) :
  bind m k = Ok b -> exists a, m = Ok a /\ k a = Ok b.
Proof. destruct m as [a|e]; simpl; intros H; [eauto | discriminate]. Qed.

Lemma fbind_Ok {A B : Type} (m : option (result A))
    (k : A -> option (result B)) (b : B) :
  fbind m k = Some (Ok b) -> exists a, m = Some (Ok a) /\ k a = Some (Ok b).
Proof.
  destruct m as [[a|e]|]; simpl; intros H; [eauto | discriminate..].
Qed.

Lemma assert_Ok (b : bool) (u : unit) : assert b = Ok u -> b = true.
Proof. destruct b; simpl; [reflexivity | discriminate]. Qed.

Lemma str_eqb_eq (a b : str) : str_eqb a b = true <-> a = b.
Proof. unfold str_eqb. destruct (str_eq_dec a b); split; congruence. Qed.

Lemma str_eqb_refl (a : str) : str_eqb a a = true.
Proof. apply str_eqb_eq. reflexivity. Qed.

Lemma str_eqb_neq (a b : str) : str_eqb a b = false <-> a <> b.
Proof. unfold str_eqb. destruct (str_eq_dec a b); split; congruence. Qed.

Lemma KIND_eqb_eq (a b : KIND) : KIND_eqb a b = true <-> a = b.
Proof. unfold KIND_eqb. destruct (KIND_eq_dec a b); split; congruence. Qed.

Lemma len_app (a b : str) : len (a ++ b) = len a + len b.
Proof. unfold len. rewrite length_app. lia. Qed.

Lemma len_nonneg (s : str) : 0 <= len s.
Proof. unfold len. lia. Qed.

Lemma len_cons (c : ascii) (s : str) : len (c :: s) = 1 + len s.
Proof. unfold len. cbn [List.length]. lia. Qed.

Lemma slice_to_minus_1 (s : str) (c : ascii) : slice_to (s ++ [c]) (-1) = s.
Proof.
  unfold slice_to, slice, slice_bound.
  change (0 <? 0) with false. change (-1 <? 0) with true. cbv iota.
  rewrite len_app. change (len [c]) with 1.
  pose proof (len_nonneg s).
  rewrite Z.min_l by lia. rewrite Z.max_r by lia.
  change (Z.to_nat 0) with O. rewrite skipn_O.
  replace (Z.to_nat (-1 + (len s + 1) - 0)) with (List.length s + 0)%nat
    by (unfold len; lia).
  rewrite firstn_app_2. simpl. apply app_nil_r.
Qed.

Lemma endswith_snoc (s : str) (c x : ascii) :
  endswith (s ++ [c]) [x] = Ascii.eqb c x.
Proof.
  unfold endswith. rewrite rev_app_distr. simpl.
  destruct (rev s); apply andb_true_r.
Qed.

Lemma endswith_nil (x : ascii) : endswith [] [x] = false.
Proof. reflexivity. Qed.

(* ------------------------------------------------------------------ *)
(** ** The split of identifiers *)

Lemma endswith_inv (s : str) (x : ascii) :
  endswith s [x] = true -> exists s', s = s' ++ [x].
Proof.
  destruct s as [|c s'] using rev_ind.
  - discriminate.
  - rewrite endswith_snoc. intros H. apply Ascii.eqb_eq in H. subst. eauto.
Qed.

Lemma split_loop_after (p : ascii -> bool) (post t_kind n : str) :
  BNF_Lexer.split_loop p post t_kind (Some n) false
  = Ok (t_kind, Some (n ++ post)).
Proof.
  revert n. induction post as [|c post IH]; intros n; simpl.
  - rewrite app_nil_r. reflexivity.
  - rewrite IH, <- app_assoc. reflexivity.
Qed.

Lemma split_loop_spec (p : ascii -> bool) (raw acc : str) :
  BNF_Lexer.split_loop p raw acc None true
  = let '(before, rest) := span_until p raw in
    match rest with
    | [] => Ok (acc ++ raw, None)
    | _ :: _ =>
        if endswith (acc ++ before) [underscore]
        then Ok (removelast (acc ++ before), Some rest)
        else Raise AssertionError
    end.
Proof.
  revert acc. induction raw as [|c raw IH]; intros acc; simpl.
  - rewrite app_nil_r. reflexivity.
  - destruct (p c) eqn:Hp; simpl.
    + rewrite app_nil_r.
      destruct (endswith acc [underscore]) eqn:He; simpl; [|reflexivity].
      destruct (endswith_inv _ _ He) as [acc' ->].
      rewrite slice_to_minus_1, removelast_last, split_loop_after.
      reflexivity.
    + rewrite IH. destruct (span_until p raw) as [before rest].
      rewrite <- !app_assoc. simpl. reflexivity.
Qed.

Lemma split_nonterminal_spec (raw : str) :
  BNF_Lexer.split_nonterminal raw = split_at_transition isupper raw.
Proof.
  unfold BNF_Lexer.split_nonterminal, split_at_transition.
  rewrite split_loop_spec. destruct (span_until isupper raw) as [before rest].
  destruct rest; simpl; [reflexivity|].
  destruct (endswith before [underscore]); reflexivity.
Qed.

Lemma split_terminal_spec (raw : str) :
  BNF_Lexer.split_terminal raw = split_at_transition islower raw.
Proof.
  unfold BNF_Lexer.split_terminal, split_at_transition.
  rewrite split_loop_spec. destruct (span_until islower raw) as [before rest].
  destruct rest; simpl; [reflexivity|].
  destruct (endswith before [underscore]); reflexivity.
Qed.

(** The lexer never replaces its fragment. *)
Arguments BNF_Lexer.loop_bound : simpl never.
Arguments BNF_Lexer.advance : simpl never.

Lemma advance_fragment (l : BNF_Lexer.t) :
  BNF_Lexer.fragment (BNF_Lexer.advance l) = BNF_Lexer.fragment l.
Proof. reflexivity. Qed.

Lemma advance_while_fragment (p : ascii -> bool) (n : nat) (l : BNF_Lexer.t) :
  BNF_Lexer.fragment (BNF_Lexer.advance_while p n l) = BNF_Lexer.fragment l.
Proof.
  revert l. induction n as [|n IH]; intros l; simpl; [reflexivity|].
  destruct (BNF_Lexer.nc l) as [c|]; [|reflexivity].
  destruct (p c); [|reflexivity]. rewrite IH. reflexivity.
Qed.

Lemma skip_whitespace_fragment (n : nat) (l l' : BNF_Lexer.t) (k k' : Z) :
  BNF_Lexer.skip_whitespace n l k = (l', k') ->
  BNF_Lexer.fragment l' = BNF_Lexer.fragment l.
Proof.
  revert l k. induction n as [|n IH]; intros l k; simpl.
  - intros [= <- <-]. reflexivity.
  - destruct (BNF_Lexer.nc l) as [c|]; [|intros [= <- <-]; reflexivity].
    destruct (isspace c); [|intros [= <- <-]; reflexivity].
    intros H. apply IH in H. exact H.
Qed.

Lemma scan_fragment_aux (l : BNF_Lexer.t) (c : ascii) :
  match BNF_Lexer.scan l c with
  | Ok (_, l') => BNF_Lexer.fragment l' = BNF_Lexer.fragment l
  | Raise _ => True
  end.
Proof.
  unfold BNF_Lexer.scan, BNF_Lexer.lex_error, Message_Handler.error.
  repeat match goal with
         | |- context [if ?b then _ else _] => destruct b
         | |- context [match ?x with Some _ => _ | None => _ end] => destruct x
         end;
    cbn [bind]; trivial;
    rewrite ?advance_fragment, ?advance_while_fragment, ?advance_fragment;
    reflexivity.
Qed.

Lemma scan_fragment (l l' : BNF_Lexer.t) (c : ascii) (k : KIND) :
  BNF_Lexer.scan l c = Ok (k, l') ->
  BNF_Lexer.fragment l' = BNF_Lexer.fragment l.
Proof.
  intros H. pose proof (scan_fragment_aux l c) as A. rewrite H in A. exact A.
Qed.

(** The four ways in which [token] returns. *)
Inductive token_case (l : BNF_Lexer.t)
    : option BNF_Token.t -> BNF_Lexer.t -> Prop :=
| token_eof (l1 l2 : BNF_Lexer.t) (num_nl : Z) :
    BNF_Lexer.skip_whitespace (BNF_Lexer.loop_bound l) l 0 = (l1, num_nl) ->
    l2 = (if num_nl <? 2 then BNF_Lexer.advance l1 else l1) ->
    BNF_Lexer.cc l2 = None ->
    BNF_Lexer.eof_token_generated l2 = false ->
    token_case l
      (Some (BNF_Token.make RULE_END V_None
               (BNF_Lexer.mk_location l2 (BNF_Lexer.line_no l)
                  (BNF_Lexer.col_no l) (BNF_Lexer.lexpos l2)
                  (BNF_Lexer.lexpos l2))
               (BNF_Lexer.lexpos l2) (BNF_Lexer.lexpos l2)))
      (BNF_Lexer.set_eof_token_generated l2)
| token_none (l1 l2 : BNF_Lexer.t) (num_nl : Z) :
    BNF_Lexer.skip_whitespace (BNF_Lexer.loop_bound l) l 0 = (l1, num_nl) ->
    l2 = (if num_nl <? 2 then BNF_Lexer.advance l1 else l1) ->
    BNF_Lexer.cc l2 = None ->
    BNF_Lexer.eof_token_generated l2 = true ->
    token_case l None l2
| token_blank (l1 : BNF_Lexer.t) (num_nl : Z) (c : ascii) :
    BNF_Lexer.skip_whitespace (BNF_Lexer.loop_bound l) l 0 = (l1, num_nl) ->
    2 <= num_nl ->
    BNF_Lexer.cc l1 = Some c ->
    BNF_Lexer.lexpos l <= BNF_Lexer.lexpos l1 ->
    token_case l
      (Some (BNF_Token.make RULE_END V_None
               (BNF_Lexer.mk_location l1 (BNF_Lexer.line_no l1)
                  (BNF_Lexer.col_no l) (BNF_Lexer.lexpos l)
                  (BNF_Lexer.lexpos l1))
               (BNF_Lexer.lexpos l) (BNF_Lexer.lexpos l1)))
      l1
| token_scan (l1 l2 l3 : BNF_Lexer.t) (num_nl : Z) (c : ascii) (kind : KIND)
    (value : token_value) :
    BNF_Lexer.skip_whitespace (BNF_Lexer.loop_bound l) l 0 = (l1, num_nl) ->
    num_nl < 2 ->
    l2 = BNF_Lexer.advance l1 ->
    BNF_Lexer.cc l2 = Some c ->
    BNF_Lexer.scan l2 c = Ok (kind, l3) ->
    match kind with
    | TERMINAL =>
        BNF_Lexer.split_terminal
          (slice (BNF_Lexer.fragment l3) (BNF_Lexer.lexpos l2)
             (BNF_Lexer.lexpos l3 + 1))
    | NONTERMINAL =>
        BNF_Lexer.split_nonterminal
          (slice (BNF_Lexer.fragment l3) (BNF_Lexer.lexpos l2)
             (BNF_Lexer.lexpos l3 + 1))
    | SYMBOL =>
        Ok (V_Str (slice (slice (BNF_Lexer.fragment l3) (BNF_Lexer.lexpos l2)
                            (BNF_Lexer.lexpos l3 + 1)) 1 (-1)))
    | _ => Ok V_None
    end = Ok value ->
    BNF_Lexer.lexpos l2 <= BNF_Lexer.lexpos l3 ->
    token_case l
      (Some (BNF_Token.make kind value
               (BNF_Lexer.mk_location l3 (BNF_Lexer.line_no l2)
                  (BNF_Lexer.col_no l2) (BNF_Lexer.lexpos l2)
                  (BNF_Lexer.lexpos l3))
               (BNF_Lexer.lexpos l2) (BNF_Lexer.lexpos l3)))
      l3.

Lemma token_init_Ok (k : KIND) (v : token_value) (a b : Z)
    (loc : Source_Reference.t) (tok : BNF_Token.t) :
  BNF_Token.init k v a b loc = Ok tok ->
  a <= b /\ tok = BNF_Token.make k v loc a b.
Proof.
  unfold BNF_Token.init, assert.
  destruct (a <=? b) eqn:E; cbn [bind]; [|discriminate].
  intros [= <-]. split; [lia | reflexivity].
Qed.

Lemma token_inv (l l' : BNF_Lexer.t) (r : option BNF_Token.t) :
  BNF_Lexer.token l = Ok (r, l') -> token_case l r l'.
Proof.
  unfold BNF_Lexer.token.
  destruct (BNF_Lexer.skip_whitespace (BNF_Lexer.loop_bound l) l 0)
    as [l1 num_nl] eqn:Hskip.
  destruct (BNF_Lexer.cc (if num_nl <? 2 then BNF_Lexer.advance l1 else l1))
    as [c|] eqn:Hcc.
  - destruct (2 <=? num_nl) eqn:Hnl.
    + apply Z.leb_le in Hnl.
      assert ((num_nl <? 2) = false) as Hlt by (apply Z.ltb_ge; lia).
      rewrite Hlt in *. intros H.
      apply bind_Ok in H as (tok & Hinit & [= <- <-]).
      apply token_init_Ok in Hinit as [Hle ->].
      eapply token_blank; eauto.
    + apply Z.leb_gt in Hnl.
      assert ((num_nl <? 2) = true) as Hlt by (apply Z.ltb_lt; lia).
      rewrite Hlt in *. intros H.
      apply bind_Ok in H as ([kind l3] & Hscan & H).
      apply bind_Ok in H as (value & Hvalue & H).
      apply bind_Ok in H as (tok & Hinit & [= <- <-]).
      apply token_init_Ok in Hinit as [Hle ->].
      eapply token_scan; eauto.
  - destruct (BNF_Lexer.eof_token_generated
                (if num_nl <? 2 then BNF_Lexer.advance l1 else l1)) eqn:Heof;
      cbn [negb]; intros H.
    + injection H as <- <-.
      exact (token_none l l1 _ num_nl Hskip eq_refl Hcc Heof).
    + apply bind_Ok in H as (tok & Hinit & [= <- <-]).
      apply token_init_Ok in Hinit as [Hle ->].
      exact (token_eof l l1 _ num_nl Hskip eq_refl Hcc Heof).
Qed.

(** *** C5 (as amended) *)

(** C5, amended.  The text of an identifier is split at the first
    character of the other case (the first capital letter of a
    NONTERMINAL, the first small letter of a TERMINAL): the suffix is
    the text from that character on, the base is the text before it
    without its last character, which has to be an underscore; without
    such a character the base is the whole text and the suffix is
    absent.  When the character before the transition is not an
    underscore the lexer stops on a failed assertion.  Every identifier
    token carries the split of its text as its value. *)
Theorem identifier_split :
  (forall raw_text : str,
      BNF_Lexer.split_nonterminal raw_text
      = split_at_transition isupper raw_text
      /\ BNF_Lexer.split_terminal raw_text
         = split_at_transition islower raw_text)
  /\ (forall (lexer lexer' : BNF_Lexer.t) (tok : BNF_Token.t),
         BNF_Lexer.token lexer = Ok (Some tok, lexer') ->
         let raw_text :=
           slice (BNF_Lexer.fragment lexer) (BNF_Token.start tok)
             (BNF_Token.end_ tok + 1) in
         (BNF_Token.kind tok = NONTERMINAL ->
          split_at_transition isupper raw_text = Ok (BNF_Token.value tok))
         /\ (BNF_Token.kind tok = TERMINAL ->
             split_at_transition islower raw_text
             = Ok (BNF_Token.value tok))).
Proof.
  split.
  - intros raw. split;
      [apply split_nonterminal_spec | apply split_terminal_spec].
  - intros lexer lexer' tok H. apply token_inv in H.
    inversion H; subst; cbn [BNF_Token.kind BNF_Token.value BNF_Token.start
                               BNF_Token.end_];
      try (split; discriminate).
    match goal with
    | Hs : BNF_Lexer.scan _ _ = Ok _, Hw : BNF_Lexer.skip_whitespace _ _ _ = _
      |- _ =>
        apply scan_fragment in Hs; apply skip_whitespace_fragment in Hw;
        rewrite advance_fragment in Hs; rewrite <- Hw, <- Hs
    end.
    split; intros ->;
      [rewrite <- split_nonterminal_spec | rewrite <- split_terminal_spec];
      assumption.
Qed.

Definition first_token (fragment : str) : result (option BNF_Token.t) :=
  '(tok, _) <- BNF_Lexer.token (BNF_Lexer.init fragment loc0) ;; Ok tok.

Lemma identifier_split_witness :
  split_at_transition isupper (py "parameter_LEFT")
  = Ok (V_Pair (py "parameter") (Some (py "LEFT"))).
Proof.
  destruct (BNF_Lexer.token (BNF_Lexer.init (py "parameter_LEFT") loc0))
    as [[[tok|] lexer']|e] eqn:E; try (vm_compute in E; discriminate).
  pose proof (proj1 (proj2 identifier_split _ _ _ E)) as H.
  vm_compute in E. injection E as <- <-. apply H. reflexivity.
Defined.

(** C5, counterexample: the identifier [fooBAR] is made of letters only,
    and the lexer stops on the assertion that the text before the first
    capital ends with an underscore. *)
Lemma identifier_split_counterexample :
  first_token (py "fooBAR") = Raise AssertionError
  /\ forallb BNF_Lexer.is_ident_char (py "fooBAR") = true.
Proof. split; vm_compute; reflexivity. Qed.

(* ------------------------------------------------------------------ *)
(** ** The semantic checker *)

Lemma warned_nil (self : BNF_Parser.t) : warned self self [].
Proof.
  unfold warned, BNF_Parser.set_mh. rewrite app_nil_r.
  destruct self as [[ws] lx c n ts ps bs]. reflexivity.
Qed.

Lemma warned_trans (a b c : BNF_Parser.t)
    (ws ws' : list (Source_Reference.t * string)) :
  warned a b ws -> warned b c ws' -> warned a c (ws ++ ws').
Proof.
  unfold warned. intros -> ->. unfold BNF_Parser.set_mh. simpl.
  rewrite app_assoc. reflexivity.
Qed.

Lemma warned_tables (a b : BNF_Parser.t)
    (ws : list (Source_Reference.t * string)) :
  warned a b ws ->
  BNF_Parser.terminals b = BNF_Parser.terminals a
  /\ BNF_Parser.productions b = BNF_Parser.productions a.
Proof. intros ->. split; reflexivity. Qed.

Lemma diagnostics_tables (a b : BNF_Parser.t) (n : BNF_Expansion) :
  BNF_Parser.terminals b = BNF_Parser.terminals a ->
  BNF_Parser.productions b = BNF_Parser.productions a ->
  diagnostics b n = diagnostics a n.
Proof.
  intros Ht Hp. induction n using BNF_Expansion_rect'; simpl; auto.
  - unfold leaf_diagnostics. rewrite Ht, Hp. reflexivity.
  - induction H as [|m ms Hm _ IH]; simpl; [reflexivity|].
    rewrite Hm, IH. reflexivity.
  - induction H as [|m ms Hm _ IH]; simpl; [reflexivity|].
    rewrite Hm, IH. reflexivity.
Qed.

Lemma sem_literal_warned (self : BNF_Parser.t) (loc : Source_Reference.t)
    (kind : literal_kind) (value : str) (name : option str) :
  exists self',
    BNF_Parser.sem_literal self (BNF_Literal loc kind value name) = Ok self'
    /\ warned self self' (leaf_diagnostics self loc kind value).
Proof.
  destruct kind; simpl.
  - exists self. split; [reflexivity | apply warned_nil].
  - destruct (dict_mem (BNF_Parser.productions self) value); simpl;
      eexists; (split; [reflexivity|]); [apply warned_nil | reflexivity].
  - destruct (set_mem str_eq_dec value (BNF_Parser.terminals self)); simpl;
      eexists; (split; [reflexivity|]); [apply warned_nil | reflexivity].
Qed.

(** The walk of the checker over a tree never raises and warns about
    its leaves from left to right. *)
Lemma sem_expansion_warned (n : BNF_Expansion) :
  forall self : BNF_Parser.t,
  exists self',
    BNF_Parser.sem_expansion self n = Ok self'
    /\ warned self self' (diagnostics self n).
Proof.
  induction n as [l k v nm | l e IH | l e IH | l ms IH | l ms IH]
    using BNF_Expansion_rect'; intros self.
  - apply sem_literal_warned.
  - apply IH.
  - apply IH.
  - simpl. revert self. induction IH as [|m ms Hm _ IHms]; intros self.
    + exists self. split; [reflexivity | apply warned_nil].
    + destruct (Hm self) as (s1 & E1 & W1). rewrite E1. cbn [bind].
      destruct (IHms s1) as (s2 & E2 & W2). exists s2. split; [exact E2|].
      simpl. eapply warned_trans; [exact W1|].
      destruct (warned_tables _ _ _ W1) as [Ht Hp].
      assert (flat_map (diagnostics s1) ms = flat_map (diagnostics self) ms)
        as <-; [|exact W2].
      clear - Ht Hp. induction ms as [|x xs IHx]; simpl; [reflexivity|].
      rewrite IHx, (diagnostics_tables self s1) by assumption. reflexivity.
  - simpl. revert self. induction IH as [|m ms Hm _ IHms]; intros self.
    + exists self. split; [reflexivity | apply warned_nil].
    + destruct (Hm self) as (s1 & E1 & W1). rewrite E1. cbn [bind].
      destruct (IHms s1) as (s2 & E2 & W2). exists s2. split; [exact E2|].
      simpl. eapply warned_trans; [exact W1|].
      destruct (warned_tables _ _ _ W1) as [Ht Hp].
      assert (flat_map (diagnostics s1) ms = flat_map (diagnostics self) ms)
        as <-; [|exact W2].
      clear - Ht Hp. induction ms as [|x xs IHx]; simpl; [reflexivity|].
      rewrite IHx, (diagnostics_tables self s1) by assumption. reflexivity.
Qed.

Lemma dict_mem_keys {V : Type} (d : dict V) (k : str) :
  dict_mem d k = true <-> In k (dict_keys d).
Proof.
  unfold dict_mem, dict_keys. induction d as [|[k' v] d IH]; simpl.
  - split; [discriminate | contradiction].
  - destruct (str_eqb k' k) eqn:E.
    + apply str_eqb_eq in E. split; auto.
    + apply str_eqb_neq in E. rewrite IH. split; [auto | intros [?|?]; tauto].
Qed.

(** *** C7 *)

(** C7.  For a literal leaf the checker never raises.  A Symbol leaf
    yields the warning "unknown terminal" exactly when its text is not
    in [terminals]; a Terminal leaf yields no diagnostic; a Nonterminal
    leaf yields the warning "unknown production" exactly when its base
    name is not a key of [productions].  The walk over a whole tree
    never raises either and yields the warnings of its leaves. *)
Theorem sem_literal_checks (self : BNF_Parser.t) :
  (forall loc kind value name,
      exists self',
        BNF_Parser.sem_literal self (BNF_Literal loc kind value name)
        = Ok self'
        /\ exists ws,
          warned self self' ws
          /\ match kind with
             | Lit_SYMBOL =>
                 (ws = [(loc, "unknown terminal"%string)]
                  <-> ~ set_In value (BNF_Parser.terminals self))
                 /\ (ws = [] <-> set_In value (BNF_Parser.terminals self))
             | Lit_TERMINAL => ws = []
             | Lit_NONTERMINAL =>
                 (ws = [(loc, "unknown production"%string)]
                  <-> ~ In value (dict_keys (BNF_Parser.productions self)))
                 /\ (ws = []
                     <-> In value (dict_keys (BNF_Parser.productions self)))
             end)
  /\ (forall n, exists self',
         BNF_Parser.sem_expansion self n = Ok self'
         /\ warned self self' (diagnostics self n)).
Proof.
  split; [|intros n; apply sem_expansion_warned].
  intros loc kind value name.
  destruct (sem_literal_warned self loc kind value name) as (self' & E & W).
  exists self'. split; [exact E|].
  exists (leaf_diagnostics self loc kind value). split; [exact W|].
  destruct kind; simpl.
  - reflexivity.
  - destruct (dict_mem (BNF_Parser.productions self) value) eqn:M.
    + apply dict_mem_keys in M. repeat split; try tauto; discriminate.
    + assert (~ In value (dict_keys (BNF_Parser.productions self))) as N.
      { intros I. apply dict_mem_keys in I. congruence. }
      repeat split; try tauto; discriminate.
  - destruct (set_mem str_eq_dec value (BNF_Parser.terminals self)) eqn:M.
    + apply set_mem_correct1 in M. repeat split; try tauto; discriminate.
    + apply set_mem_complete1 in M. repeat split; try tauto; discriminate.
Qed.

(* ------------------------------------------------------------------ *)
(** ** Registration of terminals *)

Lemma register_backtick_terminal_keeps (self self' : BNF_Parser.t)
    (obj : String_Literal.t) (terminal x : str) :
  BNF_Parser.register_backtick_terminal self obj terminal = Ok self' ->
  (set_In x (BNF_Parser.terminals self) \/ x = terminal)
  <-> set_In x (BNF_Parser.terminals self').
Proof.
  unfold BNF_Parser.register_backtick_terminal, Message_Handler.error.
  destruct terminal as [|c t]; [discriminate|].
  destruct (set_mem str_eq_dec (c :: t) (BNF_Parser.terminals self));
    [discriminate|].
  intros [= <-]. simpl. split.
  - intros [H | ->]; [apply set_add_intro1 | apply set_add_intro2]; auto.
  - intros H. apply set_add_elim in H. tauto.
Qed.

Lemma register_backtick_loop_keeps (groups : list str) :
  forall (self self' : BNF_Parser.t) (obj : String_Literal.t) (x : str),
    BNF_Parser.register_backtick_loop self obj groups = Ok self' ->
    (set_In x (BNF_Parser.terminals self) \/ In x groups)
    <-> set_In x (BNF_Parser.terminals self').
Proof.
  induction groups as [|g groups IH]; intros self self' obj x; simpl.
  - intros [= <-]. tauto.
  - intros H. apply bind_Ok in H as (s1 & E1 & E2).
    rewrite <- (IH _ _ _ x E2),
      <- (register_backtick_terminal_keeps _ _ _ _ x E1).
    intuition congruence.
Qed.

Lemma register_backtick_loop_app (before after : list str) :
  forall (self : BNF_Parser.t) (obj : String_Literal.t),
    BNF_Parser.register_backtick_loop self obj (before ++ after)
    = (self' <- BNF_Parser.register_backtick_loop self obj before ;;
       BNF_Parser.register_backtick_loop self' obj after).
Proof.
  induction before as [|g before IH]; intros self obj; simpl; [reflexivity|].
  destruct (BNF_Parser.register_backtick_terminal self obj g); simpl;
    [apply IH | reflexivity].
Qed.

(** *** C8 *)

(** C8.  A terminal that is already registered cannot be registered
    again: [register_terminal] raises "duplicate definition of
    terminal", and the loop of [register_backtick_terminals] raises
    "duplicate definition of terminal '...'" when it reaches a
    back-quoted run that is registered (before the call or by an
    earlier run of the same text); when it reaches an empty run it
    raises "empty terminal is not permitted".  Both paths that return
    have registered their names, whichever comes first. *)
Theorem duplicate_terminal (self : BNF_Parser.t) (obj : String_Literal.t) :
  (set_In (String_Literal.value obj) (BNF_Parser.terminals self) ->
   BNF_Parser.register_terminal self obj
   = Raise (TRLC_Error (String_Literal.location obj)
              "duplicate definition of terminal"))
  /\ (forall before terminal after self',
         finditer_backtick (String_Literal.value obj)
         = before ++ terminal :: after ->
         BNF_Parser.register_backtick_loop self obj before = Ok self' ->
         (terminal <> [] ->
          set_In terminal (BNF_Parser.terminals self) \/ In terminal before ->
          BNF_Parser.register_backtick_terminals self obj
          = Raise (TRLC_Error (String_Literal.location obj)
                     ("duplicate definition of terminal '"
                      ++ string_of_list_ascii terminal ++ "'")))
         /\ (terminal = [] ->
             BNF_Parser.register_backtick_terminals self obj
             = Raise (TRLC_Error (String_Literal.location obj)
                        "empty terminal is not permitted")))
  /\ (forall self',
         BNF_Parser.register_terminal self obj = Ok self' ->
         forall x, set_In x (BNF_Parser.terminals self')
                   <-> set_In x (BNF_Parser.terminals self)
                       \/ x = String_Literal.value obj)
  /\ (forall self',
         BNF_Parser.register_backtick_terminals self obj = Ok self' ->
         forall x, set_In x (BNF_Parser.terminals self')
                   <-> set_In x (BNF_Parser.terminals self)
                       \/ In x (finditer_backtick (String_Literal.value obj))).
Proof.
  split; [|split; [|split]].
  - intros H. unfold BNF_Parser.register_terminal.
    apply (set_mem_correct2 str_eq_dec) in H. rewrite H. reflexivity.
  - intros before terminal after self' Hg Hb.
    unfold BNF_Parser.register_backtick_terminals.
    rewrite Hg, register_backtick_loop_app, Hb. cbn [bind]. split.
    + intros Hne Hin.
      apply (register_backtick_loop_keeps _ _ _ _ terminal Hb) in Hin.
      simpl. unfold BNF_Parser.register_backtick_terminal.
      destruct terminal as [|c t]; [congruence|].
      apply (set_mem_correct2 str_eq_dec) in Hin. rewrite Hin. reflexivity.
    + intros ->. reflexivity.
  - intros self'. unfold BNF_Parser.register_terminal, Message_Handler.error.
    destruct (set_mem str_eq_dec (String_Literal.value obj)
                (BNF_Parser.terminals self)); [discriminate|].
    intros [= <-] x. simpl. split.
    + intros H. apply set_add_elim in H. tauto.
    + intros [H | ->]; [apply set_add_intro1 | apply set_add_intro2]; auto.
  - intros self' H x. symmetry.
    exact (register_backtick_loop_keeps _ _ _ _ x H).
Qed.

Definition keyword_if : String_Literal.t :=
  String_Literal.make (py "if") loc0.

Definition punctuation_if : String_Literal.t :=
  String_Literal.make (py "The keyword `if` and the empty run ``.") loc0.

Definition parser_0 : BNF_Parser.t := BNF_Parser.init Message_Handler.init.

Definition parser_if : BNF_Parser.t :=
  BNF_Parser.set_terminals parser_0 [py "if"].

Lemma duplicate_terminal_witness :
  BNF_Parser.register_terminal parser_if keyword_if
  = Raise (TRLC_Error loc0 "duplicate definition of terminal")
  /\ BNF_Parser.register_backtick_terminals parser_if punctuation_if
     = Raise (TRLC_Error loc0 "duplicate definition of terminal 'if'")
  /\ BNF_Parser.register_backtick_terminals parser_0 punctuation_if
     = Raise (TRLC_Error loc0 "empty terminal is not permitted")
  /\ set_In (py "if") (BNF_Parser.terminals parser_if).
Proof.
  split; [|split; [|split]].
  - apply (proj1 (duplicate_terminal parser_if keyword_if)).
    simpl. left. reflexivity.
  - refine (proj1 (proj1 (proj2 (duplicate_terminal parser_if punctuation_if))
                     [] (py "if") [ [] ] parser_if eq_refl eq_refl) _ _).
    + discriminate.
    + left. simpl. left. reflexivity.
  - refine (proj2 (proj1 (proj2 (duplicate_terminal parser_0 punctuation_if))
                     [py "if"] [] [] parser_if eq_refl eq_refl) eq_refl).
  - apply (proj1 (proj2 (proj2 (duplicate_terminal parser_0 keyword_if)))
             parser_if eq_refl).
    right. reflexivity.
Defined.

Definition parser_then : BNF_Parser.t :=
  BNF_Parser.set_productions parser_if
    [(py "then", BNF_Literal loc0 Lit_TERMINAL (py "THEN") None)].

Lemma sem_literal_checks_witness :
  BNF_Parser.sem_literal parser_then
    (BNF_Literal loc0 Lit_SYMBOL (py "else") None)
  = Ok (BNF_Parser.set_mh parser_then
          (Message_Handler.make [(loc0, "unknown terminal"%string)]))
  /\ BNF_Parser.sem_literal parser_then
       (BNF_Literal loc0 Lit_NONTERMINAL (py "then") None)
     = Ok parser_then.
Proof.
  split.
  - destruct (proj1 (sem_literal_checks parser_then)
                loc0 Lit_SYMBOL (py "else") None)
      as (self' & E & ws & W & Hw & _).
    rewrite E. f_equal. rewrite W.
    rewrite (proj2 Hw); [reflexivity|].
    simpl. intros [H|[]]. discriminate H.
  - destruct (proj1 (sem_literal_checks parser_then)
                loc0 Lit_NONTERMINAL (py "then") None)
      as (self' & E & ws & W & _ & Hw).
    rewrite E. f_equal. rewrite W.
    rewrite (proj2 Hw); [reflexivity|].
    simpl. left. reflexivity.
Defined.

(* ------------------------------------------------------------------ *)
(** ** The renderer *)

Lemma join_cons (sep p : str) (rest : list str) :
  join sep (p :: rest) = p ++ flat_map (fun t => sep ++ t) rest.
Proof.
  revert p. induction rest as [|q rest IH]; intros p.
  - simpl. rewrite app_nil_r. reflexivity.
  - change (join sep (p :: q :: rest)) with (p ++ sep ++ join sep (q :: rest)).
    rewrite IH. simpl. rewrite <- app_assoc. reflexivity.
Qed.

Lemma write_name_app (fd : str) (name : option str) :
  write_name fd name = fd ++ write_name [] name.
Proof. destruct name as [[|c n]|]; simpl; rewrite ?app_nil_r; reflexivity. Qed.

(** The loop of [write_expansion] over the members of a sequence or an
    alternation. *)
Definition write_members (sep : str)
    : str -> bool -> list BNF_Expansion -> str :=
  fix members_loop (fd : str) (first : bool) (members : list BNF_Expansion)
      : str :=
    match members with
    | [] => fd
    | n_member :: members' =>
        let fd := if first then fd else write fd sep in
        members_loop (write_expansion fd n_member) false members'
    end.

Lemma write_expansion_alternatives_loop (fd : str) (l : Source_Reference.t)
    (ms : list BNF_Expansion) :
  write_expansion fd (BNF_Alternatives l ms)
  = write_members (py " | ") fd true ms.
Proof. reflexivity. Qed.

Lemma write_expansion_string_loop (fd : str) (l : Source_Reference.t)
    (ms : list BNF_Expansion) :
  write_expansion fd (BNF_String l ms) = write_members (py " ") fd true ms.
Proof. reflexivity. Qed.

Lemma write_members_join (sep : str) (ms : list BNF_Expansion) :
  Forall (fun m => forall fd, write_expansion fd m = fd ++ write_expansion [] m)
    ms ->
  forall (fd : str) (first : bool),
    write_members sep fd first ms
    = fd ++ (if first
             then join sep (map (write_expansion []) ms)
             else flat_map (fun t => sep ++ t) (map (write_expansion []) ms)).
Proof.
  induction 1 as [|m ms Hm _ IH]; intros fd first.
  - destruct first; simpl; rewrite app_nil_r; reflexivity.
  - cbn [write_members]. fold (write_members sep). rewrite IH.
    cbn [map]. rewrite join_cons. cbn [flat_map].
    rewrite Hm. unfold write.
    destruct first; rewrite <- ?app_assoc; reflexivity.
Qed.

(** The text that [write_expansion] adds does not depend on what was
    written before. *)
Lemma write_expansion_app (n : BNF_Expansion) :
  forall fd : str, write_expansion fd n = fd ++ write_expansion [] n.
Proof.
  induction n as [l k v nm | l e IH | l e IH | l ms IH | l ms IH]
    using BNF_Expansion_rect'; intros fd.
  - destruct k, nm as [[|c s]|]; cbn [write_expansion write_name];
      unfold write; cbn [app]; rewrite <- ?app_assoc; reflexivity.
  - cbn [write_expansion]. unfold write. rewrite IH, (IH (_ ++ _)).
    cbn [app]. rewrite <- !app_assoc. reflexivity.
  - cbn [write_expansion]. unfold write. rewrite IH, (IH (_ ++ _)).
    cbn [app]. rewrite <- !app_assoc. reflexivity.
  - rewrite !write_expansion_string_loop, !write_members_join by exact IH.
    reflexivity.
  - rewrite !write_expansion_alternatives_loop, !write_members_join
      by exact IH.
    reflexivity.
Qed.

Lemma write_expansion_app_all (ms : list BNF_Expansion) :
  Forall (fun m => forall fd, write_expansion fd m = fd ++ write_expansion [] m)
    ms.
Proof. apply Forall_forall. intros m _. apply write_expansion_app. Qed.

Lemma write_expansion_alternatives (fd : str) (l : Source_Reference.t)
    (ms : list BNF_Expansion) :
  write_expansion fd (BNF_Alternatives l ms)
  = fd ++ join (py " | ") (map (write_expansion []) ms).
Proof.
  rewrite write_expansion_alternatives_loop.
  apply write_members_join, write_expansion_app_all.
Qed.

Lemma write_expansion_string (fd : str) (l : Source_Reference.t)
    (ms : list BNF_Expansion) :
  write_expansion fd (BNF_String l ms)
  = fd ++ join (py " ") (map (write_expansion []) ms).
Proof.
  rewrite write_expansion_string_loop.
  apply write_members_join, write_expansion_app_all.
Qed.

Lemma write_alternatives_flat (alt_offset : Z) (ms : list BNF_Expansion) :
  forall fd : str,
    write_alternatives fd alt_offset ms
    = fd ++ flat_map
              (fun n => spaces alt_offset ++ py "| "
                        ++ write_expansion [] n ++ [newline]) ms.
Proof.
  induction ms as [|m ms IH]; intros fd; cbn [write_alternatives flat_map].
  - rewrite app_nil_r. reflexivity.
  - rewrite IH, write_expansion_app. unfold write.
    rewrite <- !app_assoc. reflexivity.
Qed.

Lemma not_in_join (x : ascii) (sep : str) (parts : list str) :
  ~ In x sep -> Forall (fun p => ~ In x p) parts -> ~ In x (join sep parts).
Proof.
  intros Hsep H. destruct parts as [|p parts]; [simpl; tauto|].
  rewrite join_cons, in_app_iff. rewrite Forall_forall in H.
  intros [I|I]; [exact (H p (or_introl eq_refl) I)|].
  apply in_flat_map in I as (t & It & Ix).
  apply in_app_iff in Ix as [Ix|Ix]; [tauto|].
  exact (H t (or_intror It) Ix).
Qed.

Definition no_newline (s : str) : bool :=
  forallb (fun c => negb (Ascii.eqb c newline)) s.

Lemma no_newline_iff (s : str) : no_newline s = true <-> ~ In newline s.
Proof.
  unfold no_newline. induction s as [|c s IH]; simpl.
  - tauto.
  - rewrite andb_true_iff, IH, negb_true_iff, Ascii.eqb_neq. tauto.
Qed.

Lemma no_newline_app (a b : str) :
  no_newline (a ++ b) = no_newline a && no_newline b.
Proof. apply forallb_app. Qed.

Lemma no_newline_join (sep : str) (parts : list str) :
  no_newline sep = true ->
  Forall (fun p => no_newline p = true) parts ->
  no_newline (join sep parts) = true.
Proof.
  intros Hs H. apply no_newline_iff. apply not_in_join.
  - apply no_newline_iff, Hs.
  - eapply Forall_impl; [|exact H]. intros p. apply no_newline_iff.
Qed.

Lemma newline_free_members (ms : list BNF_Expansion) :
  fold_right (fun m acc => newline_free m /\ acc) True ms ->
  Forall (fun m => newline_free m -> no_newline (write_expansion [] m) = true)
    ms ->
  Forall (fun p => no_newline p = true) (map (write_expansion []) ms).
Proof.
  intros H IH. induction IH as [|m ms Hm _ IHms]; simpl; constructor.
  - apply Hm, H.
  - apply IHms, H.
Qed.

Lemma newline_free_no_newline (n : BNF_Expansion) :
  newline_free n -> no_newline (write_expansion [] n) = true.
Proof.
  induction n as [l k v nm | l e IH | l e IH | l ms IH | l ms IH]
    using BNF_Expansion_rect'.
  - intros [Hv Hn]. apply no_newline_iff in Hv.
    assert (no_newline (write_name [] nm) = true) as Hw.
    { destruct nm as [[|c s]|]; try reflexivity.
      apply no_newline_iff in Hn. cbn [write_name]. unfold write.
      rewrite !no_newline_app, Hn. reflexivity. }
    destruct k; cbn [write_expansion]; unfold write;
      rewrite ?(write_name_app (_ ++ _)), ?no_newline_app, ?Hv, ?Hw;
      reflexivity.
  - intros H. cbn [write_expansion]. unfold write.
    rewrite write_expansion_app, !no_newline_app, (IH H). reflexivity.
  - intros H. cbn [write_expansion]. unfold write.
    rewrite write_expansion_app, !no_newline_app, (IH H). reflexivity.
  - intros H. rewrite write_expansion_string. apply no_newline_join.
    + reflexivity.
    + apply newline_free_members; assumption.
  - intros H. rewrite write_expansion_alternatives. apply no_newline_join.
    + reflexivity.
    + apply newline_free_members; assumption.
Qed.

Lemma newline_free_text (n : BNF_Expansion) :
  newline_free n -> ~ In newline (write_expansion [] n).
Proof. intros H. apply no_newline_iff, newline_free_no_newline, H. Qed.

(** *** C9 *)

(** C9.  A production whose root is an alternation is written as its
    head, the first alternative and a newline, then, for every further
    alternative, [len(production) + 3] spaces, a bar, a space, the
    alternative and a newline.  Every alternation handed to
    [write_expansion], that is every one below the root, is written on
    the spot with its members joined by " | "; [write_expansion] writes
    no newline unless the text of a leaf holds one. *)
Theorem production_layout (fd production : str) (bnf_parser : BNF_Parser.t)
    (loc : Source_Reference.t) (first : BNF_Expansion)
    (others : list BNF_Expansion) :
  dict_get (BNF_Parser.productions bnf_parser) production
  = Some (BNF_Alternatives loc (first :: others)) ->
  write_production fd production bnf_parser
  = Ok (fd ++ production_head production
        ++ write_expansion [] first ++ [newline]
        ++ flat_map
             (fun n => repeat " "%char (List.length production + 3)
                       ++ py "| " ++ write_expansion [] n ++ [newline])
             others)
  /\ (forall fd' loc' members,
         write_expansion fd' (BNF_Alternatives loc' members)
         = fd' ++ join (py " | ") (map (write_expansion []) members))
  /\ (forall n, newline_free n -> ~ In newline (write_expansion [] n)).
Proof.
  intros H. split; [|split].
  - unfold write_production. rewrite H.
    rewrite write_alternatives_flat, write_expansion_app. unfold write.
    fold (production_head production). rewrite <- !app_assoc.
    do 4 f_equal. unfold spaces.
    replace (Z.to_nat (len production + 3))
      with (List.length production + 3)%nat by (unfold len; lia).
    reflexivity.
  - intros. apply write_expansion_alternatives.
  - apply newline_free_text.
Qed.

Definition parser_choice : BNF_Parser.t :=
  BNF_Parser.set_productions parser_0
    [(py "ab",
      BNF_Alternatives loc0
        [BNF_Literal loc0 Lit_TERMINAL (py "A") None;
         BNF_Optional loc0
           (BNF_Alternatives loc0
              [BNF_Literal loc0 Lit_TERMINAL (py "B") None;
               BNF_Literal loc0 Lit_SYMBOL (py "c") None])])].

Lemma production_layout_witness :
  write_production [] (py "ab") parser_choice
  = Ok (production_head (py "ab") ++ py "A" ++ [newline]
        ++ py "     | [ B | 'c' ]" ++ [newline]).
Proof.
  exact (proj1 (production_layout [] (py "ab") parser_choice loc0 _ _ eq_refl)).
Defined.

(* ------------------------------------------------------------------ *)
(** ** The lexer: positions and the end of the fragment *)

Lemma char_at_bounds (s : str) (i : Z) (c : ascii) :
  char_at s i = Some c -> 0 <= i < len s.
Proof.
  unfold char_at, len. destruct (i <? 0) eqn:E; [discriminate|].
  apply Z.ltb_ge in E. intros H.
  assert (nth_error s (Z.to_nat i) <> None) as N by congruence.
  apply nth_error_Some in N. lia.
Qed.

Lemma char_at_beyond (s : str) (i : Z) : len s <= i -> char_at s i = None.
Proof.
  intros H. destruct (char_at s i) as [c|] eqn:E; [|reflexivity].
  apply char_at_bounds in E. lia.
Qed.

Lemma char_at_before (s : str) (i : Z) : i < 0 -> char_at s i = None.
Proof. unfold char_at. intros H. apply Z.ltb_lt in H. rewrite H. reflexivity. Qed.

(** A lexer is consistent when [cc] and [nc] are the characters of the
    fragment at [lexpos] and [lexpos + 1]. *)
Record consistent (l : BNF_Lexer.t) : Prop :=
  { consistent_length :
      BNF_Lexer.fragment_length l = len (BNF_Lexer.fragment l);
    consistent_lexpos : -1 <= BNF_Lexer.lexpos l;
    consistent_cc :
      BNF_Lexer.cc l = char_at (BNF_Lexer.fragment l) (BNF_Lexer.lexpos l);
    consistent_nc :
      BNF_Lexer.nc l
      = char_at (BNF_Lexer.fragment l) (BNF_Lexer.lexpos l + 1) }.

Lemma advance_lexpos (l : BNF_Lexer.t) :
  BNF_Lexer.lexpos (BNF_Lexer.advance l) = BNF_Lexer.lexpos l + 1.
Proof. reflexivity. Qed.

Lemma advance_cc (l : BNF_Lexer.t) :
  BNF_Lexer.cc (BNF_Lexer.advance l) = BNF_Lexer.nc l.
Proof. reflexivity. Qed.

Lemma advance_eof (l : BNF_Lexer.t) :
  BNF_Lexer.eof_token_generated (BNF_Lexer.advance l)
  = BNF_Lexer.eof_token_generated l.
Proof. reflexivity. Qed.

Lemma advance_length (l : BNF_Lexer.t) :
  BNF_Lexer.fragment_length (BNF_Lexer.advance l)
  = BNF_Lexer.fragment_length l.
Proof. reflexivity. Qed.

Lemma advance_nc (l : BNF_Lexer.t) :
  BNF_Lexer.nc (BNF_Lexer.advance l)
  = if BNF_Lexer.lexpos l + 1 + 1 <? BNF_Lexer.fragment_length l
    then char_at (BNF_Lexer.fragment l) (BNF_Lexer.lexpos l + 1 + 1)
    else None.
Proof. reflexivity. Qed.

Lemma init_consistent (fragment : str) (loc : Source_Reference.t) :
  consistent (BNF_Lexer.init fragment loc).
Proof.
  unfold BNF_Lexer.init.
  split; rewrite ?advance_nc, ?advance_cc, ?advance_lexpos, ?advance_length,
           ?advance_fragment; cbn.
  - reflexivity.
  - lia.
  - reflexivity.
  - destruct (0 <? len fragment) eqn:E; [reflexivity|].
    apply Z.ltb_ge in E. symmetry. apply (char_at_beyond fragment 0). lia.
Qed.

Lemma advance_consistent (l : BNF_Lexer.t) :
  consistent l -> consistent (BNF_Lexer.advance l).
Proof.
  intros [Hlen Hpos Hcc Hnc].
  split; rewrite ?advance_nc, ?advance_cc, ?advance_lexpos, ?advance_length,
           ?advance_fragment.
  - exact Hlen.
  - lia.
  - exact Hnc.
  - destruct (BNF_Lexer.lexpos l + 1 + 1 <? BNF_Lexer.fragment_length l)
      eqn:E; [reflexivity|].
    apply Z.ltb_ge in E. symmetry. apply char_at_beyond. lia.
Qed.

(** What a loop of the lexer leaves behind: it has moved forward over
    characters that pass the test, and stops at the end of the fragment
    or in front of a character that fails it. *)
Ltac split4 := split; [|split; [|split]].

Lemma advance_while_spec (p : ascii -> bool) (n : nat) :
  forall l : BNF_Lexer.t,
    BNF_Lexer.lexpos l <= BNF_Lexer.lexpos (BNF_Lexer.advance_while p n l)
    /\ BNF_Lexer.eof_token_generated (BNF_Lexer.advance_while p n l)
       = BNF_Lexer.eof_token_generated l
    /\ (consistent l -> consistent (BNF_Lexer.advance_while p n l))
    /\ (BNF_Lexer.cc l <> None ->
        BNF_Lexer.cc (BNF_Lexer.advance_while p n l) <> None).
Proof.
  induction n as [|n IH]; intros l; cbn [BNF_Lexer.advance_while].
  - split4; auto; lia.
  - destruct (BNF_Lexer.nc l) as [c|] eqn:Hnc; [|split4; auto; lia].
    destruct (p c); [|split4; auto; lia].
    destruct (IH (BNF_Lexer.advance l)) as (H1 & H2 & H3 & H4).
    rewrite advance_lexpos in H1. rewrite advance_eof in H2.
    split4.
    + lia.
    + exact H2.
    + intros C. apply H3, advance_consistent, C.
    + intros _. apply H4. rewrite advance_cc, Hnc. discriminate.
Qed.

Lemma skip_whitespace_spec (n : nat) :
  forall (l l' : BNF_Lexer.t) (k k' : Z),
    BNF_Lexer.skip_whitespace n l k = (l', k') ->
    BNF_Lexer.eof_token_generated l' = BNF_Lexer.eof_token_generated l
    /\ (consistent l -> consistent l')
    /\ ((l' = l /\ k' = k)
        \/ (BNF_Lexer.lexpos l < BNF_Lexer.lexpos l'
            /\ BNF_Lexer.cc l' <> None)).
Proof.
  induction n as [|n IH]; intros l l' k k'; cbn [BNF_Lexer.skip_whitespace].
  - intros [= <- <-]. auto.
  - destruct (BNF_Lexer.nc l) as [c|] eqn:Hnc; [|intros [= <- <-]; auto].
    destruct (isspace c); [|intros [= <- <-]; auto].
    intros H. apply IH in H as (H1 & H2 & H3).
    rewrite advance_eof in H1. split; [|split].
    + exact H1.
    + intros C. apply H2, advance_consistent, C.
    + right. destruct H3 as [[-> _] | [H3 H4]].
      * rewrite advance_lexpos, advance_cc, Hnc. split; [lia | discriminate].
      * rewrite advance_lexpos in H3. split; [lia | exact H4].
Qed.

Lemma scan_spec_aux (l : BNF_Lexer.t) (c : ascii) :
  match BNF_Lexer.scan l c with
  | Ok (_, l') =>
      BNF_Lexer.lexpos l <= BNF_Lexer.lexpos l'
      /\ BNF_Lexer.eof_token_generated l' = BNF_Lexer.eof_token_generated l
      /\ (consistent l -> consistent l')
      /\ (BNF_Lexer.cc l <> None -> BNF_Lexer.cc l' <> None)
  | Raise _ => True
  end.
Proof.
  unfold BNF_Lexer.scan, BNF_Lexer.lex_error, Message_Handler.error.
  repeat match goal with
         | |- context [if ?b then _ else _] => destruct b eqn:?
         | |- context [match ?x with Some _ => _ | None => _ end] =>
             destruct x eqn:?
         end;
    cbn [bind]; trivial;
    try (split4; auto; lia);
    try (apply advance_while_spec).
  - (* the production operator *)
    rewrite !advance_lexpos, !advance_eof. split4.
    + lia.
    + reflexivity.
    + intros C. apply advance_consistent, advance_consistent, C.
    + intros _.
      destruct (BNF_Lexer.cc (BNF_Lexer.advance (BNF_Lexer.advance l)));
        [discriminate|]. discriminate.
  - (* a quoted symbol *)
    destruct (advance_while_spec BNF_Lexer.not_quote (BNF_Lexer.loop_bound l) l)
      as (H1 & H2 & H3 & H4).
    rewrite advance_lexpos, advance_eof, advance_cc. split4.
    + lia.
    + exact H2.
    + intros C. apply advance_consistent, H3, C.
    + intros _. congruence.
Qed.

Lemma scan_spec (l l' : BNF_Lexer.t) (c : ascii) (k : KIND) :
  BNF_Lexer.scan l c = Ok (k, l') ->
  BNF_Lexer.lexpos l <= BNF_Lexer.lexpos l'
  /\ BNF_Lexer.eof_token_generated l' = BNF_Lexer.eof_token_generated l
  /\ (consistent l -> consistent l')
  /\ (BNF_Lexer.cc l <> None -> BNF_Lexer.cc l' <> None).
Proof.
  intros H. pose proof (scan_spec_aux l c) as A. rewrite H in A. exact A.
Qed.

(** A lexer that has not produced the end-of-fragment token stands
    inside the fragment; once it has produced it, it stands at the end
    for good. *)
Definition live (l : BNF_Lexer.t) : Prop :=
  consistent l
  /\ BNF_Lexer.eof_token_generated l = false
  /\ BNF_Lexer.lexpos l < len (BNF_Lexer.fragment l).

Definition finished (l : BNF_Lexer.t) : Prop :=
  BNF_Lexer.eof_token_generated l = true
  /\ BNF_Lexer.nc l = None
  /\ BNF_Lexer.fragment_length l <= BNF_Lexer.lexpos l + 1.

Lemma init_live (fragment : str) (loc : Source_Reference.t) :
  live (BNF_Lexer.init fragment loc).
Proof.
  split; [apply init_consistent|]. split; [reflexivity|].
  change (-1 < len fragment). pose proof (len_nonneg fragment). lia.
Qed.

Lemma consistent_inside (l : BNF_Lexer.t) :
  consistent l -> BNF_Lexer.cc l <> None ->
  0 <= BNF_Lexer.lexpos l < len (BNF_Lexer.fragment l).
Proof.
  intros C H. destruct (BNF_Lexer.cc l) as [c|] eqn:E; [|congruence].
  rewrite (consistent_cc l C) in E. exact (char_at_bounds _ _ _ E).
Qed.

Lemma token_finished (l : BNF_Lexer.t) :
  finished l ->
  BNF_Lexer.token l = Ok (None, BNF_Lexer.advance l)
  /\ finished (BNF_Lexer.advance l).
Proof.
  intros (He & Hn & Hl). split.
  - unfold BNF_Lexer.token, BNF_Lexer.loop_bound.
    cbn [BNF_Lexer.skip_whitespace]. rewrite Hn.
    change (0 <? 2) with true. cbv iota. rewrite advance_cc, Hn, advance_eof, He.
    reflexivity.
  - split; [|split].
    + rewrite advance_eof. exact He.
    + rewrite advance_nc.
      destruct (BNF_Lexer.lexpos l + 1 + 1 <? BNF_Lexer.fragment_length l)
        eqn:E; [|reflexivity].
      apply Z.ltb_lt in E. lia.
    + rewrite advance_length, advance_lexpos. lia.
Qed.

(** One call of [token] on a live lexer: it returns a token, either the
    synthesized RULE_END, which spans the position just after the
    fragment, or a token that ends inside the fragment. *)
Lemma token_live (l l' : BNF_Lexer.t) (r : option BNF_Token.t) :
  BNF_Lexer.token l = Ok (r, l') -> live l ->
  exists tok,
    r = Some tok
    /\ BNF_Lexer.fragment l' = BNF_Lexer.fragment l
    /\ BNF_Token.start tok <= BNF_Token.end_ tok
    /\ BNF_Lexer.lexpos l <= BNF_Token.start tok
    /\ BNF_Token.end_ tok = BNF_Lexer.lexpos l'
    /\ ((BNF_Token.kind tok = RULE_END
         /\ BNF_Token.value tok = V_None
         /\ BNF_Token.start tok = len (BNF_Lexer.fragment l)
         /\ BNF_Token.end_ tok = len (BNF_Lexer.fragment l)
         /\ finished l')
        \/ (BNF_Token.end_ tok < len (BNF_Lexer.fragment l)
            /\ live l'
            /\ BNF_Lexer.lexpos l < BNF_Lexer.lexpos l'
            /\ (BNF_Token.kind tok <> RULE_END ->
                BNF_Lexer.lexpos l < BNF_Token.start tok))).
Proof.
  intros H (C & He & Hpos). apply token_inv in H.
  inversion H as [l1 l2 k Hs Hl2 Hcc Heof | l1 l2 k Hs Hl2 Hcc Heof
                 | l1 k c Hs Hk Hcc Hle
                 | l1 l2 l3 k c kind value Hs Hk Hl2 Hcc Hscan Hv Hle];
    subst; pose proof (skip_whitespace_fragment _ _ _ _ _ Hs) as Hf;
    destruct (skip_whitespace_spec _ _ _ _ _ Hs) as (E1 & C1 & Hmove);
    specialize (C1 C).
  - (* the end of the fragment *)
    eexists. split; [reflexivity|].
    cbn [BNF_Token.start BNF_Token.end_ BNF_Token.kind BNF_Token.value].
    assert (BNF_Lexer.lexpos l1 < len (BNF_Lexer.fragment l)) as Hl1.
    { destruct Hmove as [[-> _] | [_ Hc]]; [exact Hpos|].
      rewrite <- Hf. apply consistent_inside; assumption. }
    assert (BNF_Lexer.lexpos l <= BNF_Lexer.lexpos l1) as Hll.
    { destruct Hmove as [[-> _] | [Hm _]]; lia. }
    destruct (k <? 2) eqn:Ek.
    + pose proof (advance_consistent _ C1) as C2.
      rewrite (consistent_cc _ C2), advance_fragment, advance_lexpos in Hcc.
      assert (len (BNF_Lexer.fragment l1) <= BNF_Lexer.lexpos l1 + 1) as Hend.
      { destruct (Z_lt_le_dec (BNF_Lexer.lexpos l1 + 1)
                    (len (BNF_Lexer.fragment l1))) as [Hlt|]; [|assumption].
        pose proof (consistent_lexpos _ C1).
        unfold char_at in Hcc.
        destruct (BNF_Lexer.lexpos l1 + 1 <? 0) eqn:E0;
          [apply Z.ltb_lt in E0; lia|].
        apply nth_error_None in Hcc. unfold len in Hlt. lia. }
      rewrite Hf in Hend.
      change (BNF_Lexer.lexpos (BNF_Lexer.set_eof_token_generated
                                  (BNF_Lexer.advance l1)))
        with (BNF_Lexer.lexpos l1 + 1).
      rewrite advance_lexpos.
      split; [exact Hf|]. split; [lia|]. split; [lia|].
      split; [reflexivity|]. left.
      split; [reflexivity|]. split; [reflexivity|].
      split; [lia|]. split; [lia|].
      split; [reflexivity|]. split.
      * change (BNF_Lexer.nc (BNF_Lexer.advance l1) = None).
        rewrite advance_nc.
        destruct (BNF_Lexer.lexpos l1 + 1 + 1 <? BNF_Lexer.fragment_length l1)
          eqn:E; [|reflexivity].
        apply Z.ltb_lt in E. rewrite (consistent_length _ C1), Hf in E. lia.
      * change (BNF_Lexer.fragment_length l1 <= BNF_Lexer.lexpos l1 + 1 + 1).
        rewrite (consistent_length _ C1), Hf. lia.
    + exfalso. apply Z.ltb_ge in Ek.
      destruct Hmove as [[_ ->] | [_ Hc]]; [lia | congruence].
  - (* no token although the end-of-fragment token was not produced *)
    exfalso.
    assert (BNF_Lexer.eof_token_generated l1 = false) as E by congruence.
    destruct (k <? 2); rewrite ?advance_eof in Heof; congruence.
  - (* a blank line *)
    eexists. split; [reflexivity|].
    cbn [BNF_Token.start BNF_Token.end_ BNF_Token.kind BNF_Token.value].
    assert (BNF_Lexer.cc l' <> None) as Hc by congruence.
    pose proof (consistent_inside _ C1 Hc) as Hin. rewrite Hf in Hin.
    split; [exact Hf|]. split; [lia|]. split; [lia|]. split; [reflexivity|].
    right. split; [lia|]. split; [|split].
    + split; [exact C1|]. split; [congruence | rewrite Hf; lia].
    + destruct Hmove as [[_ ->] | [Hm _]]; lia.
    + intros N. congruence.
  - (* an ordinary token *)
    eexists. split; [reflexivity|].
    cbn [BNF_Token.start BNF_Token.end_ BNF_Token.kind BNF_Token.value].
    pose proof (advance_consistent _ C1) as C2.
    destruct (scan_spec _ _ _ _ Hscan) as (S1 & S2 & S3 & S4).
    specialize (S3 C2).
    assert (BNF_Lexer.cc l' <> None) as Hc by (apply S4; congruence).
    pose proof (consistent_inside _ S3 Hc) as Hin.
    pose proof (scan_fragment _ _ _ _ Hscan) as Hf3.
    rewrite advance_fragment in Hf3. rewrite Hf3, Hf in Hin.
    rewrite advance_lexpos in *. rewrite advance_eof in S2.
    assert (BNF_Lexer.lexpos l <= BNF_Lexer.lexpos l1) as Hll.
    { destruct Hmove as [[-> _] | [Hm _]]; lia. }
    split; [congruence|]. split; [lia|]. split; [lia|]. split; [reflexivity|].
    right. split; [lia|]. split; [|split].
    + split; [exact S3|]. split; [congruence | rewrite Hf3, Hf; lia].
    + lia.
    + intros _. lia.
Qed.

(** The answer of the call of [token] that follows [k] earlier calls. *)
Fixpoint token_after (k : nat) (l : BNF_Lexer.t)
    : result (option BNF_Token.t * BNF_Lexer.t) :=
  match k with
  | O => BNF_Lexer.token l
  | S k' => '(_, l') <- BNF_Lexer.token l ;; token_after k' l'
  end.

Lemma finished_forever (k : nat) :
  forall l, finished l -> exists l', token_after k l = Ok (None, l').
Proof.
  induction k as [|k IH]; intros l F;
    destruct (token_finished l F) as [E F']; cbn [token_after]; rewrite E.
  - eauto.
  - cbn [bind]. apply IH, F'.
Qed.

(** The shape of the token stream of a fragment. *)
Definition stream_ends_well (fragment : str) (r : lexing) : Prop :=
  match r with
  | Unfinished _ => False
  | Failed tokens _ =>
      Forall (fun tok => BNF_Token.end_ tok < len fragment) tokens
  | Finished tokens lexer =>
      exists before eof,
        tokens = before ++ [eof]
        /\ BNF_Token.kind eof = RULE_END
        /\ BNF_Token.value eof = V_None
        /\ BNF_Token.start eof = len fragment
        /\ BNF_Token.end_ eof = len fragment
        /\ Forall (fun tok => BNF_Token.end_ tok < len fragment) before
        /\ forall k, exists lexer', token_after k lexer = Ok (None, lexer')
  end.

Lemma drain_live (n : nat) :
  forall (l : BNF_Lexer.t) (acc : list BNF_Token.t),
    live l ->
    (Z.to_nat (len (BNF_Lexer.fragment l) - BNF_Lexer.lexpos l) + 1 < n)%nat ->
    Forall (fun tok => BNF_Token.end_ tok < len (BNF_Lexer.fragment l)) acc ->
    stream_ends_well (BNF_Lexer.fragment l) (drain n l acc).
Proof.
  induction n as [|n IH]; intros l acc L Hn Hacc; [lia|].
  cbn [drain]. destruct (BNF_Lexer.token l) as [[r l']|e] eqn:E;
    [|exact Hacc].
  destruct (token_live _ _ _ E L)
    as (tok & -> & Hf & Hse & Hls & Hend & [Heof | Hin]).
  - destruct Heof as (Hk & Hv & Hs & He & F).
    destruct n as [|n]; [lia|]. cbn [drain].
    destruct (token_finished _ F) as [E' F']. rewrite E'.
    exists acc, tok. repeat (split; [assumption || reflexivity|]).
    intros k. apply finished_forever, F'.
  - destruct Hin as (He & L' & Hlt & _).
    rewrite <- Hf. apply IH.
    + exact L'.
    + destruct L' as (_ & _ & Hpos). rewrite Hf in *. lia.
    + rewrite Hf. apply Forall_app. split; [exact Hacc|].
      constructor; [exact He | constructor].
Qed.

(** *** C4 *)

(** C4.  Calling [token] again and again on the lexer of any fragment
    comes to an end.  Either a call raises, and then no token produced
    so far lies at the end of the fragment; or the stream consists of
    tokens that end inside the fragment, followed by exactly one
    RULE_END token placed just after the last character (whatever the
    fragment ends with), after which the call answers [None], as does
    every later call. *)
Theorem end_of_fragment (fragment : str) (location : Source_Reference.t) :
  exists n,
    stream_ends_well fragment (drain n (BNF_Lexer.init fragment location) []).
Proof.
  exists (S (S (S (Z.to_nat (len fragment + 1))))).
  apply (drain_live _ (BNF_Lexer.init fragment location) []).
  - apply init_live.
  - change (BNF_Lexer.fragment (BNF_Lexer.init fragment location))
      with fragment.
    change (BNF_Lexer.lexpos (BNF_Lexer.init fragment location)) with (-1).
    pose proof (len_nonneg fragment). lia.
  - constructor.
Qed.

(* ------------------------------------------------------------------ *)
(** ** The parser: successful runs as a relation *)

(** The five mutually recursive pieces of [parse_expansion]. *)
Inductive call : Type :=
| Expansion
| Expansion_loop (rv : list BNF_Expansion)
| String_
| String_loop (rv : list BNF_Expansion)
| Fragment.

Definition run (c : call) (fuel : nat) (self : BNF_Parser.t)
    : option (result (BNF_Expansion * BNF_Parser.t)) :=
  match c with
  | Expansion => BNF_Parser.parse_expansion fuel self
  | Expansion_loop rv => BNF_Parser.parse_expansion_loop fuel self rv
  | String_ => BNF_Parser.parse_string fuel self
  | String_loop rv => BNF_Parser.parse_string_loop fuel self rv
  | Fragment => BNF_Parser.parse_fragment fuel self
  end.

Definition leaf_kind (k : KIND) : bool :=
  match k with
  | TERMINAL | NONTERMINAL | SYMBOL => true
  | _ => false
  end.

(** [parses c self n self']: the piece [c], started in [self], returns
    the tree [n] and leaves the parser in [self']. *)
Inductive parses : call -> BNF_Parser.t -> BNF_Expansion -> BNF_Parser.t -> Prop :=
| parses_expansion self n1 self1 n self2 :
    parses String_ self n1 self1 ->
    parses (Expansion_loop [n1]) self1 n self2 ->
    parses Expansion self n self2
| parses_alternative rv self self1 n1 self2 n self3 :
    BNF_Parser.peek self ALTERNATIVE = true ->
    BNF_Parser.match_ self ALTERNATIVE = Ok self1 ->
    parses String_ self1 n1 self2 ->
    parses (Expansion_loop (rv ++ [n1])) self2 n self3 ->
    parses (Expansion_loop rv) self n self3
| parses_expansion_end rv self n :
    BNF_Parser.peek self ALTERNATIVE = false ->
    match rv with
    | [n1] => Ok n1
    | _ => BNF_Alternatives_init rv
    end = Ok n ->
    parses (Expansion_loop rv) self n self
| parses_string self n1 self1 n self2 :
    parses Fragment self n1 self1 ->
    parses (String_loop [n1]) self1 n self2 ->
    parses String_ self n self2
| parses_member rv self tok n1 self1 n self2 :
    BNF_Parser.nt self = Some tok ->
    BNF_Parser.starts_fragment (BNF_Token.kind tok) = true ->
    parses Fragment self n1 self1 ->
    parses (String_loop (rv ++ [n1])) self1 n self2 ->
    parses (String_loop rv) self n self2
| parses_string_end rv self tok n :
    BNF_Parser.nt self = Some tok ->
    BNF_Parser.starts_fragment (BNF_Token.kind tok) = false ->
    match rv with
    | [n1] => Ok n1
    | _ => BNF_String_init rv
    end = Ok n ->
    parses (String_loop rv) self n self
| parses_one_or_more self tok self1 rv self2 self3 :
    BNF_Parser.nt self = Some tok ->
    BNF_Token.kind tok = C_BRA ->
    BNF_Parser.match_ self C_BRA = Ok self1 ->
    parses Expansion self1 rv self2 ->
    BNF_Parser.match_ self2 C_KET = Ok self3 ->
    parses Fragment self (BNF_One_Or_More (BNF_Token.location tok) rv) self3
| parses_optional self tok self1 rv self2 self3 :
    BNF_Parser.nt self = Some tok ->
    BNF_Token.kind tok = S_BRA ->
    BNF_Parser.match_ self S_BRA = Ok self1 ->
    parses Expansion self1 rv self2 ->
    BNF_Parser.match_ self2 S_KET = Ok self3 ->
    parses Fragment self (BNF_Optional (BNF_Token.location tok) rv) self3
| parses_leaf self tok n self1 :
    BNF_Parser.nt self = Some tok ->
    leaf_kind (BNF_Token.kind tok) = true ->
    BNF_Parser.parse_leaf self (BNF_Token.location tok) (BNF_Token.kind tok)
    = Ok (n, self1) ->
    parses Fragment self n self1.

Lemma run_S (c : call) (fuel : nat) (self : BNF_Parser.t) :
  run c (S fuel) self
  = match c with
    | Expansion =>
        '(n, self) <~ run String_ fuel self ;;
        run (Expansion_loop [n]) fuel self
    | Expansion_loop rv =>
        if BNF_Parser.peek self ALTERNATIVE then
          self <~ Some (BNF_Parser.match_ self ALTERNATIVE) ;;
          '(n, self) <~ run String_ fuel self ;;
          run (Expansion_loop (rv ++ [n])) fuel self
        else
          match rv with
          | [n] => Some (Ok (n, self))
          | _ => Some (n <- BNF_Alternatives_init rv ;; Ok (n, self))
          end
    | String_ =>
        '(n, self) <~ run Fragment fuel self ;;
        run (String_loop [n]) fuel self
    | String_loop rv =>
        match BNF_Parser.nt self with
        | None => Some (Raise AttributeError)
        | Some tok =>
            if BNF_Parser.starts_fragment (BNF_Token.kind tok) then
              '(n, self) <~ run Fragment fuel self ;;
              run (String_loop (rv ++ [n])) fuel self
            else
              match rv with
              | [n] => Some (Ok (n, self))
              | _ => Some (n <- BNF_String_init rv ;; Ok (n, self))
              end
        end
    | Fragment =>
        match BNF_Parser.nt self with
        | None => Some (Raise AttributeError)
        | Some tok =>
            let loc := BNF_Token.location tok in
            if BNF_Parser.peek self C_BRA then
              self <~ Some (BNF_Parser.match_ self C_BRA) ;;
              '(rv, self) <~ run Expansion fuel self ;;
              self <~ Some (BNF_Parser.match_ self C_KET) ;;
              Some (Ok (BNF_One_Or_More loc rv, self))
            else if BNF_Parser.peek self S_BRA then
              self <~ Some (BNF_Parser.match_ self S_BRA) ;;
              '(rv, self) <~ run Expansion fuel self ;;
              self <~ Some (BNF_Parser.match_ self S_KET) ;;
              Some (Ok (BNF_Optional loc rv, self))
            else if BNF_Parser.peek self TERMINAL then
              Some (BNF_Parser.parse_leaf self loc TERMINAL)
            else if BNF_Parser.peek self NONTERMINAL then
              Some (BNF_Parser.parse_leaf self loc NONTERMINAL)
            else if BNF_Parser.peek self SYMBOL then
              Some (BNF_Parser.parse_leaf self loc SYMBOL)
            else
              Some (BNF_Parser.error (BNF_Parser.nt self)
                      "expected bnf fragment")
        end
    end.
Proof. destruct c; reflexivity. Qed.

Lemma run_O (c : call) (self : BNF_Parser.t) : run c O self = None.
Proof. destruct c; reflexivity. Qed.

Lemma peek_kind (self : BNF_Parser.t) (tok : BNF_Token.t) (k : KIND) :
  BNF_Parser.nt self = Some tok ->
  BNF_Parser.peek self k = true <-> BNF_Token.kind tok = k.
Proof. unfold BNF_Parser.peek. intros ->. apply KIND_eqb_eq. Qed.

Lemma collapse_Ok {A : Type} (rv : list BNF_Expansion)
    (init : list BNF_Expansion -> result BNF_Expansion)
    (self : A) (n : BNF_Expansion) (self' : A) :
  match rv with
  | [n1] => Some (Ok (n1, self))
  | _ => Some (n0 <- init rv ;; Ok (n0, self))
  end = Some (Ok (n, self')) ->
  self' = self
  /\ match rv with
     | [n1] => Ok n1
     | _ => init rv
     end = Ok n.
Proof.
  destruct rv as [|n1 [|n2 rv]]; intros [= H];
    try (apply bind_Ok in H as (n0 & E & [= <- <-]); auto).
  subst. auto.
Qed.

(** Every successful run of the functions is a derivation. *)
Lemma run_parses (fuel : nat) :
  forall c self n self',
    run c fuel self = Some (Ok (n, self')) -> parses c self n self'.
Proof.
  induction fuel as [|fuel IH]; intros c self n self' H;
    [rewrite run_O in H; discriminate|].
  rewrite run_S in H. destruct c.
  - apply fbind_Ok in H as ([n1 self1] & H1 & H2).
    eapply parses_expansion; eauto.
  - destruct (BNF_Parser.peek self ALTERNATIVE) eqn:P.
    + apply fbind_Ok in H as (self1 & [= H1] & H).
      apply fbind_Ok in H as ([n1 self2] & H2 & H3).
      eapply parses_alternative; eauto.
    + apply collapse_Ok in H as [-> H].
      apply parses_expansion_end; assumption.
  - apply fbind_Ok in H as ([n1 self1] & H1 & H2).
    eapply parses_string; eauto.
  - destruct (BNF_Parser.nt self) as [tok|] eqn:N; [|discriminate].
    destruct (BNF_Parser.starts_fragment (BNF_Token.kind tok)) eqn:F.
    + apply fbind_Ok in H as ([n1 self1] & H1 & H2).
      eapply parses_member; eauto.
    + apply collapse_Ok in H as [-> H].
      eapply parses_string_end; eauto.
  - destruct (BNF_Parser.nt self) as [tok|] eqn:N; [|discriminate].
    cbv zeta in H.
    destruct (BNF_Parser.peek self C_BRA) eqn:P1.
    { apply (peek_kind _ _ _ N) in P1.
      apply fbind_Ok in H as (self1 & [= H1] & H).
      apply fbind_Ok in H as ([rv self2] & H2 & H).
      apply fbind_Ok in H as (self3 & [= H3] & [= <- <-]).
      eapply parses_one_or_more; eauto. }
    destruct (BNF_Parser.peek self S_BRA) eqn:P2.
    { apply (peek_kind _ _ _ N) in P2.
      apply fbind_Ok in H as (self1 & [= H1] & H).
      apply fbind_Ok in H as ([rv self2] & H2 & H).
      apply fbind_Ok in H as (self3 & [= H3] & [= <- <-]).
      eapply parses_optional; eauto. }
    destruct (BNF_Parser.peek self TERMINAL) eqn:P3.
    { apply (peek_kind _ _ _ N) in P3. injection H as H.
      eapply parses_leaf; eauto; rewrite P3; [reflexivity | exact H]. }
    destruct (BNF_Parser.peek self NONTERMINAL) eqn:P4.
    { apply (peek_kind _ _ _ N) in P4. injection H as H.
      eapply parses_leaf; eauto; rewrite P4; [reflexivity | exact H]. }
    destruct (BNF_Parser.peek self SYMBOL) eqn:P5.
    { apply (peek_kind _ _ _ N) in P5. injection H as H.
      eapply parses_leaf; eauto; rewrite P5; [reflexivity | exact H]. }
    discriminate H.
Qed.

Lemma collapse_run {A : Type} (rv : list BNF_Expansion)
    (init : list BNF_Expansion -> result BNF_Expansion)
    (self : A) (n : BNF_Expansion) :
  match rv with
  | [n1] => Ok n1
  | _ => init rv
  end = Ok n ->
  match rv with
  | [n1] => Some (Ok (n1, self))
  | _ => Some (n0 <- init rv ;; Ok (n0, self))
  end = Some (Ok (n, self)).
Proof.
  destruct rv as [|n1 [|n2 rv]]; intros H; rewrite ?H; try reflexivity.
  injection H as ->. reflexivity.
Qed.

(** Every derivation is a run, for every budget from some point on. *)
Lemma parses_run (c : call) (self self' : BNF_Parser.t) (n : BNF_Expansion) :
  parses c self n self' ->
  exists fuel, forall fuel',
      (fuel <= fuel')%nat -> run c fuel' self = Some (Ok (n, self')).
Proof.
  induction 1 as
    [ self n1 self1 n self2 _ [f1 IH1] _ [f2 IH2]
    | rv self self1 n1 self2 n self3 P M _ [f1 IH1] _ [f2 IH2]
    | rv self n P E
    | self n1 self1 n self2 _ [f1 IH1] _ [f2 IH2]
    | rv self tok n1 self1 n self2 N F _ [f1 IH1] _ [f2 IH2]
    | rv self tok n N F E
    | self tok self1 rv self2 self3 N K M1 _ [f1 IH1] M2
    | self tok self1 rv self2 self3 N K M1 _ [f1 IH1] M2
    | self tok n self1 N K E ].
  - exists (S (Nat.max f1 f2)). intros [|f] Hf; [lia|].
    rewrite run_S, IH1 by lia. cbn [fbind]. apply IH2. lia.
  - exists (S (Nat.max f1 f2)). intros [|f] Hf; [lia|].
    rewrite run_S, P, M. cbn [fbind]. rewrite IH1 by lia. cbn [fbind].
    apply IH2. lia.
  - exists 1%nat. intros [|f] Hf; [lia|].
    rewrite run_S, P. apply collapse_run, E.
  - exists (S (Nat.max f1 f2)). intros [|f] Hf; [lia|].
    rewrite run_S, IH1 by lia. cbn [fbind]. apply IH2. lia.
  - exists (S (Nat.max f1 f2)). intros [|f] Hf; [lia|].
    rewrite run_S, N, F, IH1 by lia. cbn [fbind]. apply IH2. lia.
  - exists 1%nat. intros [|f] Hf; [lia|].
    rewrite run_S, N, F. apply collapse_run, E.
  - exists (S f1). intros [|f] Hf; [lia|].
    rewrite run_S, N. cbv zeta.
    rewrite (proj2 (peek_kind _ _ C_BRA N) K), M1. cbn [fbind].
    rewrite IH1 by lia. cbn [fbind]. rewrite M2. reflexivity.
  - exists (S f1). intros [|f] Hf; [lia|].
    rewrite run_S, N. cbv zeta.
    unfold BNF_Parser.peek at 1. rewrite N, K. cbn [KIND_eqb KIND_eq_dec].
    rewrite (proj2 (peek_kind _ _ S_BRA N) K), M1. cbn [fbind].
    rewrite IH1 by lia. cbn [fbind]. rewrite M2. reflexivity.
  - exists 1%nat. intros [|f] Hf; [lia|].
    rewrite run_S, N. cbv zeta. unfold BNF_Parser.peek. rewrite N.
    destruct (BNF_Token.kind tok); try discriminate K;
      cbn; rewrite E; reflexivity.
Qed.

(* ------------------------------------------------------------------ *)
(** ** The shape of parsed trees *)

(** What [parse_fragment] and what [parse_string] can return. *)
Definition is_fragment (n : BNF_Expansion) : Prop :=
  match n with
  | BNF_Literal _ _ _ _ | BNF_Optional _ _ | BNF_One_Or_More _ _ => True
  | _ => False
  end.

Definition is_string (n : BNF_Expansion) : Prop :=
  match n with
  | BNF_Alternatives _ _ => False
  | _ => True
  end.

(** Sequences and alternations have two members or more. *)
Fixpoint at_least_two (n : BNF_Expansion) : Prop :=
  match n with
  | BNF_Literal _ _ _ _ => True
  | BNF_Optional _ e => at_least_two e
  | BNF_One_Or_More _ e => at_least_two e
  | BNF_String _ ms =>
      (2 <= List.length ms)%nat
      /\ fold_right (fun m acc => at_least_two m /\ acc) True ms
  | BNF_Alternatives _ ms =>
      (2 <= List.length ms)%nat
      /\ fold_right (fun m acc => at_least_two m /\ acc) True ms
  end.

(** The trees of the parser: a sequence has two or more members, none of
    them a sequence or an alternation; an alternation has two or more
    members, none of them an alternation; the location of either is the
    location of its first member. *)
Fixpoint canonical (n : BNF_Expansion) : Prop :=
  match n with
  | BNF_Literal _ _ _ _ => True
  | BNF_Optional _ e => canonical e
  | BNF_One_Or_More _ e => canonical e
  | BNF_String l ms =>
      (2 <= List.length ms)%nat
      /\ option_map location (hd_error ms) = Some l
      /\ fold_right (fun m acc => (is_fragment m /\ canonical m) /\ acc) True ms
  | BNF_Alternatives l ms =>
      (2 <= List.length ms)%nat
      /\ option_map location (hd_error ms) = Some l
      /\ fold_right (fun m acc => (is_string m /\ canonical m) /\ acc) True ms
  end.

Lemma fold_right_and_Forall {A : Type} (P : A -> Prop) (l : list A) :
  fold_right (fun m acc => P m /\ acc) True l <-> Forall P l.
Proof.
  induction l as [|a l IH]; simpl.
  - split; auto.
  - rewrite IH. split.
    + intros [H1 H2]. constructor; assumption.
    + intros H. inversion H; auto.
Qed.

Lemma canonical_at_least_two (n : BNF_Expansion) :
  canonical n -> at_least_two n.
Proof.
  induction n as [l k v nm | l e IH | l e IH | l ms IH | l ms IH]
    using BNF_Expansion_rect'; simpl; auto.
  - intros (H2 & _ & H). split; [exact H2|].
    apply fold_right_and_Forall. apply fold_right_and_Forall in H.
    rewrite Forall_forall in *. intros m Hm. apply IH; [exact Hm|].
    apply (H m Hm).
  - intros (H2 & _ & H). split; [exact H2|].
    apply fold_right_and_Forall. apply fold_right_and_Forall in H.
    rewrite Forall_forall in *. intros m Hm. apply IH; [exact Hm|].
    apply (H m Hm).
Qed.

Lemma BNF_String_init_two (n1 n2 : BNF_Expansion) (rv : list BNF_Expansion) :
  BNF_String_init (n1 :: n2 :: rv)
  = Ok (BNF_String (location n1) (n1 :: n2 :: rv)).
Proof.
  unfold BNF_String_init.
  replace (2 <=? Z.of_nat (List.length (n1 :: n2 :: rv))) with true;
    [reflexivity|].
  symmetry. apply Z.leb_le. cbn [List.length]. lia.
Qed.

Lemma BNF_Alternatives_init_two (n1 n2 : BNF_Expansion)
    (rv : list BNF_Expansion) :
  BNF_Alternatives_init (n1 :: n2 :: rv)
  = Ok (BNF_Alternatives (location n1) (n1 :: n2 :: rv)).
Proof.
  unfold BNF_Alternatives_init.
  replace (2 <=? Z.of_nat (List.length (n1 :: n2 :: rv))) with true;
    [reflexivity|].
  symmetry. apply Z.leb_le. cbn [List.length]. lia.
Qed.

Lemma collapse_string (rv : list BNF_Expansion) (n : BNF_Expansion) :
  rv <> [] ->
  Forall (fun m => is_fragment m /\ canonical m) rv ->
  match rv with
  | [n1] => Ok n1
  | _ => BNF_String_init rv
  end = Ok n ->
  is_string n /\ canonical n
  /\ option_map location (hd_error rv) = Some (location n).
Proof.
  intros Hne H. destruct rv as [|n1 [|n2 rv]]; [congruence|..].
  - intros [= <-]. inversion H as [|? ? [F C] _]; subst.
    destruct n1; simpl in *; tauto.
  - rewrite BNF_String_init_two. intros [= <-]. cbn.
    split; [exact I|]. split; [|reflexivity].
    split; [lia|]. split; [reflexivity|].
    exact (proj2 (fold_right_and_Forall
                    (fun m => is_fragment m /\ canonical m) (n1 :: n2 :: rv))
             H).
Qed.

Lemma collapse_alternatives (rv : list BNF_Expansion) (n : BNF_Expansion) :
  rv <> [] ->
  Forall (fun m => is_string m /\ canonical m) rv ->
  match rv with
  | [n1] => Ok n1
  | _ => BNF_Alternatives_init rv
  end = Ok n ->
  canonical n /\ option_map location (hd_error rv) = Some (location n).
Proof.
  intros Hne H. destruct rv as [|n1 [|n2 rv]]; [congruence|..].
  - intros [= <-]. inversion H as [|? ? [F C] _]; subst. auto.
  - rewrite BNF_Alternatives_init_two. intros [= <-]. cbn.
    split; [|reflexivity].
    split; [lia|]. split; [reflexivity|].
    exact (proj2 (fold_right_and_Forall
                    (fun m => is_string m /\ canonical m) (n1 :: n2 :: rv))
             H).
Qed.

Lemma parse_leaf_literal (self self' : BNF_Parser.t) (loc : Source_Reference.t)
    (k : KIND) (n : BNF_Expansion) :
  BNF_Parser.parse_leaf self loc k = Ok (n, self') ->
  exists lk v nm, n = BNF_Literal loc lk v nm.
Proof.
  unfold BNF_Parser.parse_leaf. intros H.
  apply bind_Ok in H as (s1 & _ & H).
  apply bind_Ok in H as (k1 & _ & H).
  apply bind_Ok in H as (v & _ & H).
  assert (forall text name r,
             (n0 <- BNF_Literal_init loc k1 text name ;; Ok (n0, s1)) = Ok r ->
             exists lk, r = (BNF_Literal loc lk text name, s1)) as L.
  { intros text name r Hr. apply bind_Ok in Hr as (n0 & Hi & [= <-]).
    destruct k1; cbn in Hi; try discriminate; injection Hi as <-; eauto. }
  destruct k;
    try (apply bind_Ok in H as (v0 & _ & H); apply bind_Ok in H as (v1 & _ & H);
         apply L in H as (lk & [= -> ->]); eauto).
  destruct v; try discriminate.
  apply L in H as (lk & [= -> ->]). eauto.
Qed.

(** The trees of successful runs are canonical, and their location is
    the location of the first token. *)
Lemma parses_canonical (c : call) (self self' : BNF_Parser.t)
    (n : BNF_Expansion) :
  parses c self n self' ->
  match c with
  | Fragment => is_fragment n /\ canonical n
  | String_ => is_string n /\ canonical n
  | Expansion => canonical n
  | String_loop rv =>
      rv <> [] -> Forall (fun m => is_fragment m /\ canonical m) rv ->
      is_string n /\ canonical n
  | Expansion_loop rv =>
      rv <> [] -> Forall (fun m => is_string m /\ canonical m) rv ->
      canonical n
  end.
Proof.
  induction 1 as
    [ self n1 self1 n self2 _ IH1 _ IH2
    | rv self self1 n1 self2 n self3 P M _ IH1 _ IH2
    | rv self n P E
    | self n1 self1 n self2 _ IH1 _ IH2
    | rv self tok n1 self1 n self2 N F _ IH1 _ IH2
    | rv self tok n N F E
    | self tok self1 rv self2 self3 N K M1 _ IH1 M2
    | self tok self1 rv self2 self3 N K M1 _ IH1 M2
    | self tok n self1 N K E ].
  - apply IH2; [discriminate | constructor; [exact IH1 | constructor]].
  - intros Hne Hrv. apply IH2.
    + destruct rv; discriminate.
    + apply Forall_app. split; [exact Hrv | constructor; [exact IH1|constructor]].
  - intros Hne Hrv. exact (proj1 (collapse_alternatives _ _ Hne Hrv E)).
  - apply IH2; [discriminate | constructor; [exact IH1 | constructor]].
  - intros Hne Hrv. apply IH2.
    + destruct rv; discriminate.
    + apply Forall_app. split; [exact Hrv | constructor; [exact IH1|constructor]].
  - intros Hne Hrv. destruct (collapse_string _ _ Hne Hrv E) as (A & B & _).
    auto.
  - simpl. auto.
  - simpl. auto.
  - apply parse_leaf_literal in E as (lk & v & nm & ->). simpl. auto.
Qed.

(* ------------------------------------------------------------------ *)
(** ** Productions and the loop of [parse] *)

Lemma error_Raise {A : Type} (tok : option BNF_Token.t) (m : string) (a : A) :
  BNF_Parser.error tok m <> Ok a.
Proof. destruct tok; discriminate. Qed.

Lemma match_Ok (self self' : BNF_Parser.t) (k : KIND) :
  BNF_Parser.match_ self k = Ok self' ->
  exists tok lx lx' r,
    BNF_Parser.nt self = Some tok
    /\ BNF_Token.kind tok = k
    /\ BNF_Parser.current_lexer self = Some lx
    /\ BNF_Lexer.token lx = Ok (r, lx')
    /\ self' = BNF_Parser.set_lexer_state self (Some lx') (Some tok) r.
Proof.
  unfold BNF_Parser.match_.
  destruct (BNF_Parser.nt self) as [tok|] eqn:N;
    [|intros H; exfalso; exact (error_Raise _ _ _ H)].
  destruct (KIND_eqb (BNF_Token.kind tok) k) eqn:K; cbn [negb];
    [|intros H; exfalso; exact (error_Raise _ _ _ H)].
  apply KIND_eqb_eq in K. unfold BNF_Parser.advance.
  destruct (BNF_Parser.current_lexer self) as [lx|] eqn:L; [|discriminate].
  intros H. apply bind_Ok in H as ([r lx'] & T & [= <-]).
  rewrite N. exists tok, lx, lx', r. auto.
Qed.

(** The symbol table and the diagnostics of two parsers agree. *)
Definition same_tables (a b : BNF_Parser.t) : Prop :=
  BNF_Parser.mh b = BNF_Parser.mh a
  /\ BNF_Parser.terminals b = BNF_Parser.terminals a
  /\ BNF_Parser.productions b = BNF_Parser.productions a
  /\ BNF_Parser.bundles b = BNF_Parser.bundles a.

Lemma same_tables_refl (a : BNF_Parser.t) : same_tables a a.
Proof. repeat split. Qed.

Lemma same_tables_trans (a b c : BNF_Parser.t) :
  same_tables a b -> same_tables b c -> same_tables a c.
Proof.
  unfold same_tables. intros (A1 & A2 & A3 & A4) (B1 & B2 & B3 & B4).
  repeat split; congruence.
Qed.

Lemma match_tables (self self' : BNF_Parser.t) (k : KIND) :
  BNF_Parser.match_ self k = Ok self' -> same_tables self self'.
Proof.
  intros H. apply match_Ok in H as (tok & lx & lx' & r & _ & _ & _ & _ & ->).
  repeat split.
Qed.

Lemma parse_leaf_tables (self self' : BNF_Parser.t) (loc : Source_Reference.t)
    (k : KIND) (n : BNF_Expansion) :
  BNF_Parser.parse_leaf self loc k = Ok (n, self') ->
  BNF_Parser.match_ self k = Ok self'.
Proof.
  unfold BNF_Parser.parse_leaf. intros H.
  apply bind_Ok in H as (s1 & M & H). rewrite M. f_equal.
  apply bind_Ok in H as (k1 & _ & H).
  apply bind_Ok in H as (v & _ & H).
  destruct k;
    try (apply bind_Ok in H as (v0 & _ & H); apply bind_Ok in H as (v1 & _ & H);
         apply bind_Ok in H as (n0 & _ & [= _ <-]); reflexivity).
  destruct v; try discriminate.
  apply bind_Ok in H as (n0 & _ & [= _ <-]). reflexivity.
Qed.

(** The recursive descent only reads tokens. *)
Lemma parses_tables (c : call) (self self' : BNF_Parser.t)
    (n : BNF_Expansion) :
  parses c self n self' -> same_tables self self'.
Proof.
  induction 1;
    repeat match goal with
           | H : BNF_Parser.match_ _ _ = Ok _ |- _ => apply match_tables in H
           | H : BNF_Parser.parse_leaf _ _ _ = Ok _ |- _ =>
               apply parse_leaf_tables, match_tables in H
           end;
    eauto using same_tables_refl, same_tables_trans.
Qed.

(** One production: the steps of [parse_production] that succeed. *)
Inductive declares
    : BNF_Parser.t -> str -> BNF_Expansion -> BNF_Parser.t -> Prop :=
| declares_intro self self1 self2 self3 tok prod_name n :
    BNF_Parser.match_ self NONTERMINAL = Ok self1 ->
    BNF_Parser.ct self1 = Some tok ->
    value_0 (BNF_Token.value tok) = Ok prod_name ->
    dict_mem (BNF_Parser.productions self1) prod_name = false ->
    BNF_Parser.match_ self1 PRODUCTION = Ok self2 ->
    parses Expansion self2 n self3 ->
    declares self prod_name n
      (BNF_Parser.set_productions self3
         (dict_set (BNF_Parser.productions self3) prod_name n)).

(** The loop of [parse]: the productions it declares, in order. *)
Inductive loops (name : str)
    : BNF_Parser.t -> list (str * BNF_Expansion) -> BNF_Parser.t -> Prop :=
| loops_end self :
    BNF_Parser.nt self = None ->
    loops name self [] self
| loops_step self tok prod_name n self1 self2 self3 decls self4 :
    BNF_Parser.nt self = Some tok ->
    declares self prod_name n self1 ->
    BNF_Parser.bundle_append self1 name prod_name = Ok self2 ->
    BNF_Parser.match_ self2 RULE_END = Ok self3 ->
    loops name self3 decls self4 ->
    loops name self ((prod_name, n) :: decls) self4.

Lemma parse_production_declares (fuel : nat) (self self' : BNF_Parser.t)
    (prod_name : str) :
  BNF_Parser.parse_production fuel self = Some (Ok (prod_name, self')) ->
  exists n, declares self prod_name n self'.
Proof.
  unfold BNF_Parser.parse_production. intros H.
  apply fbind_Ok in H as (s1 & [= M1] & H).
  apply fbind_Ok in H as (v & [= V] & H).
  apply fbind_Ok in H as (p & [= V0] & H).
  apply fbind_Ok in H as ([] & [= D] & H).
  apply fbind_Ok in H as (s2 & [= M2] & H).
  apply fbind_Ok in H as ([n s3] & P & [= <- <-]).
  apply (run_parses fuel Expansion) in P.
  unfold BNF_Parser.ct_value in V.
  destruct (BNF_Parser.ct s1) as [tok|] eqn:C; [|discriminate].
  injection V as <-.
  destruct (dict_mem (BNF_Parser.productions s1) p) eqn:Dm;
    [exfalso; exact (error_Raise _ _ _ D)|].
  exists n. eapply declares_intro; eauto.
Qed.

Lemma declares_parse_production (self self' : BNF_Parser.t) (prod_name : str)
    (n : BNF_Expansion) :
  declares self prod_name n self' ->
  exists fuel, forall fuel',
      (fuel <= fuel')%nat ->
      BNF_Parser.parse_production fuel' self = Some (Ok (prod_name, self')).
Proof.
  intros [s s1 s2 s3 tok p a M1 C V D M2 P].
  destruct (parses_run _ _ _ _ P) as [fuel R]. exists fuel. intros fuel' Hf.
  unfold BNF_Parser.parse_production, BNF_Parser.ct_value.
  rewrite M1. cbn [fbind]. rewrite C. cbn [fbind]. rewrite V. cbn [fbind].
  rewrite D. cbn [fbind]. rewrite M2. cbn [fbind].
  change (BNF_Parser.parse_expansion fuel' s2) with (run Expansion fuel' s2).
  rewrite (R fuel' Hf). reflexivity.
Qed.

Lemma parse_loop_loops (fuel : nat) :
  forall (self self' : BNF_Parser.t) (name : str),
    BNF_Parser.parse_loop fuel self name = Some (Ok self') ->
    exists decls, loops name self decls self'.
Proof.
  induction fuel as [|fuel IH]; intros self self' name H; [discriminate|].
  cbn [BNF_Parser.parse_loop] in H.
  destruct (BNF_Parser.nt self) as [tok|] eqn:N.
  - apply fbind_Ok in H as ([p s1] & D & H).
    apply fbind_Ok in H as (s2 & [= B] & H).
    apply fbind_Ok in H as (s3 & [= M] & H).
    apply parse_production_declares in D as [n D].
    apply IH in H as [decls L].
    exists ((p, n) :: decls). eapply loops_step; eauto.
  - injection H as <-. exists []. apply loops_end, N.
Qed.

Lemma loops_parse_loop (name : str) (self self' : BNF_Parser.t)
    (decls : list (str * BNF_Expansion)) :
  loops name self decls self' ->
  exists fuel, forall fuel',
      (fuel <= fuel')%nat ->
      BNF_Parser.parse_loop fuel' self name = Some (Ok self').
Proof.
  induction 1 as [self N | self tok p n s1 s2 s3 decls s4 N D B M _ [f2 IH]].
  - exists 1%nat. intros [|f] Hf; [lia|].
    cbn [BNF_Parser.parse_loop]. rewrite N. reflexivity.
  - destruct (declares_parse_production _ _ _ _ D) as [f1 R].
    exists (S (Nat.max f1 f2)). intros [|f] Hf; [lia|].
    cbn [BNF_Parser.parse_loop]. rewrite N, R by lia. cbn [fbind].
    rewrite B. cbn [fbind]. rewrite M. cbn [fbind]. apply IH. lia.
Qed.

(** The steps of [parse] that succeed. *)
Lemma parse_Ok (fuel : nat) (self self' : BNF_Parser.t)
    (obj : Record_Object.t) :
  BNF_Parser.parse fuel self obj = Some (Ok self') ->
  exists tok lexer self1 decls,
    BNF_Parser.current_lexer self = None
    /\ startswith (Record_Object.bnf_text obj) BNF_Parser.triple_quote = true
    /\ BNF_Lexer.token
         (BNF_Lexer.init (slice (Record_Object.bnf_text obj) 3 (-3))
            (Record_Object.bnf_location obj))
       = Ok (tok, lexer)
    /\ loops (Record_Object.name obj)
         (BNF_Parser.set_bundles
            (BNF_Parser.set_lexer_state self (Some lexer) None tok)
            (dict_set (BNF_Parser.bundles self) (Record_Object.name obj) []))
         decls self1
    /\ self' = BNF_Parser.set_lexer_state self1 None None None.
Proof.
  unfold BNF_Parser.parse. intros H.
  apply fbind_Ok in H as ([] & [= A] & H).
  apply fbind_Ok in H as ([] & [= S] & H).
  apply fbind_Ok in H as ([tok lexer] & [= T] & H).
  apply fbind_Ok in H as (s1 & L & [= <-]).
  apply parse_loop_loops in L as [decls L].
  exists tok, lexer, s1, decls.
  destruct (BNF_Parser.current_lexer self); [discriminate A|].
  destruct (startswith (Record_Object.bnf_text obj) BNF_Parser.triple_quote);
    [|discriminate S].
  auto.
Qed.

(* ------------------------------------------------------------------ *)
(** ** Dictionaries *)

Lemma dict_set_fresh {V : Type} (d : dict V) (k : str) (v : V) :
  dict_mem d k = false -> dict_set d k v = d ++ [(k, v)].
Proof.
  unfold dict_mem. induction d as [|[k' v'] d IH]; simpl; [reflexivity|].
  destruct (str_eqb k' k); [discriminate|].
  intros H. rewrite IH by exact H. reflexivity.
Qed.

Lemma dict_get_set_same {V : Type} (d : dict V) (k : str) (v : V) :
  dict_get (dict_set d k v) k = Some v.
Proof.
  induction d as [|[k' v'] d IH]; simpl.
  - rewrite str_eqb_refl. reflexivity.
  - destruct (str_eqb k' k) eqn:E; simpl; rewrite E; [reflexivity | exact IH].
Qed.

Lemma dict_get_set_other {V : Type} (d : dict V) (k k' : str) (v : V) :
  k' <> k -> dict_get (dict_set d k v) k' = dict_get d k'.
Proof.
  intros N. induction d as [|[k0 v0] d IH]; simpl.
  - destruct (str_eqb k k') eqn:E; [|reflexivity].
    apply str_eqb_eq in E. congruence.
  - destruct (str_eqb k0 k) eqn:E; simpl.
    + apply str_eqb_eq in E. subst k0.
      destruct (str_eqb k k') eqn:E'; [|reflexivity].
      apply str_eqb_eq in E'. congruence.
    + rewrite IH. reflexivity.
Qed.

Lemma dict_get_In {V : Type} (d : dict V) (k : str) (v : V) :
  dict_get d k = Some v -> In (k, v) d.
Proof.
  induction d as [|[k' v'] d IH]; simpl; [discriminate|].
  destruct (str_eqb k' k) eqn:E.
  - apply str_eqb_eq in E. intros [= ->]. left. congruence.
  - intros H. right. apply IH, H.
Qed.

Lemma dict_get_app {V : Type} (d e : dict V) (k : str) :
  dict_get (d ++ e) k
  = match dict_get d k with
    | Some v => Some v
    | None => dict_get e k
    end.
Proof.
  induction d as [|[k' v'] d IH]; simpl; [reflexivity|].
  destruct (str_eqb k' k); [reflexivity | exact IH].
Qed.

Lemma dict_get_None {V : Type} (d : dict V) (k : str) :
  dict_get d k = None <-> ~ In k (dict_keys d).
Proof.
  rewrite <- dict_mem_keys. unfold dict_mem.
  destruct (dict_get d k); split; congruence.
Qed.

Lemma dict_get_NoDup {V : Type} (d : dict V) (k : str) (v : V) :
  NoDup (dict_keys d) -> In (k, v) d -> dict_get d k = Some v.
Proof.
  induction d as [|[k' v'] d IH]; simpl; [contradiction|].
  intros N [E|I].
  - injection E as -> ->. rewrite str_eqb_refl. reflexivity.
  - inversion N as [|? ? Hk Hd]; subst.
    destruct (str_eqb k' k) eqn:E.
    + apply str_eqb_eq in E. subst. exfalso. apply Hk.
      apply (in_map fst) in I. exact I.
    + apply IH; assumption.
Qed.

(* ------------------------------------------------------------------ *)
(** ** What a call of [parse] leaves in the symbol table *)

Lemma declares_tables (self self' : BNF_Parser.t) (p : str)
    (n : BNF_Expansion) :
  declares self p n self' ->
  BNF_Parser.productions self' = BNF_Parser.productions self ++ [(p, n)]
  /\ dict_mem (BNF_Parser.productions self) p = false
  /\ BNF_Parser.mh self' = BNF_Parser.mh self
  /\ BNF_Parser.terminals self' = BNF_Parser.terminals self
  /\ BNF_Parser.bundles self' = BNF_Parser.bundles self
  /\ canonical n.
Proof.
  intros [s s1 s2 s3 tok q a M1 C V D M2 P].
  pose proof (parses_canonical _ _ _ _ P) as Hc. cbn in Hc.
  apply match_tables in M1, M2. apply parses_tables in P.
  destruct M1 as (A1 & A2 & A3 & A4), M2 as (B1 & B2 & B3 & B4),
    P as (C1 & C2 & C3 & C4).
  cbn [BNF_Parser.productions BNF_Parser.set_productions BNF_Parser.mh
         BNF_Parser.terminals BNF_Parser.bundles].
  rewrite A3 in D. rewrite C3, B3, A3.
  rewrite dict_set_fresh by exact D.
  split; [reflexivity|]. split; [exact D|].
  split; [congruence|]. split; [congruence|]. split; [congruence | exact Hc].
Qed.

Lemma bundle_append_Ok (self self' : BNF_Parser.t) (name x : str) :
  BNF_Parser.bundle_append self name x = Ok self' ->
  exists b,
    dict_get (BNF_Parser.bundles self) name = Some b
    /\ self' = BNF_Parser.set_bundles self
                 (dict_set (BNF_Parser.bundles self) name (b ++ [x])).
Proof.
  unfold BNF_Parser.bundle_append.
  destruct (dict_get (BNF_Parser.bundles self) name) as [b|]; [|discriminate].
  intros [= <-]. eauto.
Qed.

(** The loop appends its declarations to [productions] and their names
    to the bundle, and touches nothing else. *)
Lemma loops_tables (name : str) (self self' : BNF_Parser.t)
    (decls : list (str * BNF_Expansion)) :
  loops name self decls self' ->
  BNF_Parser.productions self' = BNF_Parser.productions self ++ decls
  /\ NoDup (map fst decls)
  /\ (forall p, In p (map fst decls) ->
                dict_get (BNF_Parser.productions self) p = None)
  /\ Forall (fun d => canonical (snd d)) decls
  /\ BNF_Parser.mh self' = BNF_Parser.mh self
  /\ BNF_Parser.terminals self' = BNF_Parser.terminals self
  /\ (forall k, k <> name ->
                dict_get (BNF_Parser.bundles self') k
                = dict_get (BNF_Parser.bundles self) k)
  /\ (forall b, dict_get (BNF_Parser.bundles self) name = Some b ->
                dict_get (BNF_Parser.bundles self') name
                = Some (b ++ map fst decls)).
Proof.
  induction 1 as [self N | self tok p n s1 s2 s3 decls s4 N D B M _ IH].
  - rewrite app_nil_r. repeat split; auto; try constructor.
    + contradiction.
    + intros b Hb. cbn. rewrite app_nil_r. exact Hb.
  - apply declares_tables in D as (D1 & D2 & D3 & D4 & D5 & D6).
    apply bundle_append_Ok in B as (b1 & Hb1 & ->).
    apply match_tables in M as (M1 & M2 & M3 & M4).
    cbn [BNF_Parser.productions BNF_Parser.set_bundles BNF_Parser.mh
           BNF_Parser.terminals BNF_Parser.bundles] in *.
    destruct IH as (I1 & I2 & I3 & I4 & I5 & I6 & I7 & I8).
    rewrite M3, D1 in I1, I3. rewrite M4 in I7, I8.
    split; [rewrite I1, <- app_assoc; reflexivity|].
    split.
    { cbn [map fst]. constructor; [|exact I2]. intros Hin.
      specialize (I3 p Hin). rewrite dict_get_app in I3.
      destruct (dict_get (BNF_Parser.productions self) p); [discriminate|].
      cbn in I3. rewrite str_eqb_refl in I3. discriminate. }
    split.
    { intros q [E|Hq]; [cbn [fst] in E; subst q|].
      - unfold dict_mem in D2.
        destruct (dict_get (BNF_Parser.productions self) p);
          [discriminate | reflexivity].
      - specialize (I3 q Hq). rewrite dict_get_app in I3.
        destruct (dict_get (BNF_Parser.productions self) q);
          [discriminate | reflexivity]. }
    split; [constructor; assumption|].
    split; [congruence|]. split; [congruence|].
    split.
    { intros k Hk. rewrite I7 by exact Hk.
      rewrite dict_get_set_other by exact Hk. rewrite D5. reflexivity. }
    intros b Hb. rewrite D5, Hb in Hb1. injection Hb1 as <-.
    rewrite (I8 (b ++ [p])) by apply dict_get_set_same.
    rewrite <- app_assoc. reflexivity.
Qed.

(** The symbol table after a call of [parse] that returns. *)
Lemma parse_tables (fuel : nat) (self self' : BNF_Parser.t)
    (obj : Record_Object.t) :
  BNF_Parser.parse fuel self obj = Some (Ok self') ->
  exists decls,
    BNF_Parser.productions self' = BNF_Parser.productions self ++ decls
    /\ NoDup (map fst decls)
    /\ (forall p, In p (map fst decls) ->
                  dict_get (BNF_Parser.productions self) p = None)
    /\ Forall (fun d => canonical (snd d)) decls
    /\ BNF_Parser.mh self' = BNF_Parser.mh self
    /\ BNF_Parser.terminals self' = BNF_Parser.terminals self
    /\ (forall k, k <> Record_Object.name obj ->
                  dict_get (BNF_Parser.bundles self') k
                  = dict_get (BNF_Parser.bundles self) k)
    /\ dict_get (BNF_Parser.bundles self') (Record_Object.name obj)
       = Some (map fst decls).
Proof.
  intros H. apply parse_Ok in H as (tok & lx & s1 & decls & _ & _ & _ & L & ->).
  apply loops_tables in L as (L1 & L2 & L3 & L4 & L5 & L6 & L7 & L8).
  cbn [BNF_Parser.productions BNF_Parser.set_bundles BNF_Parser.mh
         BNF_Parser.terminals BNF_Parser.bundles BNF_Parser.set_lexer_state]
    in *.
  exists decls. repeat (split; [assumption|]). split.
  - intros k Hk. rewrite L7 by exact Hk. apply dict_get_set_other, Hk.
  - apply (L8 []). apply dict_get_set_same.
Qed.

(** *** C6 *)

(** C6.  In every tree returned by [parse_expansion], [parse_string] or
    [parse_fragment], and in every tree that [parse] stores in
    [productions], each sequence and each alternation has at least two
    members.  [parse_string] returns its single member when it has
    parsed one fragment only (its result is then no sequence), and
    [parse_expansion] returns its single alternative when it has parsed
    one sequence only. *)
Theorem no_single_child :
  (forall fuel self n self',
      BNF_Parser.parse_expansion fuel self = Some (Ok (n, self')) ->
      at_least_two n)
  /\ (forall fuel self n self',
         BNF_Parser.parse_string fuel self = Some (Ok (n, self')) ->
         at_least_two n /\ is_string n)
  /\ (forall fuel self n self',
         BNF_Parser.parse_fragment fuel self = Some (Ok (n, self')) ->
         at_least_two n /\ is_fragment n)
  /\ (forall fuel self obj self',
         (forall p n, dict_get (BNF_Parser.productions self) p = Some n ->
                      at_least_two n) ->
         BNF_Parser.parse fuel self obj = Some (Ok self') ->
         forall p n, dict_get (BNF_Parser.productions self') p = Some n ->
                     at_least_two n).
Proof.
  split; [|split; [|split]].
  - intros fuel self n self' H. apply (run_parses fuel Expansion) in H.
    apply parses_canonical in H. apply canonical_at_least_two, H.
  - intros fuel self n self' H. apply (run_parses fuel String_) in H.
    apply parses_canonical in H as [S C].
    split; [apply canonical_at_least_two, C | exact S].
  - intros fuel self n self' H. apply (run_parses fuel Fragment) in H.
    apply parses_canonical in H as [F C].
    split; [apply canonical_at_least_two, C | exact F].
  - intros fuel self obj self' Hold H p n Hp.
    apply parse_tables in H as (decls & P & _ & _ & Hc & _).
    rewrite P, dict_get_app in Hp.
    destruct (dict_get (BNF_Parser.productions self) p) as [n0|] eqn:E.
    + injection Hp as <-. exact (Hold p n0 E).
    + apply dict_get_In in Hp. rewrite Forall_forall in Hc.
      apply canonical_at_least_two. exact (Hc (p, n) Hp).
Qed.

Definition grammar (text : string) : Record_Object.t :=
  Record_Object.make (py "G") (py text) loc0.

(** The parser after [parse] on a fresh parser, when it returns. *)
Definition parsed (fuel : nat) (obj : Record_Object.t) : BNF_Parser.t :=
  match BNF_Parser.parse fuel parser_0 obj with
  | Some (Ok self) => self
  | _ => parser_0
  end.

Lemma no_single_child_witness :
  exists n,
    dict_get
      (BNF_Parser.productions
         (parsed 20 (grammar "'''foo ::= 'a' BAR | [ baz ]'''")))
      (py "foo") = Some n
    /\ at_least_two n.
Proof.
  eexists. split; [vm_compute; reflexivity|].
  refine (proj2 (proj2 (proj2 no_single_child)) 20%nat parser_0
            (grammar "'''foo ::= 'a' BAR | [ baz ]'''") _ _ _
            (py "foo") _ _).
  - intros p n H. discriminate H.
  - vm_compute. reflexivity.
  - vm_compute. reflexivity.
Defined.

(* ------------------------------------------------------------------ *)
(** ** The messages of the errors *)

(** The result [r] is not the error with the message [m]. *)
Definition not_raised {A : Type} (m : string) (r : result A) : Prop :=
  match r with
  | Raise (TRLC_Error _ m') => m' <> m
  | _ => True
  end.

Definition never_raised {A : Type} (m : string) (r : option (result A))
    : Prop :=
  match r with
  | Some r => not_raised m r
  | None => True
  end.

Lemma not_raised_bind {A B : Type} (m : string) (x : result A)
    (k : A -> result B) :
  not_raised m x -> (forall a, x = Ok a -> not_raised m (k a)) ->
  not_raised m (bind x k).
Proof. destruct x as [a|e]; cbn; auto. Qed.

Lemma never_raised_fbind {A B : Type} (m : string) (x : option (result A))
    (k : A -> option (result B)) :
  never_raised m x -> (forall a, x = Some (Ok a) -> never_raised m (k a)) ->
  never_raised m (fbind x k).
Proof. destruct x as [[a|e]|]; cbn; auto. Qed.

Definition bnf_text_message : string := "BNF text must use ''' strings".

Ltac not_raised_step :=
  match goal with
  | |- not_raised _ (bind _ _) => apply not_raised_bind; [|intros ? ?]
  | |- not_raised _ (Ok _) => exact I
  | |- not_raised _ (Raise AssertionError) => exact I
  | |- not_raised _ (Raise AttributeError) => exact I
  | |- not_raised _ (Raise TypeError) => exact I
  | |- not_raised _ (Raise IndexError) => exact I
  | |- not_raised _ (Raise KeyError) => exact I
  | |- not_raised _ (Raise (TRLC_Error _ _)) => cbn; discriminate
  | |- not_raised _ (if ?b then _ else _) => destruct b
  | |- not_raised _ (match ?x with _ => _ end) => destruct x
  end.

Lemma assert_message (b : bool) : not_raised bnf_text_message (assert b).
Proof. destruct b; exact I. Qed.

Lemma split_loop_message (p : ascii -> bool) (raw : str) :
  forall t_kind t_name in_kind,
    not_raised bnf_text_message
      (BNF_Lexer.split_loop p raw t_kind t_name in_kind).
Proof.
  induction raw as [|c raw IH]; intros t_kind t_name in_kind;
    cbn [BNF_Lexer.split_loop]; [exact I|].
  destruct (in_kind && p c).
  - apply not_raised_bind; [apply assert_message | intros; apply IH].
  - destruct in_kind; [apply IH|]. destruct t_name; [apply IH | exact I].
Qed.

Lemma token_message (l : BNF_Lexer.t) :
  not_raised bnf_text_message (BNF_Lexer.token l).
Proof.
  unfold BNF_Lexer.token, BNF_Token.init.
  destruct (BNF_Lexer.skip_whitespace (BNF_Lexer.loop_bound l) l 0)
    as [l1 k].
  destruct (BNF_Lexer.cc (if k <? 2 then BNF_Lexer.advance l1 else l1)).
  - destruct (2 <=? k).
    + repeat first [apply assert_message | not_raised_step].
    + apply not_raised_bind.
      * unfold BNF_Lexer.scan, BNF_Lexer.lex_error, Message_Handler.error.
        repeat first [apply assert_message | not_raised_step].
      * intros [kind l2] _. apply not_raised_bind.
        -- unfold BNF_Lexer.split_terminal, BNF_Lexer.split_nonterminal.
           destruct kind;
             repeat first [apply split_loop_message | not_raised_step].
        -- intros v _. repeat first [apply assert_message | not_raised_step].
  - repeat first [apply assert_message | not_raised_step].
Qed.

Lemma match_message (self : BNF_Parser.t) (k : KIND) :
  not_raised bnf_text_message (BNF_Parser.match_ self k).
Proof.
  unfold BNF_Parser.match_, BNF_Parser.error, BNF_Parser.advance,
    Message_Handler.error.
  repeat first [apply token_message | not_raised_step].
Qed.

Lemma parse_leaf_message (self : BNF_Parser.t) (loc : Source_Reference.t)
    (k : KIND) :
  not_raised bnf_text_message (BNF_Parser.parse_leaf self loc k).
Proof.
  unfold BNF_Parser.parse_leaf, BNF_Parser.ct_kind, BNF_Parser.ct_value,
    value_0, value_1, BNF_Literal_init.
  apply not_raised_bind; [apply match_message|]. intros s1 _.
  repeat not_raised_step.
Qed.

Lemma collapse_message {A : Type} (rv : list BNF_Expansion)
    (init : list BNF_Expansion -> result BNF_Expansion) (self : A) :
  (forall ms, not_raised bnf_text_message (init ms)) ->
  never_raised bnf_text_message
    match rv with
    | [n1] => Some (Ok (n1, self))
    | _ => Some (n0 <- init rv ;; Ok (n0, self))
    end.
Proof.
  intros H. destruct rv as [|n1 [|n2 rv]]; cbn [never_raised];
    try exact I; (apply not_raised_bind; [apply H | intros; exact I]).
Qed.

Lemma node_init_message :
  (forall ms, not_raised bnf_text_message (BNF_String_init ms))
  /\ (forall ms, not_raised bnf_text_message (BNF_Alternatives_init ms)).
Proof.
  split; intros ms; unfold BNF_String_init, BNF_Alternatives_init;
    repeat first [apply assert_message | not_raised_step].
Qed.

Lemma run_message (fuel : nat) :
  forall c self, never_raised bnf_text_message (run c fuel self).
Proof.
  induction fuel as [|fuel IH]; intros c self;
    [rewrite run_O; exact I|].
  rewrite run_S. destruct c.
  - apply never_raised_fbind; [apply IH|]. intros [n s] _. apply IH.
  - destruct (BNF_Parser.peek self ALTERNATIVE).
    + apply never_raised_fbind; [apply match_message|]. intros s1 _.
      apply never_raised_fbind; [apply IH|]. intros [n s] _. apply IH.
    + apply collapse_message, node_init_message.
  - apply never_raised_fbind; [apply IH|]. intros [n s] _. apply IH.
  - destruct (BNF_Parser.nt self) as [tok|]; [|exact I].
    destruct (BNF_Parser.starts_fragment (BNF_Token.kind tok)).
    + apply never_raised_fbind; [apply IH|]. intros [n s] _. apply IH.
    + apply collapse_message, node_init_message.
  - destruct (BNF_Parser.nt self) as [tok|]; [|exact I]. cbv zeta.
    repeat match goal with
           | |- never_raised _ (if ?b then _ else _) => destruct b
           end;
      try (apply parse_leaf_message);
      try (cbn; discriminate);
      (apply never_raised_fbind; [apply match_message|]; intros s1 _;
       apply never_raised_fbind; [apply IH|]; intros [n s] _;
       apply never_raised_fbind; [apply match_message|]; intros s2 _;
       exact I).
Qed.

Lemma parse_production_message (fuel : nat) (self : BNF_Parser.t) :
  never_raised bnf_text_message (BNF_Parser.parse_production fuel self).
Proof.
  unfold BNF_Parser.parse_production.
  apply never_raised_fbind; [apply match_message|]. intros s1 _.
  apply never_raised_fbind.
  { unfold BNF_Parser.ct_value. cbn. destruct (BNF_Parser.ct s1); exact I. }
  intros v _. apply never_raised_fbind.
  { cbn. unfold value_0. repeat not_raised_step. }
  intros p _. apply never_raised_fbind.
  { cbn. unfold BNF_Parser.error, Message_Handler.error.
    repeat not_raised_step. }
  intros _ _. apply never_raised_fbind; [apply match_message|]. intros s2 _.
  apply never_raised_fbind; [apply (run_message fuel Expansion)|].
  intros [n s3] _. exact I.
Qed.

Lemma parse_loop_message (fuel : nat) :
  forall self name,
    never_raised bnf_text_message (BNF_Parser.parse_loop fuel self name).
Proof.
  induction fuel as [|fuel IH]; intros self name; [exact I|].
  cbn [BNF_Parser.parse_loop]. destruct (BNF_Parser.nt self); [|exact I].
  apply never_raised_fbind; [apply parse_production_message|].
  intros [p s1] _. apply never_raised_fbind.
  { cbn. unfold BNF_Parser.bundle_append. repeat not_raised_step. }
  intros s2 _. apply never_raised_fbind; [apply match_message|].
  intros s3 _. apply IH.
Qed.

Lemma parse_message (fuel : nat) (self : BNF_Parser.t)
    (obj : Record_Object.t) :
  startswith (Record_Object.bnf_text obj) BNF_Parser.triple_quote = true ->
  never_raised bnf_text_message (BNF_Parser.parse fuel self obj).
Proof.
  intros S. unfold BNF_Parser.parse. rewrite S.
  apply never_raised_fbind; [apply assert_message|]. intros _ _.
  apply never_raised_fbind; [exact I|]. intros _ _.
  apply never_raised_fbind; [apply token_message|]. intros [tok lx] _.
  apply never_raised_fbind; [apply parse_loop_message|]. intros s _.
  exact I.
Qed.

(** *** C2 (as amended) *)

(** C2, amended.  A call of [parse] on a parser that is not in the
    middle of another call raises the error about the triple-quoted
    text if and only if the text does not start with the marker; the
    end of the text is not examined (its last three characters are
    dropped, whatever they are). *)
Theorem triple_quote_error (fuel : nat) (self : BNF_Parser.t)
    (obj : Record_Object.t) :
  BNF_Parser.current_lexer self = None ->
  (exists loc,
      BNF_Parser.parse fuel self obj
      = Some (Raise (TRLC_Error loc bnf_text_message)))
  <-> startswith (Record_Object.bnf_text obj) BNF_Parser.triple_quote = false.
Proof.
  intros L.
  destruct (startswith (Record_Object.bnf_text obj) BNF_Parser.triple_quote)
    eqn:S.
  - split; [|discriminate]. intros [loc H]. exfalso.
    pose proof (parse_message fuel self obj S) as N.
    rewrite H in N. cbn in N. congruence.
  - split; [reflexivity|]. intros _.
    unfold BNF_Parser.parse. rewrite L, S. eexists. reflexivity.
Qed.

Lemma triple_quote_error_witness :
  (exists loc,
      BNF_Parser.parse 0 parser_0 (grammar "foo ::= BAR")
      = Some (Raise (TRLC_Error loc bnf_text_message)))
  /\ ~ (exists loc,
           BNF_Parser.parse 20 parser_0 (grammar "'''foo ::= BAR'''")
           = Some (Raise (TRLC_Error loc bnf_text_message))).
Proof.
  split.
  - apply (proj2 (triple_quote_error 0 parser_0 (grammar "foo ::= BAR")
                    eq_refl)).
    reflexivity.
  - intros H.
    apply (proj1 (triple_quote_error 20 parser_0
                    (grammar "'''foo ::= BAR'''") eq_refl)) in H.
    discriminate H.
Defined.

(** C2, counterexample: a text that starts with the marker and does not
    end with it is parsed without complaint. *)
Lemma triple_quote_error_counterexample :
  let obj := grammar "'''foo ::= 'a'xyz" in
  startswith (Record_Object.bnf_text obj) BNF_Parser.triple_quote = true
  /\ endswith (Record_Object.bnf_text obj) BNF_Parser.triple_quote = false
  /\ exists self',
      BNF_Parser.parse 20 parser_0 obj = Some (Ok self')
      /\ dict_get (BNF_Parser.bundles self') (py "G") = Some [py "foo"].
Proof.
  split; [reflexivity|]. split; [reflexivity|].
  eexists. split; vm_compute; reflexivity.
Qed.

(* ------------------------------------------------------------------ *)
(** ** The parser and the stream of tokens *)

(** [tokens_from l ts l']: the calls of [token] on [l] return the tokens
    [ts], then [None], and leave the lexer [l']. *)
Inductive tokens_from
    : BNF_Lexer.t -> list BNF_Token.t -> BNF_Lexer.t -> Prop :=
| tokens_end l l' :
    BNF_Lexer.token l = Ok (None, l') ->
    tokens_from l [] l'
| tokens_next l tok l1 ts l' :
    BNF_Lexer.token l = Ok (Some tok, l1) ->
    tokens_from l1 ts l' ->
    tokens_from l (tok :: ts) l'.

Lemma drain_S (n : nat) (l : BNF_Lexer.t) (acc : list BNF_Token.t) :
  drain (S n) l acc
  = match BNF_Lexer.token l with
    | Ok (Some tok, l') => drain n l' (acc ++ [tok])
    | Ok (None, l') => Finished acc l'
    | Raise e => Failed acc e
    end.
Proof. reflexivity. Qed.

Lemma tokens_from_drain (l l' : BNF_Lexer.t) (ts : list BNF_Token.t) :
  tokens_from l ts l' ->
  forall acc, drain (S (List.length ts)) l acc = Finished (acc ++ ts) l'.
Proof.
  induction 1 as [l l' E | l tok l1 ts l' E _ IH]; intros acc;
    rewrite drain_S, E.
  - rewrite app_nil_r. reflexivity.
  - cbn [List.length]. rewrite IH, <- app_assoc. reflexivity.
Qed.

(** The tokens that a parser has still to see: its lookahead token and
    the tokens its lexer will return. *)
Definition pending (self : BNF_Parser.t) (ts : list BNF_Token.t) : Prop :=
  match BNF_Parser.nt self with
  | None => ts = []
  | Some tok =>
      exists l ts' l',
        BNF_Parser.current_lexer self = Some l
        /\ ts = tok :: ts'
        /\ tokens_from l ts' l'
  end.

(** The names that a stream of tokens declares: the base names of the
    NONTERMINAL tokens that a PRODUCTION token follows. *)
Fixpoint declared_names (ts : list BNF_Token.t) : list str :=
  match ts with
  | [] => []
  | t1 :: rest =>
      match rest with
      | t2 :: _ =>
          if KIND_eqb (BNF_Token.kind t1) NONTERMINAL
             && KIND_eqb (BNF_Token.kind t2) PRODUCTION
          then match value_0 (BNF_Token.value t1) with
               | Ok base => base :: declared_names rest
               | Raise _ => declared_names rest
               end
          else declared_names rest
      | [] => []
      end
  end.

Definition inner_token (tok : BNF_Token.t) : Prop :=
  BNF_Token.kind tok <> PRODUCTION /\ BNF_Token.kind tok <> RULE_END.

Lemma match_pending (self self' : BNF_Parser.t) (k : KIND)
    (ts : list BNF_Token.t) :
  BNF_Parser.match_ self k = Ok self' ->
  pending self' ts ->
  exists tok,
    BNF_Parser.nt self = Some tok
    /\ BNF_Token.kind tok = k
    /\ BNF_Parser.ct self' = Some tok
    /\ pending self (tok :: ts).
Proof.
  intros M P. apply match_Ok in M as (tok & l & l1 & r & N & K & L & T & ->).
  exists tok. split; [exact N|]. split; [exact K|]. split; [reflexivity|].
  unfold pending in *. rewrite N.
  cbn [BNF_Parser.nt BNF_Parser.set_lexer_state BNF_Parser.current_lexer] in P.
  destruct r as [tok'|].
  - destruct P as (l0 & ts' & l' & [= <-] & -> & F).
    exists l, (tok' :: ts'), l'. split; [exact L|]. split; [reflexivity|].
    eapply tokens_next; eauto.
  - subst ts. exists l, [], l1. split; [exact L|]. split; [reflexivity|].
    apply tokens_end, T.
Qed.

Lemma parse_leaf_pending (self self' : BNF_Parser.t)
    (loc : Source_Reference.t) (k : KIND) (n : BNF_Expansion)
    (ts : list BNF_Token.t) :
  BNF_Parser.parse_leaf self loc k = Ok (n, self') ->
  leaf_kind k = true ->
  pending self' ts ->
  exists tok, inner_token tok /\ pending self (tok :: ts).
Proof.
  intros E K P. apply parse_leaf_tables in E.
  destruct (match_pending _ _ _ _ E P) as (tok & _ & Hk & _ & Hp).
  exists tok. split; [|exact Hp].
  unfold inner_token. rewrite Hk. destruct k; try discriminate K;
    split; discriminate.
Qed.

(** A successful run consumes tokens of the stream, none of them a
    PRODUCTION or a RULE_END. *)
Lemma parses_pending (c : call) (self self' : BNF_Parser.t)
    (n : BNF_Expansion) :
  parses c self n self' ->
  forall ts, pending self' ts ->
             exists consumed,
               Forall inner_token consumed /\ pending self (consumed ++ ts).
Proof.
  induction 1 as
    [ self n1 self1 n self2 _ IH1 _ IH2
    | rv self self1 n1 self2 n self3 P M _ IH1 _ IH2
    | rv self n P E
    | self n1 self1 n self2 _ IH1 _ IH2
    | rv self tok n1 self1 n self2 N F _ IH1 _ IH2
    | rv self tok n N F E
    | self tok self1 rv self2 self3 N K M1 _ IH1 M2
    | self tok self1 rv self2 self3 N K M1 _ IH1 M2
    | self tok n self1 N K E ]; intros ts Hp.
  - destruct (IH2 ts Hp) as (c2 & F2 & P2).
    destruct (IH1 _ P2) as (c1 & F1 & P1).
    exists (c1 ++ c2). rewrite <- app_assoc.
    split; [apply Forall_app; auto | exact P1].
  - destruct (IH2 ts Hp) as (c2 & F2 & P2).
    destruct (IH1 _ P2) as (c1 & F1 & P1).
    destruct (match_pending _ _ _ _ M P1) as (t & _ & Hk & _ & P0).
    exists (t :: c1 ++ c2). cbn [app]. rewrite <- app_assoc.
    split; [|exact P0]. constructor; [|apply Forall_app; auto].
    unfold inner_token. rewrite Hk. split; discriminate.
  - exists []. split; [constructor | exact Hp].
  - destruct (IH2 ts Hp) as (c2 & F2 & P2).
    destruct (IH1 _ P2) as (c1 & F1 & P1).
    exists (c1 ++ c2). rewrite <- app_assoc.
    split; [apply Forall_app; auto | exact P1].
  - destruct (IH2 ts Hp) as (c2 & F2 & P2).
    destruct (IH1 _ P2) as (c1 & F1 & P1).
    exists (c1 ++ c2). rewrite <- app_assoc.
    split; [apply Forall_app; auto | exact P1].
  - exists []. split; [constructor | exact Hp].
  - destruct (match_pending _ _ _ _ M2 Hp) as (t2 & _ & K2 & _ & P2).
    destruct (IH1 _ P2) as (c1 & F1 & P1).
    destruct (match_pending _ _ _ _ M1 P1) as (t1 & _ & K1 & _ & P0).
    exists (t1 :: c1 ++ [t2]). cbn [app]. rewrite <- app_assoc.
    split; [|exact P0]. constructor.
    + unfold inner_token. rewrite K1. split; discriminate.
    + apply Forall_app. split; [exact F1|]. constructor; [|constructor].
      unfold inner_token. rewrite K2. split; discriminate.
  - destruct (match_pending _ _ _ _ M2 Hp) as (t2 & _ & K2 & _ & P2).
    destruct (IH1 _ P2) as (c1 & F1 & P1).
    destruct (match_pending _ _ _ _ M1 P1) as (t1 & _ & K1 & _ & P0).
    exists (t1 :: c1 ++ [t2]). cbn [app]. rewrite <- app_assoc.
    split; [|exact P0]. constructor.
    + unfold inner_token. rewrite K1. split; discriminate.
    + apply Forall_app. split; [exact F1|]. constructor; [|constructor].
      unfold inner_token. rewrite K2. split; discriminate.
  - destruct (parse_leaf_pending _ _ _ _ _ _ E K Hp) as (t & Ft & Pt).
    exists [t]. split; [constructor; [exact Ft | constructor] | exact Pt].
Qed.

Lemma declared_names_cons (t1 t2 : BNF_Token.t) (rest : list BNF_Token.t) :
  declared_names (t1 :: t2 :: rest)
  = if KIND_eqb (BNF_Token.kind t1) NONTERMINAL
       && KIND_eqb (BNF_Token.kind t2) PRODUCTION
    then match value_0 (BNF_Token.value t1) with
         | Ok base => base :: declared_names (t2 :: rest)
         | Raise _ => declared_names (t2 :: rest)
         end
    else declared_names (t2 :: rest).
Proof. reflexivity. Qed.

Lemma KIND_eqb_neq (a b : KIND) : a <> b -> KIND_eqb a b = false.
Proof. unfold KIND_eqb. destruct (KIND_eq_dec a b); congruence. Qed.

Lemma declared_names_inner (consumed : list BNF_Token.t) :
  forall (t0 t1 : BNF_Token.t) (ts : list BNF_Token.t),
    Forall inner_token consumed ->
    BNF_Token.kind t1 = RULE_END ->
    declared_names (t0 :: consumed ++ t1 :: ts) = declared_names ts.
Proof.
  induction consumed as [|c consumed IH]; intros t0 t1 ts F K.
  - cbn [app]. rewrite declared_names_cons, K.
    rewrite (KIND_eqb_neq RULE_END PRODUCTION) by discriminate.
    rewrite andb_false_r.
    destruct ts as [|t2 ts]; [reflexivity|].
    rewrite declared_names_cons, K.
    rewrite (KIND_eqb_neq RULE_END NONTERMINAL) by discriminate.
    reflexivity.
  - inversion F as [|? ? [Hc _] F']; subst.
    cbn [app]. rewrite declared_names_cons.
    rewrite (KIND_eqb_neq _ PRODUCTION Hc), andb_false_r.
    apply IH; assumption.
Qed.

Lemma pending_tables (a b : BNF_Parser.t) (ts : list BNF_Token.t) :
  BNF_Parser.nt b = BNF_Parser.nt a ->
  BNF_Parser.current_lexer b = BNF_Parser.current_lexer a ->
  pending a ts -> pending b ts.
Proof. unfold pending. intros -> ->. auto. Qed.

Lemma declares_pending (self self' : BNF_Parser.t) (p : str)
    (n : BNF_Expansion) (ts : list BNF_Token.t) :
  declares self p n self' ->
  pending self' ts ->
  exists head arrow consumed,
    pending self (head :: arrow :: consumed ++ ts)
    /\ BNF_Token.kind head = NONTERMINAL
    /\ value_0 (BNF_Token.value head) = Ok p
    /\ BNF_Token.kind arrow = PRODUCTION
    /\ Forall inner_token consumed.
Proof.
  intros [s s1 s2 s3 tok q a M1 C V D M2 P] Hp.
  apply (pending_tables _ s3) in Hp; [|reflexivity..].
  destruct (parses_pending _ _ _ _ P _ Hp) as (consumed & F & P2).
  destruct (match_pending _ _ _ _ M2 P2) as (arrow & _ & Ka & _ & P1).
  destruct (match_pending _ _ _ _ M1 P1) as (head & _ & Kh & Ch & P0).
  exists head, arrow, consumed.
  rewrite C in Ch. injection Ch as <-. auto.
Qed.

(** The names that the loop of [parse] declares are the names that the
    stream of tokens declares, in the same order. *)
Lemma loops_pending (name : str) (self self' : BNF_Parser.t)
    (decls : list (str * BNF_Expansion)) :
  loops name self decls self' ->
  exists ts, pending self ts /\ declared_names ts = map fst decls.
Proof.
  induction 1 as [self N | self tok p n s1 s2 s3 decls s4 N D B M _ IH].
  - exists []. unfold pending. rewrite N. auto.
  - destruct IH as (ts3 & P3 & E3).
    destruct (match_pending _ _ _ _ M P3) as (t & _ & Kt & _ & P2).
    apply bundle_append_Ok in B as (b & _ & ->).
    apply (pending_tables _ s1) in P2; [|reflexivity..].
    destruct (declares_pending _ _ _ _ _ D P2)
      as (head & arrow & consumed & P0 & Kh & Vh & Ka & F).
    exists (head :: arrow :: consumed ++ t :: ts3). split; [exact P0|].
    rewrite declared_names_cons, Kh, Ka, Vh.
    change (KIND_eqb NONTERMINAL NONTERMINAL && KIND_eqb PRODUCTION PRODUCTION)
      with true.
    cbv iota. cbn [map fst]. f_equal.
    rewrite declared_names_inner by assumption. exact E3.
Qed.

(** The bundle of a call of [parse] that returns, read off the tokens of
    the fragment. *)
Lemma parse_stream (fuel : nat) (self self' : BNF_Parser.t)
    (obj : Record_Object.t) :
  BNF_Parser.parse fuel self obj = Some (Ok self') ->
  exists ts l',
    tokens_from
      (BNF_Lexer.init (slice (Record_Object.bnf_text obj) 3 (-3))
         (Record_Object.bnf_location obj)) ts l'
    /\ dict_get (BNF_Parser.bundles self') (Record_Object.name obj)
       = Some (declared_names ts).
Proof.
  intros H. pose proof (parse_tables _ _ _ _ H) as (decls' & _ & _ & _ & _ & _ & _ & _ & Hb).
  apply parse_Ok in H as (tok & lx & s1 & decls & _ & _ & T & L & ->).
  pose proof (loops_tables _ _ _ _ L) as (_ & _ & _ & _ & _ & _ & _ & L8).
  cbn [BNF_Parser.bundles BNF_Parser.set_bundles BNF_Parser.set_lexer_state]
    in *.
  specialize (L8 [] (dict_get_set_same _ _ _)). cbn [app] in L8.
  apply loops_pending in L as (ts & P & E).
  unfold pending in P.
  cbn [BNF_Parser.nt BNF_Parser.set_bundles BNF_Parser.set_lexer_state
         BNF_Parser.current_lexer] in P.
  destruct tok as [tok|].
  - destruct P as (l0 & ts' & l' & [= <-] & -> & F).
    exists (tok :: ts'), l'. split; [eapply tokens_next; eauto|].
    rewrite L8, E. reflexivity.
  - subst ts. exists [], lx. split; [apply tokens_end, T|].
    rewrite L8, <- E. reflexivity.
Qed.

(* ------------------------------------------------------------------ *)
(** ** The bundle of a grammar block *)

Definition rule_end_message : string :=
  "expected NONTERMINAL, encountered RULE_END instead".

Lemma loops_nonempty (name : str) (self self' : BNF_Parser.t)
    (decls : list (str * BNF_Expansion)) (tok : BNF_Token.t) :
  loops name self decls self' ->
  BNF_Parser.nt self = Some tok ->
  decls <> [].
Proof. intros L N. inversion L; subst; [congruence | discriminate]. Qed.

Lemma parse_bundle_order (fuel : nat) (self self' : BNF_Parser.t)
    (obj : Record_Object.t) :
  BNF_Parser.parse fuel self obj = Some (Ok self') ->
  exists n tokens lexer,
    drain n
      (BNF_Lexer.init (slice (Record_Object.bnf_text obj) 3 (-3))
         (Record_Object.bnf_location obj)) []
    = Finished tokens lexer
    /\ dict_get (BNF_Parser.bundles self') (Record_Object.name obj)
       = Some (declared_names tokens).
Proof.
  intros H. apply parse_stream in H as (ts & l' & F & B).
  exists (S (List.length ts)), ts, l'. split; [|exact B].
  apply (tokens_from_drain _ _ _ F []).
Qed.

(** *** C3 (as amended) *)

(** C3, amended.  For a well-delimited fragment [parse] accepts one or
    more productions, each followed by RULE_END.  The empty fragment is
    rejected with a syntax error: the synthesized RULE_END stands where
    a NONTERMINAL is expected.  When [parse] returns, the bundle is not
    empty and lists the names that the tokens of the fragment declare,
    in the order of the tokens. *)
Theorem bundle_of_fragment :
  (forall fuel self obj,
      BNF_Parser.current_lexer self = None ->
      startswith (Record_Object.bnf_text obj) BNF_Parser.triple_quote = true ->
      slice (Record_Object.bnf_text obj) 3 (-3) = [] ->
      exists loc,
        BNF_Parser.parse (S fuel) self obj
        = Some (Raise (TRLC_Error loc rule_end_message)))
  /\ (forall fuel self obj self',
         BNF_Parser.parse fuel self obj = Some (Ok self') ->
         exists n tokens lexer bundle,
           drain n
             (BNF_Lexer.init (slice (Record_Object.bnf_text obj) 3 (-3))
                (Record_Object.bnf_location obj)) []
           = Finished tokens lexer
           /\ dict_get (BNF_Parser.bundles self') (Record_Object.name obj)
              = Some bundle
           /\ bundle = declared_names tokens
           /\ bundle <> []).
Proof.
  split.
  - intros fuel self obj L S E. unfold BNF_Parser.parse.
    rewrite L, S, E. eexists. reflexivity.
  - intros fuel self obj self' H.
    destruct (parse_bundle_order _ _ _ _ H) as (n & tokens & lexer & D & B).
    exists n, tokens, lexer, (declared_names tokens).
    split; [exact D|]. split; [exact B|]. split; [reflexivity|].
    apply parse_Ok in H as (tok & lx & s1 & decls & _ & _ & T & Lp & ->).
    destruct (token_live _ _ _ T (init_live _ _)) as (t & -> & _).
    pose proof (loops_nonempty _ _ _ _ t Lp eq_refl) as Hne.
    apply loops_tables in Lp as (_ & _ & _ & _ & _ & _ & _ & L8).
    cbn [BNF_Parser.bundles BNF_Parser.set_bundles] in L8.
    specialize (L8 [] (dict_get_set_same _ _ _)). cbn [app] in L8.
    cbn [BNF_Parser.bundles BNF_Parser.set_lexer_state] in B.
    rewrite L8 in B. injection B as B.
    intros Hnil. rewrite Hnil in B. destruct decls; [congruence | discriminate].
Qed.

Lemma bundle_of_fragment_witness :
  (exists loc,
      BNF_Parser.parse 1 parser_0 (grammar "''''''")
      = Some (Raise (TRLC_Error loc rule_end_message)))
  /\ dict_get
       (BNF_Parser.bundles
          (parsed 20 (grammar "'''expr ::= term_LEFT '+' term_RIGHT

term ::= NUMBER'''")))
       (py "G")
     = Some [py "expr"; py "term"].
Proof.
  split.
  - apply (proj1 bundle_of_fragment 0%nat parser_0 (grammar "''''''"));
      reflexivity.
  - destruct (proj2 bundle_of_fragment 20%nat parser_0
                (grammar "'''expr ::= term_LEFT '+' term_RIGHT

term ::= NUMBER'''")
                (parsed 20 (grammar "'''expr ::= term_LEFT '+' term_RIGHT

term ::= NUMBER'''")))
      as (n & tokens & lexer & bundle & _ & B & _ & _).
    + vm_compute. reflexivity.
    + vm_compute. reflexivity.
Defined.

(** C3, counterexample: the empty fragment does not parse. *)
Lemma bundle_of_fragment_counterexample :
  BNF_Parser.parse 20 parser_0 (grammar "''''''")
  = Some (Raise (TRLC_Error (Source_Reference.make 0 0 3 3) rule_end_message)).
Proof. vm_compute. reflexivity. Qed.

(** *** C10 *)

(** C10.  After a call of [parse] that returns, the bundle of the object
    lists the names of the productions declared by the call, in the
    order in which the tokens of the fragment declare them.  Each of
    these names was no key of [productions] before the call and is now
    bound to the tree parsed for it; the new entries follow the old
    ones in [productions], which are all unchanged, and the bundles of
    other objects are unchanged. *)
Theorem parse_registers (fuel : nat) (self self' : BNF_Parser.t)
    (obj : Record_Object.t) :
  BNF_Parser.parse fuel self obj = Some (Ok self') ->
  exists decls : list (str * BNF_Expansion),
    dict_get (BNF_Parser.bundles self') (Record_Object.name obj)
    = Some (map fst decls)
    /\ BNF_Parser.productions self' = BNF_Parser.productions self ++ decls
    /\ (forall p n,
           In (p, n) decls ->
           dict_get (BNF_Parser.productions self') p = Some n
           /\ dict_get (BNF_Parser.productions self) p = None)
    /\ (exists n tokens lexer,
           drain n
             (BNF_Lexer.init (slice (Record_Object.bnf_text obj) 3 (-3))
                (Record_Object.bnf_location obj)) []
           = Finished tokens lexer
           /\ map fst decls = declared_names tokens)
    /\ (forall k,
           k <> Record_Object.name obj ->
           dict_get (BNF_Parser.bundles self') k
           = dict_get (BNF_Parser.bundles self) k)
    /\ (forall p n,
           dict_get (BNF_Parser.productions self) p = Some n ->
           dict_get (BNF_Parser.productions self') p = Some n).
Proof.
  intros H.
  destruct (parse_tables _ _ _ _ H)
    as (decls & P & N & Fresh & _ & _ & _ & Hother & Hb).
  exists decls. split; [exact Hb|]. split; [exact P|]. split; [|split; [|split]].
  - intros p n Hin.
    assert (dict_get (BNF_Parser.productions self) p = None) as Hold.
    { apply Fresh. apply (in_map fst) in Hin. exact Hin. }
    split; [|exact Hold].
    rewrite P, dict_get_app, Hold. apply dict_get_NoDup; assumption.
  - destruct (parse_bundle_order _ _ _ _ H) as (n & tokens & lexer & D & B).
    exists n, tokens, lexer. split; [exact D|]. congruence.
  - exact Hother.
  - intros p n Hp. rewrite P, dict_get_app, Hp. reflexivity.
Qed.

Definition grammar_expr : Record_Object.t :=
  grammar "'''expr ::= term { '+' term }

term ::= NUMBER'''".

Lemma parse_registers_witness :
  dict_get (BNF_Parser.bundles (parsed 20 grammar_expr)) (py "G")
  = Some [py "expr"; py "term"]
  /\ dict_keys (BNF_Parser.productions (parsed 20 grammar_expr))
     = [py "expr"; py "term"].
Proof.
  destruct (parse_registers 20 parser_0 (parsed 20 grammar_expr) grammar_expr)
    as (decls & B & P & _).
  - vm_compute. reflexivity.
  - split; vm_compute; reflexivity.
Defined.

(* ------------------------------------------------------------------ *)
(** ** The lexer on a fragment seen as a zipper *)

(** [zipper l pre rest]: the lexer [l] has gone through [pre] and has
    [rest] before it; [cc] is the last character of [pre] and [nc] the
    first character of [rest]. *)
Definition zipper (l : BNF_Lexer.t) (pre rest : str) : Prop :=
  BNF_Lexer.fragment l = pre ++ rest
  /\ BNF_Lexer.fragment_length l = len (pre ++ rest)
  /\ BNF_Lexer.lexpos l = len pre - 1
  /\ BNF_Lexer.nc l = hd_error rest.

Lemma char_at_app_hd (a b : str) : char_at (a ++ b) (len a) = hd_error b.
Proof.
  unfold char_at, len.
  destruct (Z.of_nat (List.length a) <? 0) eqn:E;
    [apply Z.ltb_lt in E; lia|].
  rewrite Nat2Z.id, nth_error_app2, Nat.sub_diag by lia.
  destruct b; reflexivity.
Qed.

Lemma init_zipper (fragment : str) (loc : Source_Reference.t) :
  zipper (BNF_Lexer.init fragment loc) [] fragment.
Proof.
  unfold zipper, BNF_Lexer.init.
  rewrite advance_fragment, advance_length, advance_lexpos, advance_nc.
  cbn. repeat split.
  destruct (0 <? len fragment) eqn:E.
  - destruct fragment; reflexivity.
  - apply Z.ltb_ge in E. destruct fragment; [reflexivity|].
    unfold len in E. cbn in E. lia.
Qed.

Lemma advance_zipper (l : BNF_Lexer.t) (pre rest : str) (c : ascii) :
  zipper l pre (c :: rest) ->
  zipper (BNF_Lexer.advance l) (pre ++ [c]) rest
  /\ BNF_Lexer.cc (BNF_Lexer.advance l) = Some c.
Proof.
  intros (Hf & Hl & Hp & Hn). split; [|rewrite advance_cc; exact Hn].
  unfold zipper.
  rewrite advance_fragment, advance_length, advance_lexpos, advance_nc.
  rewrite <- app_assoc. cbn [app].
  split; [exact Hf|]. split; [exact Hl|].
  split; [rewrite len_app; change (len [c]) with 1; lia|].
  rewrite Hl, Hp, Hf.
  replace (len pre - 1 + 1 + 1) with (len (pre ++ [c]))
    by (rewrite len_app; change (len [c]) with 1; lia).
  replace (pre ++ c :: rest) with ((pre ++ [c]) ++ rest)
    by (rewrite <- app_assoc; reflexivity).
  rewrite char_at_app_hd.
  destruct (len (pre ++ [c]) <? len ((pre ++ [c]) ++ rest)) eqn:E;
    [reflexivity|].
  apply Z.ltb_ge in E. rewrite len_app in E.
  destruct rest; [reflexivity|]. unfold len in E. cbn in E. lia.
Qed.

Lemma zipper_consistent_length (l : BNF_Lexer.t) (pre rest : str) :
  zipper l pre rest ->
  BNF_Lexer.fragment_length l - BNF_Lexer.lexpos l = len rest + 1.
Proof. intros (_ & Hl & Hp & _). rewrite Hl, Hp, len_app. lia. Qed.

(** A loop of the lexer, forwards: it goes through a run of characters
    that pass the test when the run ends the fragment or a character
    that fails the test follows. *)
Definition stops (p : ascii -> bool) (rest : str) : Prop :=
  match rest with
  | [] => True
  | c :: _ => p c = false
  end.

Lemma advance_while_run (p : ascii -> bool) (xs : str) :
  forall (n : nat) (l : BNF_Lexer.t) (pre rest : str),
    zipper l pre (xs ++ rest) ->
    forallb p xs = true ->
    stops p rest ->
    (List.length xs < n)%nat ->
    zipper (BNF_Lexer.advance_while p n l) (pre ++ xs) rest.
Proof.
  induction xs as [|x xs IH]; intros n l pre rest Z F S Hn.
  - rewrite app_nil_r. destruct n as [|n]; [lia|].
    cbn [BNF_Lexer.advance_while].
    destruct Z as (Hf & Hl & Hp & Hnc). cbn [app] in *. rewrite Hnc.
    destruct rest as [|c rest]; cbn [hd_error].
    + repeat split; assumption.
    + cbn in S. rewrite S. repeat split; assumption.
  - destruct n as [|n]; [cbn in Hn; lia|].
    cbn [BNF_Lexer.advance_while].
    pose proof Z as (_ & _ & _ & Hnc). cbn [app hd_error] in Hnc.
    rewrite Hnc. cbn [forallb] in F. apply andb_true_iff in F as [Fx F].
    rewrite Fx. cbn [app] in Z. apply advance_zipper in Z as [Z _].
    replace (pre ++ x :: xs) with ((pre ++ [x]) ++ xs)
      by (rewrite <- app_assoc; reflexivity).
    apply IH; try assumption. cbn in Hn. lia.
Qed.

Lemma loop_bound_zipper (l : BNF_Lexer.t) (pre xs rest : str) :
  zipper l pre (xs ++ rest) ->
  (List.length xs < BNF_Lexer.loop_bound l)%nat.
Proof.
  intros Z. unfold BNF_Lexer.loop_bound.
  rewrite (zipper_consistent_length _ _ _ Z), len_app. unfold len. lia.
Qed.

(** A loop of the lexer, backwards: what it has gone through passes the
    test. *)
Lemma advance_while_passed (p : ascii -> bool) (n : nat) :
  forall (l : BNF_Lexer.t) (pre rest : str),
    zipper l pre rest ->
    exists xs rest',
      rest = xs ++ rest'
      /\ forallb p xs = true
      /\ zipper (BNF_Lexer.advance_while p n l) (pre ++ xs) rest'.
Proof.
  induction n as [|n IH]; intros l pre rest Z; cbn [BNF_Lexer.advance_while].
  - exists [], rest. cbn [app]; rewrite ?app_nil_r; auto.
  - pose proof Z as (_ & _ & _ & Hnc). rewrite Hnc.
    destruct rest as [|c rest]; cbn [hd_error].
    + exists [], []. cbn [app]; rewrite ?app_nil_r; auto.
    + destruct (p c) eqn:Pc.
      * apply advance_zipper in Z as [Z _].
        destruct (IH _ _ _ Z) as (xs & rest' & -> & F & Z').
        exists (c :: xs), rest'. cbn [app forallb]. rewrite Pc, F.
        rewrite <- app_assoc in Z'. auto.
      * exists [], (c :: rest). cbn [app]; rewrite ?app_nil_r; auto.
Qed.

Lemma slice_middle (a s b : str) :
  slice (a ++ s ++ b) (len a) (len a + len s) = s.
Proof.
  unfold slice, slice_bound.
  pose proof (len_nonneg a). pose proof (len_nonneg s).
  pose proof (len_nonneg b).
  destruct (len a <? 0) eqn:E1; [apply Z.ltb_lt in E1; lia|].
  destruct (len a + len s <? 0) eqn:E2; [apply Z.ltb_lt in E2; lia|].
  rewrite !len_app. rewrite !Z.min_l by lia.
  replace (Z.to_nat (len a)) with (List.length a + 0)%nat
    by (unfold len; lia).
  rewrite skipn_app, skipn_all2 by lia.
  replace (List.length a + 0 - List.length a)%nat with 0%nat by lia.
  cbn [skipn app].
  replace (Z.to_nat (len a + len s - len a)) with (List.length s + 0)%nat
    by (unfold len; lia).
  rewrite firstn_app_2. cbn. apply app_nil_r.
Qed.

Lemma slice_inner (a b : ascii) (v : str) :
  slice (a :: v ++ [b]) 1 (-1) = v.
Proof.
  unfold slice, slice_bound.
  change (1 <? 0) with false. change (-1 <? 0) with true. cbv iota.
  change (a :: v ++ [b]) with ([a] ++ v ++ [b]). rewrite !len_app.
  change (len [a]) with 1. change (len [b]) with 1.
  pose proof (len_nonneg v).
  rewrite Z.min_l, Z.max_r by lia.
  change (Z.to_nat 1) with 1%nat. cbn [skipn app].
  replace (Z.to_nat (-1 + (1 + (len v + 1)) - 1)) with (List.length v + 0)%nat
    by (unfold len; lia).
  rewrite firstn_app_2. cbn. apply app_nil_r.
Qed.

(** The whitespace that the renderer puts before a token: one space or
    nothing. *)
Definition lead (spaced : bool) : str :=
  if spaced then [" "%char] else [].

Lemma token_start (l : BNF_Lexer.t) (pre rest : str) (spaced : bool)
    (x : ascii) :
  zipper l pre (lead spaced ++ x :: rest) ->
  isspace x = false ->
  exists l2,
    zipper l2 (pre ++ lead spaced ++ [x]) rest
    /\ BNF_Lexer.cc l2 = Some x
    /\ BNF_Lexer.eof_token_generated l2 = BNF_Lexer.eof_token_generated l
    /\ BNF_Lexer.token l
       = ('(kind, l3) <- BNF_Lexer.scan l2 x ;;
          value <- match kind with
                   | TERMINAL =>
                       BNF_Lexer.split_terminal
                         (slice (BNF_Lexer.fragment l3) (BNF_Lexer.lexpos l2)
                            (BNF_Lexer.lexpos l3 + 1))
                   | NONTERMINAL =>
                       BNF_Lexer.split_nonterminal
                         (slice (BNF_Lexer.fragment l3) (BNF_Lexer.lexpos l2)
                            (BNF_Lexer.lexpos l3 + 1))
                   | SYMBOL =>
                       Ok (V_Str
                             (slice
                                (slice (BNF_Lexer.fragment l3)
                                   (BNF_Lexer.lexpos l2)
                                   (BNF_Lexer.lexpos l3 + 1)) 1 (-1)))
                   | _ => Ok V_None
                   end ;;
          tok <- BNF_Token.init kind value (BNF_Lexer.lexpos l2)
                   (BNF_Lexer.lexpos l3)
                   (BNF_Lexer.mk_location l3 (BNF_Lexer.line_no l2)
                      (BNF_Lexer.col_no l2) (BNF_Lexer.lexpos l2)
                      (BNF_Lexer.lexpos l3)) ;;
          Ok (Some tok, l3)).
Proof.
  intros Z Hx.
  assert (exists l1,
             BNF_Lexer.skip_whitespace (BNF_Lexer.loop_bound l) l 0 = (l1, 0)
             /\ zipper l1 (pre ++ lead spaced) (x :: rest)
             /\ BNF_Lexer.eof_token_generated l1
                = BNF_Lexer.eof_token_generated l) as (l1 & Hs & Z1 & E1).
  { unfold BNF_Lexer.loop_bound. destruct spaced; cbn [lead app] in *.
    - cbn [BNF_Lexer.skip_whitespace].
      pose proof Z as (_ & _ & _ & Hnc). cbn [hd_error] in Hnc. rewrite Hnc.
      change (isspace " ") with true. cbv iota.
      apply advance_zipper in Z as [Z Hcc].
      pose proof Z as (_ & _ & _ & Hnc'). cbn [hd_error] in Hnc'.
      rewrite Hnc', Hx, Hcc.
      change (is_char (Some " "%char) newline) with false. cbv iota.
      eexists. split; [reflexivity|]. split; [exact Z | apply advance_eof].
    - cbn [BNF_Lexer.skip_whitespace].
      pose proof Z as (_ & _ & _ & Hnc). cbn [hd_error] in Hnc.
      rewrite Hnc, Hx, app_nil_r. eauto. }
  apply advance_zipper in Z1 as [Z2 Hcc].
  exists (BNF_Lexer.advance l1).
  rewrite <- app_assoc in Z2.
  split; [exact Z2|]. split; [exact Hcc|].
  split; [rewrite advance_eof; exact E1|].
  unfold BNF_Lexer.token. rewrite Hs.
  change (0 <? 2) with true. cbv iota. rewrite Hcc.
  change (2 <=? 0) with false. cbv iota. reflexivity.
Qed.

Lemma token_finish (l2 l3 : BNF_Lexer.t) (a r xs r' : str) (x : ascii)
    (kind : KIND) (value : token_value) :
  zipper l2 (a ++ [x]) r ->
  zipper l3 (a ++ x :: xs) r' ->
  match kind with
  | TERMINAL => BNF_Lexer.split_terminal (x :: xs)
  | NONTERMINAL => BNF_Lexer.split_nonterminal (x :: xs)
  | SYMBOL => Ok (V_Str (slice (x :: xs) 1 (-1)))
  | _ => Ok V_None
  end = Ok value ->
  (value <- match kind with
            | TERMINAL =>
                BNF_Lexer.split_terminal
                  (slice (BNF_Lexer.fragment l3) (BNF_Lexer.lexpos l2)
                     (BNF_Lexer.lexpos l3 + 1))
            | NONTERMINAL =>
                BNF_Lexer.split_nonterminal
                  (slice (BNF_Lexer.fragment l3) (BNF_Lexer.lexpos l2)
                     (BNF_Lexer.lexpos l3 + 1))
            | SYMBOL =>
                Ok (V_Str
                      (slice
                         (slice (BNF_Lexer.fragment l3) (BNF_Lexer.lexpos l2)
                            (BNF_Lexer.lexpos l3 + 1)) 1 (-1)))
            | _ => Ok V_None
            end ;;
   tok <- BNF_Token.init kind value (BNF_Lexer.lexpos l2)
            (BNF_Lexer.lexpos l3)
            (BNF_Lexer.mk_location l3 (BNF_Lexer.line_no l2)
               (BNF_Lexer.col_no l2) (BNF_Lexer.lexpos l2)
               (BNF_Lexer.lexpos l3)) ;;
   Ok (Some tok, l3))
  = Ok (Some (BNF_Token.make kind value
                (BNF_Lexer.mk_location l3 (BNF_Lexer.line_no l2)
                   (BNF_Lexer.col_no l2) (BNF_Lexer.lexpos l2)
                   (BNF_Lexer.lexpos l3))
                (BNF_Lexer.lexpos l2) (BNF_Lexer.lexpos l3)),
        l3).
Proof.
  intros (_ & _ & P2 & _) (F3 & _ & P3 & _) V.
  assert (slice (BNF_Lexer.fragment l3) (BNF_Lexer.lexpos l2)
            (BNF_Lexer.lexpos l3 + 1) = x :: xs) as ->.
  { rewrite F3, P2, P3, <- app_assoc.
    replace (len (a ++ [x]) - 1) with (len a)
      by (rewrite len_app; change (len [x]) with 1; lia).
    replace (len (a ++ x :: xs) - 1 + 1) with (len a + len (x :: xs))
      by (rewrite len_app; lia).
    apply slice_middle. }
  rewrite V. cbn [bind]. unfold BNF_Token.init.
  replace (BNF_Lexer.lexpos l2 <=? BNF_Lexer.lexpos l3) with true;
    [reflexivity|].
  symmetry. apply Z.leb_le. rewrite P2, P3, !len_app, !len_cons.
  change (len []) with 0. pose proof (len_nonneg xs). lia.
Qed.

(** The token at the end of the fragment. *)
Lemma token_end (l : BNF_Lexer.t) (pre : str) :
  zipper l pre [] ->
  BNF_Lexer.eof_token_generated l = false ->
  exists tok l',
    BNF_Lexer.token l = Ok (Some tok, l')
    /\ BNF_Token.kind tok = RULE_END
    /\ finished l'.
Proof.
  intros (Hf & Hl & Hp & Hnc) He. cbn [hd_error] in Hnc.
  unfold BNF_Lexer.token, BNF_Lexer.loop_bound.
  cbn [BNF_Lexer.skip_whitespace]. rewrite Hnc.
  change (0 <? 2) with true. cbv iota.
  rewrite advance_cc, Hnc, advance_eof, He. cbn [negb].
  unfold BNF_Token.init.
  rewrite Z.leb_refl. cbn [assert bind].
  eexists. eexists. split; [reflexivity|]. split; [reflexivity|].
  split; [reflexivity|]. split.
  - change (BNF_Lexer.nc (BNF_Lexer.advance l) = None). rewrite advance_nc.
    destruct (BNF_Lexer.lexpos l + 1 + 1 <? BNF_Lexer.fragment_length l)
      eqn:E; [|reflexivity].
    apply Z.ltb_lt in E. rewrite Hl, Hp, app_nil_r in E. lia.
  - change (BNF_Lexer.fragment_length l <= BNF_Lexer.lexpos l + 1 + 1).
    rewrite Hl, Hp, app_nil_r. lia.
Qed.

(* ------------------------------------------------------------------ *)
(** ** Lexing the text of tokens *)

(** The kind and the value of a token, and the text that spells them
    in the notation. *)
Definition lexeme : Type := (KIND * token_value)%type.

Definition lexeme_of (tok : BNF_Token.t) : lexeme :=
  (BNF_Token.kind tok, BNF_Token.value tok).

Definition spell (x : lexeme) : str :=
  match x with
  | (S_BRA, _) => py "["
  | (S_KET, _) => py "]"
  | (C_BRA, _) => py "{"
  | (C_KET, _) => py "}"
  | (ALTERNATIVE, _) => py "|"
  | (PRODUCTION, _) => py "::="
  | (SYMBOL, V_Str v) => quote :: v ++ [quote]
  | (TERMINAL, V_Pair base None) => base
  | (NONTERMINAL, V_Pair base None) => base
  | _ => []
  end.

Definition no_lower (s : str) : bool := forallb (fun c => negb (islower c)) s.
Definition no_upper (s : str) : bool := forallb (fun c => negb (isupper c)) s.

(** The lexemes that [spell] spells: punctuation, quoted symbols without
    a quote inside, identifiers without a suffix. *)
Definition spelled (x : lexeme) : Prop :=
  match x with
  | (SYMBOL, V_Str v) => forallb BNF_Lexer.not_quote v = true
  | (TERMINAL, V_Pair (c :: s) None) =>
      isupper c = true
      /\ forallb BNF_Lexer.is_ident_char s = true
      /\ no_lower (c :: s) = true
  | (NONTERMINAL, V_Pair (c :: s) None) =>
      islower c = true
      /\ forallb BNF_Lexer.is_ident_char s = true
      /\ no_upper (c :: s) = true
  | (k, V_None) =>
      match k with
      | S_BRA | S_KET | C_BRA | C_KET | ALTERNATIVE | PRODUCTION => True
      | _ => False
      end
  | _ => False
  end.

(** The text that follows a token in a rendered expansion: nothing, or
    a space. *)
Definition delimited (rest : str) : Prop :=
  match rest with
  | [] => True
  | c :: _ => c = " "%char
  end.

Ltac ascii_cases c := destruct c as [[] [] [] [] [] [] [] []].

Lemma scan_upper (l : BNF_Lexer.t) (c : ascii) :
  isupper c = true ->
  isspace c = false
  /\ BNF_Lexer.scan l c
     = Ok (TERMINAL,
           BNF_Lexer.advance_while BNF_Lexer.is_ident_char
             (BNF_Lexer.loop_bound l) l).
Proof.
  intros H. ascii_cases c; try (vm_compute in H; discriminate H);
    split; reflexivity.
Qed.

Lemma scan_lower (l : BNF_Lexer.t) (c : ascii) :
  islower c = true ->
  isspace c = false
  /\ BNF_Lexer.scan l c
     = Ok (NONTERMINAL,
           BNF_Lexer.advance_while BNF_Lexer.is_ident_char
             (BNF_Lexer.loop_bound l) l).
Proof.
  intros H. ascii_cases c; try (vm_compute in H; discriminate H);
    split; reflexivity.
Qed.

Lemma span_until_none (p : ascii -> bool) (s : str) :
  forallb (fun c => negb (p c)) s = true -> span_until p s = (s, []).
Proof.
  induction s as [|c s IH]; cbn [forallb span_until]; [reflexivity|].
  intros H. apply andb_true_iff in H as [Hc Hs].
  apply negb_true_iff in Hc. rewrite Hc, IH by exact Hs. reflexivity.
Qed.

Lemma split_no_transition (p : ascii -> bool) (s : str) :
  forallb (fun c => negb (p c)) s = true ->
  split_at_transition p s = Ok (V_Pair s None).
Proof.
  intros H. unfold split_at_transition. rewrite span_until_none by exact H.
  reflexivity.
Qed.

Lemma delimited_stops (rest : str) :
  delimited rest -> stops BNF_Lexer.is_ident_char rest.
Proof. destruct rest as [|c rest]; cbn; [auto | intros ->; reflexivity]. Qed.

Lemma lex_lexeme (l : BNF_Lexer.t) (pre rest : str) (spaced : bool)
    (x : lexeme) :
  zipper l pre (lead spaced ++ spell x ++ rest) ->
  BNF_Lexer.eof_token_generated l = false ->
  spelled x ->
  delimited rest ->
  exists tok l',
    BNF_Lexer.token l = Ok (Some tok, l')
    /\ lexeme_of tok = x
    /\ zipper l' (pre ++ lead spaced ++ spell x) rest
    /\ BNF_Lexer.eof_token_generated l' = false.
Proof.
  intros Z He Sx D. destruct x as [k v].
  assert (forall c : ascii, forall s : str,
             spell (k, v) = c :: s ->
             isspace c = false ->
             forall l3 : BNF_Lexer.t -> BNF_Lexer.t,
               (forall l2,
                   zipper l2 (pre ++ lead spaced ++ [c]) (s ++ rest) ->
                   BNF_Lexer.scan l2 c = Ok (k, l3 l2)
                   /\ zipper (l3 l2) ((pre ++ lead spaced) ++ c :: s) rest
                   /\ BNF_Lexer.eof_token_generated (l3 l2)
                      = BNF_Lexer.eof_token_generated l2) ->
               match k with
               | TERMINAL => BNF_Lexer.split_terminal (c :: s)
               | NONTERMINAL => BNF_Lexer.split_nonterminal (c :: s)
               | SYMBOL => Ok (V_Str (slice (c :: s) 1 (-1)))
               | _ => Ok V_None
               end = Ok v ->
               exists tok l',
                 BNF_Lexer.token l = Ok (Some tok, l')
                 /\ lexeme_of tok = (k, v)
                 /\ zipper l' (pre ++ lead spaced ++ spell (k, v)) rest
                 /\ BNF_Lexer.eof_token_generated l' = false) as Go.
  { intros c s Hsp Hc l3 Hscan Hv. rewrite Hsp in Z |- *.
    cbn [app] in Z.
    destruct (token_start _ _ _ _ _ Z Hc) as (l2 & Z2 & Hcc & E2 & T).
    destruct (Hscan l2 Z2) as (Sc & Z3 & E3).
    rewrite T, Sc. cbn [bind].
    rewrite app_assoc in Z2.
    rewrite (token_finish l2 (l3 l2) _ _ _ _ _ k v Z2 Z3 Hv).
    eexists. eexists. split; [reflexivity|]. split; [reflexivity|].
    rewrite app_assoc. split; [exact Z3 | congruence]. }
  destruct k; cbn [spelled] in Sx.
  - (* NONTERMINAL *)
    destruct v as [|[|c s] [nm|]|]; try contradiction.
    destruct Sx as (Hc & Hs & Hu).
    destruct (scan_lower l c Hc) as [Hsp _].
    apply (Go c s eq_refl Hsp
             (fun l2 => BNF_Lexer.advance_while BNF_Lexer.is_ident_char
                          (BNF_Lexer.loop_bound l2) l2)).
    + intros l2 Z2. split; [apply scan_lower, Hc|]. split.
      * replace ((pre ++ lead spaced) ++ c :: s)
          with ((pre ++ lead spaced ++ [c]) ++ s)
          by (rewrite <- !app_assoc; reflexivity).
        apply advance_while_run;
          [exact Z2 | exact Hs | apply delimited_stops, D
          | eapply loop_bound_zipper; exact Z2].
      * apply advance_while_spec.
    + rewrite split_nonterminal_spec. apply split_no_transition, Hu.
  - (* TERMINAL *)
    destruct v as [|[|c s] [nm|]|]; try contradiction.
    destruct Sx as (Hc & Hs & Hu).
    destruct (scan_upper l c Hc) as [Hsp _].
    apply (Go c s eq_refl Hsp
             (fun l2 => BNF_Lexer.advance_while BNF_Lexer.is_ident_char
                          (BNF_Lexer.loop_bound l2) l2)).
    + intros l2 Z2. split; [apply scan_upper, Hc|]. split.
      * replace ((pre ++ lead spaced) ++ c :: s)
          with ((pre ++ lead spaced ++ [c]) ++ s)
          by (rewrite <- !app_assoc; reflexivity).
        apply advance_while_run;
          [exact Z2 | exact Hs | apply delimited_stops, D
          | eapply loop_bound_zipper; exact Z2].
      * apply advance_while_spec.
    + rewrite split_terminal_spec. apply split_no_transition, Hu.
  - (* PRODUCTION *)
    destruct v; try contradiction.
    apply (Go ":"%char (py ":=") eq_refl eq_refl
             (fun l2 => BNF_Lexer.advance (BNF_Lexer.advance l2)));
      [|reflexivity].
    intros l2 Z2. cbn [py list_ascii_of_string app] in Z2.
    apply advance_zipper in Z2 as [Z3 C3].
    pose proof Z3 as Z3'. apply advance_zipper in Z3' as [Z4 C4].
    split.
    + unfold BNF_Lexer.scan. cbn [Ascii.eqb Bool.eqb]. cbv iota.
      rewrite C3, C4. reflexivity.
    + split; [|rewrite !advance_eof; reflexivity].
      rewrite <- !app_assoc in Z4. rewrite <- !app_assoc. exact Z4.
  - (* ALTERNATIVE *)
    destruct v; try contradiction.
    apply (Go "|"%char [] eq_refl eq_refl (fun l2 => l2)); [|reflexivity].
    intros l2 Z2. split; [reflexivity|]. split; [|reflexivity].
    rewrite <- !app_assoc. exact Z2.
  - (* SYMBOL *)
    destruct v as [| |v]; try contradiction.
    apply (Go quote (v ++ [quote]) eq_refl eq_refl
             (fun l2 => BNF_Lexer.advance
                          (BNF_Lexer.advance_while BNF_Lexer.not_quote
                             (BNF_Lexer.loop_bound l2) l2)));
      [|rewrite slice_inner; reflexivity].
    intros l2 Z2. rewrite <- app_assoc in Z2.
    assert (zipper (BNF_Lexer.advance_while BNF_Lexer.not_quote
                      (BNF_Lexer.loop_bound l2) l2)
              ((pre ++ lead spaced ++ [quote]) ++ v) (quote :: rest)) as Z3.
    { apply advance_while_run;
        [exact Z2 | exact Sx | reflexivity
        | eapply loop_bound_zipper; exact Z2]. }
    pose proof Z3 as (_ & _ & _ & Hnc). cbn [hd_error] in Hnc.
    apply advance_zipper in Z3 as [Z4 _].
    split.
    + unfold BNF_Lexer.scan. cbn [Ascii.eqb Bool.eqb quote]. cbv iota.
      change (islower "'") with false. change (isupper "'") with false.
      cbv iota. rewrite Hnc. reflexivity.
    + split.
      * rewrite <- !app_assoc in Z4. rewrite <- !app_assoc. exact Z4.
      * rewrite advance_eof. apply advance_while_spec.
  - (* S_BRA *)
    destruct v; try contradiction.
    apply (Go "["%char [] eq_refl eq_refl (fun l2 => l2)); [|reflexivity].
    intros l2 Z2. split; [reflexivity|]. split; [|reflexivity].
    rewrite <- !app_assoc. exact Z2.
  - (* S_KET *)
    destruct v; try contradiction.
    apply (Go "]"%char [] eq_refl eq_refl (fun l2 => l2)); [|reflexivity].
    intros l2 Z2. split; [reflexivity|]. split; [|reflexivity].
    rewrite <- !app_assoc. exact Z2.
  - (* C_BRA *)
    destruct v; try contradiction.
    apply (Go "{"%char [] eq_refl eq_refl (fun l2 => l2)); [|reflexivity].
    intros l2 Z2. split; [reflexivity|]. split; [|reflexivity].
    rewrite <- !app_assoc. exact Z2.
  - (* C_KET *)
    destruct v; try contradiction.
    apply (Go "}"%char [] eq_refl eq_refl (fun l2 => l2)); [|reflexivity].
    intros l2 Z2. split; [reflexivity|]. split; [|reflexivity].
    rewrite <- !app_assoc. exact Z2.
  - destruct v; contradiction.
Qed.

(** The text of a list of lexemes, a space before each. *)
Definition text_of (xs : list lexeme) : str :=
  flat_map (fun x => " "%char :: spell x) xs.

Lemma text_of_delimited (xs : list lexeme) : delimited (text_of xs).
Proof. destruct xs; cbn; auto. Qed.

Lemma text_of_app (xs ys : list lexeme) :
  text_of (xs ++ ys) = text_of xs ++ text_of ys.
Proof. apply flat_map_app. Qed.

(** Lexing the text of a list of lexemes returns them, then the
    RULE_END of the end of the fragment, then [None]. *)
Lemma lex_text (xs : list lexeme) :
  forall (l : BNF_Lexer.t) (pre : str),
    Forall spelled xs ->
    zipper l pre (text_of xs) ->
    BNF_Lexer.eof_token_generated l = false ->
    exists ts e l',
      tokens_from l (ts ++ [e]) l'
      /\ map lexeme_of ts = xs
      /\ BNF_Token.kind e = RULE_END.
Proof.
  induction xs as [|x xs IH]; intros l pre F Z He.
  - destruct (token_end _ _ Z He) as (e & l1 & T & K & Fin).
    destruct (token_finished _ Fin) as [T' _].
    exists [], e, (BNF_Lexer.advance l1). split; [|auto].
    eapply tokens_next; [exact T|]. apply tokens_end, T'.
  - inversion F as [|? ? Sx F']; subst.
    change (text_of (x :: xs)) with (lead true ++ spell x ++ text_of xs) in Z.
    destruct (lex_lexeme _ _ _ _ _ Z He Sx (text_of_delimited xs))
      as (tok & l1 & T & Lx & Z1 & E1).
    destruct (IH _ _ F' Z1 E1) as (ts & e & l' & Ts & M & K).
    exists (tok :: ts), e, l'. split; [|split].
    + cbn [app]. eapply tokens_next; eauto.
    + cbn [map]. rewrite Lx, M. reflexivity.
    + exact K.
Qed.

(** The lexemes of the canonical text of a tree. *)
Fixpoint lexemes (n : BNF_Expansion) : list lexeme :=
  match n with
  | BNF_Literal _ Lit_SYMBOL value _ => [(SYMBOL, V_Str value)]
  | BNF_Literal _ Lit_TERMINAL value name => [(TERMINAL, V_Pair value name)]
  | BNF_Literal _ Lit_NONTERMINAL value name =>
      [(NONTERMINAL, V_Pair value name)]
  | BNF_Optional _ e => (S_BRA, V_None) :: lexemes e ++ [(S_KET, V_None)]
  | BNF_One_Or_More _ e => (C_BRA, V_None) :: lexemes e ++ [(C_KET, V_None)]
  | BNF_String _ ms => flat_map lexemes ms
  | BNF_Alternatives _ ms =>
      match ms with
      | [] => []
      | m :: ms' =>
          lexemes m
          ++ flat_map (fun m' => (ALTERNATIVE, V_None) :: lexemes m') ms'
      end
  end.

(** The trees whose text holds no markup: symbols without a quote
    inside and terminals without a suffix. *)
Fixpoint plain (n : BNF_Expansion) : Prop :=
  match n with
  | BNF_Literal _ Lit_SYMBOL value name =>
      name = None /\ spelled (SYMBOL, V_Str value)
  | BNF_Literal _ Lit_TERMINAL value name =>
      name = None /\ spelled (TERMINAL, V_Pair value None)
  | BNF_Literal _ Lit_NONTERMINAL _ _ => False
  | BNF_Optional _ e => plain e
  | BNF_One_Or_More _ e => plain e
  | BNF_String _ ms => fold_right (fun m acc => plain m /\ acc) True ms
  | BNF_Alternatives _ ms => fold_right (fun m acc => plain m /\ acc) True ms
  end.

Lemma spaced_join (sep : str) (parts : list str) :
  parts <> [] ->
  " "%char :: join sep parts
  = match parts with
    | [] => []
    | p :: rest => (" "%char :: p) ++ flat_map (fun t => sep ++ t) rest
    end.
Proof.
  destruct parts as [|p rest]; [congruence|]. intros _.
  rewrite join_cons. reflexivity.
Qed.

(** The text of a plain tree is the text of its lexemes. *)
Lemma plain_text (n : BNF_Expansion) :
  canonical n -> plain n ->
  " "%char :: write_expansion [] n = text_of (lexemes n)
  /\ Forall spelled (lexemes n).
Proof.
  induction n as [l k v nm | l e IH | l e IH | l ms IH | l ms IH]
    using BNF_Expansion_rect'; intros C P.
  - destruct k; cbn [plain] in P; try contradiction;
      destruct P as [-> Sp]; cbn [lexemes write_expansion write_name];
      unfold write, text_of; cbn [flat_map app spell].
    + split; [|constructor; [exact Sp | constructor]].
      destruct v; cbn in Sp; [contradiction|]. rewrite app_nil_r. reflexivity.
    + split; [|constructor; [exact Sp | constructor]].
      rewrite app_nil_r. reflexivity.
  - cbn [canonical plain] in C, P. destruct (IH C P) as [T F].
    cbn [lexemes write_expansion]. unfold write.
    rewrite write_expansion_app.
    change (text_of ((S_BRA, V_None) :: lexemes e ++ [(S_KET, V_None)]))
      with (py " [" ++ text_of (lexemes e ++ [(S_KET, V_None)])).
    rewrite text_of_app, <- T. split.
    + unfold text_of, py.
      cbn [flat_map spell list_ascii_of_string app].
      rewrite <- ?app_assoc. cbn [app]. rewrite ?app_nil_r. reflexivity.
    + constructor; [exact I|]. apply Forall_app. split; [exact F|].
      constructor; [exact I | constructor].
  - cbn [canonical plain] in C, P. destruct (IH C P) as [T F].
    cbn [lexemes write_expansion]. unfold write.
    rewrite write_expansion_app.
    change (text_of ((C_BRA, V_None) :: lexemes e ++ [(C_KET, V_None)]))
      with (py " {" ++ text_of (lexemes e ++ [(C_KET, V_None)])).
    rewrite text_of_app, <- T. split.
    + unfold text_of, py.
      cbn [flat_map spell list_ascii_of_string app].
      rewrite <- ?app_assoc. cbn [app]. rewrite ?app_nil_r. reflexivity.
    + constructor; [exact I|]. apply Forall_app. split; [exact F|].
      constructor; [exact I | constructor].
  - cbn [canonical plain] in C, P. destruct C as (H2 & _ & C).
    apply fold_right_and_Forall in P.
    apply (fold_right_and_Forall (fun m => is_fragment m /\ canonical m)) in C.
    rewrite write_expansion_string. cbn [lexemes].
    assert (forall ms : list BNF_Expansion,
               Forall (fun n => canonical n -> plain n ->
                                " "%char :: write_expansion [] n
                                = text_of (lexemes n)
                                  /\ Forall spelled (lexemes n)) ms ->
               Forall plain ms ->
               Forall (fun m => is_fragment m /\ canonical m) ms ->
               flat_map (fun t => py " " ++ t) (map (write_expansion []) ms)
               = text_of (flat_map lexemes ms)
               /\ Forall spelled (flat_map lexemes ms)) as Go.
    { clear. induction 1 as [|m ms Hm _ IHms]; intros P C.
      - split; [reflexivity | constructor].
      - inversion P; inversion C as [|? ? [_ Cm] ?]; subst.
        destruct (Hm Cm) as [T F]; [assumption|].
        destruct IHms as [T' F']; [assumption..|].
        cbn [map flat_map]. rewrite text_of_app, <- T, <- T'. split.
        + reflexivity.
        + apply Forall_app. auto. }
    destruct ms as [|m ms]; [cbn in H2; lia|].
    destruct (Go (m :: ms) IH P C) as [T F]. split; [|exact F].
    rewrite <- T. cbn [map flat_map]. rewrite join_cons. reflexivity.
  - cbn [canonical plain] in C, P. destruct C as (H2 & _ & C).
    apply fold_right_and_Forall in P.
    apply (fold_right_and_Forall (fun m => is_string m /\ canonical m)) in C.
    rewrite write_expansion_alternatives. cbn [lexemes].
    destruct ms as [|m ms]; [cbn in H2; lia|].
    inversion IH as [|? ? Hm IHms]; inversion P as [|? ? Pm Pms];
      inversion C as [|? ? [_ Cm] Cms]; subst.
    destruct (Hm Cm Pm) as [T F].
    assert (flat_map (fun t => py " | " ++ t) (map (write_expansion []) ms)
            = text_of (flat_map (fun m' => (ALTERNATIVE, V_None) :: lexemes m')
                         ms)
            /\ Forall spelled
                 (flat_map (fun m' => (ALTERNATIVE, V_None) :: lexemes m') ms))
      as [T' F'].
    { clear - IHms Pms Cms.
      induction IHms as [|m' ms Hm' _ IH']; [split; [reflexivity|constructor]|].
      inversion Pms; inversion Cms as [|? ? [_ Cm'] ?]; subst.
      destruct (Hm' Cm') as [T F]; [assumption|].
      destruct IH' as [T' F']; [assumption..|].
      cbn [map flat_map].
      change (text_of (((ALTERNATIVE, V_None) :: lexemes m') ++ ?r))
        with (text_of (((ALTERNATIVE, V_None) :: lexemes m') ++ r)).
      rewrite text_of_app.
      change (text_of ((ALTERNATIVE, V_None) :: lexemes m'))
        with (py " |" ++ text_of (lexemes m')).
      rewrite <- T, <- T'. split.
      - unfold py. cbn [list_ascii_of_string app].
        rewrite <- ?app_assoc. cbn [app]. reflexivity.
      - constructor; [exact I|]. apply Forall_app. auto. }
    cbn [map]. rewrite join_cons, text_of_app, <- T, <- T'. split.
    + reflexivity.
    + apply Forall_app. auto.
Qed.

(* ------------------------------------------------------------------ *)
(** ** Parsing the tokens of a tree *)

(** A tree without its locations. *)
Fixpoint unloc (n : BNF_Expansion) : BNF_Expansion :=
  match n with
  | BNF_Literal _ k v nm => BNF_Literal loc0 k v nm
  | BNF_Optional _ e => BNF_Optional loc0 (unloc e)
  | BNF_One_Or_More _ e => BNF_One_Or_More loc0 (unloc e)
  | BNF_String _ ms => BNF_String loc0 (map unloc ms)
  | BNF_Alternatives _ ms => BNF_Alternatives loc0 (map unloc ms)
  end.

(** Two trees are structurally equal when they differ in locations
    only. *)
Definition same_structure (a b : BNF_Expansion) : Prop := unloc a = unloc b.

Definition follows_string (rest : list BNF_Token.t) : Prop :=
  match rest with
  | [] => False
  | f :: _ => BNF_Parser.starts_fragment (BNF_Token.kind f) = false
  end.

Definition follows_expansion (rest : list BNF_Token.t) : Prop :=
  match rest with
  | [] => False
  | f :: _ =>
      BNF_Parser.starts_fragment (BNF_Token.kind f) = false
      /\ BNF_Token.kind f <> ALTERNATIVE
  end.

Lemma pending_cons (self : BNF_Parser.t) (tok : BNF_Token.t)
    (ts : list BNF_Token.t) :
  pending self (tok :: ts) ->
  BNF_Parser.nt self = Some tok
  /\ exists l l',
      BNF_Parser.current_lexer self = Some l /\ tokens_from l ts l'.
Proof.
  unfold pending. destruct (BNF_Parser.nt self) as [t|]; [|discriminate].
  intros (l & ts' & l' & L & [= <- <-] & F). eauto.
Qed.

Lemma match_forward (self : BNF_Parser.t) (tok : BNF_Token.t)
    (ts : list BNF_Token.t) (k : KIND) :
  pending self (tok :: ts) ->
  BNF_Token.kind tok = k ->
  exists self',
    BNF_Parser.match_ self k = Ok self'
    /\ BNF_Parser.ct self' = Some tok
    /\ pending self' ts.
Proof.
  intros P K. apply pending_cons in P as (N & l & l' & L & F).
  unfold BNF_Parser.match_, BNF_Parser.advance. rewrite N, L.
  replace (KIND_eqb (BNF_Token.kind tok) k) with true
    by (symmetry; apply KIND_eqb_eq, K).
  cbn [negb]. inversion F as [? ? T | ? t1 l1 ts1 ? T F1]; subst;
    rewrite T; cbn [bind]; eexists; (split; [reflexivity|]);
    (split; [reflexivity|]); unfold pending;
    cbn [BNF_Parser.nt BNF_Parser.set_lexer_state BNF_Parser.current_lexer].
  - reflexivity.
  - exists l1, ts1, l'. auto.
Qed.

Lemma parse_leaf_forward (self : BNF_Parser.t) (tok : BNF_Token.t)
    (ts : list BNF_Token.t) (loc : Source_Reference.t) (n : BNF_Expansion) :
  pending self (tok :: ts) ->
  match n with
  | BNF_Literal _ Lit_SYMBOL v nm =>
      nm = None /\ lexeme_of tok = (SYMBOL, V_Str v)
  | BNF_Literal _ Lit_TERMINAL v nm => lexeme_of tok = (TERMINAL, V_Pair v nm)
  | BNF_Literal _ Lit_NONTERMINAL v nm =>
      lexeme_of tok = (NONTERMINAL, V_Pair v nm)
  | _ => False
  end ->
  exists n' self',
    BNF_Parser.parse_leaf self loc (BNF_Token.kind tok) = Ok (n', self')
    /\ leaf_kind (BNF_Token.kind tok) = true
    /\ same_structure n' n
    /\ pending self' ts.
Proof.
  intros P H. destruct n as [l k v nm| | | |]; try contradiction.
  destruct (match_forward _ _ _ _ P eq_refl) as (s1 & M & C & P1).
  unfold BNF_Parser.parse_leaf, BNF_Parser.ct_kind, BNF_Parser.ct_value.
  rewrite M. cbn [bind]. rewrite C. cbn [bind].
  unfold lexeme_of in H.
  destruct k.
  - injection H as K V. rewrite K, V. cbn.
    eexists. eexists. split; [reflexivity|]. split; [reflexivity|].
    split; [reflexivity | exact P1].
  - injection H as K V. rewrite K, V. cbn.
    eexists. eexists. split; [reflexivity|]. split; [reflexivity|].
    split; [reflexivity | exact P1].
  - destruct H as [-> H]. injection H as K V. rewrite K, V. cbn.
    eexists. eexists. split; [reflexivity|]. split; [reflexivity|].
    split; [reflexivity | exact P1].
Qed.

(** The first lexeme of a fragment starts a fragment. *)
Lemma fragment_first (n : BNF_Expansion) :
  is_fragment n ->
  exists x xs,
    lexemes n = x :: xs /\ BNF_Parser.starts_fragment (fst x) = true.
Proof.
  destruct n as [l [] v nm | l e | l e | l ms | l ms]; cbn;
    try contradiction; intros _; eauto.
Qed.

Lemma string_end (self : BNF_Parser.t) (rv : list BNF_Expansion)
    (rest : list BNF_Token.t) :
  pending self rest -> follows_string rest -> rv <> [] ->
  exists n,
    parses (String_loop rv) self n self
    /\ match rv with
       | [n1] => Ok n1
       | _ => BNF_String_init rv
       end = Ok n.
Proof.
  intros P F Hne. destruct rest as [|f rest]; [contradiction|].
  apply pending_cons in P as (N & _). cbn in F.
  assert (exists n, match rv with
                    | [n1] => Ok n1
                    | _ => BNF_String_init rv
                    end = Ok n) as [n E].
  { destruct rv as [|n1 [|n2 rv]]; [congruence | eauto |].
    rewrite BNF_String_init_two. eauto. }
  exists n. split; [|exact E]. eapply parses_string_end; eauto.
Qed.

Lemma expansion_end (self : BNF_Parser.t) (rv : list BNF_Expansion)
    (rest : list BNF_Token.t) :
  pending self rest -> follows_expansion rest -> rv <> [] ->
  exists n,
    parses (Expansion_loop rv) self n self
    /\ match rv with
       | [n1] => Ok n1
       | _ => BNF_Alternatives_init rv
       end = Ok n.
Proof.
  intros P F Hne. destruct rest as [|f rest]; [contradiction|].
  apply pending_cons in P as (N & _). destruct F as [_ F].
  assert (exists n, match rv with
                    | [n1] => Ok n1
                    | _ => BNF_Alternatives_init rv
                    end = Ok n) as [n E].
  { destruct rv as [|n1 [|n2 rv]]; [congruence | eauto |].
    rewrite BNF_Alternatives_init_two. eauto. }
  exists n. split; [|exact E]. apply parses_expansion_end; [|exact E].
  unfold BNF_Parser.peek. rewrite N. apply KIND_eqb_neq, F.
Qed.

(** What the three levels of the descent do on the tokens of a tree. *)
Definition fragment_parses (n : BNF_Expansion) : Prop :=
  forall self ts rest,
    map lexeme_of ts = lexemes n ->
    pending self (ts ++ rest) ->
    exists n' self',
      parses Fragment self n' self'
      /\ same_structure n' n
      /\ pending self' rest.

Definition string_parses (n : BNF_Expansion) : Prop :=
  forall self ts rest,
    map lexeme_of ts = lexemes n ->
    pending self (ts ++ rest) ->
    follows_string rest ->
    exists n' self',
      parses String_ self n' self'
      /\ same_structure n' n
      /\ pending self' rest.

Definition expansion_parses (n : BNF_Expansion) : Prop :=
  forall self ts rest,
    map lexeme_of ts = lexemes n ->
    pending self (ts ++ rest) ->
    follows_expansion rest ->
    exists n' self',
      parses Expansion self n' self'
      /\ same_structure n' n
      /\ pending self' rest.

Lemma fragment_string (n : BNF_Expansion) :
  fragment_parses n -> string_parses n.
Proof.
  intros H self ts rest M P F.
  destruct (H self ts rest M P) as (n' & s1 & Pf & S & P1).
  destruct (string_end s1 [n'] rest P1 F) as (n2 & L & [= <-]);
    [discriminate|].
  exists n', s1. split; [|auto]. eapply parses_string; eauto.
Qed.

Lemma follows_expansion_string (rest : list BNF_Token.t) :
  follows_expansion rest -> follows_string rest.
Proof. destruct rest; cbn; tauto. Qed.

Lemma string_expansion (n : BNF_Expansion) :
  string_parses n -> expansion_parses n.
Proof.
  intros H self ts rest M P F.
  destruct (H self ts rest M P (follows_expansion_string _ F))
    as (n' & s1 & Ps & S & P1).
  destruct (expansion_end s1 [n'] rest P1 F) as (n2 & L & [= <-]);
    [discriminate|].
  exists n', s1. split; [|auto]. eapply parses_expansion; eauto.
Qed.

(** The loop of [parse_string] on the tokens of further members. *)
Lemma string_loop_parses (ms : list BNF_Expansion) :
  Forall (fun m => is_fragment m /\ fragment_parses m) ms ->
  forall rv self ts rest,
    rv <> [] ->
    map lexeme_of ts = flat_map lexemes ms ->
    pending self (ts ++ rest) ->
    follows_string rest ->
    exists ms' n' self',
      parses (String_loop rv) self n' self'
      /\ map unloc ms' = map unloc ms
      /\ match rv ++ ms' with
         | [n1] => Ok n1
         | _ => BNF_String_init (rv ++ ms')
         end = Ok n'
      /\ pending self' rest.
Proof.
  induction 1 as [|m ms [Fm Hm] _ IH]; intros rv self ts rest Hne M P F.
  - apply map_eq_nil in M. subst ts. cbn [app] in P.
    destruct (string_end self rv rest P F Hne) as (n & L & E).
    exists [], n, self. rewrite app_nil_r. auto.
  - cbn [flat_map] in M.
    apply map_eq_app in M as (tsm & ts' & -> & Mm & M').
    rewrite <- app_assoc in P.
    destruct (fragment_first m Fm) as (x & xs & Hx & Sx).
    rewrite Hx in Mm. pose proof Mm as Mm'.
    apply map_eq_cons in Mm' as (t & tl & -> & Ht & _).
    pose proof P as P'. cbn [app] in P'.
    apply pending_cons in P' as (N & _).
    rewrite <- Hx in Mm.
    destruct (Hm self _ _ Mm P) as (m' & s1 & Pm & Sm & P1).
    destruct (IH (rv ++ [m']) s1 ts' rest) as (ms' & n' & s2 & L & U & E & P2);
      try assumption.
    { destruct rv; discriminate. }
    exists (m' :: ms'), n', s2. split; [|split; [|split]].
    + eapply parses_member; eauto.
      unfold lexeme_of in Ht. rewrite <- Ht in Sx. exact Sx.
    + cbn [map]. rewrite U, Sm. reflexivity.
    + rewrite <- app_assoc in E. exact E.
    + exact P2.
Qed.

(** The loop of [parse_expansion] on the tokens of further
    alternatives. *)
Lemma expansion_loop_parses (ms : list BNF_Expansion) :
  Forall string_parses ms ->
  forall rv self ts rest,
    rv <> [] ->
    map lexeme_of ts
    = flat_map (fun m' => (ALTERNATIVE, V_None) :: lexemes m') ms ->
    pending self (ts ++ rest) ->
    follows_expansion rest ->
    exists ms' n' self',
      parses (Expansion_loop rv) self n' self'
      /\ map unloc ms' = map unloc ms
      /\ match rv ++ ms' with
         | [n1] => Ok n1
         | _ => BNF_Alternatives_init (rv ++ ms')
         end = Ok n'
      /\ pending self' rest.
Proof.
  induction 1 as [|m ms Hm Hms IH]; intros rv self ts rest Hne M P F.
  - apply map_eq_nil in M. subst ts. cbn [app] in P.
    destruct (expansion_end self rv rest P F Hne) as (n & L & E).
    exists [], n, self. rewrite app_nil_r. auto.
  - cbn [flat_map app] in M.
    apply map_eq_cons in M as (t & ts0 & -> & Ht & M).
    apply map_eq_app in M as (tsm & ts' & -> & Mm & M').
    cbn [app] in P. rewrite <- app_assoc in P.
    pose proof P as P'. apply pending_cons in P' as (N & _).
    injection Ht as Kt _.
    destruct (match_forward _ _ _ _ P Kt) as (s1 & Mt & _ & P1).
    assert (follows_string (ts' ++ rest)) as Fs.
    { destruct ms as [|m2 ms].
      - apply map_eq_nil in M'. subst ts'.
        apply follows_expansion_string, F.
      - cbn [flat_map app] in M'.
        apply map_eq_cons in M' as (t2 & tl & -> & Ht2 & _).
        injection Ht2 as K2 _. cbn. rewrite K2. reflexivity. }
    destruct (Hm s1 _ _ Mm P1 Fs) as (m' & s2 & Pm & Sm & P2).
    destruct (IH (rv ++ [m']) s2 ts' rest) as (ms' & n' & s3 & L & U & E & P3);
      try assumption.
    { destruct rv; discriminate. }
    exists (m' :: ms'), n', s3. split; [|split; [|split]].
    + eapply parses_alternative; eauto.
      unfold BNF_Parser.peek. rewrite N. apply KIND_eqb_eq, Kt.
    + cbn [map]. rewrite U, Sm. reflexivity.
    + rewrite <- app_assoc in E. exact E.
    + exact P3.
Qed.

(** The descent on the tokens of a plain canonical tree returns a tree
    of the same structure. *)
Lemma tree_parses (n : BNF_Expansion) :
  canonical n -> plain n ->
  (is_fragment n -> fragment_parses n)
  /\ (is_string n -> string_parses n)
  /\ expansion_parses n.
Proof.
  induction n as [l k v nm | l e IH | l e IH | l ms IH | l ms IH]
    using BNF_Expansion_rect'; intros C P.
  - assert (fragment_parses (BNF_Literal l k v nm)) as Hf.
    { intros self ts rest M Pd.
      assert (exists t, ts = [t]
                        /\ match k with
                           | Lit_SYMBOL =>
                               nm = None /\ lexeme_of t = (SYMBOL, V_Str v)
                           | Lit_TERMINAL =>
                               lexeme_of t = (TERMINAL, V_Pair v nm)
                           | Lit_NONTERMINAL =>
                               lexeme_of t = (NONTERMINAL, V_Pair v nm)
                           end) as (t & -> & Ht).
      { destruct k; cbn [plain lexemes] in P, M; try contradiction;
          apply map_eq_cons in M as (t & tl & -> & Ht & M);
          apply map_eq_nil in M; subst tl; exists t;
          (split; [reflexivity|]); tauto. }
      cbn [app] in Pd.
      destruct (parse_leaf_forward self t rest (BNF_Token.location t)
                  (BNF_Literal l k v nm) Pd)
        as (n' & s1 & E & K & S & P1).
      { destruct k; exact Ht. }
      apply pending_cons in Pd as (N & _).
      exists n', s1. split; [|auto]. eapply parses_leaf; eauto. }
    split; [auto|]. split; intros; [|apply string_expansion];
      apply fragment_string, Hf.
  - cbn [canonical plain] in C, P. destruct (IH C P) as (_ & _ & He).
    assert (fragment_parses (BNF_Optional l e)) as Hf.
    { intros self ts rest M Pd. cbn [lexemes] in M.
      apply map_eq_cons in M as (t1 & ts0 & -> & Ht1 & M).
      apply map_eq_app in M as (tse & ts2 & -> & Me & M2).
      apply map_eq_cons in M2 as (t2 & tl & -> & Ht2 & M2).
      apply map_eq_nil in M2. subst tl.
      injection Ht1 as K1 _. injection Ht2 as K2 _.
      cbn [app] in Pd. rewrite <- app_assoc in Pd. cbn [app] in Pd.
      pose proof Pd as Pd'. apply pending_cons in Pd' as (N & _).
      destruct (match_forward _ _ _ _ Pd K1) as (s1 & M1 & _ & P1).
      destruct (He s1 tse (t2 :: rest) Me P1) as (e' & s2 & Pe & Se & P2).
      { cbn. rewrite K2. split; [reflexivity | discriminate]. }
      destruct (match_forward _ _ _ _ P2 K2) as (s3 & M3 & _ & P3).
      exists (BNF_Optional (BNF_Token.location t1) e'), s3.
      split; [eapply parses_optional; eauto|]. split; [|exact P3].
      unfold same_structure in *. cbn [unloc]. rewrite Se. reflexivity. }
    split; [auto|]. split; intros; [|apply string_expansion];
      apply fragment_string, Hf.
  - cbn [canonical plain] in C, P. destruct (IH C P) as (_ & _ & He).
    assert (fragment_parses (BNF_One_Or_More l e)) as Hf.
    { intros self ts rest M Pd. cbn [lexemes] in M.
      apply map_eq_cons in M as (t1 & ts0 & -> & Ht1 & M).
      apply map_eq_app in M as (tse & ts2 & -> & Me & M2).
      apply map_eq_cons in M2 as (t2 & tl & -> & Ht2 & M2).
      apply map_eq_nil in M2. subst tl.
      injection Ht1 as K1 _. injection Ht2 as K2 _.
      cbn [app] in Pd. rewrite <- app_assoc in Pd. cbn [app] in Pd.
      pose proof Pd as Pd'. apply pending_cons in Pd' as (N & _).
      destruct (match_forward _ _ _ _ Pd K1) as (s1 & M1 & _ & P1).
      destruct (He s1 tse (t2 :: rest) Me P1) as (e' & s2 & Pe & Se & P2).
      { cbn. rewrite K2. split; [reflexivity | discriminate]. }
      destruct (match_forward _ _ _ _ P2 K2) as (s3 & M3 & _ & P3).
      exists (BNF_One_Or_More (BNF_Token.location t1) e'), s3.
      split; [eapply parses_one_or_more; eauto|]. split; [|exact P3].
      unfold same_structure in *. cbn [unloc]. rewrite Se. reflexivity. }
    split; [auto|]. split; intros; [|apply string_expansion];
      apply fragment_string, Hf.
  - cbn [canonical plain] in C, P. destruct C as (H2 & _ & C).
    apply fold_right_and_Forall in P.
    apply (fold_right_and_Forall (fun m => is_fragment m /\ canonical m)) in C.
    assert (Forall (fun m => is_fragment m /\ fragment_parses m) ms) as Hms.
    { rewrite Forall_forall in *. intros m Hin.
      destruct (C m Hin) as [Fm Cm]. split; [exact Fm|].
      apply (IH m Hin Cm (P m Hin)), Fm. }
    assert (string_parses (BNF_String l ms)) as Hs.
    { intros self ts rest M Pd F. cbn [lexemes] in M.
      destruct ms as [|m1 [|m2 ms]]; [cbn in H2; lia..|].
      inversion Hms as [|? ? [F1 Hm1] Hms']; subst.
      cbn [flat_map] in M.
      apply map_eq_app in M as (ts1 & ts' & -> & M1 & M').
      rewrite <- app_assoc in Pd.
      destruct (Hm1 self _ _ M1 Pd) as (m1' & s1 & P1 & S1 & Pd1).
      destruct (string_loop_parses (m2 :: ms) Hms' [m1'] s1 ts' rest)
        as (ms' & n' & s2 & L & U & E & Pd2); try assumption.
      { discriminate. }
      exists n', s2. split; [eapply parses_string; eauto|].
      split; [|exact Pd2].
      destruct ms' as [|m2' ms']; [discriminate U|].
      cbn [app] in E. rewrite BNF_String_init_two in E. injection E as <-.
      unfold same_structure in *. cbn [unloc map]. cbn [map] in U.
      rewrite S1, U. reflexivity. }
    split; [contradiction|]. split; [auto|]. apply string_expansion, Hs.
  - cbn [canonical plain] in C, P. destruct C as (H2 & _ & C).
    apply fold_right_and_Forall in P.
    apply (fold_right_and_Forall (fun m => is_string m /\ canonical m)) in C.
    assert (Forall string_parses ms) as Hms.
    { rewrite Forall_forall in *. intros m Hin.
      destruct (C m Hin) as [Sm Cm].
      apply (IH m Hin Cm (P m Hin)), Sm. }
    split; [contradiction|]. split; [contradiction|].
    intros self ts rest M Pd F. cbn [lexemes] in M.
    destruct ms as [|m1 [|m2 ms]]; [cbn in H2; lia..|].
    inversion Hms as [|? ? Hm1 Hms']; subst.
    apply map_eq_app in M as (ts1 & ts' & -> & M1 & M').
    rewrite <- app_assoc in Pd.
    assert (follows_string (ts' ++ rest)) as Fs.
    { cbn [flat_map app] in M'.
      apply map_eq_cons in M' as (t2 & tl & -> & Ht2 & _).
      injection Ht2 as K2 _. cbn. rewrite K2. reflexivity. }
    destruct (Hm1 self _ _ M1 Pd Fs) as (m1' & s1 & P1 & S1 & Pd1).
    destruct (expansion_loop_parses (m2 :: ms) Hms' [m1'] s1 ts' rest)
      as (ms' & n' & s2 & L & U & E & Pd2); try assumption.
    { discriminate. }
    exists n', s2. split; [eapply parses_expansion; eauto|].
    split; [|exact Pd2].
    destruct ms' as [|m2' ms']; [discriminate U|].
    cbn [app] in E. rewrite BNF_Alternatives_init_two in E. injection E as <-.
    unfold same_structure in *. cbn [unloc map]. cbn [map] in U.
    rewrite S1, U. reflexivity.
Qed.

(* ------------------------------------------------------------------ *)
(** ** Parsing the text of a tree again *)

(** The text of a grammar block that declares [name] with the rendered
    expansion [n]. *)
Definition production_text (name : str) (n : BNF_Expansion) : str :=
  BNF_Parser.triple_quote ++ (name ++ py " ::= " ++ write_expansion [] n)
  ++ BNF_Parser.triple_quote.

Lemma slice_delimiters (s : str) :
  slice (BNF_Parser.triple_quote ++ s ++ BNF_Parser.triple_quote) 3 (-3) = s.
Proof.
  unfold slice, slice_bound.
  change (3 <? 0) with false. change (-3 <? 0) with true. cbv iota.
  rewrite !len_app. change (len BNF_Parser.triple_quote) with 3.
  pose proof (len_nonneg s).
  rewrite Z.min_l, Z.max_r by lia.
  change (Z.to_nat 3) with 3%nat. cbn [BNF_Parser.triple_quote skipn app].
  replace (Z.to_nat (-3 + (3 + (len s + 3)) - 3)) with (List.length s + 0)%nat
    by (unfold len; lia).
  rewrite firstn_app_2. cbn. apply app_nil_r.
Qed.

Lemma startswith_app (p s : str) : startswith (p ++ s) p = true.
Proof.
  induction p as [|c p IH]; cbn; [destruct s; reflexivity|].
  rewrite Ascii.eqb_refl. exact IH.
Qed.

(** The converse of [parse_Ok]. *)
Lemma loops_parse (self self1 : BNF_Parser.t) (obj : Record_Object.t)
    (tok : option BNF_Token.t) (lexer : BNF_Lexer.t)
    (decls : list (str * BNF_Expansion)) :
  BNF_Parser.current_lexer self = None ->
  startswith (Record_Object.bnf_text obj) BNF_Parser.triple_quote = true ->
  BNF_Lexer.token
    (BNF_Lexer.init (slice (Record_Object.bnf_text obj) 3 (-3))
       (Record_Object.bnf_location obj))
  = Ok (tok, lexer) ->
  loops (Record_Object.name obj)
    (BNF_Parser.set_bundles
       (BNF_Parser.set_lexer_state self (Some lexer) None tok)
       (dict_set (BNF_Parser.bundles self) (Record_Object.name obj) []))
    decls self1 ->
  exists fuel,
    forall fuel',
      (fuel <= fuel')%nat ->
      BNF_Parser.parse fuel' self obj
      = Some (Ok (BNF_Parser.set_lexer_state self1 None None None)).
Proof.
  intros L S T Lp. destruct (loops_parse_loop _ _ _ _ Lp) as [fuel R].
  exists fuel. intros fuel' Hf. unfold BNF_Parser.parse.
  rewrite L, S, T. cbn [assert negb fbind].
  change (BNF_Parser.bundles
            (BNF_Parser.set_lexer_state self (Some lexer) None tok))
    with (BNF_Parser.bundles self).
  rewrite (R fuel' Hf). reflexivity.
Qed.

(** The text of a plain canonical tree, declared under a name, parses
    to a tree of the same structure. *)
Lemma plain_round_trip (self : BNF_Parser.t) (name object_name : str)
    (location : Source_Reference.t) (n : BNF_Expansion) :
  canonical n -> plain n ->
  spelled (NONTERMINAL, V_Pair name None) ->
  BNF_Parser.current_lexer self = None ->
  dict_mem (BNF_Parser.productions self) name = false ->
  exists fuel n' self',
    BNF_Parser.parse fuel self
      (Record_Object.make object_name (production_text name n) location)
    = Some (Ok self')
    /\ BNF_Parser.productions self'
       = BNF_Parser.productions self ++ [(name, n')]
    /\ same_structure n' n.
Proof.
  intros C P Sn L D.
  set (obj := Record_Object.make object_name (production_text name n)
                location).
  set (frag := name ++ py " ::= " ++ write_expansion [] n).
  assert (slice (Record_Object.bnf_text obj) 3 (-3) = frag) as Hslice
    by apply slice_delimiters.
  destruct (plain_text n C P) as [Ht Fx].
  assert (frag = lead false ++ spell (NONTERMINAL, V_Pair name None)
                 ++ text_of ((PRODUCTION, V_None) :: lexemes n)) as Hfrag.
  { unfold frag.
    change (text_of ((PRODUCTION, V_None) :: lexemes n))
      with (py " ::=" ++ text_of (lexemes n)).
    rewrite <- Ht. destruct name; reflexivity. }
  pose proof (init_zipper frag location) as Z0. rewrite Hfrag in Z0 at 2.
  destruct (lex_lexeme _ _ _ _ _ Z0 eq_refl Sn (text_of_delimited _))
    as (tok0 & l1 & T0 & X0 & Z1 & E1).
  assert (Forall spelled ((PRODUCTION, V_None) :: lexemes n)) as Fx'
    by (constructor; [exact I | exact Fx]).
  destruct (lex_text _ _ _ Fx' Z1 E1) as (ts & e & l' & Ts & Mts & Ke).
  apply map_eq_cons in Mts as (tarrow & tsn & -> & Xa & Mn).
  injection X0 as K0 V0. injection Xa as Ka _.
  set (s0 := BNF_Parser.set_bundles
               (BNF_Parser.set_lexer_state self (Some l1) None (Some tok0))
               (dict_set (BNF_Parser.bundles self) object_name [])).
  assert (pending s0 (tok0 :: tarrow :: tsn ++ [e])) as P0.
  { unfold pending. cbn. exists l1, ((tarrow :: tsn) ++ [e]), l'. auto. }
  destruct (match_forward _ _ _ _ P0 K0) as (s1 & M1 & C1 & P1).
  destruct (match_forward _ _ _ _ P1 Ka) as (s2 & M2 & _ & P2).
  destruct (tree_parses n C P) as (_ & _ & He).
  destruct (He s2 tsn [e] Mn P2) as (n' & s3 & Pn & Sn' & P3).
  { cbn. rewrite Ke. split; [reflexivity | discriminate]. }
  assert (declares s0 name n'
            (BNF_Parser.set_productions s3
               (dict_set (BNF_Parser.productions s3) name n'))) as Dc.
  { eapply declares_intro; eauto.
    - rewrite V0. reflexivity.
    - apply match_tables in M1 as (_ & _ & -> & _). exact D. }
  pose proof (declares_tables _ _ _ _ Dc) as (Dp & _ & _ & _ & Db & _).
  set (s4 := BNF_Parser.set_productions s3
               (dict_set (BNF_Parser.productions s3) name n')) in *.
  assert (BNF_Parser.bundle_append s4 object_name name
          = Ok (BNF_Parser.set_bundles s4
                  (dict_set (BNF_Parser.bundles s4) object_name ([] ++ [name]))))
    as Ba.
  { unfold BNF_Parser.bundle_append. rewrite Db. cbn [s0 BNF_Parser.bundles
      BNF_Parser.set_bundles]. rewrite dict_get_set_same. reflexivity. }
  assert (pending (BNF_Parser.set_bundles s4
                     (dict_set (BNF_Parser.bundles s4) object_name
                        ([] ++ [name]))) [e]) as P4.
  { eapply pending_tables; [| |exact P3]; reflexivity. }
  destruct (match_forward _ _ _ _ P4 Ke) as (s5 & M5 & _ & P5).
  assert (loops object_name s0 [(name, n')] s5) as Lp.
  { eapply loops_step; [reflexivity | exact Dc | exact Ba | exact M5 |].
    apply loops_end. unfold pending in P5.
    destruct (BNF_Parser.nt s5); [|reflexivity].
    destruct P5 as (? & ? & ? & _ & X & _). discriminate X. }
  destruct (loops_parse self s5 obj (Some tok0) l1 [(name, n')] L) as [fuel R].
  - apply startswith_app.
  - rewrite Hslice. exact T0.
  - exact Lp.
  - exists fuel, n', (BNF_Parser.set_lexer_state s5 None None None).
    split; [apply R; lia|]. split; [|exact Sn'].
    apply loops_tables in Lp as (Lt & _). exact Lt.
Qed.

(* ------------------------------------------------------------------ *)
(** ** The leaves of parsed trees *)

(** What the lexer guarantees about the value of a token: the text of a
    symbol holds no quote, and an identifier without a suffix is spelled
    by its base. *)
Definition lexical_token (tok : BNF_Token.t) : Prop :=
  match lexeme_of tok with
  | (SYMBOL, V_Str v) => forallb BNF_Lexer.not_quote v = true
  | (SYMBOL, _) => False
  | (TERMINAL, V_Pair base None) => spelled (TERMINAL, V_Pair base None)
  | (TERMINAL, V_Pair _ (Some _)) => True
  | (TERMINAL, _) => False
  | (NONTERMINAL, V_Pair _ _) => True
  | (NONTERMINAL, _) => False
  | _ => True
  end.

Fixpoint lexical (n : BNF_Expansion) : Prop :=
  match n with
  | BNF_Literal _ Lit_SYMBOL v nm =>
      nm = None /\ forallb BNF_Lexer.not_quote v = true
  | BNF_Literal _ Lit_TERMINAL v None => spelled (TERMINAL, V_Pair v None)
  | BNF_Literal _ _ _ _ => True
  | BNF_Optional _ e => lexical e
  | BNF_One_Or_More _ e => lexical e
  | BNF_String _ ms => fold_right (fun m acc => lexical m /\ acc) True ms
  | BNF_Alternatives _ ms => fold_right (fun m acc => lexical m /\ acc) True ms
  end.

(** The trees that are rendered without markup: no nonterminal leaf
    (rendered as a link) and no suffix (rendered in italics). *)
Fixpoint link_free (n : BNF_Expansion) : Prop :=
  match n with
  | BNF_Literal _ Lit_NONTERMINAL _ _ => False
  | BNF_Literal _ Lit_TERMINAL _ nm => nm = None
  | BNF_Literal _ Lit_SYMBOL _ _ => True
  | BNF_Optional _ e => link_free e
  | BNF_One_Or_More _ e => link_free e
  | BNF_String _ ms => fold_right (fun m acc => link_free m /\ acc) True ms
  | BNF_Alternatives _ ms =>
      fold_right (fun m acc => link_free m /\ acc) True ms
  end.

Lemma lexical_plain (n : BNF_Expansion) :
  lexical n -> link_free n -> plain n.
Proof.
  induction n as [l k v nm | l e IH | l e IH | l ms IH | l ms IH]
    using BNF_Expansion_rect'; cbn [lexical link_free plain]; auto.
  - destruct k; try tauto. intros Hl ->. auto.
  - intros Hl Hf. apply fold_right_and_Forall.
    apply fold_right_and_Forall in Hl, Hf.
    rewrite Forall_forall in *. auto.
  - intros Hl Hf. apply fold_right_and_Forall.
    apply fold_right_and_Forall in Hl, Hf.
    rewrite Forall_forall in *. auto.
Qed.

Lemma consistent_zipper (l : BNF_Lexer.t) (c : ascii) :
  consistent l -> BNF_Lexer.cc l = Some c ->
  exists a rest, zipper l (a ++ [c]) rest.
Proof.
  intros C Hc. pose proof C as [Hlen Hpos Hcc Hnc].
  assert (0 <= BNF_Lexer.lexpos l < len (BNF_Lexer.fragment l)) as Hin
    by (apply consistent_inside; congruence).
  rewrite Hcc in Hc. unfold char_at in Hc.
  destruct (BNF_Lexer.lexpos l <? 0) eqn:E; [discriminate|].
  apply nth_error_split in Hc as (a & rest & Hf & Ha).
  exists a, rest. unfold zipper. rewrite <- app_assoc. cbn [app].
  assert (BNF_Lexer.lexpos l = len a) as Hp by (unfold len; lia).
  split; [exact Hf|]. split; [rewrite Hlen, Hf; reflexivity|].
  split; [rewrite len_app; change (len [c]) with 1; lia|].
  rewrite Hnc, Hf, Hp.
  replace (len a + 1) with (len (a ++ [c]))
    by (rewrite len_app; reflexivity).
  replace (a ++ c :: rest) with ((a ++ [c]) ++ rest)
    by (rewrite <- app_assoc; reflexivity).
  apply char_at_app_hd.
Qed.

Lemma raw_text_zipper (l2 l3 : BNF_Lexer.t) (a r xs r' : str) (x : ascii) :
  zipper l2 (a ++ [x]) r ->
  zipper l3 (a ++ x :: xs) r' ->
  slice (BNF_Lexer.fragment l3) (BNF_Lexer.lexpos l2)
    (BNF_Lexer.lexpos l3 + 1) = x :: xs.
Proof.
  intros (_ & _ & P2 & _) (F3 & _ & P3 & _).
  rewrite F3, P2, P3, <- app_assoc.
  replace (len (a ++ [x]) - 1) with (len a)
    by (rewrite len_app; change (len [x]) with 1; lia).
  replace (len (a ++ x :: xs) - 1 + 1) with (len a + len (x :: xs))
    by (rewrite len_app; lia).
  apply slice_middle.
Qed.

(** The branch of [scan] that produced an identifier or a symbol. *)
Definition scanned (l : BNF_Lexer.t) (c : ascii) (k : KIND)
    (l3 : BNF_Lexer.t) : Prop :=
  match k with
  | TERMINAL =>
      isupper c = true
      /\ l3 = BNF_Lexer.advance_while BNF_Lexer.is_ident_char
                (BNF_Lexer.loop_bound l) l
  | NONTERMINAL =>
      islower c = true
      /\ l3 = BNF_Lexer.advance_while BNF_Lexer.is_ident_char
                (BNF_Lexer.loop_bound l) l
  | SYMBOL =>
      BNF_Lexer.nc (BNF_Lexer.advance_while BNF_Lexer.not_quote
                      (BNF_Lexer.loop_bound l) l) <> None
      /\ l3 = BNF_Lexer.advance
                (BNF_Lexer.advance_while BNF_Lexer.not_quote
                   (BNF_Lexer.loop_bound l) l)
  | _ => True
  end.

Lemma scan_inv_aux (l : BNF_Lexer.t) (c : ascii) :
  match BNF_Lexer.scan l c with
  | Ok (k, l3) => scanned l c k l3
  | Raise _ => True
  end.
Proof.
  unfold BNF_Lexer.scan, BNF_Lexer.lex_error, Message_Handler.error.
  repeat match goal with
         | |- context [if ?b then _ else _] => destruct b eqn:?
         | |- context [match ?x with Some _ => _ | None => _ end] =>
             destruct x eqn:?
         end;
    cbn [bind scanned]; try exact I; split; congruence.
Qed.

Lemma scan_inv (l l3 : BNF_Lexer.t) (c : ascii) (k : KIND) :
  BNF_Lexer.scan l c = Ok (k, l3) -> scanned l c k l3.
Proof.
  intros H. pose proof (scan_inv_aux l c) as A. rewrite H in A. exact A.
Qed.

Lemma span_until_all (p : ascii -> bool) (s before : str) :
  span_until p s = (before, []) ->
  before = s /\ forallb (fun c => negb (p c)) s = true.
Proof.
  revert before. induction s as [|c s IH]; intros before; cbn [span_until].
  - intros [= <-]. auto.
  - destruct (p c) eqn:Pc; [discriminate|].
    destruct (span_until p s) as [b r] eqn:E. intros [= <- ->].
    destruct (IH b eq_refl) as [-> F]. cbn [forallb]. rewrite Pc, F. auto.
Qed.

Lemma split_without_suffix (p : ascii -> bool) (s base : str) :
  split_at_transition p s = Ok (V_Pair base None) ->
  base = s /\ forallb (fun c => negb (p c)) s = true.
Proof.
  unfold split_at_transition.
  destruct (span_until p s) as [before rest] eqn:E.
  destruct rest as [|c rest].
  - intros [= <-]. apply span_until_all in E as [_ F]. auto.
  - destruct (endswith before [underscore]); discriminate.
Qed.

Lemma split_pair (p : ascii -> bool) (s : str) (v : token_value) :
  split_at_transition p s = Ok v -> exists base nm, v = V_Pair base nm.
Proof.
  unfold split_at_transition.
  destruct (span_until p s) as [before rest].
  destruct rest as [|c rest]; [intros [= <-]; eauto|].
  destruct (endswith before [underscore]); [intros [= <-]; eauto|].
  discriminate.
Qed.

(** One call of [token] keeps the lexer consistent. *)
Lemma token_consistent (l l' : BNF_Lexer.t) (r : option BNF_Token.t) :
  BNF_Lexer.token l = Ok (r, l') -> consistent l -> consistent l'.
Proof.
  intros H C. apply token_inv in H.
  inversion H as [l1 l2 k Hs Hl2 Hcc Heof | l1 l2 k Hs Hl2 Hcc Heof
                 | l1 k c Hs Hk Hcc Hle
                 | l1 l2 l3 k c kind value Hs Hk Hl2 Hcc Hscan Hv Hle];
    subst; destruct (skip_whitespace_spec _ _ _ _ _ Hs) as (_ & C1 & _);
    specialize (C1 C).
  - assert (consistent (if k <? 2 then BNF_Lexer.advance l1 else l1)) as C2
      by (destruct (k <? 2); [apply advance_consistent|]; exact C1).
    destruct C2 as [A1 A2 A3 A4]. split; assumption.
  - destruct (k <? 2); [apply advance_consistent|]; exact C1.
  - exact C1.
  - apply scan_spec in Hscan as (_ & _ & S3 & _).
    apply S3, advance_consistent, C1.
Qed.

(** The values of the tokens. *)
Lemma token_lexical (l l' : BNF_Lexer.t) (tok : BNF_Token.t) :
  BNF_Lexer.token l = Ok (Some tok, l') -> consistent l ->
  lexical_token tok.
Proof.
  intros H C. apply token_inv in H.
  inversion H as [l1 l2 k Hs Hl2 Hcc Heof | l1 l2 k Hs Hl2 Hcc Heof
                 | l1 k c Hs Hk Hcc Hle
                 | l1 l2 l3 k c kind value Hs Hk Hl2 Hcc Hscan Hv Hle];
    subst; try exact I.
  destruct (skip_whitespace_spec _ _ _ _ _ Hs) as (_ & C1 & _).
  pose proof (advance_consistent _ (C1 C)) as C2.
  destruct (consistent_zipper _ _ C2 Hcc) as (a & rest & Z2).
  unfold lexical_token, lexeme_of. cbn [BNF_Token.kind BNF_Token.value].
  pose proof (scan_inv _ _ _ _ Hscan) as Hi. unfold scanned in Hi.
  destruct kind; try (injection Hv as <-; exact I).
  - (* NONTERMINAL *)
    rewrite split_nonterminal_spec in Hv.
    apply split_pair in Hv as (base & nm & ->). exact I.
  - (* TERMINAL *)
    destruct Hi as [Hc ->].
    destruct (advance_while_passed BNF_Lexer.is_ident_char
                (BNF_Lexer.loop_bound (BNF_Lexer.advance l1)) _ _ _ Z2)
      as (xs & rest' & -> & Fxs & Z3).
    rewrite <- app_assoc in Z3. cbn [app] in Z3.
    rewrite (raw_text_zipper _ _ _ _ _ _ _ Z2 Z3) in Hv.
    rewrite split_terminal_spec in Hv.
    pose proof (split_pair _ _ _ Hv) as (base & nm & ->).
    destruct nm as [nm|]; [exact I|].
    apply split_without_suffix in Hv as [-> Hno].
    cbn [spelled]. auto.
  - (* SYMBOL *)
    destruct Hi as [Hnc ->].
    destruct (advance_while_passed BNF_Lexer.not_quote
                (BNF_Lexer.loop_bound (BNF_Lexer.advance l1)) _ _ _ Z2)
      as (xs & rest' & -> & Fxs & Z3).
    pose proof Z3 as (_ & _ & _ & Hnc'). rewrite Hnc' in Hnc.
    destruct rest' as [|q rest']; [cbn in Hnc; congruence|].
    apply advance_zipper in Z3 as [Z4 _].
    rewrite <- !app_assoc in Z4. cbn [app] in Z4.
    rewrite (raw_text_zipper _ _ _ _ (xs ++ [q]) _ _ Z2 Z4) in Hv.
    rewrite slice_inner in Hv. injection Hv as <-. exact Fxs.
Qed.

(** A parser whose lexer is consistent and whose lookahead token has a
    lexical value. *)
Definition sound (self : BNF_Parser.t) : Prop :=
  (forall l, BNF_Parser.current_lexer self = Some l -> consistent l)
  /\ (forall tok, BNF_Parser.nt self = Some tok -> lexical_token tok).

Lemma match_sound (self self' : BNF_Parser.t) (k : KIND) :
  BNF_Parser.match_ self k = Ok self' -> sound self ->
  sound self'
  /\ exists tok,
      BNF_Parser.nt self = Some tok
      /\ BNF_Parser.ct self' = Some tok
      /\ BNF_Token.kind tok = k
      /\ lexical_token tok.
Proof.
  intros M [Sl St].
  apply match_Ok in M as (tok & l & l1 & r & N & K & L & T & ->).
  split; [split|].
  - cbn. intros l0 [= <-]. eapply token_consistent; eauto.
  - cbn. intros t ->. eapply token_lexical; eauto.
  - exists tok. auto.
Qed.

Lemma parse_leaf_lexical (self self' : BNF_Parser.t)
    (loc : Source_Reference.t) (k : KIND) (n : BNF_Expansion) :
  BNF_Parser.parse_leaf self loc k = Ok (n, self') -> sound self ->
  sound self' /\ lexical n.
Proof.
  unfold BNF_Parser.parse_leaf, BNF_Parser.ct_kind, BNF_Parser.ct_value.
  intros H S. apply bind_Ok in H as (s1 & M & H).
  destruct (match_sound _ _ _ M S) as (S1 & tok & _ & C & K & Lt).
  rewrite C in H. cbn [bind] in H.
  unfold lexical_token, lexeme_of in Lt. rewrite K in *.
  destruct k; try (apply bind_Ok in H as (v0 & _ & H);
                   apply bind_Ok in H as (v1 & _ & H);
                   apply bind_Ok in H as (n0 & Hi & _); discriminate Hi).
  - destruct (BNF_Token.value tok) as [|base nm|]; try contradiction.
    cbn in H. injection H as <- <-. split; [exact S1 | exact I].
  - destruct (BNF_Token.value tok) as [|base [nm|]|]; try contradiction;
      cbn in H; injection H as <- <-; split; auto; exact I.
  - destruct (BNF_Token.value tok) as [| |v]; try contradiction.
    cbn in H. injection H as <- <-. split; [exact S1|]. cbn. auto.
Qed.

Lemma collapse_lexical (rv : list BNF_Expansion) (n : BNF_Expansion)
    (init : list BNF_Expansion -> result BNF_Expansion) :
  (init = BNF_String_init \/ init = BNF_Alternatives_init) ->
  Forall lexical rv ->
  match rv with
  | [n1] => Ok n1
  | _ => init rv
  end = Ok n ->
  lexical n.
Proof.
  intros Hi F E. destruct rv as [|n1 [|n2 rv]].
  - destruct Hi as [-> | ->]; discriminate E.
  - injection E as <-. inversion F; assumption.
  - destruct Hi as [-> | ->];
      [rewrite BNF_String_init_two in E
      | rewrite BNF_Alternatives_init_two in E];
      injection E as <-;
      exact (proj2 (fold_right_and_Forall lexical (n1 :: n2 :: rv)) F).
Qed.

(** The leaves of the trees of successful runs. *)
Lemma parses_lexical (c : call) (self self' : BNF_Parser.t)
    (n : BNF_Expansion) :
  parses c self n self' -> sound self ->
  sound self'
  /\ match c with
     | String_loop rv | Expansion_loop rv => Forall lexical rv -> lexical n
     | _ => lexical n
     end.
Proof.
  induction 1 as
    [ self n1 self1 n self2 _ IH1 _ IH2
    | rv self self1 n1 self2 n self3 P M _ IH1 _ IH2
    | rv self n P E
    | self n1 self1 n self2 _ IH1 _ IH2
    | rv self tok n1 self1 n self2 N F _ IH1 _ IH2
    | rv self tok n N F E
    | self tok self1 rv self2 self3 N K M1 _ IH1 M2
    | self tok self1 rv self2 self3 N K M1 _ IH1 M2
    | self tok n self1 N K E ]; intros S.
  - destruct (IH1 S) as [S1 L1]. destruct (IH2 S1) as [S2 L2].
    split; [exact S2|]. apply L2. constructor; [exact L1 | constructor].
  - destruct (match_sound _ _ _ M S) as [S1 _].
    destruct (IH1 S1) as [S2 L1]. destruct (IH2 S2) as [S3 L2].
    split; [exact S3|]. intros Hrv. apply L2, Forall_app.
    split; [exact Hrv | constructor; [exact L1 | constructor]].
  - split; [exact S|]. intros Hrv.
    eapply collapse_lexical; [right; reflexivity | exact Hrv | exact E].
  - destruct (IH1 S) as [S1 L1]. destruct (IH2 S1) as [S2 L2].
    split; [exact S2|]. apply L2. constructor; [exact L1 | constructor].
  - destruct (IH1 S) as [S1 L1]. destruct (IH2 S1) as [S2 L2].
    split; [exact S2|]. intros Hrv. apply L2, Forall_app.
    split; [exact Hrv | constructor; [exact L1 | constructor]].
  - split; [exact S|]. intros Hrv.
    eapply collapse_lexical; [left; reflexivity | exact Hrv | exact E].
  - destruct (match_sound _ _ _ M1 S) as [S1 _].
    destruct (IH1 S1) as [S2 L1].
    destruct (match_sound _ _ _ M2 S2) as [S3 _]. auto.
  - destruct (match_sound _ _ _ M1 S) as [S1 _].
    destruct (IH1 S1) as [S2 L1].
    destruct (match_sound _ _ _ M2 S2) as [S3 _]. auto.
  - eapply parse_leaf_lexical; eauto.
Qed.

Lemma sound_tables (a b : BNF_Parser.t) :
  BNF_Parser.nt b = BNF_Parser.nt a ->
  BNF_Parser.current_lexer b = BNF_Parser.current_lexer a ->
  sound a -> sound b.
Proof. unfold sound. intros -> ->. auto. Qed.

Lemma loops_lexical (name : str) (self self' : BNF_Parser.t)
    (decls : list (str * BNF_Expansion)) :
  loops name self decls self' -> sound self ->
  Forall (fun d => lexical (snd d)) decls.
Proof.
  induction 1 as [self N | self tok p n s1 s2 s3 decls s4 N D B M _ IH];
    intros S; [constructor|].
  destruct D as [s sa sb sc t q a M1 C V Dm M2 P].
  destruct (match_sound _ _ _ M1 S) as [Sa _].
  destruct (match_sound _ _ _ M2 Sa) as [Sb _].
  destruct (parses_lexical _ _ _ _ P Sb) as [Sc La].
  apply bundle_append_Ok in B as (b & _ & ->).
  constructor; [exact La|]. apply IH.
  eapply match_sound; [exact M|].
  eapply sound_tables; [| |exact Sc]; reflexivity.
Qed.

(** The trees that a call of [parse] stores: canonical and lexical. *)
Lemma parse_trees (fuel : nat) (self self' : BNF_Parser.t)
    (obj : Record_Object.t) (p : str) (n : BNF_Expansion) :
  BNF_Parser.parse fuel self obj = Some (Ok self') ->
  dict_get (BNF_Parser.productions self') p = Some n ->
  dict_get (BNF_Parser.productions self) p = None ->
  canonical n /\ lexical n.
Proof.
  intros H Hp Hold.
  pose proof (parse_tables _ _ _ _ H) as (decls' & Pd & _ & _ & Hc & _).
  apply parse_Ok in H as (tok & lx & s1 & decls & _ & _ & T & L & ->).
  assert (Forall (fun d => lexical (snd d)) decls) as Hl.
  { apply (loops_lexical _ _ _ _ L). split; cbn.
    - intros l [= <-]. eapply token_consistent; [exact T|].
      apply init_consistent.
    - intros t ->. eapply token_lexical; [exact T|]. apply init_consistent. }
  apply loops_tables in L as (Lt & _).
  cbn [BNF_Parser.productions BNF_Parser.set_lexer_state
         BNF_Parser.set_bundles] in *.
  rewrite Lt in Pd. apply app_inv_head in Pd. subst decls'.
  rewrite Lt, dict_get_app, Hold in Hp. apply dict_get_In in Hp.
  rewrite Forall_forall in Hc, Hl.
  split; [exact (Hc _ Hp) | exact (Hl _ Hp)].
Qed.

(** *** C1 (as amended) *)

(** C1, amended.  When lexing and parsing a fragment succeeds, every
    tree it stores whose leaves are symbols and terminals without a
    suffix is rendered by [write_expansion] to a text that, declared
    under any name in a block of its own, lexes and parses again to a
    tree of the same structure (equal up to source locations).  Trees
    with a nonterminal leaf or a suffix are rendered with markup and
    are outside this statement. *)
Theorem round_trip (fuel : nat) (self self' : BNF_Parser.t)
    (obj : Record_Object.t) (p : str) (n : BNF_Expansion) :
  BNF_Parser.parse fuel self obj = Some (Ok self') ->
  dict_get (BNF_Parser.productions self') p = Some n ->
  dict_get (BNF_Parser.productions self) p = None ->
  link_free n ->
  forall (again : BNF_Parser.t) (name object_name : str)
         (location : Source_Reference.t),
    spelled (NONTERMINAL, V_Pair name None) ->
    BNF_Parser.current_lexer again = None ->
    dict_mem (BNF_Parser.productions again) name = false ->
    exists fuel' n' again',
      BNF_Parser.parse fuel' again
        (Record_Object.make object_name
           (BNF_Parser.triple_quote
            ++ (name ++ py " ::= " ++ write_expansion [] n)
            ++ BNF_Parser.triple_quote)
           location)
      = Some (Ok again')
      /\ BNF_Parser.productions again'
         = BNF_Parser.productions again ++ [(name, n')]
      /\ unloc n' = unloc n.
Proof.
  intros H Hp Hold Hf again name object_name location Sn L D.
  destruct (parse_trees _ _ _ _ _ _ H Hp Hold) as [C Lx].
  exact (plain_round_trip again name object_name location n C
           (lexical_plain _ Lx Hf) Sn L D).
Qed.

Definition grammar_plain : Record_Object.t :=
  grammar "'''sign ::= '+' MINUS | [ { DIGIT } 'e' ]'''".

(** The tree that [parse] stores for the production of [grammar_plain]. *)
Definition tree_plain : BNF_Expansion :=
  match dict_get (BNF_Parser.productions (parsed 20 grammar_plain))
          (py "sign") with
  | Some n => n
  | None => BNF_Literal loc0 Lit_NONTERMINAL [] None
  end.

Lemma round_trip_witness :
  exists fuel' n' again',
    BNF_Parser.parse fuel' parser_0
      (Record_Object.make (py "H")
         (BNF_Parser.triple_quote
          ++ (py "copy" ++ py " ::= " ++ write_expansion [] tree_plain)
          ++ BNF_Parser.triple_quote)
         loc0)
    = Some (Ok again')
    /\ BNF_Parser.productions again'
       = BNF_Parser.productions parser_0 ++ [(py "copy", n')]
    /\ unloc n' = unloc tree_plain.
Proof.
  refine (round_trip 20 parser_0 (parsed 20 grammar_plain) grammar_plain
            (py "sign") tree_plain _ _ _ _
            parser_0 (py "copy") (py "H") loc0 _ _ _).
  - vm_compute. reflexivity.
  - vm_compute. reflexivity.
  - reflexivity.
  - vm_compute. auto.
  - vm_compute. auto.
  - reflexivity.
  - reflexivity.
Defined.

(* ================================================================== *)
(** * Further properties *)

(* ------------------------------------------------------------------ *)
(** ** The check of a whole symbol table *)

(** The warnings about the productions [keys], looked up in the table
    of [self]. *)
Definition table_diagnostics (self : BNF_Parser.t) (keys : list str)
    : list (Source_Reference.t * string) :=
  flat_map (fun k =>
              match dict_get (BNF_Parser.productions self) k with
              | Some n => diagnostics self n
              | None => []
              end) keys.

Lemma table_diagnostics_tables (a b : BNF_Parser.t) (keys : list str) :
  BNF_Parser.terminals b = BNF_Parser.terminals a ->
  BNF_Parser.productions b = BNF_Parser.productions a ->
  table_diagnostics b keys = table_diagnostics a keys.
Proof.
  intros Ht Hp. unfold table_diagnostics.
  induction keys as [|k keys IH]; cbn [flat_map]; [reflexivity|].
  rewrite IH, Hp.
  destruct (dict_get (BNF_Parser.productions a) k); [|reflexivity].
  rewrite (diagnostics_tables a b) by assumption. reflexivity.
Qed.

Lemma sem_loop_warned (keys : list str) :
  forall self : BNF_Parser.t,
    (forall k, In k keys -> In k (dict_keys (BNF_Parser.productions self))) ->
    exists self',
      BNF_Parser.sem_loop self keys = Ok self'
      /\ warned self self' (table_diagnostics self keys).
Proof.
  induction keys as [|k keys IH]; intros self Hk.
  - exists self. split; [reflexivity | apply warned_nil].
  - cbn [BNF_Parser.sem_loop]. unfold BNF_Parser.sem_production.
    assert (In k (dict_keys (BNF_Parser.productions self))) as Hin
      by (apply Hk; left; reflexivity).
    apply dict_mem_keys in Hin. unfold dict_mem in Hin.
    unfold table_diagnostics. cbn [flat_map].
    destruct (dict_get (BNF_Parser.productions self) k) as [n|] eqn:E;
      [|discriminate].
    destruct (sem_expansion_warned n self) as (s1 & E1 & W1).
    rewrite E1. cbn [bind].
    destruct (warned_tables _ _ _ W1) as [Ht Hp].
    destruct (IH s1) as (s2 & E2 & W2).
    { intros k' Hk'. rewrite Hp. apply Hk. right. exact Hk'. }
    exists s2. split; [exact E2|].
    eapply warned_trans; [exact W1|].
    rewrite (table_diagnostics_tables self s1) in W2 by assumption.
    exact W2.
Qed.

Lemma table_diagnostics_entries (self : BNF_Parser.t)
    (entries : dict BNF_Expansion) :
  NoDup (dict_keys (BNF_Parser.productions self)) ->
  incl entries (BNF_Parser.productions self) ->
  table_diagnostics self (dict_keys entries)
  = flat_map (fun d => diagnostics self (snd d)) entries.
Proof.
  intros N. unfold table_diagnostics, dict_keys.
  induction entries as [|[k n] entries IH]; intros Hi; [reflexivity|].
  cbn [map flat_map fst snd].
  rewrite (dict_get_NoDup _ k n N) by (apply Hi; left; reflexivity).
  rewrite IH; [reflexivity|].
  intros d Hd. apply Hi. right. exact Hd.
Qed.

(** [sem] never raises: it visits the productions in the order of
    their declaration and records, for each, the warnings of the leaves
    of its tree from left to right; the symbol table is unchanged.  In
    particular it records nothing exactly when no leaf is unknown. *)
Theorem sem_checks (self : BNF_Parser.t) :
  NoDup (dict_keys (BNF_Parser.productions self)) ->
  exists self',
    BNF_Parser.sem self = Ok self'
    /\ warned self self'
         (flat_map (fun d => diagnostics self (snd d))
            (BNF_Parser.productions self))
    /\ BNF_Parser.terminals self' = BNF_Parser.terminals self
    /\ BNF_Parser.productions self' = BNF_Parser.productions self
    /\ BNF_Parser.bundles self' = BNF_Parser.bundles self.
Proof.
  intros N. unfold BNF_Parser.sem.
  destruct (sem_loop_warned (dict_keys (BNF_Parser.productions self)) self)
    as (self' & E & W); [auto|].
  exists self'. split; [exact E|].
  rewrite table_diagnostics_entries in W by (auto using incl_refl).
  split; [exact W|]. rewrite W. auto.
Qed.

Lemma sem_checks_witness :
  exists self',
    BNF_Parser.sem (parsed 20 grammar_expr) = Ok self'
    /\ warned (parsed 20 grammar_expr) self'
         (flat_map (fun d => diagnostics (parsed 20 grammar_expr) (snd d))
            (BNF_Parser.productions (parsed 20 grammar_expr)))
    /\ BNF_Parser.terminals self'
       = BNF_Parser.terminals (parsed 20 grammar_expr)
    /\ BNF_Parser.productions self'
       = BNF_Parser.productions (parsed 20 grammar_expr)
    /\ BNF_Parser.bundles self' = BNF_Parser.bundles (parsed 20 grammar_expr).
Proof.
  apply (sem_checks (parsed 20 grammar_expr)).
  vm_compute. constructor; [intros [H|[]]; discriminate H|].
  constructor; [intros []|constructor].
Defined.

(* ------------------------------------------------------------------ *)
(** ** Rendering what [parse] has stored *)

(** The text of a production after its head: one line, or one line for
    each alternative of the root. *)
Definition production_body (production : str) (n : BNF_Expansion) : str :=
  match n with
  | BNF_Alternatives _ (first :: others) =>
      write_expansion [] first ++ [newline]
      ++ flat_map
           (fun m => spaces (len production + 3) ++ py "| "
                     ++ write_expansion [] m ++ [newline])
           others
  | _ => write_expansion [] n ++ [newline]
  end.

Lemma write_production_body (fd production : str) (bnf_parser : BNF_Parser.t)
    (n : BNF_Expansion) :
  dict_get (BNF_Parser.productions bnf_parser) production = Some n ->
  at_least_two n ->
  write_production fd production bnf_parser
  = Ok (fd ++ production_head production ++ production_body production n).
Proof.
  intros H A. unfold write_production. rewrite H.
  fold (production_head production). unfold write.
  destruct n as [l k v nm | l e | l e | l ms | l ms];
    try (rewrite write_expansion_app, <- !app_assoc; reflexivity).
  destruct ms as [|first others]; [cbn in A; lia|].
  rewrite write_alternatives_flat, write_expansion_app.
  cbn [production_body]. rewrite <- !app_assoc. reflexivity.
Qed.

(** Every name in the bundle that [parse] leaves for a grammar block is
    a key of [productions], and [write_production] renders it without
    raising: head, body and a final newline are appended to what was
    written before. *)
Theorem bundle_renders (fuel : nat) (self self' : BNF_Parser.t)
    (obj : Record_Object.t) (bundle : list str) (production fd : str) :
  BNF_Parser.parse fuel self obj = Some (Ok self') ->
  dict_get (BNF_Parser.bundles self') (Record_Object.name obj) = Some bundle ->
  In production bundle ->
  exists n,
    dict_get (BNF_Parser.productions self') production = Some n
    /\ write_production fd production self'
       = Ok (fd ++ production_head production ++ production_body production n).
Proof.
  intros H Hb Hin.
  destruct (parse_tables _ _ _ _ H)
    as (decls & P & N & Fresh & Hc & _ & _ & _ & Hb').
  rewrite Hb' in Hb. injection Hb as <-.
  pose proof (Fresh _ Hin) as Hold.
  apply in_map_iff in Hin as ([p n] & E & Hd). cbn [fst] in E. subst p.
  assert (dict_get (BNF_Parser.productions self') production = Some n) as G.
  { rewrite P, dict_get_app, Hold. apply dict_get_NoDup; assumption. }
  exists n. split; [exact G|].
  apply write_production_body; [exact G|].
  rewrite Forall_forall in Hc. apply canonical_at_least_two.
  exact (Hc _ Hd).
Qed.

Lemma bundle_renders_witness :
  exists n,
    dict_get (BNF_Parser.productions (parsed 20 grammar_expr)) (py "term")
    = Some n
    /\ write_production [] (py "term") (parsed 20 grammar_expr)
       = Ok ([] ++ production_head (py "term")
             ++ production_body (py "term") n).
Proof.
  apply (bundle_renders 20 parser_0 (parsed 20 grammar_expr) grammar_expr
           [py "expr"; py "term"] (py "term") []).
  - vm_compute. reflexivity.
  - vm_compute. reflexivity.
  - right. left. reflexivity.
Defined.

(* ------------------------------------------------------------------ *)
(** ** Declaring a production twice *)

(** A grammar block whose first production bears a name that is already
    a key of [productions] is rejected: once the name and the token
    after it are lexed, [parse] raises "duplicated definition" at the
    location of the name, before it looks at the rest of the block. *)
Theorem duplicated_definition (fuel : nat) (self : BNF_Parser.t)
    (obj : Record_Object.t) (tok : BNF_Token.t) (l1 l2 : BNF_Lexer.t)
    (r2 : option BNF_Token.t) (base : str) (nm : option str) :
  BNF_Parser.current_lexer self = None ->
  startswith (Record_Object.bnf_text obj) BNF_Parser.triple_quote = true ->
  BNF_Lexer.token
    (BNF_Lexer.init (slice (Record_Object.bnf_text obj) 3 (-3))
       (Record_Object.bnf_location obj))
  = Ok (Some tok, l1) ->
  BNF_Lexer.token l1 = Ok (r2, l2) ->
  BNF_Token.kind tok = NONTERMINAL ->
  BNF_Token.value tok = V_Pair base nm ->
  dict_mem (BNF_Parser.productions self) base = true ->
  BNF_Parser.parse (S fuel) self obj
  = Some (Raise (TRLC_Error (BNF_Token.location tok) "duplicated definition")).
Proof.
  intros L S T1 T2 K V D. unfold BNF_Parser.parse.
  rewrite L, S, T1. cbn [fbind assert negb bind].
  cbn [BNF_Parser.parse_loop BNF_Parser.nt BNF_Parser.set_bundles
         BNF_Parser.set_lexer_state].
  unfold BNF_Parser.parse_production, BNF_Parser.match_.
  cbn [BNF_Parser.nt BNF_Parser.set_bundles BNF_Parser.set_lexer_state].
  rewrite K. cbn [KIND_eqb negb]. 
  change (KIND_eqb NONTERMINAL NONTERMINAL) with true. cbn [negb].
  unfold BNF_Parser.advance.
  cbn [BNF_Parser.current_lexer BNF_Parser.set_bundles
         BNF_Parser.set_lexer_state].
  rewrite T2. cbn [bind fbind]. unfold BNF_Parser.ct_value.
  cbn [BNF_Parser.ct BNF_Parser.nt BNF_Parser.set_bundles
         BNF_Parser.set_lexer_state fbind].
  rewrite V. cbn [value_0 fbind BNF_Parser.productions
                    BNF_Parser.set_lexer_state BNF_Parser.set_bundles].
  rewrite D. reflexivity.
Qed.

Definition grammar_term : Record_Object.t :=
  Record_Object.make (py "T") (py "'''term ::= DIGIT { DIGIT }'''") loc0.

Lemma duplicated_definition_witness :
  exists loc,
    BNF_Parser.parse 20 (parsed 20 grammar_expr) grammar_term
    = Some (Raise (TRLC_Error loc "duplicated definition")).
Proof.
  eexists.
  refine (duplicated_definition 19 (parsed 20 grammar_expr) grammar_term
            _ _ _ _ (py "term") None _ _ _ _ _ _ _).
  - reflexivity.
  - reflexivity.
  - vm_compute. reflexivity.
  - vm_compute. reflexivity.
  - reflexivity.
  - reflexivity.
  - vm_compute. reflexivity.
Defined.

(* ------------------------------------------------------------------ *)
(** ** The text of a token *)

(** The text that the kind and the value of a token stand for; a suffix
    is joined to the base by an underscore. *)
Definition token_text (x : lexeme) : str :=
  match x with
  | (TERMINAL, V_Pair base (Some suffix)) => base ++ underscore :: suffix
  | (NONTERMINAL, V_Pair base (Some suffix)) => base ++ underscore :: suffix
  | _ => spell x
  end.

(** What [scan] accepts as the text of a token of each kind. *)
Definition shaped (k : KIND) (raw : str) : Prop :=
  match k with
  | S_BRA => raw = py "["
  | S_KET => raw = py "]"
  | C_BRA => raw = py "{"
  | C_KET => raw = py "}"
  | ALTERNATIVE => raw = py "|"
  | PRODUCTION => raw = py "::="
  | NONTERMINAL =>
      exists c xs, raw = c :: xs /\ islower c = true
                   /\ forallb BNF_Lexer.is_ident_char xs = true
  | TERMINAL =>
      exists c xs, raw = c :: xs /\ isupper c = true
                   /\ forallb BNF_Lexer.is_ident_char xs = true
  | SYMBOL =>
      exists v, raw = quote :: v ++ [quote]
                /\ forallb BNF_Lexer.not_quote v = true
  | RULE_END => False
  end.

Definition is_newline (c : ascii) : bool := Ascii.eqb c newline.

Definition count_newlines (s : str) : Z :=
  Z.of_nat (List.length (filter is_newline s)).

Lemma count_newlines_cons (c : ascii) (s : str) :
  count_newlines (c :: s)
  = (if is_newline c then 1 else 0) + count_newlines s.
Proof.
  unfold count_newlines. cbn [filter].
  destruct (is_newline c); cbn [List.length]; lia.
Qed.

Lemma count_newlines_app (a b : str) :
  count_newlines (a ++ b) = count_newlines a + count_newlines b.
Proof.
  unfold count_newlines. rewrite filter_app, length_app. lia.
Qed.

Lemma count_newlines_nonneg (s : str) : 0 <= count_newlines s.
Proof. unfold count_newlines. lia. Qed.

(** The whitespace loop of [token], backwards: it has gone through
    whitespace and counted its newlines. *)
Lemma skip_whitespace_passed (n : nat) :
  forall (l l1 : BNF_Lexer.t) (pre rest : str) (k k1 : Z),
    zipper l pre rest ->
    BNF_Lexer.skip_whitespace n l k = (l1, k1) ->
    exists ws rest',
      rest = ws ++ rest'
      /\ forallb isspace ws = true
      /\ zipper l1 (pre ++ ws) rest'
      /\ k1 = k + count_newlines ws
      /\ ((List.length rest < n)%nat -> stops isspace rest').
Proof.
  induction n as [|n IH]; intros l l1 pre rest k k1 Z;
    cbn [BNF_Lexer.skip_whitespace].
  - intros [= <- <-]. exists [], rest. cbn [app]. rewrite app_nil_r.
    split; [reflexivity|]. split; [reflexivity|]. split; [exact Z|].
    split; [cbn; lia | lia].
  - pose proof Z as (_ & _ & _ & Hnc). rewrite Hnc.
    destruct rest as [|c rest]; cbn [hd_error].
    + intros [= <- <-]. exists [], []. cbn [app]. rewrite app_nil_r.
      split; [reflexivity|]. split; [reflexivity|]. split; [exact Z|].
      split; [cbn; lia | intros _; exact I].
    + destruct (isspace c) eqn:Sc.
      * rewrite advance_cc, Hnc. cbn [hd_error is_char].
        apply advance_zipper in Z as [Z _]. intros H.
        destruct (IH _ _ _ _ _ _ Z H) as (ws & rest' & -> & F & Z' & -> & St).
        exists (c :: ws), rest'. cbn [app forallb]. rewrite Sc, F.
        rewrite <- app_assoc in Z'.
        split; [reflexivity|]. split; [reflexivity|]. split; [exact Z'|].
        split.
        -- rewrite count_newlines_cons. unfold is_newline.
           destruct (Ascii.eqb c newline); lia.
        -- intros Hn. apply St. cbn [List.length] in Hn. lia.
      * intros [= <- <-]. exists [], (c :: rest). cbn [app]. rewrite app_nil_r.
        split; [reflexivity|]. split; [reflexivity|]. split; [exact Z|].
        split; [cbn; lia | intros _; exact Sc].
Qed.

(** A loop of the lexer, backwards, when it is given enough rounds: it
    stops at the end of the fragment or in front of a character that
    fails the test. *)
Lemma advance_while_split (p : ascii -> bool) (n : nat) :
  forall (l : BNF_Lexer.t) (pre rest : str),
    zipper l pre rest ->
    (List.length rest < n)%nat ->
    exists xs rest',
      rest = xs ++ rest'
      /\ forallb p xs = true
      /\ stops p rest'
      /\ zipper (BNF_Lexer.advance_while p n l) (pre ++ xs) rest'.
Proof.
  induction n as [|n IH]; intros l pre rest Z Hn; [lia|].
  cbn [BNF_Lexer.advance_while].
  pose proof Z as (_ & _ & _ & Hnc). rewrite Hnc.
  destruct rest as [|c rest]; cbn [hd_error].
  - exists [], []. cbn [app]. rewrite app_nil_r. cbn. auto.
  - destruct (p c) eqn:Pc.
    + apply advance_zipper in Z as [Z _].
      destruct (IH _ _ _ Z) as (xs & rest' & -> & F & St & Z');
        [cbn [List.length] in Hn; lia|].
      exists (c :: xs), rest'. cbn [app forallb]. rewrite Pc, F.
      rewrite <- app_assoc in Z'. auto.
    + exists [], (c :: rest). cbn [app]. rewrite app_nil_r. cbn [app forallb stops].
      auto.
Qed.

Lemma loop_bound_rest (l : BNF_Lexer.t) (pre rest : str) :
  zipper l pre rest -> (List.length rest < BNF_Lexer.loop_bound l)%nat.
Proof.
  intros Z. apply (loop_bound_zipper l pre rest []).
  rewrite app_nil_r. exact Z.
Qed.

Lemma ascii_eqb_true (a b : ascii) : Ascii.eqb a b = true -> a = b.
Proof. apply Ascii.eqb_eq. Qed.

(** The dispatch of [scan], backwards: the characters that it has gone
    through after the first one, and the shape of the whole. *)
Lemma scan_passed_aux (l2 : BNF_Lexer.t) (a rest : str) (c : ascii) :
  zipper l2 (a ++ [c]) rest ->
  match BNF_Lexer.scan l2 c with
  | Ok (k, l3) =>
      exists xs rest',
        rest = xs ++ rest'
        /\ zipper l3 (a ++ c :: xs) rest'
        /\ shaped k (c :: xs)
  | Raise _ => True
  end.
Proof.
  intros Z. unfold BNF_Lexer.scan.
  destruct (Ascii.eqb c "[") eqn:E1;
    [apply ascii_eqb_true in E1; subst c; exists [], rest;
     split; [reflexivity|]; split; [exact Z | reflexivity]|].
  destruct (Ascii.eqb c "]") eqn:E2;
    [apply ascii_eqb_true in E2; subst c; exists [], rest;
     split; [reflexivity|]; split; [exact Z | reflexivity]|].
  destruct (Ascii.eqb c "{") eqn:E3;
    [apply ascii_eqb_true in E3; subst c; exists [], rest;
     split; [reflexivity|]; split; [exact Z | reflexivity]|].
  destruct (Ascii.eqb c "}") eqn:E4;
    [apply ascii_eqb_true in E4; subst c; exists [], rest;
     split; [reflexivity|]; split; [exact Z | reflexivity]|].
  destruct (Ascii.eqb c "|") eqn:E5;
    [apply ascii_eqb_true in E5; subst c; exists [], rest;
     split; [reflexivity|]; split; [exact Z | reflexivity]|].
  destruct (Ascii.eqb c ":") eqn:E6.
  { apply ascii_eqb_true in E6. subst c.
    rewrite !advance_cc.
    pose proof Z as (_ & _ & _ & Hnc). rewrite Hnc.
    destruct rest as [|c1 rest]; [exact I|]. cbn [hd_error is_char].
    destruct (Ascii.eqb c1 ":") eqn:C1; cbn [negb bind]; [|exact I].
    apply ascii_eqb_true in C1. subst c1.
    apply advance_zipper in Z as [Z1 _].
    pose proof Z1 as (_ & _ & _ & Hnc1). rewrite Hnc1.
    destruct rest as [|c2 rest]; [exact I|]. cbn [hd_error is_char].
    destruct (Ascii.eqb c2 "=") eqn:C2; cbn [negb bind]; [|exact I].
    apply ascii_eqb_true in C2. subst c2.
    apply advance_zipper in Z1 as [Z2 _].
    exists (py ":="), rest. rewrite <- !app_assoc in Z2.
    split; [reflexivity|]. split; [exact Z2 | reflexivity]. }
  destruct (islower c) eqn:Lc.
  { destruct (advance_while_passed BNF_Lexer.is_ident_char
                (BNF_Lexer.loop_bound l2) _ _ _ Z)
      as (xs & rest' & -> & F & Z3).
    rewrite <- app_assoc in Z3. exists xs, rest'.
    split; [reflexivity|]. split; [exact Z3|]. exists c, xs. auto. }
  destruct (isupper c) eqn:Uc.
  { destruct (advance_while_passed BNF_Lexer.is_ident_char
                (BNF_Lexer.loop_bound l2) _ _ _ Z)
      as (xs & rest' & -> & F & Z3).
    rewrite <- app_assoc in Z3. exists xs, rest'.
    split; [reflexivity|]. split; [exact Z3|]. exists c, xs. auto. }
  destruct (Ascii.eqb c quote) eqn:Qc; [|exact I].
  apply ascii_eqb_true in Qc. subst c.
  destruct (advance_while_split BNF_Lexer.not_quote
              (BNF_Lexer.loop_bound l2) _ _ _ Z (loop_bound_rest _ _ _ Z))
    as (v & rest' & -> & F & St & Z3).
  pose proof Z3 as (_ & _ & _ & Hnc3). rewrite Hnc3.
  destruct rest' as [|q rest']; [exact I|]. cbn [hd_error bind].
  cbn [stops] in St. unfold BNF_Lexer.not_quote in St.
  apply negb_false_iff, ascii_eqb_true in St. subst q.
  exists (v ++ [quote]), rest'. rewrite <- !app_assoc. cbn [app].
  apply advance_zipper in Z3 as [Z4 _]. rewrite <- !app_assoc in Z4.
  cbn [app] in Z4. split; [reflexivity|]. split; [exact Z4|].
  exists v. split; [reflexivity | exact F].
Qed.

Lemma scan_passed (l2 l3 : BNF_Lexer.t) (a rest : str) (c : ascii) (k : KIND) :
  zipper l2 (a ++ [c]) rest ->
  BNF_Lexer.scan l2 c = Ok (k, l3) ->
  exists xs rest',
    rest = xs ++ rest'
    /\ zipper l3 (a ++ c :: xs) rest'
    /\ shaped k (c :: xs).
Proof.
  intros Z H. pose proof (scan_passed_aux l2 a rest c Z) as A.
  rewrite H in A. exact A.
Qed.

Lemma span_until_app (p : ascii -> bool) (s : str) :
  fst (span_until p s) ++ snd (span_until p s) = s.
Proof.
  induction s as [|c s IH]; cbn [span_until]; [reflexivity|].
  destruct (p c); [reflexivity|].
  destruct (span_until p s) as [b r]. cbn [fst snd app] in *.
  rewrite IH. reflexivity.
Qed.

(** The base and the suffix of an identifier make up its text. *)
Lemma split_rebuild (p : ascii -> bool) (s base : str) (nm : option str) :
  split_at_transition p s = Ok (V_Pair base nm) ->
  s = base ++ match nm with
              | Some suffix => underscore :: suffix
              | None => []
              end.
Proof.
  unfold split_at_transition. pose proof (span_until_app p s) as A.
  destruct (span_until p s) as [before rest]. cbn [fst snd] in A.
  destruct rest as [|c rest].
  - intros [= <- <-]. rewrite app_nil_r. reflexivity.
  - destruct (endswith before [underscore]) eqn:E; [|discriminate].
    intros [= <- <-]. apply endswith_inv in E as [b ->].
    rewrite removelast_last, <- app_assoc in *. symmetry. exact A.
Qed.

Lemma value_text (k : KIND) (raw : str) (value : token_value) :
  shaped k raw ->
  match k with
  | TERMINAL => BNF_Lexer.split_terminal raw
  | NONTERMINAL => BNF_Lexer.split_nonterminal raw
  | SYMBOL => Ok (V_Str (slice raw 1 (-1)))
  | _ => Ok V_None
  end = Ok value ->
  token_text (k, value) = raw.
Proof.
  intros S V. destruct k; cbn [shaped] in S; try contradiction;
    try (injection V as <-; subst raw; reflexivity).
  - rewrite split_nonterminal_spec in V.
    destruct (split_pair _ _ _ V) as (base & nm & ->).
    apply split_rebuild in V. destruct nm; cbn [token_text spell];
      rewrite ?app_nil_r in V; auto.
  - rewrite split_terminal_spec in V.
    destruct (split_pair _ _ _ V) as (base & nm & ->).
    apply split_rebuild in V. destruct nm; cbn [token_text spell];
      rewrite ?app_nil_r in V; auto.
  - destruct S as (v & -> & _). rewrite slice_inner in V.
    injection V as <-. reflexivity.
Qed.

(** One call of [token] on a lexer that stands in a fragment: what it
    has gone through, and the text of the token it returns. *)
Lemma token_passed (l l' : BNF_Lexer.t) (pre rest : str)
    (r : option BNF_Token.t) :
  BNF_Lexer.token l = Ok (r, l') ->
  zipper l pre rest ->
  consistent l ->
  BNF_Lexer.eof_token_generated l = false ->
  exists tok ws,
    r = Some tok
    /\ forallb isspace ws = true
    /\ ((BNF_Token.kind tok = RULE_END
         /\ BNF_Token.value tok = V_None
         /\ ((rest = ws /\ finished l')
             \/ (exists rest',
                    rest = ws ++ rest'
                    /\ 2 <= count_newlines ws
                    /\ zipper l' (pre ++ ws) rest'
                    /\ consistent l'
                    /\ BNF_Lexer.eof_token_generated l' = false)))
        \/ (exists raw rest',
               rest = ws ++ raw ++ rest'
               /\ count_newlines ws < 2
               /\ shaped (BNF_Token.kind tok) raw
               /\ token_text (lexeme_of tok) = raw
               /\ BNF_Token.start tok = len (pre ++ ws)
               /\ BNF_Token.end_ tok = len (pre ++ ws ++ raw) - 1
               /\ zipper l' (pre ++ ws ++ raw) rest'
               /\ consistent l'
               /\ BNF_Lexer.eof_token_generated l' = false)).
Proof.
  intros H Z C He.
  assert (live l) as L.
  { split; [exact C|]. split; [exact He|].
    destruct Z as (Hf & _ & Hp & _). rewrite Hf, Hp, len_app.
    pose proof (len_nonneg rest). lia. }
  pose proof (token_consistent _ _ _ H C) as C'.
  destruct (token_live _ _ _ H L) as (tok0 & -> & _ & _ & _ & _ & Hcase).
  apply token_inv in H.
  inversion H as [l1 l2 k Hs Hl2 Hcc Heof | l1 l2 k Hs Hl2 Hcc Heof
                 | l1 k c Hs Hk Hcc Hle
                 | l1 l2 l3 k c kind value Hs Hk Hl2 Hcc Hscan Hv Hle];
    subst.
  - (* the end of the fragment *)
    destruct (skip_whitespace_passed _ _ _ _ _ _ _ Z Hs)
      as (ws & rest' & -> & F & Z1 & Hk & _).
    eexists. exists ws. split; [reflexivity|]. split; [exact F|]. left.
    split; [reflexivity|]. split; [reflexivity|]. left.
    destruct Hcase as [(_ & _ & _ & _ & Fin) | (_ & (_ & E & _) & _)];
      [|discriminate E].
    split; [|exact Fin].
    destruct (k <? 2) eqn:Ek.
    + rewrite advance_cc in Hcc. destruct Z1 as (_ & _ & _ & Hnc).
      rewrite Hnc in Hcc. destruct rest'; [|discriminate].
      apply app_nil_r.
    + destruct (skip_whitespace_spec _ _ _ _ _ Hs)
        as (_ & _ & [[-> Hk0] | [_ Hne]]); [|congruence].
      apply Z.ltb_ge in Ek. lia.
  - (* a blank line *)
    destruct (skip_whitespace_passed _ _ _ _ _ _ _ Z Hs)
      as (ws & rest' & -> & F & Z1 & Hk' & _).
    destruct (skip_whitespace_spec _ _ _ _ _ Hs) as (E1 & _ & _).
    eexists. exists ws. split; [reflexivity|]. split; [exact F|]. left.
    split; [reflexivity|]. split; [reflexivity|]. right.
    exists rest'. split; [reflexivity|]. split; [lia|].
    split; [exact Z1|]. split; [exact C'|]. congruence.
  - (* a token *)
    destruct (skip_whitespace_passed _ _ _ _ _ _ _ Z Hs)
      as (ws & rest' & -> & F & Z1 & Hk' & _).
    destruct (skip_whitespace_spec _ _ _ _ _ Hs) as (E1 & _ & _).
    rewrite advance_cc in Hcc. pose proof Z1 as (_ & _ & _ & Hnc).
    rewrite Hnc in Hcc. destruct rest' as [|c' rest']; [discriminate|].
    injection Hcc as ->. apply advance_zipper in Z1 as [Z2 _].
    destruct (scan_passed _ _ _ _ _ _ Z2 Hscan)
      as (xs & rest3 & -> & Z3 & Sh).
    rewrite (raw_text_zipper _ _ _ _ _ _ _ Z2 Z3) in Hv.
    pose proof Z2 as (_ & _ & P2 & _). pose proof Z3 as (_ & _ & P3 & _).
    apply scan_spec in Hscan as (_ & E3 & _). rewrite advance_eof in E3.
    clear H Hcase.
    eexists. exists ws. split; [reflexivity|]. split; [exact F|]. right.
    exists (c :: xs), rest3.
    cbn [BNF_Token.kind BNF_Token.start BNF_Token.end_].
    unfold lexeme_of. cbn [BNF_Token.kind BNF_Token.value].
    split; [reflexivity|]. split; [lia|].
    split; [exact Sh|].
    split; [exact (value_text _ _ _ Sh Hv)|].
    split; [rewrite P2, !len_app; change (len [c]) with 1; lia|].
    split; [rewrite P3, !len_app; lia|].
    split; [rewrite app_assoc; exact Z3|]. split; [exact C'|].
    congruence.
Qed.

Lemma live_zipper (l : BNF_Lexer.t) :
  live l -> exists pre rest, zipper l pre rest.
Proof.
  intros (C & _ & Hlt). pose proof C as [Hlen Hpos Hcc Hnc].
  destruct (BNF_Lexer.cc l) as [c|] eqn:E.
  - destruct (consistent_zipper _ _ C E) as (a & rest & Z). eauto.
  - exists [], (BNF_Lexer.fragment l).
    assert (BNF_Lexer.lexpos l = -1) as Hm.
    { symmetry in Hcc. unfold char_at in Hcc.
      destruct (BNF_Lexer.lexpos l <? 0) eqn:E0; [apply Z.ltb_lt in E0; lia|].
      apply nth_error_None in Hcc. unfold len in Hlt.
      apply Z.ltb_ge in E0. lia. }
    unfold zipper. cbn [app]. split; [reflexivity|]. split; [exact Hlen|].
    split; [exact Hm|]. rewrite Hnc, Hm.
    exact (char_at_app_hd [] (BNF_Lexer.fragment l)).
Qed.

(** The value of a token keeps its text: for every token other than
    RULE_END, the characters of the fragment from [start] to [end] are
    the text that its kind and value stand for, and they have the shape
    of a token of that kind. *)
Theorem token_spelling (l l' : BNF_Lexer.t) (tok : BNF_Token.t) :
  BNF_Lexer.token l = Ok (Some tok, l') ->
  live l ->
  BNF_Token.kind tok <> RULE_END ->
  slice (BNF_Lexer.fragment l) (BNF_Token.start tok) (BNF_Token.end_ tok + 1)
  = token_text (lexeme_of tok)
  /\ shaped (BNF_Token.kind tok) (token_text (lexeme_of tok))
  /\ 0 <= BNF_Token.start tok <= BNF_Token.end_ tok
  /\ BNF_Token.end_ tok < len (BNF_Lexer.fragment l).
Proof.
  intros H L K. destruct (live_zipper _ L) as (pre & rest & Z).
  pose proof L as (C & He & _).
  destruct (token_passed _ _ _ _ _ H Z C He)
    as (tok' & ws & [= <-] & F & [(K' & _) | Hcase]); [contradiction|].
  destruct Hcase as (raw & rest' & -> & _ & Sh & T & Hs & Hend & _).
  destruct Z as (Hf & _). rewrite T, Hf, Hs, Hend.
  assert (raw <> []) as Hne.
  { intros ->. destruct (BNF_Token.kind tok); cbn in Sh;
      try discriminate Sh; try contradiction;
      destruct Sh as (? & Sh); try destruct Sh as (? & Sh & _);
      try destruct Sh as (Sh & _); discriminate Sh. }
  split; [|split; [exact Sh|]].
  - replace (pre ++ ws ++ raw ++ rest') with ((pre ++ ws) ++ raw ++ rest')
      by (rewrite <- app_assoc; reflexivity).
    replace (len (pre ++ ws ++ raw) - 1 + 1) with (len (pre ++ ws) + len raw)
      by (rewrite !len_app; lia).
    apply slice_middle.
  - rewrite !len_app. pose proof (len_nonneg pre). pose proof (len_nonneg ws).
    pose proof (len_nonneg rest').
    assert (0 < len raw) by (destruct raw; [congruence | rewrite len_cons;
                             pose proof (len_nonneg raw); lia]).
    lia.
Qed.

Lemma token_spelling_witness :
  slice (py "  parameter_LEFT ::= x") 2 (15 + 1) = py "parameter_LEFT"
  /\ shaped NONTERMINAL (py "parameter_LEFT")
  /\ 0 <= 2 <= 15
  /\ 15 < len (py "  parameter_LEFT ::= x").
Proof.
  destruct (BNF_Lexer.token (BNF_Lexer.init (py "  parameter_LEFT ::= x") loc0))
    as [[[tok|] l']|e] eqn:E; try (vm_compute in E; discriminate).
  pose proof (token_spelling _ _ _ E (init_live _ _)) as H.
  vm_compute in E. injection E as <- <-. apply H. discriminate.
Defined.

Definition visible (s : str) : str := filter (fun c => negb (isspace c)) s.

Lemma visible_app (a b : str) : visible (a ++ b) = visible a ++ visible b.
Proof. apply filter_app. Qed.

Lemma visible_space (ws : str) : forallb isspace ws = true -> visible ws = [].
Proof.
  induction ws as [|c ws IH]; cbn [forallb visible filter]; [reflexivity|].
  intros H. apply andb_true_iff in H as [Hc H]. rewrite Hc. cbn [negb].
  apply IH, H.
Qed.

Lemma finished_tokens (l l' : BNF_Lexer.t) (ts : list BNF_Token.t) :
  tokens_from l ts l' -> finished l -> ts = [].
Proof.
  intros T F. destruct (token_finished _ F) as [E _].
  inversion T as [? ? E' | ? ? ? ? ? E' _]; subst; [reflexivity|].
  rewrite E in E'. discriminate.
Qed.

(** The tokens of what a lexer has before it. *)
Lemma tokens_text (l l' : BNF_Lexer.t) (ts : list BNF_Token.t) :
  tokens_from l ts l' ->
  forall pre rest : str,
    zipper l pre rest ->
    consistent l ->
    BNF_Lexer.eof_token_generated l = false ->
    visible rest
    = flat_map (fun tok => visible (token_text (lexeme_of tok))) ts.
Proof.
  induction 1 as [l l' E | l tok l1 ts l' E T IH]; intros pre rest Z C He.
  - destruct (token_passed _ _ _ _ _ E Z C He) as (? & ? & [=] & _).
  - destruct (token_passed _ _ _ _ _ E Z C He)
      as (tok' & ws & [= <-] & F & [(K & V & Hcase) | Hcase]);
      cbn [flat_map]; unfold lexeme_of at 1.
    + rewrite K, V. cbn [token_text spell visible filter app].
      destruct Hcase as [[-> Fin] | (rest' & -> & _ & Z1 & C1 & E1)].
      * rewrite (finished_tokens _ _ _ T Fin). cbn [flat_map].
        apply visible_space, F.
      * rewrite visible_app, (visible_space _ F). cbn [app].
        exact (IH _ _ Z1 C1 E1).
    + destruct Hcase as (raw & rest' & -> & _ & _ & Tx & _ & _ & Z1 & C1 & E1).
      unfold lexeme_of in Tx. rewrite Tx.
      rewrite !visible_app, (visible_space _ F). cbn [app]. f_equal.
      exact (IH _ _ Z1 C1 E1).
Qed.

Lemma drain_tokens_from (n : nat) :
  forall (l l' : BNF_Lexer.t) (acc ts : list BNF_Token.t),
    drain n l acc = Finished ts l' ->
    exists ts', ts = acc ++ ts' /\ tokens_from l ts' l'.
Proof.
  induction n as [|n IH]; intros l l' acc ts; [discriminate|].
  rewrite drain_S.
  destruct (BNF_Lexer.token l) as [[[tok|] l1]|e] eqn:E; [| |discriminate].
  - intros H. apply IH in H as (ts' & -> & T).
    exists (tok :: ts'). rewrite <- app_assoc. split; [reflexivity|].
    eapply tokens_next; eauto.
  - intros [= <- <-]. exists []. rewrite app_nil_r.
    split; [reflexivity | apply tokens_end, E].
Qed.

(** Lexing drops nothing: when the calls of [token] on a fragment come
    to their end without an error, the characters of the fragment other
    than whitespace are, in their order, those of the texts of the
    tokens returned. *)
Theorem nothing_dropped (n : nat) (fragment : str)
    (location : Source_Reference.t) (tokens : list BNF_Token.t)
    (lexer : BNF_Lexer.t) :
  drain n (BNF_Lexer.init fragment location) [] = Finished tokens lexer ->
  visible fragment
  = flat_map (fun tok => visible (token_text (lexeme_of tok))) tokens.
Proof.
  intros H. apply drain_tokens_from in H as (ts & -> & T). cbn [app].
  exact (tokens_text _ _ _ T [] fragment (init_zipper _ _)
           (init_consistent _ _) eq_refl).
Qed.

Lemma nothing_dropped_witness :
  visible (py "a_B ::= 'x y'  [ C ]")
  = flat_map (fun tok => visible (token_text (lexeme_of tok)))
      (match drain 10 (BNF_Lexer.init (py "a_B ::= 'x y'  [ C ]") loc0) [] with
       | Finished tokens _ => tokens
       | _ => []
       end).
Proof.
  destruct (drain 10 (BNF_Lexer.init (py "a_B ::= 'x y'  [ C ]") loc0) [])
    as [tokens lexer| |] eqn:E; try (vm_compute in E; discriminate).
  exact (nothing_dropped _ _ _ _ _ E).
Defined.

(* ------------------------------------------------------------------ *)
(** ** Lexical errors *)

(** What [token] does once it stands on the first character [c] of a
    token: the dispatch, the value, the token. *)
Definition scan_token (l2 : BNF_Lexer.t) (c : ascii)
    : result (option BNF_Token.t * BNF_Lexer.t) :=
  '(kind, l3) <- BNF_Lexer.scan l2 c ;;
  value <- match kind with
           | TERMINAL =>
               BNF_Lexer.split_terminal
                 (slice (BNF_Lexer.fragment l3) (BNF_Lexer.lexpos l2)
                    (BNF_Lexer.lexpos l3 + 1))
           | NONTERMINAL =>
               BNF_Lexer.split_nonterminal
                 (slice (BNF_Lexer.fragment l3) (BNF_Lexer.lexpos l2)
                    (BNF_Lexer.lexpos l3 + 1))
           | SYMBOL =>
               Ok (V_Str
                     (slice
                        (slice (BNF_Lexer.fragment l3) (BNF_Lexer.lexpos l2)
                           (BNF_Lexer.lexpos l3 + 1)) 1 (-1)))
           | _ => Ok V_None
           end ;;
  tok <- BNF_Token.init kind value (BNF_Lexer.lexpos l2)
           (BNF_Lexer.lexpos l3)
           (BNF_Lexer.mk_location l3 (BNF_Lexer.line_no l2)
              (BNF_Lexer.col_no l2) (BNF_Lexer.lexpos l2)
              (BNF_Lexer.lexpos l3)) ;;
  Ok (Some tok, l3).

(** A run of characters that pass a test, followed by one that fails
    it, is found in one way only. *)
Lemma span_unique (p : ascii -> bool) (a : str) :
  forall a' b b' : str,
    a ++ b = a' ++ b' ->
    forallb p a = true -> forallb p a' = true ->
    stops p b -> stops p b' ->
    a = a' /\ b = b'.
Proof.
  induction a as [|x a IH]; intros a' b b' E Fa Fa' Sb Sb'.
  - destruct a' as [|y a']; [auto|]. cbn [app] in E. subst b.
    cbn [forallb stops] in *. apply andb_true_iff in Fa' as [Fy _].
    congruence.
  - destruct a' as [|y a'].
    + cbn [app] in E. subst b'. cbn [forallb stops] in *.
      apply andb_true_iff in Fa as [Fx _]. congruence.
    + cbn [app forallb] in *. injection E as -> E.
      apply andb_true_iff in Fa as [_ Fa].
      apply andb_true_iff in Fa' as [_ Fa'].
      destruct (IH _ _ _ E Fa Fa' Sb Sb') as [-> ->]. auto.
Qed.

(** The whitespace loop of [token], forwards. *)
Lemma skip_whitespace_run (l : BNF_Lexer.t) (pre ws rest : str) :
  zipper l pre (ws ++ rest) ->
  forallb isspace ws = true ->
  stops isspace rest ->
  exists l1,
    BNF_Lexer.skip_whitespace (BNF_Lexer.loop_bound l) l 0
    = (l1, count_newlines ws)
    /\ zipper l1 (pre ++ ws) rest
    /\ BNF_Lexer.eof_token_generated l1 = BNF_Lexer.eof_token_generated l.
Proof.
  intros Z F S.
  destruct (BNF_Lexer.skip_whitespace (BNF_Lexer.loop_bound l) l 0)
    as [l1 k] eqn:Hs.
  destruct (skip_whitespace_passed _ _ _ _ _ _ _ Z Hs)
    as (ws' & rest' & E & F' & Z1 & -> & St).
  specialize (St (loop_bound_rest _ _ _ Z)).
  destruct (span_unique isspace ws ws' rest rest' E F F' S St) as [<- <-].
  exists l1. split; [reflexivity|]. split; [exact Z1|].
  apply skip_whitespace_spec in Hs as (E1 & _). exact E1.
Qed.

Lemma skip_whitespace_original (n : nat) :
  forall (l l1 : BNF_Lexer.t) (k k1 : Z),
    BNF_Lexer.skip_whitespace n l k = (l1, k1) ->
    BNF_Lexer.original_location l1 = BNF_Lexer.original_location l.
Proof.
  induction n as [|n IH]; intros l l1 k k1; cbn [BNF_Lexer.skip_whitespace].
  - intros [= <- <-]. reflexivity.
  - destruct (BNF_Lexer.nc l) as [c|]; [|intros [= <- <-]; reflexivity].
    destruct (isspace c); [|intros [= <- <-]; reflexivity].
    intros H. apply IH in H. exact H.
Qed.

(** One call of [token] before the first character of a token that
    less than two newlines separate from the lexer. *)
Lemma token_begin (l : BNF_Lexer.t) (pre ws rest : str) (c : ascii) :
  zipper l pre (ws ++ c :: rest) ->
  forallb isspace ws = true ->
  count_newlines ws < 2 ->
  isspace c = false ->
  exists l2,
    zipper l2 (pre ++ ws ++ [c]) rest
    /\ BNF_Lexer.cc l2 = Some c
    /\ BNF_Lexer.eof_token_generated l2 = BNF_Lexer.eof_token_generated l
    /\ BNF_Lexer.original_location l2 = BNF_Lexer.original_location l
    /\ BNF_Lexer.token l = scan_token l2 c.
Proof.
  intros Z F K Sc.
  destruct (skip_whitespace_run _ _ _ _ Z F Sc) as (l1 & Hs & Z1 & E1).
  pose proof (skip_whitespace_original _ _ _ _ _ Hs) as O1.
  apply advance_zipper in Z1 as [Z2 Hcc].
  exists (BNF_Lexer.advance l1). rewrite <- app_assoc in Z2.
  split; [exact Z2|]. split; [exact Hcc|].
  split; [rewrite advance_eof; exact E1|].
  split; [exact O1|].
  unfold BNF_Lexer.token. rewrite Hs.
  assert ((count_newlines ws <? 2) = true) as -> by (apply Z.ltb_lt; lia).
  cbv iota. rewrite Hcc.
  assert ((2 <=? count_newlines ws) = false) as -> by (apply Z.leb_gt; lia).
  reflexivity.
Qed.

(** The characters that begin a token. *)
Definition recognized (c : ascii) : bool :=
  Ascii.eqb c "[" || Ascii.eqb c "]" || Ascii.eqb c "{" || Ascii.eqb c "}"
  || Ascii.eqb c "|" || Ascii.eqb c ":" || islower c || isupper c
  || Ascii.eqb c quote.

Definition unexpected_message (c : ascii) : string :=
  "unexpected character " ++ String c EmptyString.

(** The three lexical errors. *)
Inductive lexical_error (o : Source_Reference.t) (before : str) (c : ascii)
    (rest : str) : string -> Z -> Prop :=
| error_unexpected :
    recognized c = false ->
    lexical_error o before c rest (unexpected_message c)
      (Source_Reference.start_pos o + 3 + len before)
| error_malformed_first :
    c = ":"%char ->
    startswith rest (py ":") = false ->
    lexical_error o before c rest "malformed ::= operator"
      (Source_Reference.start_pos o + 3 + len before + 1)
| error_malformed_second :
    c = ":"%char ->
    startswith rest (py ":") = true ->
    startswith rest (py ":=") = false ->
    lexical_error o before c rest "malformed ::= operator"
      (Source_Reference.start_pos o + 3 + len before + 2)
| error_unclosed :
    c = quote ->
    forallb BNF_Lexer.not_quote rest = true ->
    lexical_error o before c rest "unclosed token literal"
      (Source_Reference.start_pos o + 3 + len before + len rest).

Lemma split_not_TRLC (p : ascii -> bool) (raw : str)
    (loc : Source_Reference.t) (m : string) :
  split_at_transition p raw <> Raise (TRLC_Error loc m).
Proof.
  unfold split_at_transition. destruct (span_until p raw) as [b r].
  destruct r; [discriminate|].
  destruct (endswith b [underscore]); discriminate.
Qed.

Lemma init_not_TRLC (k : KIND) (v : token_value) (a b : Z)
    (loc loc' : Source_Reference.t) (m : string) :
  BNF_Token.init k v a b loc <> Raise (TRLC_Error loc' m).
Proof.
  unfold BNF_Token.init, assert. destruct (a <=? b); discriminate.
Qed.

(** A lexical error of [token] is an error of the dispatch. *)
Lemma scan_token_error (l2 : BNF_Lexer.t) (c : ascii)
    (loc : Source_Reference.t) (m : string) :
  scan_token l2 c = Raise (TRLC_Error loc m) <->
  BNF_Lexer.scan l2 c = Raise (TRLC_Error loc m).
Proof.
  unfold scan_token.
  destruct (BNF_Lexer.scan l2 c) as [[k l3]|e]; cbn [bind];
    [|split; intros [= ->]; reflexivity].
  split; [|discriminate]. intros H. exfalso.
  destruct k;
    try (cbn [bind] in H;
         match type of H with
         | bind ?i _ = _ =>
             destruct i eqn:Ei;
             [discriminate H
             |cbn [bind] in H; injection H as ->;
              exact (init_not_TRLC _ _ _ _ _ _ _ Ei)]
         end).
  - rewrite split_nonterminal_spec in H.
    destruct (split_at_transition isupper _) eqn:Es; cbn [bind] in H.
    + match type of H with
      | bind ?i _ = _ =>
          destruct i eqn:Ei;
          [discriminate H
          |cbn [bind] in H; injection H as ->;
           exact (init_not_TRLC _ _ _ _ _ _ _ Ei)]
      end.
    + injection H as ->. exact (split_not_TRLC _ _ _ _ Es).
  - rewrite split_terminal_spec in H.
    destruct (split_at_transition islower _) eqn:Es; cbn [bind] in H.
    + match type of H with
      | bind ?i _ = _ =>
          destruct i eqn:Ei;
          [discriminate H
          |cbn [bind] in H; injection H as ->;
           exact (init_not_TRLC _ _ _ _ _ _ _ Ei)]
      end.
    + injection H as ->. exact (split_not_TRLC _ _ _ _ Es).
Qed.

Lemma scan_colon (l : BNF_Lexer.t) :
  BNF_Lexer.scan l ":"
  = ((if negb (is_char (BNF_Lexer.cc (BNF_Lexer.advance l)) ":")
      then BNF_Lexer.lex_error (BNF_Lexer.advance l) "malformed ::= operator"
      else Ok tt) ;;;
     (if negb (is_char
                 (BNF_Lexer.cc (BNF_Lexer.advance (BNF_Lexer.advance l))) "=")
      then BNF_Lexer.lex_error (BNF_Lexer.advance (BNF_Lexer.advance l))
             "malformed ::= operator"
      else Ok tt) ;;;
     Ok (PRODUCTION, BNF_Lexer.advance (BNF_Lexer.advance l))).
Proof. reflexivity. Qed.

Lemma scan_quote (l : BNF_Lexer.t) :
  BNF_Lexer.scan l quote
  = ((match BNF_Lexer.nc
              (BNF_Lexer.advance_while BNF_Lexer.not_quote
                 (BNF_Lexer.loop_bound l) l) with
      | None =>
          BNF_Lexer.lex_error
            (BNF_Lexer.advance_while BNF_Lexer.not_quote
               (BNF_Lexer.loop_bound l) l) "unclosed token literal"
      | Some _ => Ok tt
      end) ;;;
     Ok (SYMBOL,
         BNF_Lexer.advance
           (BNF_Lexer.advance_while BNF_Lexer.not_quote
              (BNF_Lexer.loop_bound l) l))).
Proof. reflexivity. Qed.

Lemma scan_unexpected (l : BNF_Lexer.t) (c : ascii) :
  recognized c = false ->
  BNF_Lexer.scan l c = BNF_Lexer.lex_error l (unexpected_message c).
Proof.
  unfold recognized. intros H.
  repeat (apply orb_false_iff in H as [H ?]).
  unfold BNF_Lexer.scan.
  repeat match goal with
         | E : ?b = false |- context [if ?b then _ else _] => rewrite E
         end.
  reflexivity.
Qed.

Lemma scan_recognized (l l' : BNF_Lexer.t) (c : ascii) (e : exn) :
  BNF_Lexer.scan l c = Raise e -> recognized c = true ->
  c = ":"%char \/ c = quote.
Proof.
  unfold recognized, BNF_Lexer.scan. intros H R.
  destruct (Ascii.eqb c "["); [discriminate|].
  destruct (Ascii.eqb c "]"); [discriminate|].
  destruct (Ascii.eqb c "{"); [discriminate|].
  destruct (Ascii.eqb c "}"); [discriminate|].
  destruct (Ascii.eqb c "|"); [discriminate|].
  destruct (Ascii.eqb c ":") eqn:E; [left; apply ascii_eqb_true, E|].
  destruct (islower c); [discriminate|].
  destruct (isupper c); [discriminate|].
  destruct (Ascii.eqb c quote) eqn:Q; [right; apply ascii_eqb_true, Q|].
  discriminate R.
Qed.

Lemma advance_original (l : BNF_Lexer.t) :
  BNF_Lexer.original_location (BNF_Lexer.advance l)
  = BNF_Lexer.original_location l.
Proof. reflexivity. Qed.

Lemma advance_while_original (p : ascii -> bool) (n : nat) :
  forall l : BNF_Lexer.t,
    BNF_Lexer.original_location (BNF_Lexer.advance_while p n l)
    = BNF_Lexer.original_location l.
Proof.
  induction n as [|n IH]; intros l; cbn [BNF_Lexer.advance_while];
    [reflexivity|].
  destruct (BNF_Lexer.nc l); [|reflexivity].
  destruct (p a); [|reflexivity]. rewrite IH. apply advance_original.
Qed.

Lemma lexical_error_at (o : Source_Reference.t) (before : str) (c : ascii)
    (rest : str) (m : string) (p p' : Z) :
  p = p' ->
  lexical_error o before c rest m p -> lexical_error o before c rest m p'.
Proof. intros <-. auto. Qed.

Lemma startswith_nil (s : str) : startswith s [] = true.
Proof. destruct s; reflexivity. Qed.

Lemma startswith_cons (c x : ascii) (s prefix : str) :
  startswith (c :: s) (x :: prefix) = Ascii.eqb c x && startswith s prefix.
Proof. reflexivity. Qed.

Lemma startswith_one (rest : str) (x : ascii) :
  startswith rest [x] = is_char (hd_error rest) x.
Proof.
  destruct rest as [|c rest]; [reflexivity|].
  rewrite startswith_cons, startswith_nil. apply andb_true_r.
Qed.

(** The errors of the dispatch, read off the text before the lexer. *)
Lemma scan_error (l2 : BNF_Lexer.t) (a rest : str) (c : ascii) :
  zipper l2 (a ++ [c]) rest ->
  (forall loc m,
      BNF_Lexer.scan l2 c = Raise (TRLC_Error loc m) ->
      lexical_error (BNF_Lexer.original_location l2) a c rest m
        (Source_Reference.start_pos loc))
  /\ (forall m p,
         lexical_error (BNF_Lexer.original_location l2) a c rest m p ->
         exists loc,
           BNF_Lexer.scan l2 c = Raise (TRLC_Error loc m)
           /\ Source_Reference.start_pos loc = p).
Proof.
  intros Z. pose proof Z as (_ & _ & P2 & Hnc).
  assert (BNF_Lexer.lexpos l2 = len a) as P
    by (rewrite P2, len_app; change (len [c]) with 1; lia).
  split.
  - intros loc m H. destruct (recognized c) eqn:R.
    + destruct (scan_recognized _ l2 _ _ H R) as [-> | ->].
      * (* the production operator *)
        rewrite scan_colon, !advance_cc, Hnc, <- startswith_one in H.
        destruct (startswith rest [":"%char]) eqn:S1; cbn [negb bind] in H.
        -- destruct rest as [|c1 rest1]; [discriminate S1|].
           rewrite startswith_cons, startswith_nil, andb_true_r in S1.
           apply ascii_eqb_true in S1. subst c1.
           apply advance_zipper in Z as [Z1 _].
           pose proof Z1 as (_ & _ & _ & Hnc1).
           rewrite Hnc1, <- startswith_one in H.
           destruct (startswith rest1 ["="%char]) eqn:S2;
             cbn [negb bind] in H; [discriminate|].
           injection H as <- <-.
           eapply lexical_error_at;
             [|apply error_malformed_second;
               [reflexivity
               |change (py ":") with [":"%char];
                rewrite startswith_cons, startswith_nil; reflexivity
               |change (py ":=") with [":"%char; "="%char];
                rewrite startswith_cons; exact S2]].
           cbn [BNF_Lexer.mk_location Source_Reference.start_pos].
           rewrite ?advance_lexpos, ?advance_original. lia.
        -- injection H as <- <-.
           eapply lexical_error_at;
             [|apply error_malformed_first; [reflexivity | exact S1]].
           cbn [BNF_Lexer.mk_location Source_Reference.start_pos].
           rewrite ?advance_lexpos, ?advance_original. lia.
      * (* a quoted symbol *)
        rewrite scan_quote in H.
        destruct (advance_while_split BNF_Lexer.not_quote
                    (BNF_Lexer.loop_bound l2) _ _ _ Z
                    (loop_bound_rest _ _ _ Z))
          as (v & rest' & -> & F & St & Z3).
        pose proof (advance_while_original BNF_Lexer.not_quote
                      (BNF_Lexer.loop_bound l2) l2) as Ho.
        remember (BNF_Lexer.advance_while BNF_Lexer.not_quote
                    (BNF_Lexer.loop_bound l2) l2) as l3 eqn:E3.
        pose proof Z3 as (_ & _ & P3 & Hnc3). rewrite Hnc3 in H.
        destruct rest' as [|q rest']; cbn [hd_error bind] in H;
          [|discriminate].
        injection H as <- <-. rewrite app_nil_r in *.
        eapply lexical_error_at;
          [|apply error_unclosed; [reflexivity | exact F]].
        cbn [BNF_Lexer.mk_location Source_Reference.start_pos].
        rewrite Ho, P3, !len_app.
        change (len [quote]) with 1. lia.
    + rewrite (scan_unexpected _ _ R) in H. injection H as <- <-.
      eapply lexical_error_at; [|apply error_unexpected, R].
      cbn [BNF_Lexer.mk_location Source_Reference.start_pos]. lia.
  - intros m p E.
    destruct E as [R | -> S1 | -> S1 S2 | -> F].
    + rewrite (scan_unexpected _ _ R). eexists. split; [reflexivity|].
      cbn [BNF_Lexer.mk_location Source_Reference.start_pos]. lia.
    + change (py ":") with [":"%char] in S1.
      rewrite scan_colon, !advance_cc, Hnc, <- startswith_one, S1.
      cbn [negb bind]. eexists. split; [reflexivity|].
      cbn [BNF_Lexer.mk_location Source_Reference.start_pos].
      rewrite ?advance_lexpos, ?advance_original. lia.
    + change (py ":") with [":"%char] in S1.
      change (py ":=") with [":"%char; "="%char] in S2.
      rewrite scan_colon, !advance_cc, Hnc, <- startswith_one, S1.
      cbn [negb bind].
      destruct rest as [|c1 rest1]; [discriminate S1|].
      rewrite startswith_cons, startswith_nil, andb_true_r in S1.
      rewrite startswith_cons, S1 in S2. cbn [andb] in S2.
      apply advance_zipper in Z as [Z1 _].
      pose proof Z1 as (_ & _ & _ & Hnc1).
      rewrite Hnc1, <- startswith_one, S2.
      cbn [negb bind]. eexists. split; [reflexivity|].
      cbn [BNF_Lexer.mk_location Source_Reference.start_pos].
      rewrite ?advance_lexpos, ?advance_original. lia.
    + rewrite scan_quote.
      assert (zipper
                (BNF_Lexer.advance_while BNF_Lexer.not_quote
                   (BNF_Lexer.loop_bound l2) l2) ((a ++ [quote]) ++ rest) [])
        as Z3.
      { apply advance_while_run; [rewrite app_nil_r; exact Z | exact F
                                 | exact I |].
        apply (loop_bound_zipper l2 (a ++ [quote]) rest []).
        rewrite app_nil_r. exact Z. }
      pose proof (advance_while_original BNF_Lexer.not_quote
                    (BNF_Lexer.loop_bound l2) l2) as Ho.
      remember (BNF_Lexer.advance_while BNF_Lexer.not_quote
                  (BNF_Lexer.loop_bound l2) l2) as l3 eqn:E3.
      pose proof Z3 as (_ & _ & P3 & Hnc3). rewrite Hnc3.
      cbn [hd_error bind]. eexists. split; [reflexivity|].
      cbn [BNF_Lexer.mk_location Source_Reference.start_pos].
      rewrite Ho, P3, !len_app.
      change (len [quote]) with 1. lia.
Qed.


(** The lexical errors of [token].  When the lexer stands before
    whitespace with less than two newlines and then a character [c]
    that is no whitespace, the call raises an error in three cases
    only, and each time at the position of the offence: [c] begins no
    token ("unexpected character"); [c] is a colon that ":=" does not
    follow ("malformed ::= operator", at the first character that
    differs); [c] is a quote and no quote follows it ("unclosed token
    literal", at the end of the fragment). *)
Theorem lexical_errors (l : BNF_Lexer.t) (pre ws rest : str) (c : ascii) :
  zipper l pre (ws ++ c :: rest) ->
  forallb isspace ws = true ->
  count_newlines ws < 2 ->
  isspace c = false ->
  (forall loc m,
      BNF_Lexer.token l = Raise (TRLC_Error loc m) ->
      lexical_error (BNF_Lexer.original_location l) (pre ++ ws) c rest m
        (Source_Reference.start_pos loc))
  /\ (forall m p,
         lexical_error (BNF_Lexer.original_location l) (pre ++ ws) c rest m p ->
         exists loc,
           BNF_Lexer.token l = Raise (TRLC_Error loc m)
           /\ Source_Reference.start_pos loc = p).
Proof.
  intros Z F K Sc.
  destruct (token_begin _ _ _ _ _ Z F K Sc) as (l2 & Z2 & _ & _ & O & ->).
  rewrite app_assoc in Z2.
  destruct (scan_error _ _ _ _ Z2) as [A B]. rewrite O in A, B. split.
  - intros loc m H. apply scan_token_error in H. exact (A _ _ H).
  - intros m p E. destruct (B _ _ E) as (loc & H & P).
    exists loc. split; [apply scan_token_error, H | exact P].
Qed.

Lemma lexical_errors_witness :
  exists loc,
    BNF_Lexer.token (BNF_Lexer.init (py " 'abc") loc0)
    = Raise (TRLC_Error loc "unclosed token literal")
    /\ Source_Reference.start_pos loc = 0 + 3 + len (py " ") + len (py "abc").
Proof.
  refine (proj2 (lexical_errors (BNF_Lexer.init (py " 'abc") loc0)
                   [] (py " ") (py "abc") quote _ _ _ _) _ _ _).
  - apply (init_zipper (py " 'abc") loc0).
  - reflexivity.
  - vm_compute. reflexivity.
  - reflexivity.
  - apply (error_unclosed loc0 ([] ++ py " ") quote (py "abc"));
      reflexivity.
Defined.

(* ------------------------------------------------------------------ *)
(** ** Source locations *)

(** The characters of [s] after its last newline. *)
Fixpoint last_line (s : str) : str :=
  match s with
  | [] => []
  | c :: s' =>
      if existsb is_newline s' then last_line s'
      else if is_newline c then s' else c :: s'
  end.

Lemma last_line_snoc (s : str) (c : ascii) :
  last_line (s ++ [c]) = if is_newline c then [] else last_line s ++ [c].
Proof.
  induction s as [|d s IH]; cbn [app last_line existsb].
  - destruct (is_newline c); reflexivity.
  - rewrite existsb_app. cbn [existsb]. rewrite orb_false_r, IH.
    destruct (is_newline c) eqn:Ec.
    + rewrite orb_true_r. reflexivity.
    + rewrite orb_false_r.
      destruct (existsb is_newline s); [reflexivity|].
      destruct (is_newline d); reflexivity.
Qed.

(** The line and the column of the character at position [p] of a
    fragment, both counted from 1. *)
Definition line_at (f : str) (p : Z) : Z :=
  if p <? 0 then 0 else 1 + count_newlines (firstn (Z.to_nat p) f).

Definition col_at (f : str) (p : Z) : Z :=
  1 + len (last_line (firstn (Z.to_nat p) f)).

(** A lexer whose counters tell the line and the column of its current
    character. *)
Record tracked (l : BNF_Lexer.t) : Prop :=
  { tracked_consistent : consistent l;
    tracked_line :
      BNF_Lexer.line_no l = line_at (BNF_Lexer.fragment l) (BNF_Lexer.lexpos l);
    tracked_col :
      0 <= BNF_Lexer.lexpos l < len (BNF_Lexer.fragment l) ->
      BNF_Lexer.col_no l = col_at (BNF_Lexer.fragment l) (BNF_Lexer.lexpos l) }.

Lemma advance_line_no (l : BNF_Lexer.t) :
  BNF_Lexer.line_no (BNF_Lexer.advance l)
  = if is_char (BNF_Lexer.cc l) newline || (BNF_Lexer.lexpos l + 1 =? 0)
    then BNF_Lexer.line_no l + 1 else BNF_Lexer.line_no l.
Proof. reflexivity. Qed.

Lemma advance_col_no (l : BNF_Lexer.t) :
  BNF_Lexer.col_no (BNF_Lexer.advance l)
  = match BNF_Lexer.nc l with
    | Some _ =>
        (if is_char (BNF_Lexer.cc l) newline || (BNF_Lexer.lexpos l + 1 =? 0)
         then 0 else BNF_Lexer.col_no l) + 1
    | None =>
        if is_char (BNF_Lexer.cc l) newline || (BNF_Lexer.lexpos l + 1 =? 0)
        then 0 else BNF_Lexer.col_no l
    end.
Proof. reflexivity. Qed.

Lemma firstn_succ (f : str) (n : nat) :
  firstn (S n) f
  = firstn n f ++ match nth_error f n with Some c => [c] | None => [] end.
Proof.
  revert f. induction n as [|n IH]; intros [|c f]; try reflexivity.
  change (firstn (S (S n)) (c :: f)) with (c :: firstn (S n) f).
  rewrite IH. reflexivity.
Qed.

Lemma init_tracked (fragment : str) (loc : Source_Reference.t) :
  tracked (BNF_Lexer.init fragment loc).
Proof.
  split; [apply init_consistent | reflexivity|].
  change (BNF_Lexer.lexpos (BNF_Lexer.init fragment loc)) with (-1). lia.
Qed.

Lemma advance_tracked (l : BNF_Lexer.t) :
  tracked l -> tracked (BNF_Lexer.advance l).
Proof.
  intros [C Hl Hc]. pose proof C as [Hlen Hpos Hcc Hnc].
  split; [apply advance_consistent, C| |];
    rewrite ?advance_line_no, ?advance_col_no, ?advance_lexpos,
      ?advance_fragment.
  - (* the line *)
    rewrite Hl. unfold line_at.
    destruct (BNF_Lexer.lexpos l + 1 =? 0) eqn:E0.
    + apply Z.eqb_eq in E0. rewrite orb_true_r.
      assert (BNF_Lexer.lexpos l = -1) as -> by lia. reflexivity.
    + apply Z.eqb_neq in E0. rewrite orb_false_r.
      assert ((BNF_Lexer.lexpos l <? 0) = false) as -> by (apply Z.ltb_ge; lia).
      assert ((BNF_Lexer.lexpos l + 1 <? 0) = false) as ->
        by (apply Z.ltb_ge; lia).
      replace (Z.to_nat (BNF_Lexer.lexpos l + 1))
        with (S (Z.to_nat (BNF_Lexer.lexpos l))) by lia.
      rewrite firstn_succ, count_newlines_app, Hcc. unfold char_at.
      assert ((BNF_Lexer.lexpos l <? 0) = false) as -> by (apply Z.ltb_ge; lia).
      destruct (nth_error (BNF_Lexer.fragment l)
                  (Z.to_nat (BNF_Lexer.lexpos l))) as [d|];
        cbn [is_char].
      * rewrite count_newlines_cons. unfold is_newline.
        destruct (Ascii.eqb d newline); change (count_newlines []) with 0; lia.
      * change (count_newlines []) with 0. lia.
  - (* the column *)
    intros Hin. rewrite Hnc. unfold char_at.
    assert ((BNF_Lexer.lexpos l + 1 <? 0) = false) as -> by (apply Z.ltb_ge; lia).
    destruct (nth_error (BNF_Lexer.fragment l)
                (Z.to_nat (BNF_Lexer.lexpos l + 1))) as [c|] eqn:En.
    2:{ apply nth_error_None in En. unfold len in Hin. lia. }
    unfold col_at.
    destruct (BNF_Lexer.lexpos l + 1 =? 0) eqn:E0.
    + apply Z.eqb_eq in E0. rewrite orb_true_r, E0. reflexivity.
    + apply Z.eqb_neq in E0. rewrite orb_false_r.
      rewrite Hc by lia. unfold col_at.
      replace (Z.to_nat (BNF_Lexer.lexpos l + 1))
        with (S (Z.to_nat (BNF_Lexer.lexpos l))) by lia.
      rewrite firstn_succ, Hcc. unfold char_at.
      assert ((BNF_Lexer.lexpos l <? 0) = false) as -> by (apply Z.ltb_ge; lia).
      destruct (nth_error (BNF_Lexer.fragment l)
                  (Z.to_nat (BNF_Lexer.lexpos l))) as [d|] eqn:Ed.
      2:{ apply nth_error_None in Ed. unfold len in Hin. lia. }
      rewrite last_line_snoc. cbn [is_char]. unfold is_newline.
      destruct (Ascii.eqb d newline); [reflexivity|].
      rewrite len_app. change (len [d]) with 1. lia.
Qed.

(** What every step of the lexer keeps, the loops and the dispatch
    keep. *)
Section Preserved.
Variable P : BNF_Lexer.t -> Prop.
Hypothesis P_advance : forall l, P l -> P (BNF_Lexer.advance l).

Lemma advance_while_preserved (p : ascii -> bool) (n : nat) :
  forall l, P l -> P (BNF_Lexer.advance_while p n l).
Proof.
  induction n as [|n IH]; intros l H; cbn [BNF_Lexer.advance_while]; [exact H|].
  destruct (BNF_Lexer.nc l) as [c|]; [|exact H].
  destruct (p c); [|exact H]. apply IH, P_advance, H.
Qed.

Lemma skip_whitespace_preserved (n : nat) :
  forall l l1 k k1,
    BNF_Lexer.skip_whitespace n l k = (l1, k1) -> P l -> P l1.
Proof.
  induction n as [|n IH]; intros l l1 k k1; cbn [BNF_Lexer.skip_whitespace].
  - intros [= <- <-]. auto.
  - destruct (BNF_Lexer.nc l) as [c|]; [|intros [= <- <-]; auto].
    destruct (isspace c); [|intros [= <- <-]; auto].
    intros H Hl. eapply IH; [exact H|]. apply P_advance, Hl.
Qed.

Lemma scan_preserved_aux (l : BNF_Lexer.t) (c : ascii) :
  P l ->
  match BNF_Lexer.scan l c with
  | Ok (_, l3) => P l3
  | Raise _ => True
  end.
Proof.
  intros H. unfold BNF_Lexer.scan, BNF_Lexer.lex_error, Message_Handler.error.
  repeat match goal with
         | |- context [if ?b then _ else _] => destruct b eqn:?
         | |- context [match ?x with Some _ => _ | None => _ end] =>
             destruct x eqn:?
         end;
    cbn [bind]; trivial;
    repeat first [apply advance_while_preserved | apply P_advance]; exact H.
Qed.

Lemma scan_preserved (l l3 : BNF_Lexer.t) (c : ascii) (k : KIND) :
  BNF_Lexer.scan l c = Ok (k, l3) -> P l -> P l3.
Proof.
  intros E H. pose proof (scan_preserved_aux l c H) as A.
  rewrite E in A. exact A.
Qed.
End Preserved.

(** The location of a token in the hosting file: the line of its first
    character; its column, for which every token of the first line has
    the column of the delimiter plus 3; the positions of its first and
    last character, 3 characters after the start of the delimiter. *)
Definition located (o : Source_Reference.t) (fragment : str)
    (tok : BNF_Token.t) : Prop :=
  let before := firstn (Z.to_nat (BNF_Token.start tok)) fragment in
  BNF_Token.location tok
  = Source_Reference.make
      (Source_Reference.line_no o + count_newlines before)
      (if count_newlines before =? 0
       then Source_Reference.col_no o + 3
       else 1 + len (last_line before))
      (Source_Reference.start_pos o + 3 + BNF_Token.start tok)
      (Source_Reference.start_pos o + 3 + BNF_Token.end_ tok).

Lemma set_eof_tracked (l : BNF_Lexer.t) :
  tracked l -> tracked (BNF_Lexer.set_eof_token_generated l).
Proof.
  intros [[A1 A2 A3 A4] Hl Hc]. split; [split|..]; assumption.
Qed.

Lemma token_located (l l' : BNF_Lexer.t) (r : option BNF_Token.t) :
  BNF_Lexer.token l = Ok (r, l') ->
  tracked l ->
  tracked l'
  /\ BNF_Lexer.fragment l' = BNF_Lexer.fragment l
  /\ BNF_Lexer.original_location l' = BNF_Lexer.original_location l
  /\ forall tok,
      r = Some tok -> BNF_Token.kind tok <> RULE_END ->
      located (BNF_Lexer.original_location l) (BNF_Lexer.fragment l) tok.
Proof.
  intros H T. apply token_inv in H.
  inversion H as [l1 l2 k Hs Hl2 Hcc Heof | l1 l2 k Hs Hl2 Hcc Heof
                 | l1 k c Hs Hk Hcc Hle
                 | l1 l2 l3 k c kind value Hs Hk Hl2 Hcc Hscan Hv Hle];
    subst;
    pose proof (skip_whitespace_preserved tracked advance_tracked
                  _ _ _ _ _ Hs T) as T1;
    pose proof (skip_whitespace_fragment _ _ _ _ _ Hs) as F1;
    pose proof (skip_whitespace_original _ _ _ _ _ Hs) as O1.
  - split; [|split; [|split]].
    + apply set_eof_tracked. destruct (k <? 2); [apply advance_tracked|]; exact T1.
    + destruct (k <? 2); exact F1.
    + destruct (k <? 2); exact O1.
    + intros tok [= <-] K. exfalso. apply K. reflexivity.
  - split; [|split; [|split]].
    + destruct (k <? 2); [apply advance_tracked|]; exact T1.
    + destruct (k <? 2); exact F1.
    + destruct (k <? 2); exact O1.
    + discriminate.
  - split; [exact T1|]. split; [exact F1|]. split; [exact O1|].
    intros tok [= <-] K. exfalso. apply K. reflexivity.
  - pose proof (advance_tracked _ T1) as T2.
    pose proof (advance_fragment l1) as F2.
    pose proof (advance_original l1) as O2.
    clear H. remember (BNF_Lexer.advance l1) as l2 eqn:E2. clear E2.
    pose proof (scan_preserved tracked advance_tracked _ _ _ _ Hscan T2) as T3.
    pose proof (scan_fragment _ _ _ _ Hscan) as F3.
    rewrite F2, F1 in F3.
    assert (BNF_Lexer.original_location l' = BNF_Lexer.original_location l2)
      as O3.
    { exact (scan_preserved
               (fun x => BNF_Lexer.original_location x
                         = BNF_Lexer.original_location l2)
               (fun x Hx => Hx) _ _ _ _ Hscan eq_refl). }
    rewrite O2, O1 in O3.
    split; [exact T3|]. split; [exact F3|]. split; [exact O3|].
    intros tok [= <-] _. unfold located.
    cbn [BNF_Token.location BNF_Token.start BNF_Token.end_].
    unfold BNF_Lexer.mk_location. rewrite O3.
    destruct T2 as [C2 L2 Col2].
    assert (0 <= BNF_Lexer.lexpos l2 < len (BNF_Lexer.fragment l2)) as Hin
      by (apply consistent_inside; [exact C2 | congruence]).
    specialize (Col2 Hin). rewrite F2, F1 in *.
    rewrite L2, Col2. unfold line_at, col_at.
    assert ((BNF_Lexer.lexpos l2 <? 0) = false) as ->
      by (apply Z.ltb_ge; lia).
    set (before := firstn (Z.to_nat (BNF_Lexer.lexpos l2))
                     (BNF_Lexer.fragment l)).
    pose proof (count_newlines_nonneg before).
    f_equal; [lia|].
    destruct (count_newlines before =? 0) eqn:E0.
    + apply Z.eqb_eq in E0. rewrite E0. reflexivity.
    + apply Z.eqb_neq in E0.
      assert ((1 + count_newlines before =? 1) = false) as ->
        by (apply Z.eqb_neq; lia).
      reflexivity.
Qed.

Definition tokens_of (r : lexing) : list BNF_Token.t :=
  match r with
  | Finished tokens _ => tokens
  | Failed tokens _ => tokens
  | Unfinished tokens => tokens
  end.

Lemma drain_located (o : Source_Reference.t) (fragment : str) (n : nat) :
  forall (l : BNF_Lexer.t) (acc : list BNF_Token.t),
    tracked l ->
    BNF_Lexer.fragment l = fragment ->
    BNF_Lexer.original_location l = o ->
    Forall (fun tok => BNF_Token.kind tok <> RULE_END ->
                       located o fragment tok) acc ->
    Forall (fun tok => BNF_Token.kind tok <> RULE_END ->
                       located o fragment tok)
      (tokens_of (drain n l acc)).
Proof.
  induction n as [|n IH]; intros l acc T F O Hacc; [exact Hacc|].
  rewrite drain_S.
  destruct (BNF_Lexer.token l) as [[r l1]|e] eqn:E; [|exact Hacc].
  destruct (token_located _ _ _ E T) as (T1 & F1 & O1 & Hloc).
  destruct r as [tok|]; [|exact Hacc].
  apply IH; [exact T1 | congruence | congruence|].
  apply Forall_app. split; [exact Hacc|].
  constructor; [|constructor]. intros K. rewrite <- F, <- O.
  exact (Hloc tok eq_refl K).
Qed.

(** Every token that the lexer of a fragment returns, other than
    RULE_END, is located in the hosting file: its line is the line of
    the delimiter plus the number of newlines before the token; its
    positions are those of its first and last character, 3 characters
    after the start of the delimiter; its column is counted from 1 in
    its line, except that every token of the first line has the column
    of the delimiter plus 3. *)
Theorem token_locations (n : nat) (fragment : str)
    (original_location : Source_Reference.t) :
  Forall (fun tok => BNF_Token.kind tok <> RULE_END ->
                     located original_location fragment tok)
    (tokens_of (drain n (BNF_Lexer.init fragment original_location) [])).
Proof.
  apply drain_located; [apply init_tracked | reflexivity | reflexivity|].
  constructor.
Qed.

(* ------------------------------------------------------------------ *)
(** ** The parser ends, and how *)

(** The message of [match] when the lookahead token is [None]. *)
Definition eos_message (k : KIND) : string :=
  "expected " ++ KIND_name k ++ ", encountered EOS instead".

(** The exceptions that a call of [parse] can end with: an error
    reported through the message handler, other than the one about the
    end of the stream, or a failed assertion. *)
Definition foreseen (e : exn) : Prop :=
  match e with
  | TRLC_Error _ m => forall k, m <> eos_message k
  | AssertionError => True
  | _ => False
  end.

Definition foreseen_result {A : Type} (r : result A) : Prop :=
  match r with
  | Ok _ => True
  | Raise e => foreseen e
  end.

Lemma foreseen_bind {A B : Type} (x : result A) (k : A -> result B) :
  foreseen_result x -> (forall a, x = Ok a -> foreseen_result (k a)) ->
  foreseen_result (bind x k).
Proof. destruct x as [a|e]; cbn; auto. Qed.

Lemma mismatch_message (k k' k'' : KIND) :
  ("expected " ++ KIND_name k ++ ", encountered " ++ KIND_name k' ++ " instead")%string
  <> eos_message k''.
Proof. destruct k, k', k''; discriminate. Qed.

Lemma assert_foreseen (b : bool) : foreseen_result (assert b).
Proof. destruct b; exact I. Qed.

Lemma split_foreseen (p : ascii -> bool) (raw : str) :
  foreseen_result (split_at_transition p raw).
Proof.
  unfold split_at_transition. destruct (span_until p raw) as [b r].
  destruct r; [exact I|]. destruct (endswith b [underscore]); exact I.
Qed.

Lemma init_foreseen (k : KIND) (v : token_value) (a b : Z)
    (loc : Source_Reference.t) :
  foreseen_result (BNF_Token.init k v a b loc).
Proof.
  unfold BNF_Token.init. apply foreseen_bind; [apply assert_foreseen|].
  intros; exact I.
Qed.

Lemma lex_error_foreseen {A : Type} (l : BNF_Lexer.t) (m : string) :
  (forall k, m <> eos_message k) ->
  foreseen_result (@BNF_Lexer.lex_error A l m).
Proof. intros H. exact H. Qed.

Lemma scan_foreseen (l : BNF_Lexer.t) (c : ascii) :
  foreseen_result (BNF_Lexer.scan l c).
Proof.
  unfold BNF_Lexer.scan.
  repeat match goal with
         | |- foreseen_result (if ?b then _ else _) => destruct b
         | |- foreseen_result (Ok _) => exact I
         | |- foreseen_result (bind _ _) =>
             apply foreseen_bind; [|intros ? ?]
         | |- foreseen_result (match ?x with Some _ => _ | None => _ end) =>
             destruct x
         | |- foreseen_result (BNF_Lexer.lex_error _ _) =>
             apply lex_error_foreseen; intros k; destruct k; discriminate
         end.
Qed.

(** A call of [token] ends with a token, with [None], with a lexical
    error or with a failed assertion. *)
Lemma token_foreseen (l : BNF_Lexer.t) : foreseen_result (BNF_Lexer.token l).
Proof.
  unfold BNF_Lexer.token.
  destruct (BNF_Lexer.skip_whitespace (BNF_Lexer.loop_bound l) l 0)
    as [l1 k].
  destruct (BNF_Lexer.cc (if k <? 2 then BNF_Lexer.advance l1 else l1)).
  - destruct (2 <=? k).
    + apply foreseen_bind; [apply init_foreseen | intros; exact I].
    + apply foreseen_bind; [apply scan_foreseen|]. intros [kind l3] _.
      apply foreseen_bind.
      * destruct kind; try exact I.
        -- rewrite split_nonterminal_spec. apply split_foreseen.
        -- rewrite split_terminal_spec. apply split_foreseen.
      * intros v _. apply foreseen_bind; [apply init_foreseen|].
        intros; exact I.
  - destruct (negb _); [|exact I].
    apply foreseen_bind; [apply init_foreseen | intros; exact I].
Qed.

(** A parser in the middle of a grammar block: it has a lookahead
    token, and its lexer has more to give unless that token is the
    RULE_END of the end of the fragment. *)
Definition awake (self : BNF_Parser.t) : Prop :=
  exists l tok,
    BNF_Parser.current_lexer self = Some l
    /\ BNF_Parser.nt self = Some tok
    /\ consistent l
    /\ lexical_token tok
    /\ (live l \/ (finished l /\ BNF_Token.kind tok = RULE_END)).

(** The characters that the lexer of a parser has still to read. *)
Definition room (self : BNF_Parser.t) : nat :=
  match BNF_Parser.current_lexer self with
  | Some l =>
      if BNF_Lexer.eof_token_generated l then O
      else Z.to_nat (len (BNF_Lexer.fragment l) - BNF_Lexer.lexpos l)
  | None => O
  end.

Lemma token_room (l l' : BNF_Lexer.t) (r : option BNF_Token.t) :
  BNF_Lexer.token l = Ok (r, l') -> live l ->
  exists tok,
    r = Some tok
    /\ consistent l'
    /\ lexical_token tok
    /\ (live l' \/ (finished l' /\ BNF_Token.kind tok = RULE_END))
    /\ ((if BNF_Lexer.eof_token_generated l' then O
         else Z.to_nat (len (BNF_Lexer.fragment l') - BNF_Lexer.lexpos l'))
        < Z.to_nat (len (BNF_Lexer.fragment l) - BNF_Lexer.lexpos l))%nat.
Proof.
  intros H L. pose proof L as (C & He & Hlt).
  destruct (token_live _ _ _ H L)
    as (tok & -> & Hf & _ & _ & _ & [(K & _ & _ & _ & Fin) | (_ & L' & Hp & _)]).
  - exists tok. split; [reflexivity|].
    split; [exact (token_consistent _ _ _ H C)|].
    split; [exact (token_lexical _ _ _ H C)|]. split; [right; auto|].
    destruct Fin as (-> & _). lia.
  - exists tok. split; [reflexivity|].
    split; [exact (token_consistent _ _ _ H C)|].
    split; [exact (token_lexical _ _ _ H C)|]. split; [left; exact L'|].
    destruct L' as (_ & -> & Hlt'). rewrite Hf in *. lia.
Qed.

Lemma awake_room (self : BNF_Parser.t) (tok : BNF_Token.t) :
  awake self -> BNF_Parser.nt self = Some tok ->
  BNF_Token.kind tok <> RULE_END ->
  exists l, BNF_Parser.current_lexer self = Some l /\ live l.
Proof.
  intros (l & tok' & L & N & _ & _ & [Lv | [_ K]]) N' K'.
  - eauto.
  - rewrite N in N'. injection N' as ->. contradiction.
Qed.

(** [match] on a parser that is awake. *)
Lemma match_awake (self : BNF_Parser.t) (k : KIND) :
  awake self ->
  match BNF_Parser.match_ self k with
  | Ok self' =>
      same_tables self self'
      /\ BNF_Parser.ct self' = BNF_Parser.nt self
      /\ (exists tok, BNF_Parser.nt self = Some tok /\ BNF_Token.kind tok = k
                      /\ lexical_token tok)
      /\ ((awake self' /\ (room self' < room self)%nat)
          \/ (k = RULE_END /\ BNF_Parser.nt self' = None))
  | Raise e => foreseen e
  end.
Proof.
  intros A. destruct (BNF_Parser.match_ self k) as [self'|e] eqn:M.
  - pose proof (match_tables _ _ _ M) as Tb.
    apply match_Ok in M as (tok & l & l' & r & N & K & L & T & ->).
    split; [exact Tb|]. split; [rewrite N; reflexivity|].
    destruct A as (l0 & tok0 & L0 & N0 & C & Lx & Hl).
    rewrite L in L0. injection L0 as <-. rewrite N in N0. injection N0 as <-.
    split; [exists tok; auto|].
    destruct Hl as [Lv | [Fin K']].
    + left. destruct (token_room _ _ _ T Lv) as (t & -> & C' & Lx' & Hl' & Hr).
      split.
      * exists l', t. cbn. auto.
      * unfold room. cbn [BNF_Parser.current_lexer BNF_Parser.set_lexer_state].
        rewrite L. destruct Lv as (_ & -> & _). exact Hr.
    + right. split; [congruence|].
      destruct (token_finished _ Fin) as [E _]. rewrite E in T.
      injection T as <- <-. reflexivity.
  - revert M. unfold BNF_Parser.match_.
    destruct A as (l & tok & L & N & _). rewrite N.
    destruct (negb (KIND_eqb (BNF_Token.kind tok) k)).
    + cbn. intros [= <-]. intros k'. apply mismatch_message.
    + unfold BNF_Parser.advance. rewrite L.
      pose proof (token_foreseen l) as F.
      destruct (BNF_Lexer.token l) as [[r l']|e']; cbn [bind];
        [discriminate|].
      intros [= <-]. exact F.
Qed.

(** [ends F post]: with enough budget the computation [F] returns, it
    returns the same whatever the budget beyond that, and what it
    returns satisfies [post]. *)
Definition ends {A : Type} (F : nat -> option (result A))
    (post : result A -> Prop) : Prop :=
  exists fuel r,
    (forall fuel', (fuel <= fuel')%nat -> F fuel' = Some r) /\ post r.

Lemma ends_ret {A : Type} (r : result A) (post : result A -> Prop) :
  post r -> ends (fun _ => Some r) post.
Proof. intros H. exists O, r. auto. Qed.

Lemma ends_ext {A : Type} (F G : nat -> option (result A))
    (post : result A -> Prop) :
  (forall f, F f = G f) -> ends G post -> ends F post.
Proof.
  intros E (fuel & r & H & P). exists fuel, r. split; [|exact P].
  intros f Hf. rewrite E. auto.
Qed.

Lemma ends_shift {A : Type} (F : nat -> option (result A))
    (post : result A -> Prop) :
  ends (fun f => F (S f)) post -> ends F post.
Proof.
  intros (fuel & r & H & P). exists (S fuel), r. split; [|exact P].
  intros [|f] Hf; [lia|]. apply H. lia.
Qed.

Lemma ends_bind {A B : Type} (F : nat -> option (result A))
    (G : A -> nat -> option (result B))
    (postF : result A -> Prop) (postG : result B -> Prop) :
  ends F postF ->
  (forall a, (exists f, F f = Some (Ok a)) -> postF (Ok a) ->
             ends (G a) postG) ->
  (forall e, postF (Raise e) -> postG (Raise e)) ->
  ends (fun f => fbind (F f) (fun a => G a f)) postG.
Proof.
  intros (fuel & r & H & P) HG HE. destruct r as [a|e].
  - destruct (HG a) as (fuel' & r' & H' & P'); [exists fuel; auto | exact P|].
    exists (Nat.max fuel fuel'), r'. split; [|exact P'].
    intros f Hf. rewrite H by lia. cbn [fbind]. apply H'. lia.
  - exists fuel, (Raise e). split; [|auto].
    intros f Hf. rewrite H by lia. reflexivity.
Qed.

(** The functions that read at least one token. *)
Definition strict (c : call) : bool :=
  match c with
  | Expansion | String_ | Fragment => true
  | _ => false
  end.

Definition run_post (c : call) (self : BNF_Parser.t)
    (r : result (BNF_Expansion * BNF_Parser.t)) : Prop :=
  match r with
  | Ok (_, self') =>
      awake self'
      /\ if strict c then (room self' < room self)%nat
         else (room self' <= room self)%nat
  | Raise e => foreseen e
  end.

Lemma peek_awake (self : BNF_Parser.t) (tok : BNF_Token.t) (k : KIND) :
  BNF_Parser.nt self = Some tok ->
  BNF_Parser.peek self k = KIND_eqb (BNF_Token.kind tok) k.
Proof. unfold BNF_Parser.peek. intros ->. reflexivity. Qed.

Ltac kind_tests :=
  repeat match goal with
         | |- context [KIND_eqb ?a ?b] =>
             first [rewrite (proj2 (KIND_eqb_eq a b) eq_refl)
                   |rewrite (KIND_eqb_neq a b) by discriminate]
         end.

(** [match] as a step of a computation that ends. *)
Lemma match_ends (self : BNF_Parser.t) (k : KIND) :
  awake self -> k <> RULE_END ->
  ends (fun _ : nat => Some (BNF_Parser.match_ self k))
    (fun r => match r with
              | Ok self' => awake self' /\ (room self' < room self)%nat
              | Raise e => foreseen e
              end).
Proof.
  intros A K. apply ends_ret. pose proof (match_awake self k A) as M.
  destruct (BNF_Parser.match_ self k) as [self'|e]; [|exact M].
  destruct M as (_ & _ & _ & [H | [E _]]); [exact H | contradiction].
Qed.

Lemma parse_leaf_ends (self : BNF_Parser.t) (tok : BNF_Token.t) :
  awake self ->
  BNF_Parser.nt self = Some tok ->
  leaf_kind (BNF_Token.kind tok) = true ->
  run_post Fragment self
    (BNF_Parser.parse_leaf self (BNF_Token.location tok) (BNF_Token.kind tok)).
Proof.
  intros A N Lk. unfold BNF_Parser.parse_leaf.
  pose proof (match_awake self (BNF_Token.kind tok) A) as M.
  destruct (BNF_Parser.match_ self (BNF_Token.kind tok)) as [self'|e];
    cbn [bind]; [|exact M].
  destruct M as (_ & C & (tok' & N' & _ & Lx) & Hcase).
  rewrite N in N'. injection N' as <-.
  unfold BNF_Parser.ct_kind, BNF_Parser.ct_value. rewrite C, N. cbn [bind].
  assert (awake self' /\ (room self' < room self)%nat) as Hpost.
  { destruct Hcase as [H | [E _]]; [exact H|]. rewrite E in Lk. discriminate. }
  unfold lexical_token, lexeme_of in Lx.
  destruct (BNF_Token.kind tok); try discriminate Lk;
    destruct (BNF_Token.value tok) as [|base nm|v]; try contradiction;
    cbn; exact Hpost.
Qed.

Lemma ends_weaken {A : Type} (F : nat -> option (result A))
    (post post' : result A -> Prop) :
  (forall r, post r -> post' r) -> ends F post -> ends F post'.
Proof. intros W (fuel & r & H & P). exists fuel, r. auto. Qed.

Lemma collapse_ends (c : call) (self : BNF_Parser.t)
    (rv : list BNF_Expansion)
    (init : list BNF_Expansion -> result BNF_Expansion) :
  awake self -> strict c = false ->
  (forall ms, foreseen_result (init ms)) ->
  ends (fun _ : nat =>
          match rv with
          | [n] => Some (Ok (n, self))
          | _ => Some (n <- init rv ;; Ok (n, self))
          end)
    (run_post c self).
Proof.
  intros A S Hi. unfold run_post. rewrite S.
  destruct rv as [|n1 [|n2 rv]]; apply ends_ret;
    try (split; [exact A | lia]);
    (pose proof (Hi []) as H || pose proof (Hi (n1 :: n2 :: rv)) as H);
    match goal with
    | |- context [init ?x] =>
        pose proof (Hi x) as H'; destruct (init x); cbn [bind];
        [split; [exact A | lia] | exact H']
    end.
Qed.

Lemma node_init_foreseen :
  (forall ms, foreseen_result (BNF_String_init ms))
  /\ (forall ms, foreseen_result (BNF_Alternatives_init ms)).
Proof.
  split; intros ms; unfold BNF_String_init, BNF_Alternatives_init;
    (apply foreseen_bind; [apply assert_foreseen|]); intros u Hu;
    (destruct ms; [discriminate Hu | exact I]).
Qed.

(** The recursive descent ends on every parser that is awake: it
    returns a tree and a parser that is awake and has less to read, or
    it raises an exception that is foreseen. *)
Lemma run_ends (m : nat) :
  forall c self,
    awake self -> (room self <= m)%nat ->
    ends (fun f => run c f self) (run_post c self).
Proof.
  induction m as [m IH] using lt_wf_ind.
  assert (forall c self self0,
             awake self -> (room self < room self0)%nat ->
             (room self0 <= m)%nat ->
             ends (fun f => run c f self) (run_post c self)) as IH'.
  { intros c self self0 A Hlt Hm. apply (IH (room self)); [lia | exact A | lia]. }
  assert (forall self,
             awake self -> (room self <= m)%nat ->
             ends (fun f => run Fragment f self) (run_post Fragment self))
    as HF.
  { intros self A Hm. pose proof A as (l & tok & L & N & _).
    apply ends_shift.
    destruct (BNF_Token.kind tok) eqn:K;
      (eapply ends_ext;
       [intros f; rewrite run_S, !(peek_awake _ _ _ N), N, K; kind_tests;
        cbv beta iota zeta; reflexivity|]);
      try (apply ends_ret; intros k; destruct k; discriminate);
      try (apply ends_ret;
           pose proof (parse_leaf_ends self tok A N) as P;
           rewrite K in P; apply P; reflexivity).
    - (* an optional part *)
      refine (ends_bind (fun _ => Some (BNF_Parser.match_ self S_BRA)) _ _ _
                (match_ends self S_BRA A _) _ _); [discriminate| |auto].
      intros s1 _ [A1 R1].
      refine (ends_bind (fun f => run Expansion f s1) _ _ _
                (IH' Expansion s1 self A1 R1 Hm) _ _); [|auto].
      intros [rv s2] _ [A2 R2]. cbn [strict] in R2.
      refine (ends_bind (fun _ => Some (BNF_Parser.match_ s2 S_KET)) _ _ _
                (match_ends s2 S_KET A2 _) _ _); [discriminate| |auto].
      intros s3 _ [A3 R3]. apply ends_ret. split; [exact A3 | cbn; lia].
    - (* a repetition *)
      refine (ends_bind (fun _ => Some (BNF_Parser.match_ self C_BRA)) _ _ _
                (match_ends self C_BRA A _) _ _); [discriminate| |auto].
      intros s1 _ [A1 R1].
      refine (ends_bind (fun f => run Expansion f s1) _ _ _
                (IH' Expansion s1 self A1 R1 Hm) _ _); [|auto].
      intros [rv s2] _ [A2 R2]. cbn [strict] in R2.
      refine (ends_bind (fun _ => Some (BNF_Parser.match_ s2 C_KET)) _ _ _
                (match_ends s2 C_KET A2 _) _ _); [discriminate| |auto].
      intros s3 _ [A3 R3]. apply ends_ret. split; [exact A3 | cbn; lia]. }
  assert (forall rv self,
             awake self -> (room self <= m)%nat ->
             ends (fun f => run (String_loop rv) f self)
               (run_post (String_loop rv) self)) as HSL.
  { intros rv self A Hm. pose proof A as (l & tok & L & N & _).
    apply ends_shift.
    eapply ends_ext; [intros f; rewrite run_S, N; reflexivity|].
    destruct (BNF_Parser.starts_fragment (BNF_Token.kind tok)).
    - refine (ends_bind (fun f => run Fragment f self) _ _ _
                (HF self A Hm) _ _); [|auto].
      intros [n s1] _ [A1 R1]. cbn [strict] in R1.
      eapply ends_weaken; [|exact (IH' (String_loop (rv ++ [n])) s1 self A1 R1 Hm)].
      intros [[n' s2]|e]; cbn; [|auto]. intros [A2 R2]. split; [exact A2 | lia].
    - apply collapse_ends; [exact A | reflexivity | apply node_init_foreseen]. }
  assert (forall self,
             awake self -> (room self <= m)%nat ->
             ends (fun f => run String_ f self) (run_post String_ self)) as HS.
  { intros self A Hm. apply ends_shift.
    eapply ends_ext; [intros f; rewrite run_S; reflexivity|].
    refine (ends_bind (fun f => run Fragment f self) _ _ _
              (HF self A Hm) _ _); [|auto].
    intros [n s1] _ [A1 R1]. cbn [strict] in R1.
    eapply ends_weaken; [|exact (IH' (String_loop [n]) s1 self A1 R1 Hm)].
    intros [[n' s2]|e]; cbn; [|auto]. intros [A2 R2]. split; [exact A2 | lia]. }
  intros c self A Hm. destruct c as [|rv| |rv|].
  - (* Expansion *)
    apply ends_shift.
    eapply ends_ext; [intros f; rewrite run_S; reflexivity|].
    refine (ends_bind (fun f => run String_ f self) _ _ _
              (HS self A Hm) _ _); [|auto].
    intros [n s1] _ [A1 R1]. cbn [strict] in R1.
    eapply ends_weaken; [|exact (IH' (Expansion_loop [n]) s1 self A1 R1 Hm)].
    intros [[n' s2]|e]; cbn; [|auto]. intros [A2 R2]. split; [exact A2 | lia].
  - (* Expansion_loop *)
    apply ends_shift.
    eapply ends_ext; [intros f; rewrite run_S; reflexivity|].
    destruct (BNF_Parser.peek self ALTERNATIVE).
    + refine (ends_bind (fun _ => Some (BNF_Parser.match_ self ALTERNATIVE))
                _ _ _ (match_ends self ALTERNATIVE A _) _ _);
        [discriminate| |auto].
      intros s1 _ [A1 R1].
      refine (ends_bind (fun f => run String_ f s1) _ _ _
                (IH' String_ s1 self A1 R1 Hm) _ _); [|auto].
      intros [n s2] _ [A2 R2]. cbn [strict] in R2.
      eapply ends_weaken;
        [|apply (IH' (Expansion_loop (rv ++ [n])) s2 self A2); lia].
      intros [[n' s3]|e]; cbn; [|auto]. intros [A3 R3]. split; [exact A3 | lia].
    + apply collapse_ends; [exact A | reflexivity | apply node_init_foreseen].
  - apply HS; assumption.
  - apply HSL; assumption.
  - apply HF; assumption.
Qed.

Definition production_post (self : BNF_Parser.t)
    (r : result (str * BNF_Parser.t)) : Prop :=
  match r with
  | Ok (_, self') =>
      awake self' /\ (room self' < room self)%nat
      /\ BNF_Parser.bundles self' = BNF_Parser.bundles self
  | Raise e => foreseen e
  end.

Lemma parse_production_ends (self : BNF_Parser.t) :
  awake self ->
  ends (fun f => BNF_Parser.parse_production f self) (production_post self).
Proof.
  intros A. unfold BNF_Parser.parse_production.
  pose proof (match_awake self NONTERMINAL A) as M.
  destruct (BNF_Parser.match_ self NONTERMINAL) as [s1|e]; cbn [fbind];
    [|apply ends_ret; exact M].
  destruct M as ((_ & _ & _ & B1) & C & (tok & N & K & Lx) & Hcase).
  destruct Hcase as [[A1 R1] | [E _]]; [|discriminate].
  unfold BNF_Parser.ct_value. rewrite C, N. cbn [fbind].
  unfold lexical_token, lexeme_of in Lx. rewrite K in Lx.
  destruct (BNF_Token.value tok) as [|base nm|v]; try contradiction.
  cbn [value_0 fbind].
  destruct (dict_mem (BNF_Parser.productions s1) base); cbn [fbind].
  { apply ends_ret. intros k. destruct k; discriminate. }
  pose proof (match_awake s1 PRODUCTION A1) as M.
  destruct (BNF_Parser.match_ s1 PRODUCTION) as [s2|e]; cbn [fbind];
    [|apply ends_ret; exact M].
  destruct M as ((_ & _ & _ & B2) & _ & _ & Hcase).
  destruct Hcase as [[A2 R2] | [E _]]; [|discriminate].
  refine (ends_bind (fun f => BNF_Parser.parse_expansion f s2) _ _ _
            (run_ends (room s2) Expansion s2 A2 (Nat.le_refl _)) _ _);
    [|auto].
  intros [n s3] (f & Hf) [A3 R3]. cbn [strict] in R3.
  apply (run_parses f Expansion), parses_tables in Hf as (_ & _ & _ & B3).
  apply ends_ret. split; [|split].
  - destruct A3 as (l & t & H1 & H2 & H3). exists l, t. exact (conj H1 (conj H2 H3)).
  - unfold room in *. cbn [BNF_Parser.current_lexer BNF_Parser.set_productions].
    lia.
  - cbn [BNF_Parser.bundles BNF_Parser.set_productions]. congruence.
Qed.

Lemma parse_loop_ends (name : str) (m : nat) :
  forall self,
    BNF_Parser.nt self = None \/ (awake self /\ (room self <= m)%nat) ->
    dict_mem (BNF_Parser.bundles self) name = true ->
    ends (fun f => BNF_Parser.parse_loop f self name) foreseen_result.
Proof.
  induction m as [m IH] using lt_wf_ind. intros self H D. apply ends_shift.
  cbn [BNF_Parser.parse_loop].
  destruct H as [N | [A Hm]]; [rewrite N; apply ends_ret; exact I|].
  pose proof A as (l & tok & _ & N & _). rewrite N.
  refine (ends_bind (fun f => BNF_Parser.parse_production f self) _ _ _
            (parse_production_ends self A) _ _); [|auto].
  intros [p s1] _ (A1 & R1 & B1).
  unfold BNF_Parser.bundle_append. rewrite B1.
  unfold dict_mem in D.
  destruct (dict_get (BNF_Parser.bundles self) name) as [b|]; [|discriminate].
  cbn [fbind].
  set (s2 := BNF_Parser.set_bundles s1
               (dict_set (BNF_Parser.bundles self) name (b ++ [p]))).
  assert (awake s2) as A2.
  { destruct A1 as (l1 & t1 & H1 & H2 & H3). exists l1, t1.
    exact (conj H1 (conj H2 H3)). }
  assert (room s2 = room s1) as R2 by reflexivity.
  assert (dict_mem (BNF_Parser.bundles s2) name = true) as D2.
  { unfold dict_mem. cbn [BNF_Parser.bundles s2 BNF_Parser.set_bundles].
    rewrite dict_get_set_same. reflexivity. }
  pose proof (match_awake s2 RULE_END A2) as M.
  destruct (BNF_Parser.match_ s2 RULE_END) as [s3|e]; cbn [fbind];
    [|apply ends_ret; exact M].
  destruct M as ((_ & _ & _ & B3) & _ & _ & Hcase).
  assert (room s2 = room s1) as R2' by reflexivity.
  destruct Hcase as [[A3 R3] | [_ N3]].
  - apply (IH (room s3)); [lia | right; split; [exact A3 | lia]|].
    rewrite B3. exact D2.
  - apply (IH O); [lia | left; exact N3|]. rewrite B3. exact D2.
Qed.

(** A call of [parse] comes to an end on every text and in every state
    of the symbol table: from some budget on it gives one and the same
    result, and it either returns or raises an error of the message
    handler or a failed assertion.  It never ends with an
    [AttributeError], a [TypeError], an [IndexError] or a [KeyError],
    and never with the error of [match] about the end of the stream:
    the lexer always gives a RULE_END before it gives [None]. *)
Theorem parse_ends (self : BNF_Parser.t) (obj : Record_Object.t) :
  exists fuel r,
    (forall fuel', (fuel <= fuel')%nat ->
                   BNF_Parser.parse fuel' self obj = Some r)
    /\ match r with
       | Ok _ => True
       | Raise (TRLC_Error _ m) => forall k, m <> eos_message k
       | Raise e => e = AssertionError
       end.
Proof.
  assert (ends (fun f => BNF_Parser.parse f self obj) foreseen_result) as E.
  { unfold BNF_Parser.parse.
    destruct (BNF_Parser.current_lexer self); cbn [assert fbind];
      [apply ends_ret; exact I|].
    destruct (negb (startswith (Record_Object.bnf_text obj)
                      BNF_Parser.triple_quote)); cbn [fbind].
    { apply ends_ret. intros k. destruct k; discriminate. }
    pose proof (token_foreseen
                  (BNF_Lexer.init (slice (Record_Object.bnf_text obj) 3 (-3))
                     (Record_Object.bnf_location obj))) as F.
    destruct (BNF_Lexer.token _) as [[r lx]|e] eqn:T; cbn [fbind];
      [|apply ends_ret; exact F].
    destruct (token_room _ _ _ T (init_live _ _))
      as (tok & -> & C & Lx & Hl & _).
    refine (ends_bind (fun f => BNF_Parser.parse_loop f _ _) _ _ _
              (parse_loop_ends _ _ _ _ _) _ _).
    - right. split; [|apply Nat.le_refl]. exists lx, tok. cbn. auto.
    - unfold dict_mem. cbn [BNF_Parser.bundles BNF_Parser.set_bundles].
      rewrite dict_get_set_same. reflexivity.
    - intros s _ _. apply ends_ret. exact I.
    - auto. }
  destruct E as (fuel & r & H & P). exists fuel, r. split; [exact H|].
  destruct r as [s|e]; [exact I|]. destruct e; cbn in P; auto; contradiction.
Qed.

(* ------------------------------------------------------------------ *)
(** ** Blank lines at the edges of a grammar block *)

(** A text that ends with a character other than whitespace. *)
Definition ends_visible (s : str) : Prop :=
  exists p c, s = p ++ [c] /\ isspace c = false.

(** A fragment whose last token is followed by whitespace with less
    than two newlines. *)
Definition trimmed (fragment : str) : Prop :=
  exists body ws,
    fragment = body ++ ws
    /\ ends_visible body
    /\ forallb isspace ws = true
    /\ count_newlines ws < 2.

Lemma ident_visible (c : ascii) :
  BNF_Lexer.is_ident_char c = true -> isspace c = false.
Proof. ascii_cases c; vm_compute; intros H; congruence. Qed.

Lemma ends_visible_app (a b : str) : ends_visible b -> ends_visible (a ++ b).
Proof.
  intros (p & c & -> & H). exists (a ++ p), c.
  rewrite app_assoc. auto.
Qed.

Lemma ends_visible_last (c : ascii) (xs : str) :
  (forall x, In x (c :: xs) -> isspace x = false) -> ends_visible (c :: xs).
Proof.
  intros H. destruct (exists_last (l := c :: xs)) as (p & d & E);
    [discriminate|].
  exists p, d. split; [exact E|]. apply H. rewrite E.
  apply in_or_app. right. left. reflexivity.
Qed.

Lemma shaped_ends_visible (k : KIND) (raw : str) :
  shaped k raw -> ends_visible raw.
Proof.
  destruct k; cbn [shaped]; try contradiction;
    try (intros ->; eexists [], _; split; [reflexivity|]; reflexivity).
  - intros (c & xs & -> & Hc & F). apply ends_visible_last.
    intros x [<- | Hx].
    + apply ident_visible. unfold BNF_Lexer.is_ident_char, isalpha.
      rewrite Hc, orb_true_r. reflexivity.
    + rewrite forallb_forall in F. apply ident_visible, F, Hx.
  - intros (c & xs & -> & Hc & F). apply ends_visible_last.
    intros x [<- | Hx].
    + apply ident_visible. unfold BNF_Lexer.is_ident_char, isalpha.
      rewrite Hc. reflexivity.
    + rewrite forallb_forall in F. apply ident_visible, F, Hx.
  - intros ->. exists (py "::"), "="%char. split; reflexivity.
  - intros (v & -> & _). exists (quote :: v), quote. split; reflexivity.
Qed.

(** The call of [token] that gives the RULE_END of the end of the
    fragment has gone through whitespace with less than two
    newlines. *)
Lemma token_end_gap (l l' : BNF_Lexer.t) (pre rest : str)
    (r : option BNF_Token.t) :
  BNF_Lexer.token l = Ok (r, l') ->
  zipper l pre rest ->
  BNF_Lexer.eof_token_generated l = false ->
  BNF_Lexer.eof_token_generated l' = true ->
  forallb isspace rest = true /\ count_newlines rest < 2.
Proof.
  intros H Z He He'. apply token_inv in H.
  inversion H as [l1 l2 k Hs Hl2 Hcc Heof | l1 l2 k Hs Hl2 Hcc Heof
                 | l1 k c Hs Hk Hcc Hle
                 | l1 l2 l3 k c kind value Hs Hk Hl2 Hcc Hscan Hv Hle];
    subst;
    destruct (skip_whitespace_spec _ _ _ _ _ Hs) as (E1 & _ & Hmove).
  - destruct (skip_whitespace_passed _ _ _ _ _ _ _ Z Hs)
      as (ws & rest' & -> & F & Z1 & Hk & _).
    destruct (k <? 2) eqn:Ek.
    + rewrite advance_cc in Hcc. destruct Z1 as (_ & _ & _ & Hnc).
      rewrite Hnc in Hcc. destruct rest'; [|discriminate].
      rewrite app_nil_r. apply Z.ltb_lt in Ek. split; [exact F | lia].
    + apply Z.ltb_ge in Ek.
      destruct Hmove as [[-> Hk0] | [_ Hne]]; [lia | congruence].
  - destruct (k <? 2); rewrite ?advance_eof in Heof; congruence.
  - congruence.
  - apply scan_spec in Hscan as (_ & E3 & _). rewrite advance_eof in E3.
    congruence.
Qed.

(** The token that was consumed last is no RULE_END. *)
Definition ct_inner (self : BNF_Parser.t) : Prop :=
  exists t, BNF_Parser.ct self = Some t /\ BNF_Token.kind t <> RULE_END.

(** A parser whose lexer stands right after the text of the lookahead
    token. *)
Definition placed (fragment : str) (self : BNF_Parser.t) : Prop :=
  exists l tok,
    BNF_Parser.current_lexer self = Some l
    /\ BNF_Parser.nt self = Some tok
    /\ consistent l
    /\ BNF_Lexer.fragment l = fragment
    /\ ((BNF_Lexer.eof_token_generated l = false
         /\ exists pre rest,
             zipper l pre rest
             /\ (BNF_Token.kind tok <> RULE_END -> ends_visible pre))
        \/ (finished l
            /\ BNF_Token.kind tok = RULE_END
            /\ (ct_inner self -> trimmed fragment))).

Lemma match_placed (fragment : str) (self self' : BNF_Parser.t) (k : KIND) :
  BNF_Parser.match_ self k = Ok self' ->
  placed fragment self ->
  BNF_Parser.ct self' = BNF_Parser.nt self
  /\ (exists tok, BNF_Parser.nt self = Some tok /\ BNF_Token.kind tok = k)
  /\ (placed fragment self'
      \/ (k = RULE_END /\ BNF_Parser.nt self' = None
          /\ (ct_inner self -> trimmed fragment))).
Proof.
  intros M (l0 & tok0 & L0 & N0 & C & Hf & Hcase).
  apply match_Ok in M as (tok & l & l' & r & N & K & L & T & ->).
  rewrite L in L0. injection L0 as <-. rewrite N in N0. injection N0 as <-.
  split; [rewrite N; reflexivity|]. split; [eauto|].
  pose proof (token_consistent _ _ _ T C) as C'.
  destruct Hcase as [(He & pre & rest & Z & Hv) | (Fin & K' & Ht)].
  - left.
    assert (BNF_Lexer.fragment l' = fragment) as Hf'.
    { destruct (token_passed _ _ _ _ _ T Z C He) as (t & ws & _ & _ & Hc).
      pose proof (token_inv _ _ _ T) as TI.
      assert (live l) as Lv.
      { split; [exact C|]. split; [exact He|].
        destruct Z as (Hfr & _ & Hp & _). rewrite Hfr, Hp, len_app.
        pose proof (len_nonneg rest). lia. }
      destruct (token_live _ _ _ T Lv) as (? & _ & Hfr & _). congruence. }
    destruct (token_passed _ _ _ _ _ T Z C He)
      as (t & ws & -> & F & [(Kt & _ & Hc) | Hc]).
    + destruct Hc as [[-> Fin] | (rest' & -> & _ & Z1 & _ & E1)].
      * exists l', t. cbn [BNF_Parser.current_lexer BNF_Parser.nt
                            BNF_Parser.set_lexer_state].
        split; [reflexivity|]. split; [reflexivity|]. split; [exact C'|].
        split; [exact Hf'|]. right. split; [exact Fin|]. split; [exact Kt|].
        intros (t' & Ct & Kt'). cbn [BNF_Parser.ct BNF_Parser.set_lexer_state]
          in Ct. injection Ct as <-.
        destruct (token_end_gap _ _ _ _ _ T Z He (proj1 Fin)) as [_ Hn].
        exists pre, ws. destruct Z as (Hfr & _).
        split; [congruence|]. split; [exact (Hv Kt')|]. auto.
      * exists l', t. cbn [BNF_Parser.current_lexer BNF_Parser.nt
                            BNF_Parser.set_lexer_state].
        split; [reflexivity|]. split; [reflexivity|]. split; [exact C'|].
        split; [exact Hf'|]. left. split; [exact E1|].
        exists (pre ++ ws), rest'. split; [exact Z1|]. contradiction.
    + destruct Hc as (raw & rest' & -> & _ & Sh & _ & _ & _ & Z1 & _ & E1).
      exists l', t. cbn [BNF_Parser.current_lexer BNF_Parser.nt
                          BNF_Parser.set_lexer_state].
      split; [reflexivity|]. split; [reflexivity|]. split; [exact C'|].
      split; [exact Hf'|]. left. split; [exact E1|].
      exists (pre ++ ws ++ raw), rest'. split; [exact Z1|]. intros _.
      rewrite app_assoc. apply ends_visible_app, (shaped_ends_visible _ _ Sh).
  - right. split; [congruence|].
    destruct (token_finished _ Fin) as [E _]. rewrite E in T.
    injection T as <- <-. split; [reflexivity | exact Ht].
Qed.

Lemma match_inner (fragment : str) (self self' : BNF_Parser.t) (k : KIND) :
  BNF_Parser.match_ self k = Ok self' ->
  placed fragment self ->
  k <> RULE_END ->
  placed fragment self' /\ ct_inner self'.
Proof.
  intros M P K.
  destruct (match_placed _ _ _ _ M P) as (C & (tok & N & Kt) & [P' | [E _]]);
    [|contradiction].
  split; [exact P'|]. exists tok. split; [congruence|]. congruence.
Qed.

Lemma parses_placed (fragment : str) (c : call) (self self' : BNF_Parser.t)
    (n : BNF_Expansion) :
  parses c self n self' ->
  placed fragment self ->
  placed fragment self'
  /\ (strict c = true \/ ct_inner self -> ct_inner self').
Proof.
  induction 1 as
    [ self n1 self1 n self2 _ IH1 _ IH2
    | rv self self1 n1 self2 n self3 P M _ IH1 _ IH2
    | rv self n P E
    | self n1 self1 n self2 _ IH1 _ IH2
    | rv self tok n1 self1 n self2 N F _ IH1 _ IH2
    | rv self tok n N F E
    | self tok self1 rv self2 self3 N K M1 _ IH1 M2
    | self tok self1 rv self2 self3 N K M1 _ IH1 M2
    | self tok n self1 N K E ]; intros Pl; cbn [strict].
  - destruct (IH1 Pl) as [P1 C1]. destruct (IH2 P1) as [P2 C2].
    split; [exact P2|]. intros _. apply C2. right. apply C1. left. reflexivity.
  - destruct (match_inner _ _ _ _ M Pl) as [P1 C1]; [discriminate|].
    destruct (IH1 P1) as [P2 C2]. destruct (IH2 P2) as [P3 C3].
    split; [exact P3|]. intros _. apply C3. right. apply C2. left. reflexivity.
  - split; [exact Pl|]. intros [H|H]; [discriminate | exact H].
  - destruct (IH1 Pl) as [P1 C1]. destruct (IH2 P1) as [P2 C2].
    split; [exact P2|]. intros _. apply C2. right. apply C1. left. reflexivity.
  - destruct (IH1 Pl) as [P1 C1]. destruct (IH2 P1) as [P2 C2].
    split; [exact P2|]. intros _. apply C2. right. apply C1. left. reflexivity.
  - split; [exact Pl|]. intros [H|H]; [discriminate | exact H].
  - destruct (match_inner _ _ _ _ M1 Pl) as [P1 _]; [discriminate|].
    destruct (IH1 P1) as [P2 _].
    destruct (match_inner _ _ _ _ M2 P2) as [P3 C3]; [discriminate|]. auto.
  - destruct (match_inner _ _ _ _ M1 Pl) as [P1 _]; [discriminate|].
    destruct (IH1 P1) as [P2 _].
    destruct (match_inner _ _ _ _ M2 P2) as [P3 C3]; [discriminate|]. auto.
  - apply parse_leaf_tables in E.
    destruct (match_inner _ _ _ _ E Pl) as [P1 C1]; [|auto].
    intros H. rewrite H in K. discriminate K.
Qed.

Lemma placed_tables (fragment : str) (a b : BNF_Parser.t) :
  BNF_Parser.current_lexer b = BNF_Parser.current_lexer a ->
  BNF_Parser.nt b = BNF_Parser.nt a ->
  BNF_Parser.ct b = BNF_Parser.ct a ->
  placed fragment a -> placed fragment b.
Proof.
  intros L N C (l & tok & H1 & H2 & H3 & H4 & H5).
  exists l, tok. split; [congruence|]. split; [congruence|].
  split; [exact H3|]. split; [exact H4|].
  destruct H5 as [H5 | (F & K & T)]; [left; exact H5|].
  right. split; [exact F|]. split; [exact K|].
  intros (t & Ct & Kt). apply T. exists t. split; [congruence | exact Kt].
Qed.

Lemma loops_trimmed (fragment name : str) (self self' : BNF_Parser.t)
    (decls : list (str * BNF_Expansion)) :
  loops name self decls self' ->
  placed fragment self ->
  trimmed fragment.
Proof.
  induction 1 as [self N | self tok p n s1 s2 s3 decls s4 N D B M _ IH];
    intros Pl.
  - destruct Pl as (l & tok & _ & N' & _). congruence.
  - destruct D as [s sa sb sc t q a M1 C V Dm M2 P].
    destruct (match_inner _ _ _ _ M1 Pl) as [Pa _]; [discriminate|].
    destruct (match_inner _ _ _ _ M2 Pa) as [Pb _]; [discriminate|].
    destruct (parses_placed _ _ _ _ _ P Pb) as [Pc Cc].
    specialize (Cc (or_introl eq_refl)).
    apply bundle_append_Ok in B as (b & _ & ->).
    assert (placed fragment
              (BNF_Parser.set_bundles
                 (BNF_Parser.set_productions sc
                    (dict_set (BNF_Parser.productions sc) q a))
                 (dict_set
                    (BNF_Parser.bundles
                       (BNF_Parser.set_productions sc
                          (dict_set (BNF_Parser.productions sc) q a)))
                    name (b ++ [q])))) as P2
      by (eapply placed_tables; [| | |exact Pc]; reflexivity).
    destruct (match_placed _ _ _ _ M P2) as (_ & _ & [P3 | (_ & _ & Ht)]).
    + exact (IH P3).
    + apply Ht. destruct Cc as (t' & Ct & Kt). exists t'. auto.
Qed.

(** A grammar block that [parse] accepts has no blank line at its
    edges: its first token is a nonterminal that at most one newline
    precedes, and at most one newline follows its last token.  A block
    with two newlines or more before its first or after its last
    production is rejected. *)
Theorem block_edges (fuel : nat) (self self' : BNF_Parser.t)
    (obj : Record_Object.t) :
  BNF_Parser.parse fuel self obj = Some (Ok self') ->
  (exists ws c rest,
      slice (Record_Object.bnf_text obj) 3 (-3) = ws ++ c :: rest
      /\ forallb isspace ws = true
      /\ count_newlines ws < 2
      /\ islower c = true)
  /\ (exists body c ws,
         slice (Record_Object.bnf_text obj) 3 (-3) = body ++ c :: ws
         /\ isspace c = false
         /\ forallb isspace ws = true
         /\ count_newlines ws < 2).
Proof.
  intros H. apply parse_Ok in H as (r & lx & s1 & decls & _ & _ & T & L & _).
  set (fragment := slice (Record_Object.bnf_text obj) 3 (-3)) in *.
  pose proof (init_zipper fragment (Record_Object.bnf_location obj)) as Z.
  pose proof (init_consistent fragment (Record_Object.bnf_location obj)) as C.
  destruct (token_passed _ _ _ _ _ T Z C eq_refl)
    as (tok & ws & -> & F & Hcase).
  assert (BNF_Token.kind tok = NONTERMINAL) as K.
  { inversion L as [? N | ? ? ? ? ? ? ? ? ? N D _ _ _]; subst;
      [discriminate N|].
    inversion D as [s sa sb sc t q a M1]; subst.
    apply match_Ok in M1 as (t0 & _ & _ & _ & N0 & K0 & _).
    cbn in N0. congruence. }
  destruct Hcase as [(K' & _) | (raw & rest' & E & Hn & Sh & _ & _ & _ & Z1 & C1 & E1)];
    [congruence|].
  cbn [app] in E. rewrite K in Sh. destruct Sh as (c & xs & -> & Hc & Fx).
  split.
  - exists ws, c, (xs ++ rest'). auto.
  - assert (placed fragment
              (BNF_Parser.set_bundles
                 (BNF_Parser.set_lexer_state self (Some lx) None (Some tok))
                 (dict_set (BNF_Parser.bundles self) (Record_Object.name obj)
                    []))) as Pl.
    { exists lx, tok. cbn [BNF_Parser.current_lexer BNF_Parser.nt
                            BNF_Parser.set_bundles BNF_Parser.set_lexer_state].
      split; [reflexivity|]. split; [reflexivity|]. split; [exact C1|].
      split; [destruct Z1 as (Hf & _); rewrite Hf, E; cbn [app];
              rewrite <- app_assoc; reflexivity|].
      left. split; [exact E1|]. eexists. eexists. split; [exact Z1|].
      intros _. cbn [app]. apply ends_visible_app.
      apply (shaped_ends_visible NONTERMINAL). exists c, xs. auto. }
    destruct (loops_trimmed _ _ _ _ _ L Pl) as (body & ws' & Eb & (p & d & -> & Hd) & Fw & Hw).
    exists p, d, ws'. rewrite <- app_assoc in Eb. auto.
Qed.

Lemma block_edges_witness :
  (exists ws c rest,
      slice (Record_Object.bnf_text grammar_expr) 3 (-3) = ws ++ c :: rest
      /\ forallb isspace ws = true
      /\ count_newlines ws < 2
      /\ islower c = true)
  /\ (exists body c ws,
         slice (Record_Object.bnf_text grammar_expr) 3 (-3) = body ++ c :: ws
         /\ isspace c = false
         /\ forallb isspace ws = true
         /\ count_newlines ws < 2).
Proof.
  apply (block_edges 20 parser_0 (parsed 20 grammar_expr) grammar_expr).
  vm_compute. reflexivity.
Defined.

(* ------------------------------------------------------------------ *)
(** ** Sections and headings *)

Definition section_name (section : ast.Section) : str :=
  match section with
  | ast.Section_make name _ => name
  end.

(** The depth of a section is the length of its path, which ends with
    its own name and begins with the path of its parent. *)
Theorem section_depth_list (section : ast.Section) :
  section_depth section = Z.of_nat (List.length (section_list section))
  /\ last (section_list section) [] = section_name section
  /\ match section with
     | ast.Section_make name (Some parent) =>
         section_list section = section_list parent ++ [name]
         /\ section_depth section = section_depth parent + 1
     | ast.Section_make name None =>
         section_list section = [name]
     end.
Proof.
  split; [|split].
  - revert section.
    fix IH 1. intros [name [parent|]]; cbn [section_depth section_list].
    + rewrite (IH parent), length_app. cbn [List.length]. lia.
    + reflexivity.
  - destruct section as [name [parent|]]; cbn [section_list section_name].
    + apply last_last.
    + reflexivity.
  - destruct section as [name [parent|]]; cbn [section_list section_depth];
      auto.
Qed.

(** The headings of the entries of a path from position [idx] on. *)
Fixpoint headings_from (idx : Z) (headings : list str) : str :=
  match headings with
  | [] => []
  | heading :: rest =>
      write_heading [] heading (idx + 2) ++ headings_from (idx + 1) rest
  end.

(** The number of entries with which two paths begin alike. *)
Fixpoint common_prefix (a b : list str) : nat :=
  match a, b with
  | x :: a', y :: b' => if str_eqb x y then S (common_prefix a' b') else O
  | _, _ => O
  end.

Lemma write_heading_app (fd name : str) (depth : Z) :
  write_heading fd name depth = fd ++ write_heading [] name depth.
Proof. reflexivity. Qed.

Lemma write_headings_changed (new_section : list str) :
  forall fd idx old_section,
    write_headings fd idx false new_section old_section
    = fd ++ headings_from idx new_section.
Proof.
  induction new_section as [|h rest IH]; intros fd idx old;
    cbn [write_headings headings_from].
  - rewrite app_nil_r. reflexivity.
  - assert ((if idx <? Z.of_nat (List.length old)
             then match nth_error old (Z.to_nat idx) with
                  | Some o => if str_eqb h o then false else false
                  | None => false
                  end
             else false) = false) as ->.
    { destruct (idx <? _); [|reflexivity].
      destruct (nth_error old (Z.to_nat idx)); [|reflexivity].
      destruct (str_eqb h s); reflexivity. }
    cbn [negb]. rewrite IH, write_heading_app, <- app_assoc. reflexivity.
Qed.

Lemma write_headings_same (new_section : list str) :
  forall fd (idx : nat) old_section,
    write_headings fd (Z.of_nat idx) true new_section old_section
    = fd ++ headings_from
              (Z.of_nat (idx + common_prefix new_section (skipn idx old_section)))
              (skipn (common_prefix new_section (skipn idx old_section))
                 new_section).
Proof.
  induction new_section as [|h rest IH]; intros fd idx old.
  - cbn [write_headings common_prefix skipn headings_from].
    rewrite app_nil_r. reflexivity.
  - cbn [write_headings].
    destruct (Z.of_nat idx <? Z.of_nat (List.length old)) eqn:E.
    + apply Z.ltb_lt in E. rewrite Nat2Z.id.
      destruct (nth_error old idx) as [o|] eqn:En.
      2:{ apply nth_error_None in En. lia. }
      assert (skipn idx old = o :: skipn (S idx) old) as Hs.
      { clear - En. revert old En. induction idx as [|i IHi]; intros [|x old] En;
          try discriminate.
        - injection En as ->. reflexivity.
        - cbn [nth_error] in En. rewrite skipn_cons. apply IHi, En. }
      rewrite Hs. cbn [common_prefix].
      destruct (str_eqb h o).
      * cbn [negb].
        replace (Z.of_nat idx + 1) with (Z.of_nat (S idx)) by lia.
        rewrite IH, skipn_cons. do 3 f_equal. lia.
      * cbn [negb]. rewrite write_headings_changed, write_heading_app.
        rewrite Nat.add_0_r, skipn_O, <- app_assoc. reflexivity.
    + apply Z.ltb_ge in E.
      rewrite skipn_all2 by lia. cbn [common_prefix negb].
      rewrite write_headings_changed, write_heading_app.
      rewrite Nat.add_0_r, skipn_O, <- app_assoc. reflexivity.
Qed.

(** The headings that [write_text_object] writes for an object: those
    of the entries of its path after the entries with which that path
    and the path of the object before begin alike, each at the depth of
    its place plus 2.  For the same path as before nothing is
    written. *)
Theorem headings_written (fd : str) (new_section old_section : list str) :
  write_headings fd 0 true new_section old_section
  = fd ++ headings_from (Z.of_nat (common_prefix new_section old_section))
            (skipn (common_prefix new_section old_section) new_section)
  /\ write_headings fd 0 true new_section new_section = fd.
Proof.
  assert (forall a b,
             write_headings fd 0 true a b
             = fd ++ headings_from (Z.of_nat (common_prefix a b))
                       (skipn (common_prefix a b) a)) as H.
  { intros a b. exact (write_headings_same a fd O b). }
  split; [apply H|]. rewrite H.
  assert (common_prefix new_section new_section = List.length new_section)
    as ->.
  { induction new_section as [|h rest IH]; cbn [common_prefix List.length];
      [reflexivity|].
    rewrite str_eqb_refl, IH. reflexivity. }
  rewrite skipn_all. cbn [headings_from]. apply app_nil_r.
Qed.

(* ------------------------------------------------------------------ *)
(** ** The block of a grammar in the document *)

(** The text of a production in the document. *)
Definition rendered (bnf_parser : BNF_Parser.t) (production : str) : str :=
  match dict_get (BNF_Parser.productions bnf_parser) production with
  | Some n => production_head production ++ production_body production n
  | None => []
  end.

(** The part of the text of an object that every type of object has:
    its text and its bullets. *)
Definition object_body (obj : ast.Record_Object) : str :=
  py "<div>" ++ [newline]
  ++ match ast.text obj with
     | Some (c :: t) => fmt_text (c :: t) ++ [newline]
     | _ => []
     end
  ++ match ast.bullets obj with
     | Some (item :: items) =>
         py "<ul>" ++ [newline]
         ++ flat_map (fun i => py "  <li>" ++ fmt_text i ++ py "</li>"
                               ++ [newline]) (item :: items)
         ++ py "</ul>" ++ [newline]
     | _ => []
     end
  ++ py "</div>" ++ [newline].

Definition object_path (obj : ast.Record_Object) : list str :=
  match ast.section obj with
  | Some s => section_list s
  | None => []
  end.

Lemma write_items_flat (items : list str) :
  forall fd,
    write_items fd items
    = fd ++ flat_map (fun i => py "  <li>" ++ fmt_text i ++ py "</li>"
                               ++ [newline]) items.
Proof.
  unfold write_items.
  induction items as [|i items IH]; intros fd; cbn [fold_left flat_map].
  - rewrite app_nil_r. reflexivity.
  - rewrite IH. unfold write. rewrite <- !app_assoc. reflexivity.
Qed.

Lemma write_bundle_join (bnf_parser : BNF_Parser.t) (bundle : list str) :
  (forall p, In p bundle ->
             exists n,
               dict_get (BNF_Parser.productions bnf_parser) p = Some n
               /\ at_least_two n) ->
  forall fd first,
    write_bundle fd first bundle bnf_parser
    = Ok (fd ++ (if first then [] else
                   match bundle with [] => [] | _ => [newline] end)
          ++ join [newline] (map (rendered bnf_parser) bundle)).
Proof.
  induction bundle as [|p bundle IH]; intros H fd first;
    cbn [write_bundle map].
  - destruct first; cbn [join]; rewrite ?app_nil_r; reflexivity.
  - destruct (H p (or_introl eq_refl)) as (n & G & A).
    rewrite (write_production_body _ _ _ _ G A). cbn [bind].
    rewrite IH by (intros q Hq; apply H; right; exact Hq).
    unfold rendered at 2. rewrite G. f_equal. rewrite join_cons.
    destruct bundle as [|q bundle].
    + cbn [map flat_map]. unfold write.
      destruct first; rewrite ?app_nil_r, <- ?app_assoc; reflexivity.
    + cbn [map]. rewrite join_cons. cbn [flat_map]. unfold write.
      destruct first; rewrite <- ?app_assoc; cbn [app]; rewrite <- ?app_assoc;
        reflexivity.
Qed.

(** The block that [write_text_object] writes for a Grammar whose
    bundle holds names of productions only: it does not raise; after
    the headings and the text of the object come, between
    [<div class='code'><pre>] and [</pre></div>], the productions of the
    bundle in their order, a newline between one and the next; and the
    path of the object is kept for the next object. *)
Theorem grammar_block (fd : str) (obj : ast.Record_Object)
    (context : option (list str)) (bnf_parser : BNF_Parser.t)
    (bundle : list str) :
  ast.e_typ_name obj = py "Grammar" ->
  dict_get (BNF_Parser.bundles bnf_parser) (ast.name obj) = Some bundle ->
  (forall p, In p bundle ->
             exists n,
               dict_get (BNF_Parser.productions bnf_parser) p = Some n
               /\ at_least_two n) ->
  write_text_object fd obj context bnf_parser
  = Ok (write_headings fd 0 true (object_path obj)
          match context with Some s => s | None => [] end
        ++ object_body obj
        ++ py "<div class='code'><pre>" ++ [newline]
        ++ join [newline] (map (rendered bnf_parser) bundle)
        ++ py "</pre>" ++ [newline] ++ py "</div>" ++ [newline],
        Some (object_path obj)).
Proof.
  intros T B H. unfold write_text_object. rewrite T, B.
  change (existsb (str_eqb (py "Grammar"))
            [py "Text"; py "Grammar"; py "Terminal"; py "Keywords";
             py "Punctuation"]) with true.
  cbv iota. cbn [bind].
  change (str_eqb (py "Grammar") (py "Terminal")) with false.
  change (str_eqb (py "Grammar") (py "Grammar")) with true. cbv iota.
  rewrite (write_bundle_join _ _ H). cbn [bind]. f_equal. f_equal.
  fold (object_path obj). unfold object_body, write.
  destruct (ast.text obj) as [[|c t]|];
    destruct (ast.bullets obj) as [[|i items]|];
    rewrite ?write_items_flat; unfold write;
    repeat (progress (rewrite <- ?app_assoc;
                      cbn [app py list_ascii_of_string]));
    reflexivity.
Qed.

Definition object_expr : ast.Record_Object :=
  ast.Record_Object_make (py "G")
    (Some (ast.Section_make (py "Expressions")
             (Some (ast.Section_make (py "Syntax") None))))
    (py "Grammar") (Some (py "Sums of `terms`.")) None None None.

Lemma grammar_block_witness :
  write_text_object [] object_expr (Some [py "Syntax"; py "Names"])
    (parsed 20 grammar_expr)
  = Ok (write_headings [] 0 true (object_path object_expr)
          [py "Syntax"; py "Names"]
        ++ object_body object_expr
        ++ py "<div class='code'><pre>" ++ [newline]
        ++ join [newline]
             (map (rendered (parsed 20 grammar_expr)) [py "expr"; py "term"])
        ++ py "</pre>" ++ [newline] ++ py "</div>" ++ [newline],
        Some (object_path object_expr)).
Proof.
  apply (grammar_block [] object_expr (Some [py "Syntax"; py "Names"])
           (parsed 20 grammar_expr) [py "expr"; py "term"]).
  - reflexivity.
  - vm_compute. reflexivity.
  - intros p [<- | [<- | []]]; eexists;
      (split; [vm_compute; reflexivity|]); vm_compute; repeat constructor.
Defined.

(* ------------------------------------------------------------------ *)
(** ** The text of an object *)










(* ------------------------------------------------------------------ *)
(** ** What an accepted block holds *)

(** The value of a token has the form that goes with its kind. *)
Definition well_valued (tok : BNF_Token.t) : Prop :=
  match BNF_Token.kind tok, BNF_Token.value tok with
  | SYMBOL, V_Str _ => True
  | TERMINAL, V_Pair _ _ => True
  | NONTERMINAL, V_Pair _ _ => True
  | SYMBOL, _ | TERMINAL, _ | NONTERMINAL, _ => False
  | _, V_None => True
  | _, _ => False
  end.

Lemma token_well_valued (l l' : BNF_Lexer.t) (tok : BNF_Token.t) :
  BNF_Lexer.token l = Ok (Some tok, l') -> well_valued tok.
Proof.
  intros H. apply token_inv in H.
  inversion H as [l1 l2 k Hs Hl2 Hcc Heof | l1 l2 k Hs Hl2 Hcc Heof
                 | l1 k c Hs Hk Hcc Hle
                 | l1 l2 l3 k c kind value Hs Hk Hl2 Hcc Hscan Hv Hle];
    subst; try exact I.
  unfold well_valued. cbn [BNF_Token.kind BNF_Token.value].
  destruct kind; try (injection Hv as <-; exact I).
  - rewrite split_nonterminal_spec in Hv.
    apply split_pair in Hv as (b & nm & ->). exact I.
  - rewrite split_terminal_spec in Hv.
    apply split_pair in Hv as (b & nm & ->). exact I.
Qed.

Lemma tokens_well_valued (l l' : BNF_Lexer.t) (ts : list BNF_Token.t) :
  tokens_from l ts l' -> Forall well_valued ts.
Proof.
  induction 1 as [l l' E | l tok l1 ts l' E _ IH]; constructor;
    [exact (token_well_valued _ _ _ E) | exact IH].
Qed.

(** The lexemes that a piece of the descent adds to those of the
    members it was given. *)
Definition gathered (c : call) (n : BNF_Expansion)
    (consumed : list BNF_Token.t) : Prop :=
  match c with
  | Expansion | String_ | Fragment => map lexeme_of consumed = lexemes n
  | String_loop rv =>
      lexemes n = flat_map lexemes rv ++ map lexeme_of consumed
  | Expansion_loop rv =>
      rv <> [] ->
      lexemes n
      = lexemes (BNF_Alternatives loc0 rv) ++ map lexeme_of consumed
  end.

Lemma parse_leaf_lexeme (self self' : BNF_Parser.t)
    (loc : Source_Reference.t) (tok : BNF_Token.t) (n : BNF_Expansion) :
  BNF_Parser.parse_leaf self loc (BNF_Token.kind tok) = Ok (n, self') ->
  BNF_Parser.ct self' = Some tok ->
  well_valued tok ->
  lexemes n = [lexeme_of tok].
Proof.
  intros H C W. pose proof (parse_leaf_tables _ _ _ _ _ H) as M.
  unfold BNF_Parser.parse_leaf in H. rewrite M in H. cbn [bind] in H.
  unfold BNF_Parser.ct_kind, BNF_Parser.ct_value in H.
  rewrite C in H. cbn [bind] in H.
  unfold well_valued in W. unfold lexeme_of.
  destruct (BNF_Token.kind tok);
    destruct (BNF_Token.value tok) as [|b nm|v]; try contradiction;
    cbn in H; try discriminate H; injection H as <-; reflexivity.
Qed.

Lemma alternatives_snoc (rv : list BNF_Expansion) (n : BNF_Expansion) :
  rv <> [] ->
  lexemes (BNF_Alternatives loc0 (rv ++ [n]))
  = lexemes (BNF_Alternatives loc0 rv) ++ (ALTERNATIVE, V_None) :: lexemes n.
Proof.
  destruct rv as [|m rv]; [congruence|]. intros _.
  cbn [lexemes app]. rewrite flat_map_app. cbn [flat_map].
  rewrite app_nil_r, <- app_assoc. reflexivity.
Qed.

(** The tokens that a successful run consumes are the lexemes of the
    tree it returns. *)
Lemma parses_lexemes (c : call) (self self' : BNF_Parser.t)
    (n : BNF_Expansion) :
  parses c self n self' ->
  forall ts, pending self' ts ->
             exists consumed,
               pending self (consumed ++ ts)
               /\ (Forall well_valued consumed -> gathered c n consumed).
Proof.
  induction 1 as
    [ self n1 self1 n self2 _ IH1 _ IH2
    | rv self self1 n1 self2 n self3 P M _ IH1 _ IH2
    | rv self n P E
    | self n1 self1 n self2 _ IH1 _ IH2
    | rv self tok n1 self1 n self2 N F _ IH1 _ IH2
    | rv self tok n N F E
    | self tok self1 rv self2 self3 N K M1 _ IH1 M2
    | self tok self1 rv self2 self3 N K M1 _ IH1 M2
    | self tok n self1 N K E ]; intros ts Hp; cbn [gathered].
  - destruct (IH2 ts Hp) as (c2 & P2 & G2).
    destruct (IH1 _ P2) as (c1 & P1 & G1).
    exists (c1 ++ c2). rewrite <- app_assoc. split; [exact P1|].
    intros W. apply Forall_app in W as [W1 W2].
    cbn [gathered] in G1, G2. rewrite (G2 W2) by discriminate.
    cbn [lexemes flat_map]. rewrite app_nil_r, map_app, (G1 W1).
    reflexivity.
  - destruct (IH2 ts Hp) as (c2 & P2 & G2).
    destruct (IH1 _ P2) as (c1 & P1 & G1).
    destruct (match_pending _ _ _ _ M P1) as (t & _ & Hk & _ & P0).
    exists (t :: c1 ++ c2). cbn [app]. rewrite <- app_assoc.
    split; [exact P0|]. intros W Hrv.
    inversion W as [|? ? Wt W']; subst. apply Forall_app in W' as [W1 W2].
    cbn [gathered] in G1, G2.
    rewrite (G2 W2) by (destruct rv; discriminate).
    rewrite (alternatives_snoc _ _ Hrv), <- app_assoc. cbn [app map].
    rewrite map_app, (G1 W1). do 2 f_equal.
    unfold lexeme_of. unfold well_valued in Wt. rewrite Hk in *.
    destruct (BNF_Token.value t); try contradiction. reflexivity.
  - exists []. split; [exact Hp|]. intros _ Hrv. cbn [map].
    rewrite app_nil_r.
    destruct rv as [|n1 [|n2 ms]]; [congruence | |].
    + injection E as <-. cbn [lexemes flat_map]. rewrite app_nil_r.
      reflexivity.
    + rewrite BNF_Alternatives_init_two in E. injection E as <-. reflexivity.
  - destruct (IH2 ts Hp) as (c2 & P2 & G2).
    destruct (IH1 _ P2) as (c1 & P1 & G1).
    exists (c1 ++ c2). rewrite <- app_assoc. split; [exact P1|].
    intros W. apply Forall_app in W as [W1 W2].
    cbn [gathered] in G1, G2. rewrite (G2 W2).
    cbn [flat_map]. rewrite app_nil_r, map_app, (G1 W1). reflexivity.
  - destruct (IH2 ts Hp) as (c2 & P2 & G2).
    destruct (IH1 _ P2) as (c1 & P1 & G1).
    exists (c1 ++ c2). rewrite <- app_assoc. split; [exact P1|].
    intros W. apply Forall_app in W as [W1 W2].
    cbn [gathered] in G1, G2. rewrite (G2 W2).
    rewrite flat_map_app. cbn [flat_map].
    rewrite app_nil_r, map_app, (G1 W1), <- app_assoc. reflexivity.
  - exists []. split; [exact Hp|]. intros _. cbn [map]. rewrite app_nil_r.
    destruct rv as [|n1 [|n2 ms]].
    + discriminate E.
    + injection E as <-. cbn [flat_map]. rewrite app_nil_r. reflexivity.
    + rewrite BNF_String_init_two in E. injection E as <-. reflexivity.
  - destruct (match_pending _ _ _ _ M2 Hp) as (t2 & _ & K2 & _ & P2).
    destruct (IH1 _ P2) as (c1 & P1 & G1).
    destruct (match_pending _ _ _ _ M1 P1) as (t1 & _ & K1 & _ & P0).
    exists (t1 :: c1 ++ [t2]). cbn [app]. rewrite <- app_assoc.
    split; [exact P0|]. intros W.
    inversion W as [|? ? W1 W']; subst. apply Forall_app in W' as [Wc W2].
    inversion W2 as [|? ? W2' _]; subst.
    cbn [gathered] in G1. cbn [lexemes map]. rewrite map_app, (G1 Wc).
    cbn [map]. unfold lexeme_of. unfold well_valued in W1, W2'.
    rewrite K1, K2 in *.
    destruct (BNF_Token.value t1); try contradiction.
    destruct (BNF_Token.value t2); try contradiction. reflexivity.
  - destruct (match_pending _ _ _ _ M2 Hp) as (t2 & _ & K2 & _ & P2).
    destruct (IH1 _ P2) as (c1 & P1 & G1).
    destruct (match_pending _ _ _ _ M1 P1) as (t1 & _ & K1 & _ & P0).
    exists (t1 :: c1 ++ [t2]). cbn [app]. rewrite <- app_assoc.
    split; [exact P0|]. intros W.
    inversion W as [|? ? W1 W']; subst. apply Forall_app in W' as [Wc W2].
    inversion W2 as [|? ? W2' _]; subst.
    cbn [gathered] in G1. cbn [lexemes map]. rewrite map_app, (G1 Wc).
    cbn [map]. unfold lexeme_of. unfold well_valued in W1, W2'.
    rewrite K1, K2 in *.
    destruct (BNF_Token.value t1); try contradiction.
    destruct (BNF_Token.value t2); try contradiction. reflexivity.
  - pose proof (parse_leaf_tables _ _ _ _ _ E) as M.
    destruct (match_pending _ _ _ _ M Hp) as (t & Nt & _ & Ct & Pt).
    rewrite N in Nt. injection Nt as <-.
    exists [tok]. split; [exact Pt|]. intros W.
    inversion W as [|? ? Wt _]; subst. cbn [map]. symmetry.
    exact (parse_leaf_lexeme _ _ _ _ _ E Ct Wt).
Qed.

(** A production as the block spells it: the name before [::=], with
    its suffix, and the tree stored for it. *)
Definition spelled_production : Type :=
  ((str * option str) * BNF_Expansion)%type.

Definition declared (b : spelled_production) : str * BNF_Expansion :=
  (fst (fst b), snd b).

Definition block_lexemes (b : spelled_production) : list lexeme :=
  (NONTERMINAL, V_Pair (fst (fst b)) (snd (fst b)))
  :: (PRODUCTION, V_None)
  :: lexemes (snd b) ++ [(RULE_END, V_None)].

(** The characters of a production other than whitespace. *)
Definition production_chars (b : spelled_production) : str :=
  visible (token_text (NONTERMINAL, V_Pair (fst (fst b)) (snd (fst b))))
  ++ py "::="
  ++ flat_map (fun x => visible (token_text x)) (lexemes (snd b)).

Lemma declares_lexemes (self self' : BNF_Parser.t) (p : str)
    (n : BNF_Expansion) (ts : list BNF_Token.t) :
  declares self p n self' ->
  pending self' ts ->
  exists head arrow consumed,
    pending self (head :: arrow :: consumed ++ ts)
    /\ BNF_Token.kind head = NONTERMINAL
    /\ value_0 (BNF_Token.value head) = Ok p
    /\ BNF_Token.kind arrow = PRODUCTION
    /\ (Forall well_valued consumed -> map lexeme_of consumed = lexemes n).
Proof.
  intros [s s1 s2 s3 tok q a M1 C V D M2 P] Hp.
  apply (pending_tables _ s3) in Hp; [|reflexivity..].
  destruct (parses_lexemes _ _ _ _ P _ Hp) as (consumed & P2 & G).
  destruct (match_pending _ _ _ _ M2 P2) as (arrow & _ & Ka & _ & P1).
  destruct (match_pending _ _ _ _ M1 P1) as (head & _ & Kh & Ch & P0).
  exists head, arrow, consumed.
  rewrite C in Ch. injection Ch as <-. auto.
Qed.

Lemma loops_lexemes (name : str) (self self' : BNF_Parser.t)
    (decls : list (str * BNF_Expansion)) :
  loops name self decls self' ->
  exists ts,
    pending self ts
    /\ (Forall well_valued ts ->
        exists blocks,
          decls = map declared blocks
          /\ map lexeme_of ts = flat_map block_lexemes blocks).
Proof.
  induction 1 as [self N | self tok p n s1 s2 s3 decls s4 N D B M _ IH].
  - exists []. unfold pending. rewrite N. split; [reflexivity|].
    intros _. exists []. split; reflexivity.
  - destruct IH as (ts3 & P3 & G3).
    destruct (match_pending _ _ _ _ M P3) as (t & _ & Kt & _ & P2).
    apply bundle_append_Ok in B as (b & _ & ->).
    apply (pending_tables _ s1) in P2; [|reflexivity..].
    destruct (declares_lexemes _ _ _ _ _ D P2)
      as (head & arrow & consumed & P0 & Kh & Vh & Ka & G).
    exists (head :: arrow :: consumed ++ t :: ts3). split; [exact P0|].
    intros W. inversion W as [|? ? Wh W1]; subst.
    inversion W1 as [|? ? Wa W2]; subst.
    apply Forall_app in W2 as [Wc W3].
    inversion W3 as [|? ? Wt W4]; subst.
    destruct (G3 W4) as (blocks & -> & E).
    unfold well_valued in Wh, Wa, Wt. rewrite Kh in Wh.
    rewrite Ka in Wa. rewrite Kt in Wt.
    destruct (BNF_Token.value head) as [|base nm|] eqn:Eh; try contradiction.
    destruct (BNF_Token.value arrow) eqn:Ea; try contradiction.
    destruct (BNF_Token.value t) eqn:Et; try contradiction.
    injection Vh as <-.
    exists (((base, nm), n) :: blocks). split; [reflexivity|].
    cbn [flat_map map]. unfold block_lexemes at 1. cbn [fst snd app].
    unfold lexeme_of at 1 2. rewrite Kh, Eh, Ka, Ea. do 2 f_equal.
    rewrite map_app, (G Wc), <- app_assoc. cbn [map app]. f_equal.
    unfold lexeme_of at 1. rewrite Kt, Et, E. reflexivity.
Qed.

Lemma block_text (blocks : list spelled_production) :
  flat_map (fun x => visible (token_text x)) (flat_map block_lexemes blocks)
  = flat_map production_chars blocks.
Proof.
  induction blocks as [|b blocks IH]; [reflexivity|].
  cbn [flat_map]. rewrite flat_map_app, IH. f_equal.
  unfold block_lexemes, production_chars. cbn [flat_map]. f_equal.
  rewrite flat_map_app. cbn [flat_map].
  change (visible (token_text (RULE_END, V_None)) ++ []) with (@nil ascii).
  rewrite app_nil_r. reflexivity.
Qed.

(** The parser keeps what the block holds.  When [parse] accepts a
    block, the productions that it adds to the table are, in their
    order, those that the block spells, each under the base of its
    name; and the characters of the block other than whitespace are, in
    their order, those of each name with its suffix, of [::=] and of
    the lexemes of the tree stored for the name. *)
Theorem content_kept (fuel : nat) (self self' : BNF_Parser.t)
    (obj : Record_Object.t) :
  BNF_Parser.parse fuel self obj = Some (Ok self') ->
  exists blocks : list spelled_production,
    BNF_Parser.productions self'
    = BNF_Parser.productions self ++ map declared blocks
    /\ visible (slice (Record_Object.bnf_text obj) 3 (-3))
       = flat_map production_chars blocks.
Proof.
  intros H.
  apply parse_Ok in H as (tok & lx & s1 & decls & _ & _ & T & L & ->).
  pose proof (loops_tables _ _ _ _ L) as (L1 & _).
  cbn [BNF_Parser.productions BNF_Parser.set_bundles
         BNF_Parser.set_lexer_state] in L1.
  apply loops_lexemes in L as (ts & P & G).
  assert (exists l',
             tokens_from
               (BNF_Lexer.init (slice (Record_Object.bnf_text obj) 3 (-3))
                  (Record_Object.bnf_location obj)) ts l') as (l' & F).
  { unfold pending in P.
    cbn [BNF_Parser.nt BNF_Parser.set_bundles BNF_Parser.set_lexer_state
           BNF_Parser.current_lexer] in P.
    destruct tok as [tok|].
    - destruct P as (l0 & ts' & l' & [= <-] & -> & F).
      exists l'. eapply tokens_next; eauto.
    - subst ts. exists lx. apply tokens_end, T. }
  destruct (G (tokens_well_valued _ _ _ F)) as (blocks & -> & E).
  exists blocks. split; [exact L1|].
  rewrite (tokens_text _ _ _ F [] _ (init_zipper _ _) (init_consistent _ _)
             eq_refl).
  rewrite <- block_text, <- E. clear.
  induction ts as [|t ts IH]; [reflexivity|].
  cbn [map flat_map]. rewrite IH. reflexivity.
Qed.

Lemma content_kept_witness :
  exists blocks : list spelled_production,
    BNF_Parser.productions (parsed 20 grammar_expr)
    = BNF_Parser.productions parser_0 ++ map declared blocks
    /\ visible (slice (Record_Object.bnf_text grammar_expr) 3 (-3))
       = flat_map production_chars blocks.
Proof.
  apply (content_kept 20 parser_0 (parsed 20 grammar_expr) grammar_expr).
  vm_compute. reflexivity.
Defined.

(* ------------------------------------------------------------------ *)
(** ** Where a production ends *)

(** The texts of some lexemes in their order, each after whitespace
    with less than two newlines. *)
Inductive spaced : list lexeme -> str -> Prop :=
| spaced_nil : spaced [] []
| spaced_cons x xs ws s :
    forallb isspace ws = true ->
    count_newlines ws < 2 ->
    spaced xs s ->
    spaced (x :: xs) (ws ++ token_text x ++ s).

(** The text of a stream of tokens: a RULE_END stands for whitespace
    with two newlines or more, or for the whitespace at the end. *)
Inductive layout : list lexeme -> str -> Prop :=
| layout_end ws :
    forallb isspace ws = true ->
    count_newlines ws < 2 ->
    layout [(RULE_END, V_None)] ws
| layout_blank xs ws s :
    forallb isspace ws = true ->
    2 <= count_newlines ws ->
    layout xs s ->
    layout ((RULE_END, V_None) :: xs) (ws ++ s)
| layout_token x xs ws s :
    fst x <> RULE_END ->
    forallb isspace ws = true ->
    count_newlines ws < 2 ->
    layout xs s ->
    layout (x :: xs) (ws ++ token_text x ++ s).

Definition production_lexemes (b : spelled_production) : list lexeme :=
  (NONTERMINAL, V_Pair (fst (fst b)) (snd (fst b)))
  :: (PRODUCTION, V_None)
  :: lexemes (snd b).

(** The text of a block: its productions, with whitespace that holds
    two newlines or more between one and the next, and less than two
    after the last. *)
Inductive sectioned : list spelled_production -> str -> Prop :=
| sectioned_last b s ws :
    spaced (production_lexemes b) s ->
    forallb isspace ws = true ->
    count_newlines ws < 2 ->
    sectioned [b] (s ++ ws)
| sectioned_more b bs s ws s' :
    spaced (production_lexemes b) s ->
    forallb isspace ws = true ->
    2 <= count_newlines ws ->
    sectioned bs s' ->
    sectioned (b :: bs) (s ++ ws ++ s').

Lemma tokens_layout (l l' : BNF_Lexer.t) (ts : list BNF_Token.t) :
  tokens_from l ts l' ->
  forall pre rest : str,
    zipper l pre rest ->
    consistent l ->
    BNF_Lexer.eof_token_generated l = false ->
    layout (map lexeme_of ts) rest.
Proof.
  induction 1 as [l l' E | l tok l1 ts l' E T IH]; intros pre rest Z C He.
  - destruct (token_passed _ _ _ _ _ E Z C He) as (? & ? & [=] & _).
  - destruct (token_passed _ _ _ _ _ E Z C He)
      as (tok' & ws & [= <-] & F & [(K & V & Hcase) | Hcase]);
      cbn [map]; unfold lexeme_of at 1.
    + rewrite K, V.
      destruct Hcase as [[-> Fin] | (rest' & -> & Hn & Z1 & C1 & E1)].
      * rewrite (finished_tokens _ _ _ T Fin). cbn [map].
        apply layout_end; [exact F|].
        exact (proj2 (token_end_gap _ _ _ _ _ E Z He (proj1 Fin))).
      * apply layout_blank; [exact F | exact Hn | exact (IH _ _ Z1 C1 E1)].
    + destruct Hcase
        as (raw & rest' & -> & Hn & Sh & Tx & _ & _ & Z1 & C1 & E1).
      unfold lexeme_of in Tx. rewrite <- Tx.
      apply layout_token; [|exact F | exact Hn | exact (IH _ _ Z1 C1 E1)].
      cbn [fst]. intros K. rewrite K in Sh. exact Sh.
Qed.

Lemma lexemes_inner (n : BNF_Expansion) :
  Forall (fun x => fst x <> RULE_END) (lexemes n).
Proof.
  induction n as [l k v nm | l e IH | l e IH | l ms IH | l ms IH]
    using BNF_Expansion_rect'; cbn [lexemes].
  - destruct k; repeat constructor; discriminate.
  - constructor; [discriminate|]. apply Forall_app. split; [exact IH|].
    repeat constructor; discriminate.
  - constructor; [discriminate|]. apply Forall_app. split; [exact IH|].
    repeat constructor; discriminate.
  - induction IH as [|m ms Hm _ IHms]; cbn [flat_map]; [constructor|].
    apply Forall_app. auto.
  - destruct IH as [|m ms Hm Hms]; [constructor|].
    apply Forall_app. split; [exact Hm|].
    induction Hms as [|m' ms' Hm' _ IHms]; cbn [flat_map]; [constructor|].
    constructor; [discriminate|]. apply Forall_app. auto.
Qed.

(** The text of the tokens before the next RULE_END. *)
Lemma layout_production (xs : list lexeme) :
  forall (ys : list lexeme) (s : str),
    Forall (fun x => fst x <> RULE_END) xs ->
    layout (xs ++ (RULE_END, V_None) :: ys) s ->
    exists s1 ws s2,
      s = s1 ++ ws ++ s2
      /\ spaced xs s1
      /\ forallb isspace ws = true
      /\ ((ys = [] /\ s2 = [] /\ count_newlines ws < 2)
          \/ (2 <= count_newlines ws /\ layout ys s2)).
Proof.
  induction xs as [|x xs IH]; intros ys s F L; cbn [app] in L.
  - inversion L as [ws Fw Hn | zs ws s' Fw Hn L' | z zs ws s' Hz Fw Hn L'];
      subst.
    + exists [], s, []. rewrite app_nil_r. cbn [app].
      split; [reflexivity|]. split; [constructor|]. split; [exact Fw|].
      left. auto.
    + exists [], ws, s'. cbn [app].
      split; [reflexivity|]. split; [constructor|]. split; [exact Fw|].
      right. auto.
    + contradiction Hz. reflexivity.
  - inversion F as [|? ? Hx F']; subst.
    inversion L as [ws Fw Hn | zs ws s' Fw Hn L' | z zs ws s' Hz Fw Hn L'];
      subst; try (contradiction Hx; reflexivity).
    destruct (IH _ _ F' L') as (s1 & ws' & s2 & -> & Sp & Fw' & Hcase).
    exists (ws ++ token_text x ++ s1), ws', s2.
    split; [rewrite <- !app_assoc; reflexivity|].
    split; [constructor; assumption|]. split; [exact Fw'|]. exact Hcase.
Qed.

Lemma layout_sectioned (blocks : list spelled_production) :
  forall s : str,
    layout (flat_map block_lexemes blocks) s ->
    sectioned blocks s.
Proof.
  induction blocks as [|b blocks IH]; intros s L; cbn [flat_map] in L.
  - inversion L.
  - unfold block_lexemes at 1 in L.
    change ((NONTERMINAL, V_Pair (fst (fst b)) (snd (fst b)))
            :: (PRODUCTION, V_None) :: lexemes (snd b) ++ [(RULE_END, V_None)])
      with (production_lexemes b ++ [(RULE_END, V_None)]) in L.
    rewrite <- app_assoc in L. cbn [app] in L.
    apply layout_production in L
        as (s1 & ws & s2 & -> & Sp & Fw & [(E & -> & Hn) | (Hn & L')]).
    + destruct blocks as [|b' blocks]; [|discriminate E].
      rewrite app_nil_r. apply sectioned_last; assumption.
    + apply sectioned_more; auto.
    + unfold production_lexemes. constructor; [discriminate|].
      constructor; [discriminate|]. apply lexemes_inner.
Qed.

(** Productions end at a blank line.  The text of a block that [parse]
    accepts is, for each production that it adds to the table in turn,
    the name with its suffix, [::=] and the lexemes of the tree stored
    for the name, each after whitespace with less than two newlines;
    whitespace with two newlines or more parts a production from the
    next, and whitespace with less than two newlines follows the
    last. *)
Theorem block_layout (fuel : nat) (self self' : BNF_Parser.t)
    (obj : Record_Object.t) :
  BNF_Parser.parse fuel self obj = Some (Ok self') ->
  exists blocks : list spelled_production,
    BNF_Parser.productions self'
    = BNF_Parser.productions self ++ map declared blocks
    /\ sectioned blocks (slice (Record_Object.bnf_text obj) 3 (-3)).
Proof.
  intros H.
  apply parse_Ok in H as (tok & lx & s1 & decls & _ & _ & T & L & ->).
  pose proof (loops_tables _ _ _ _ L) as (L1 & _).
  cbn [BNF_Parser.productions BNF_Parser.set_bundles
         BNF_Parser.set_lexer_state] in L1.
  apply loops_lexemes in L as (ts & P & G).
  assert (exists l',
             tokens_from
               (BNF_Lexer.init (slice (Record_Object.bnf_text obj) 3 (-3))
                  (Record_Object.bnf_location obj)) ts l') as (l' & F).
  { unfold pending in P.
    cbn [BNF_Parser.nt BNF_Parser.set_bundles BNF_Parser.set_lexer_state
           BNF_Parser.current_lexer] in P.
    destruct tok as [tok|].
    - destruct P as (l0 & ts' & l' & [= <-] & -> & F).
      exists l'. eapply tokens_next; eauto.
    - subst ts. exists lx. apply tokens_end, T. }
  destruct (G (tokens_well_valued _ _ _ F)) as (blocks & -> & E).
  exists blocks. split; [exact L1|].
  apply layout_sectioned. rewrite <- E.
  exact (tokens_layout _ _ _ F [] _ (init_zipper _ _) (init_consistent _ _)
           eq_refl).
Qed.

Lemma block_layout_witness :
  exists blocks : list spelled_production,
    BNF_Parser.productions (parsed 20 grammar_expr)
    = BNF_Parser.productions parser_0 ++ map declared blocks
    /\ sectioned blocks (slice (Record_Object.bnf_text grammar_expr) 3 (-3)).
Proof.
  apply (block_layout 20 parser_0 (parsed 20 grammar_expr) grammar_expr).
  vm_compute. reflexivity.
Defined.
